(** * phyTreeViz: a shallow embedding of [phytreeviz/treeviz.py]

    The development follows the private helpers of the [TreeViz] class:
    tree loading ([_set_uniq_innode_name], [_check_node_name_dup],
    [_to_ultrametric_tree]), node queries ([_check_node_name_exist],
    [_search_target_node_name]), the layout ([_calc_name2xy_pos]) and the
    registry of deferred plot functions ([highlight], [annotate], [plotfig],
    the [ax] property).

    Conventions of the embedding.
    - A [Bio.Phylo] clade is a value of [Clade]; a Python reference to a
      clade of the tree is the position of that clade (the child indices
      from the root), and an attribute assignment through such a reference
      is an update of the tree at that position.
    - Python floats are modelled by exact rationals [Q]. A relation that
      the source computes by one and the same expression on both sides is
      stated with [==]; a statement that compares numbers the source
      reaches by different roundings (a remainder that is divided and
      summed again, a mean taken in two orders) is stated up to the
      tolerance [depth_tolerance] of the specification, which the rounding
      of the float arithmetic does not exhaust.
    - A Python exception is the [Raise] branch of [result].
    - Python dictionaries are insertion-ordered association lists. *)

From Stdlib Require Import List String Ascii Bool Arith Lia.
From Stdlib Require Import ZArith QArith Qabs Qround Qfield Lqa.
From Stdlib Require Import Permutation DecimalString DecimalNat.
From Stdlib Require Import Sorting.Sorted.
Import ListNotations.

Set Warnings "-register-all".

Local Open Scope string_scope.
Local Open Scope list_scope.
Local Open Scope nat_scope.

(** ** Exceptions *)

Inductive exn : Type :=
| ValueError
| DuplicateNames (dups : list (string * nat))
| NamesNotFound (missing : list string) (available : list string)
| StopIteration
| KeyError
| ZeroDivisionError
| IndexError
| TypeError
| AttributeError.

Inductive result (A : Type) : Type :=
| Ok (a : A)
| Raise (e : exn).

Arguments Ok {A} a.
Arguments Raise {A} e.

Definition bind {A B : Type} (r : result A) (k : A -> result B) : result B :=
  match r with
  | Ok a => k a
  | Raise e => Raise e
  end.

Notation "x <- r ;; k" := (bind r (fun x => k))
  (at level 61, r at next level, right associativity).

(** [for x in l: body] over a state that may raise. *)
Fixpoint for_each {A S : Type} (body : S -> A -> result S) (l : list A) (s : S)
  : result S :=
  match l with
  | [] => Ok s
  | x :: r => s' <- body s x ;; for_each body r s'
  end.

(** ** Clades ([Bio.Phylo.BaseTree.Clade]) *)

Inductive Clade : Type :=
| Node (name : option string) (branch_length : option Q)
       (confidence : option Q) (clades : list Clade).

Definition name (c : Clade) : option string :=
  match c with Node n _ _ _ => n end.
Definition branch_length (c : Clade) : option Q :=
  match c with Node _ b _ _ => b end.
Definition confidence (c : Clade) : option Q :=
  match c with Node _ _ k _ => k end.
Definition clades (c : Clade) : list Clade :=
  match c with Node _ _ _ cs => cs end.

(** [Clade.is_terminal]: [not self.clades]. *)
Definition is_terminal (c : Clade) : bool :=
  match clades c with [] => true | _ :: _ => false end.

(** [str(node.name)] *)
Definition str_name (c : Clade) : string :=
  match name c with Some s => s | None => "None" end.

(** A reference to a clade of the tree: the child indices leading to it. *)
Definition pos : Type := list nat.

Definition pos_eqb (p q : pos) : bool :=
  if list_eq_dec Nat.eq_dec p q then true else false.

Section CladeInduction.
Variable P : Clade -> Prop.
Hypothesis HNode : forall n b k cs, Forall P cs -> P (Node n b k cs).

Fixpoint Clade_rect' (c : Clade) : P c :=
  match c with
  | Node n b k cs =>
      HNode n b k cs
        ((fix all (l : list Clade) : Forall P l :=
            match l with
            | [] => Forall_nil P
            | x :: r => Forall_cons x (Clade_rect' x) (all r)
            end) cs)
  end.
End CladeInduction.

(** ** Traversals ([find_clades], [get_terminals], [get_nonterminals]) *)

(** The children of a clade are visited left to right; a clade found in the
    [i]-th child gets [i] in front of its position. *)
Definition walk_list (f : Clade -> list (pos * Clade))
  : nat -> list Clade -> list (pos * Clade) :=
  fix go (i : nat) (l : list Clade) : list (pos * Clade) :=
    match l with
    | [] => []
    | c :: r => map (fun pc => (i :: fst pc, snd pc)) (f c) ++ go (S i) r
    end.

(** [_preorder_traverse], the default order of [find_clades]. *)
Fixpoint preorder (t : Clade) : list (pos * Clade) :=
  match t with
  | Node _ _ _ cs => ([], t) :: walk_list preorder 0 cs
  end.

(** [_postorder_traverse] *)
Fixpoint postorder (t : Clade) : list (pos * Clade) :=
  match t with
  | Node _ _ _ cs => walk_list postorder 0 cs ++ [([], t)]
  end.

Definition terminal_at (pc : pos * Clade) : bool := is_terminal (snd pc).

(** [tree.get_terminals()] *)
Definition get_terminals (t : Clade) : list (pos * Clade) :=
  filter terminal_at (preorder t).

(** [tree.get_nonterminals()] *)
Definition get_nonterminals (t : Clade) : list (pos * Clade) :=
  filter (fun pc => negb (terminal_at pc)) (preorder t).

(** [tree.get_nonterminals("postorder")] *)
Definition get_nonterminals_postorder (t : Clade) : list (pos * Clade) :=
  filter (fun pc => negb (terminal_at pc)) (postorder t).

(** [tree.count_terminals()] *)
Definition count_terminals (t : Clade) : nat :=
  List.length (get_terminals t).

(** Dereferencing a position. *)
Fixpoint get_node (t : Clade) (p : pos) : option Clade :=
  match p with
  | [] => Some t
  | i :: p' =>
      match nth_error (clades t) i with
      | Some c => get_node c p'
      | None => None
      end
  end.

Fixpoint list_update {A : Type} (i : nat) (f : A -> A) (l : list A) : list A :=
  match l, i with
  | [], _ => []
  | x :: r, O => f x :: r
  | x :: r, S j => x :: list_update j f r
  end.

(** Assignment to an attribute of the clade at position [p]: [f] rebuilds
    that clade, every other clade is left as it is. *)
Fixpoint update_at (f : Clade -> Clade) (p : pos) (t : Clade) : Clade :=
  match p with
  | [] => f t
  | i :: p' =>
      match t with
      | Node n b k cs => Node n b k (list_update i (update_at f p') cs)
      end
  end.

(** [node.name = v] *)
Definition with_name (v : option string) (c : Clade) : Clade :=
  Node v (branch_length c) (confidence c) (clades c).

(** [node.branch_length = v] *)
Definition with_branch_length (v : option Q) (c : Clade) : Clade :=
  Node (name c) v (confidence c) (clades c).

Definition set_name (t : Clade) (p : pos) (v : option string) : Clade :=
  update_at (with_name v) p t.

Definition set_branch_length (t : Clade) (p : pos) (v : option Q) : Clade :=
  update_at (with_branch_length v) p t.

(** ** [_set_uniq_innode_name] *)

(** [f"N_{idx}"] *)
Definition uniq_innode_name (idx : nat) : string :=
  String.append "N_" (NilEmpty.string_of_uint (Nat.to_uint idx)).

(** [enumerate(l, start)] *)
Fixpoint enumerate {A : Type} (start : nat) (l : list A) : list (nat * A) :=
  match l with
  | [] => []
  | x :: r => (start, x) :: enumerate (S start) r
  end.

(** One iteration of the loop: the state is the tree under construction
    and the list [uniq_innode_names]. The clade was listed before the loop
    began; its name is read from the current tree. *)
Definition set_uniq_step (st : Clade * list string) (it : nat * (pos * Clade))
  : Clade * list string :=
  let '(tree, uniq_innode_names) := st in
  let '(idx, (p, _)) := it in
  match get_node tree p with
  | Some node =>
      match name node with
      | None => (set_name tree p (Some (uniq_innode_name idx)),
                 uniq_innode_names ++ [uniq_innode_name idx])
      | Some _ => st
      end
  | None => st
  end.

Definition _set_uniq_innode_name (tree : Clade) : Clade * list string :=
  fold_left set_uniq_step (enumerate 1 (get_nonterminals tree)) (tree, []).

(** ** Example trees *)

Definition leaf (s : string) : Clade := Node (Some s) None None [].
Definition inner (cs : list Clade) : Clade := Node None None None cs.

(** [((A,B),((C,D),(E,(F,G))));] *)
Definition tree_abcdefg : Clade :=
  inner [inner [leaf "A"; leaf "B"];
         inner [inner [leaf "C"; leaf "D"];
                inner [leaf "E"; inner [leaf "F"; leaf "G"]]]].

(** [(((A,B),C),(D,E));] *)
Definition tree_abcde : Clade :=
  inner [inner [inner [leaf "A"; leaf "B"]; leaf "C"];
         inner [leaf "D"; leaf "E"]].

(** The positions of all clades, in preorder. *)
Definition positions (t : Clade) : list pos := map fst (preorder t).

(** The name an internal clade carries after [_set_uniq_innode_name],
    when it is the [idx]-th internal clade of the enumeration. *)
Definition innode_name_after (idx : nat) (c : Clade) : string :=
  match name c with Some s => s | None => uniq_innode_name idx end.

(** The names appended to [uniq_innode_names] for one enumerated clade. *)
Definition auto_name_of (it : nat * (pos * Clade)) : list string :=
  match name (snd (snd it)) with
  | None => [uniq_innode_name (fst it)]
  | Some _ => []
  end.

(** [_level_traverse] of [Bio.Phylo]: a queue starting with the root; the
    clade taken from the front is emitted and its children are appended.
    [fuel] bounds the number of clades taken from the queue. *)
Fixpoint children_from (p : pos) (i : nat) (l : list Clade) : list (pos * Clade) :=
  match l with
  | [] => []
  | c :: r => (p ++ [i], c) :: children_from p (S i) r
  end.

Fixpoint level_traverse (fuel : nat) (queue : list (pos * Clade))
  : list (pos * Clade) :=
  match fuel, queue with
  | S fuel', (p, c) :: rest =>
      (p, c) :: level_traverse fuel' (rest ++ children_from p 0 (clades c))
  | _, _ => []
  end.

Definition level_order (t : Clade) : list (pos * Clade) :=
  level_traverse (List.length (preorder t)) [([], t)].

(** The numbering the level-order reading would give: the [idx]-th internal
    clade in level order, when unnamed, is named [N_idx]. *)
Definition named_in_level_order (t : Clade) : Prop :=
  forall idx p c,
    In (idx, (p, c))
       (enumerate 1 (filter (fun pc => negb (terminal_at pc)) (level_order t))) ->
    name c = None ->
    exists c', get_node (fst (_set_uniq_innode_name t)) p = Some c' /\
               name c' = Some (uniq_innode_name idx).

Definition item_pos (it : nat * (pos * Clade)) : pos := fst (snd it).

(** What one enumerated clade contributes, read from the tree [t0] the loop
    starts from. *)
Definition auto_name_in (t0 : Clade) (it : nat * (pos * Clade)) : list string :=
  match get_node t0 (item_pos it) with
  | Some node =>
      match name node with None => [uniq_innode_name (fst it)] | Some _ => [] end
  | None => []
  end.

Definition renamed (idx : nat) (c c' : Clade) : Prop :=
  name c' = Some (innode_name_after idx c) /\
  branch_length c' = branch_length c /\
  confidence c' = confidence c /\
  List.length (clades c') = List.length (clades c).

(** ** Dictionaries

    A Python [dict] keeps its keys in insertion order; assigning to a key
    that is present replaces the value in place. *)

Definition dict (V : Type) : Type := list (string * V).

Fixpoint dict_get {V : Type} (d : dict V) (k : string) : option V :=
  match d with
  | [] => None
  | (k', v) :: r => if String.eqb k' k then Some v else dict_get r k
  end.

Fixpoint dict_set {V : Type} (d : dict V) (k : string) (v : V) : dict V :=
  match d with
  | [] => [(k, v)]
  | (k', v') :: r =>
      if String.eqb k' k then (k', v) :: r else (k', v') :: dict_set r k v
  end.

(** [dict(items)] and dict comprehensions. *)
Definition dict_of_items {V : Type} (items : list (string * V)) : dict V :=
  fold_left (fun d kv => dict_set d (fst kv) (snd kv)) items [].

(** [d[k]], raising [KeyError] when the key is missing. *)
Definition dict_item {V : Type} (d : dict V) (k : string) : result V :=
  match dict_get d k with
  | Some v => Ok v
  | None => Raise KeyError
  end.

(** [collections.Counter(l)] *)
Definition Counter (l : list string) : dict nat :=
  fold_left
    (fun d k => dict_set d k (S (match dict_get d k with Some n => n | None => 0 end)))
    l [].

Definition keys {V : Type} (d : dict V) : list string := map fst d.

Definition count_step (d : dict nat) (k : string) : dict nat :=
  dict_set d k (S (match dict_get d k with Some n => n | None => 0 end)).

(** ** [_check_node_name_dup] *)

(** [[str(n.name) for n in tree.find_clades()]] *)
Definition all_node_names (tree : Clade) : list string :=
  map (fun pc => str_name (snd pc)) (preorder tree).

(** The error message has one line per duplicated name, carrying the name
    and its count; [DuplicateNames] keeps these pairs in the order of the
    lines. The message is empty exactly when there is no such line. *)
Definition _check_node_name_dup (tree : Clade) : result unit :=
  let dups := filter (fun kc => 1 <? snd kc) (Counter (all_node_names tree)) in
  match dups with
  | [] => Ok tt
  | _ :: _ => Raise (DuplicateNames dups)
  end.

(** ** Depths ([tree.depths]) *)

(** [x or 0] on an optional number. *)
Definition or0 (b : option Q) : Q :=
  match b with Some x => x | None => 0%Q end.

Definition depth_of (unit_branch_lengths : bool) (c : Clade) : Q :=
  if unit_branch_lengths then 1%Q else or0 (branch_length c).

Definition walk_depths (unit_branch_lengths : bool)
  (f : Clade -> Q -> list (pos * Clade * Q)) (curr_depth : Q)
  : nat -> list Clade -> list (pos * Clade * Q) :=
  fix go (i : nat) (l : list Clade) : list (pos * Clade * Q) :=
    match l with
    | [] => []
    | c :: r =>
        map (fun x => (i :: fst (fst x), snd (fst x), snd x))
            (f c (curr_depth + depth_of unit_branch_lengths c)%Q)
        ++ go (S i) r
    end.

(** [update_depths(node, curr_depth)]: the clade is entered in the
    dictionary, then its children from left to right. *)
Fixpoint update_depths (unit_branch_lengths : bool) (node : Clade) (curr_depth : Q)
  : list (pos * Clade * Q) :=
  match node with
  | Node _ _ _ cs =>
      ([], node, curr_depth)
        :: walk_depths unit_branch_lengths (update_depths unit_branch_lengths)
             curr_depth 0 cs
  end.

(** [tree.depths(unit_branch_lengths)]; the dictionary is keyed by clade
    objects, so there is one entry per clade, in preorder. *)
Definition depths (unit_branch_lengths : bool) (tree : Clade)
  : list (pos * Clade * Q) :=
  update_depths unit_branch_lengths tree (or0 (branch_length tree)).

(** [max(values)] of a non-empty sequence. *)
Definition max_of (l : list Q) : Q :=
  match l with
  | [] => 0%Q
  | x :: r => fold_left (fun m y => if Qle_bool y m then m else y) r x
  end.

(** [max(tree.depths().values())] *)
Definition max_depth_of (unit_branch_lengths : bool) (tree : Clade) : Q :=
  max_of (map snd (depths unit_branch_lengths tree)).

(** ** Looking clades up ([find_clades(target)], [get_path]) *)

(** The matcher [Bio.Phylo] builds from a string target: an empty string is
    no target at all and matches every clade; otherwise the clade's name has
    to be that string. *)
Definition matches (target : string) (c : Clade) : bool :=
  if String.eqb target "" then true
  else match name c with
       | Some s => String.eqb s target
       | None => false
       end.

(** [tree.find_clades(name)] *)
Definition find_clades (tree : Clade) (target : string) : list (pos * Clade) :=
  filter (fun pc => matches target (snd pc)) (preorder tree).

(** [next(iterator)] *)
Definition next {A : Type} (l : list A) : result A :=
  match l with
  | x :: _ => Ok x
  | [] => Raise StopIteration
  end.

(** The clades between the root and the clade at [p], the root excluded and
    that clade included: the non-empty prefixes of [p]. *)
Fixpoint path_to (p : pos) : list pos :=
  match p with
  | [] => []
  | i :: p' => [i] :: map (cons i) (path_to p')
  end.

(** [tree.get_path(node)] for a clade object: [None] when the clade is not
    in the tree. *)
Definition get_path (tree : Clade) (p : pos) : option (list pos) :=
  match get_node tree p with
  | Some _ => Some (path_to p)
  | None => None
  end.

(** [tree.get_path(name)] for a name: the depth-first search stops at the
    first clade that matches. Without a target ([None] or the empty string)
    [Bio.Phylo] raises [ValueError]. *)
Definition get_path_by_name (tree : Clade) (target : option string)
  : result (option (list pos)) :=
  match target with
  | None => Raise ValueError
  | Some s =>
      if String.eqb s "" then Raise ValueError
      else match find_clades tree s with
           | (p, _) :: _ => Ok (Some (path_to p))
           | [] => Ok None
           end
  end.

(** [path_node.branch_length], read through a reference. *)
Definition branch_length_at (tree : Clade) (p : pos) : option Q :=
  match get_node tree p with
  | Some c => branch_length c
  | None => None
  end.

(** ** [_to_ultrametric_tree] *)

(** [sorted(items, key=lambda t: t[1], reverse=True)]: a stable sort, items
    of equal depth keep their order. *)
Fixpoint insert_desc (x : string * Q) (l : list (string * Q)) : list (string * Q) :=
  match l with
  | [] => [x]
  | y :: r => if Qle_bool (snd y) (snd x) then x :: y :: r
              else y :: insert_desc x r
  end.

Definition sorted_desc (l : list (string * Q)) : list (string * Q) :=
  fold_right insert_desc [] l.

(** [name2depth], after sorting. *)
Definition name2depth (tree : Clade) : dict Q :=
  dict_of_items
    (sorted_desc
       (dict_of_items
          (map (fun x => (str_name (snd (fst x)), snd x)) (depths true tree)))).

(** "Reset node branch length" *)
Definition reset_branch_lengths (tree : Clade) : Clade :=
  let cleared :=
    fold_left (fun t p => set_branch_length t p None) (positions tree) tree in
  set_branch_length cleared [] (Some 0%Q).

(** [for path_node in path: path_node.branch_length = 1] *)
Definition set_path_unit (tree : Clade) (path : list pos) : Clade :=
  fold_left (fun t q => set_branch_length t q (Some 1%Q)) path tree.

(** "Collect nodes info which has branch length" *)
Definition collect_branch_lengths (tree : Clade) (path : list pos) : Q * nat :=
  fold_left
    (fun acc q =>
       match branch_length_at tree q with
       | Some b => (fst acc + b, S (snd acc))%Q
       | None => acc
       end)
    path (0%Q, 0).

(** "Set branch length to no branch length nodes" *)
Definition fill_path (tree : Clade) (path : list pos) (other_bl : Q) : Clade :=
  fold_left
    (fun t q =>
       match branch_length_at t q with
       | None => set_branch_length t q (Some other_bl)
       | Some _ => t
       end)
    path tree.

(** The body of the loop over [name2depth.items()]. *)
Definition ultrametric_step (max_tree_depth : Q) (tree : Clade) (item : string * Q)
  : result Clade :=
  let '(name, depth) := item in
  node <- next (find_clades tree name) ;;
  if negb (is_terminal (snd node)) then Ok tree
  else
    match get_path tree (fst node) with
    | None => Raise ValueError
    | Some path =>
        if Qeq_bool depth max_tree_depth then Ok (set_path_unit tree path)
        else
          let '(bl_sum, bl_exist_node_count) := collect_branch_lengths tree path in
          let slots := List.length path - bl_exist_node_count in
          if slots =? 0 then Raise ZeroDivisionError
          else
            let other_bl :=
              ((max_tree_depth - bl_sum) / inject_Z (Z.of_nat slots))%Q in
            Ok (fill_path tree path other_bl)
    end.

Definition _to_ultrametric_tree (tree : Clade) : result Clade :=
  let n2d := name2depth tree in
  let max_tree_depth := max_of (map snd n2d) in
  for_each (ultrametric_step max_tree_depth) n2d (reset_branch_lengths tree).

(** [tree.distance(name)]: the sum of the branch lengths that are set on
    the path from the root to the first clade of that name. Iterating over
    the [None] that [get_path] returns for an unknown name is a
    [TypeError]. *)
Definition sum_branch_lengths (tree : Clade) (path : list pos) : Q :=
  fold_left (fun acc q => (acc + or0 (branch_length_at tree q))%Q) path 0%Q.

Definition distance (tree : Clade) (target : option string) : result Q :=
  path <- get_path_by_name tree target ;;
  match path with
  | Some path => Ok (sum_branch_lengths tree path)
  | None => Raise TypeError
  end.

(** The depth of the clade at [p]: the cumulative branch length from the
    root. *)
Definition depth_at (tree : Clade) (p : pos) : Q :=
  sum_branch_lengths tree (path_to p).

(** [((A,B),((C,D),(E,(F,G))));] with all internal names set. *)
Definition tree_abcdefg_named : Clade := fst (_set_uniq_innode_name tree_abcdefg).

Definition bleaf (s : string) (b : Q) : Clade := Node (Some s) (Some b) None [].

(** [(A:5,(B:1,C:1)N:1)R;] *)
Definition tree_a5 : Clade :=
  Node (Some "R") None None
    [bleaf "A" 5; Node (Some "N") (Some 1%Q) None [bleaf "B" 1; bleaf "C" 1]].

(** Two clades that agree on everything but the contents of their
    children. *)
Definition same_fields (c c' : Clade) : Prop :=
  name c = name c' /\ branch_length c = branch_length c' /\
  confidence c = confidence c' /\
  List.length (clades c) = List.length (clades c').

Definition opt_rel {A : Type} (R : A -> A -> Prop) (x y : option A) : Prop :=
  match x, y with
  | Some a, Some b => R a b
  | None, None => True
  | _, _ => False
  end.

(** ** Relations used to state what an update preserves *)

(** Two clades that agree on everything but their branch length and the
    contents of their children. *)
Definition same_but_bl (c c' : Clade) : Prop :=
  name c = name c' /\ confidence c = confidence c' /\
  List.length (clades c) = List.length (clades c').

(** Two trees with the same topology, names and confidences. *)
Definition tree_agree (t t' : Clade) : Prop :=
  positions t = positions t' /\
  forall p, opt_rel same_but_bl (get_node t p) (get_node t' p).

Definition duplicated (l : list string) : dict nat :=
  filter (fun kc => 1 <? snd kc) (Counter l).

(** ** Sums along a path *)

Definition fill_value (other_bl : Q) (b : option Q) : option Q :=
  match b with None => Some other_bl | Some x => Some x end.

Definition Qsum (l : list Q) : Q := fold_right Qplus 0%Q l.

Definition bl_or0 (t : Clade) (q : pos) : Q := or0 (branch_length_at t q).

Definition is_fixed (t : Clade) (q : pos) : bool :=
  match branch_length_at t q with Some _ => true | None => false end.

Definition fixed_count (t : Clade) (path : list pos) : nat :=
  List.length (filter (is_fixed t) path).

Definition unfixed_count (t : Clade) (path : list pos) : nat :=
  List.length (filter (fun q => negb (is_fixed t q)) path).

(** ** Invariant of the loop of [_to_ultrametric_tree] *)

(** Every branch length that is set below the root was set while the leaf
    of an already processed item was handled, and lies on the path to that
    leaf. [tree] is the tree the function was called with, [current] the
    tree during the loop. *)
Definition fixed_by_done (tree : Clade) (done : list (string * Q)) (current : Clade)
  : Prop :=
  forall q, q <> [] -> branch_length_at current q <> None ->
    exists s d p c rest,
      In (s, d) done /\ find_clades tree s = (p, c) :: rest /\
      is_terminal c = true /\ In q (path_to p).

(** The four ways one iteration of the loop can go. *)
Definition step_outcome (tree : Clade) (max_tree_depth : Q) (current : Clade)
  (item : string * Q) : Prop :=
  (find_clades tree (fst item) = [] /\
   ultrametric_step max_tree_depth current item = Raise StopIteration) \/
  (exists p c rest,
      find_clades tree (fst item) = (p, c) :: rest /\
      ((is_terminal c = false /\
        ultrametric_step max_tree_depth current item = Ok current) \/
       (is_terminal c = true /\ Qeq_bool (snd item) max_tree_depth = true /\
        ultrametric_step max_tree_depth current item =
        Ok (set_path_unit current (path_to p))) \/
       (is_terminal c = true /\ Qeq_bool (snd item) max_tree_depth = false /\
        unfixed_count current (path_to p) <> 0 /\
        exists other_bl,
          (other_bl ==
           (max_tree_depth - Qsum (map (bl_or0 current) (path_to p)))
           / inject_Z (Z.of_nat (unfixed_count current (path_to p))))%Q /\
          ultrametric_step max_tree_depth current item =
          Ok (fill_path current (path_to p) other_bl)))).

Definition loop_invariant (tree : Clade) (done : list (string * Q)) (current : Clade)
  : Prop :=
  tree_agree tree current /\ fixed_by_done tree done current.

(** ** Trees whose clades all carry a name *)

Definition has_name (pc : pos * Clade) : bool :=
  match name (snd pc) with
  | Some s => negb (String.eqb s "")
  | None => false
  end.

(** Every clade, terminal or internal, has a non-empty name. *)
Definition all_named (tree : Clade) : bool := forallb has_name (preorder tree).

(** What the rest of the class relies on after loading: the duplicate check
    passed, and no clade is left without a name. *)
Definition well_named (tree : Clade) : Prop :=
  _check_node_name_dup tree = Ok tt /\ all_named tree = true.

(** The leaves of the processed items have their whole path fixed, and (for
    a root without branch length) lie at depth [max_tree_depth]. *)
Definition leaves_fixed (tree : Clade) (max_tree_depth : Q)
  (done : list (string * Q)) (current : Clade) : Prop :=
  forall p c,
    get_node tree p = Some c -> is_terminal c = true ->
    In (str_name c) (keys done) ->
    (forall q, In q (path_to p) -> is_fixed current q = true) /\
    ((or0 (branch_length tree) == 0)%Q ->
     (depth_at current p == max_tree_depth)%Q).

(** As long as only deepest items were processed, every fixed edge has
    length 1. *)
Definition unit_phase (max_tree_depth : Q) (done : list (string * Q))
  (current : Clade) : Prop :=
  (forall it, In it done -> (snd it == max_tree_depth)%Q) ->
  forall q b, q <> [] -> branch_length_at current q = Some b -> (b == 1)%Q.

(** Descending order of the depths. *)
Definition depth_ge (a b : string * Q) : Prop := (snd b <= snd a)%Q.

(** The items of [name2depth] before sorting. *)
Definition depth_items (tree : Clade) : list (string * Q) :=
  map (fun x => (str_name (snd (fst x)), snd x)) (depths true tree).

Definition row_agree (pc pc' : pos * Clade) : Prop :=
  fst pc = fst pc' /\ same_but_bl (snd pc) (snd pc').

Definition row_name (pc : pos * Clade) : string := str_name (snd pc).

(** ** Statements about [_to_ultrametric_tree] *)

(** The tolerance of the specification for comparing depths: [1e-9]. *)
Definition depth_tolerance : Q := 1 # 1000000000.

(** [a] and [b] are equal within the tolerance. *)
Definition near (a b : Q) : Prop := (Qabs (a - b) <= depth_tolerance)%Q.

(** All leaves of [tree] lie at depth [x], within the tolerance. *)
Definition leaves_near_depth (tree : Clade) (x : Q) : Prop :=
  forall p c, In (p, c) (get_terminals tree) -> near (depth_at tree p) x.

(** The reading "every leaf ends at the original [max_tree_depth]", within
    the tolerance. *)
Definition ultrametric_at_original_max (tree : Clade) : Prop :=
  exists tree',
    _to_ultrametric_tree tree = Ok tree' /\ tree_agree tree tree' /\
    leaves_near_depth tree' (max_depth_of false tree).

(** The reading "the leaf that is deepest by the original branch lengths
    gets every edge of its path set to 1". *)
Definition deepest_by_length_gets_unit_edges (tree : Clade) : Prop :=
  forall tree' p c,
    _to_ultrametric_tree tree = Ok tree' ->
    In (p, c) (get_terminals tree) ->
    (depth_at tree p == max_depth_of false tree)%Q ->
    forall q, In q (path_to p) ->
      exists b, branch_length_at tree' q = Some b /\ (b == 1)%Q.

(** The state of the loop over [name2depth] after the items of [done]. *)
Definition loop_state (tree : Clade) (done : list (string * Q)) : result Clade :=
  for_each (ultrametric_step (max_of (map snd (name2depth tree)))) done
    (reset_branch_lengths tree).

(** [(A,)B;]: a leaf without a name. *)
Definition tree_unnamed_leaf : Clade :=
  Node (Some "B") None None [leaf "A"; Node None None None []].

(** The state of the loop on [tree_a5] after the two deepest leaves. *)
Definition tree_a5_after_BC : Clade :=
  match loop_state tree_a5 [("B", 2%Q); ("C", 2%Q)] with
  | Ok t => t
  | Raise _ => tree_a5
  end.

Definition full_invariant (tree : Clade) (done : list (string * Q)) (current : Clade)
  : Prop :=
  loop_invariant tree done current /\
  leaves_fixed tree (max_of (map snd (name2depth tree))) done current /\
  unit_phase (max_of (map snd (name2depth tree))) done current.

(** ** [_calc_name2xy_pos] *)

Definition xy : Type := (Q * Q)%type.

(** [pos not in ("left", "center", "right")] *)
Definition valid_pos (pos : string) : bool :=
  String.eqb pos "left" || String.eqb pos "center" || String.eqb pos "right".

(** [leaf_nodes]: the terminals reversed, and reversed again when the
    [reverse] flag is set. *)
Definition leaf_nodes (tree : Clade) (reverse : bool) : list (pos * Clade) :=
  let leaf_nodes := rev (get_terminals tree) in
  if reverse then rev leaf_nodes else leaf_nodes.

(** "Leaf node xy coordinates" *)
Definition place_leaf (tree : Clade) (d : dict xy) (it : nat * (pos * Clade))
  : result (dict xy) :=
  let node := snd (snd it) in
  x <- distance tree (name node) ;;
  Ok (dict_set d (str_name node) (x, inject_Z (Z.of_nat (fst it)))).

(** [name2xy_right[n.name][1]]: the key is the name itself, not its
    [str]. *)
Definition child_y (d : dict xy) (n : Clade) : result Q :=
  match name n with
  | None => Raise KeyError
  | Some s => v <- dict_item d s ;; Ok (snd v)
  end.

(** A list comprehension whose elements may raise. *)
Fixpoint map_result {A B : Type} (f : A -> result B) (l : list A) : result (list B) :=
  match l with
  | [] => Ok []
  | x :: r => y <- f x ;; ys <- map_result f r ;; Ok (y :: ys)
  end.

(** [sum(l)] *)
Definition py_sum (l : list Q) : Q := fold_left Qplus l 0%Q.

(** "Internal node xy coordinates"; the clades of the loop are internal,
    so [len(node.clades)] is not zero. *)
Definition place_internal (tree : Clade) (d : dict xy) (node : Clade)
  : result (dict xy) :=
  x <- distance tree (name node) ;;
  ys <- map_result (child_y d) (clades node) ;;
  let y := (py_sum ys / inject_Z (Z.of_nat (List.length (clades node))))%Q in
  Ok (dict_set d (str_name node) (x, y)).

(** [name2xy_right], as computed in the first half of the method (and
    cached by the property of the same name). *)
Definition calc_name2xy_right (tree : Clade) (reverse : bool) : result (dict xy) :=
  d <- for_each (place_leaf tree) (enumerate 1 (leaf_nodes tree reverse)) [] ;;
  for_each (place_internal tree) (map snd (get_nonterminals_postorder tree)) d.

(** [l[-2]] *)
Definition second_to_last {A : Type} (l : list A) : result A :=
  match nth_error (rev l) 1 with
  | Some x => Ok x
  | None => Raise IndexError
  end.

(** "Calculate left or center position xy coordinate": one clade. *)
Definition place_pos (tree : Clade) (name2xy_right : dict xy) (pos : string)
  (d : dict xy) (pc : list nat * Clade) : result (dict xy) :=
  let node := snd pc in
  let node_name := str_name node in
  match fst pc with
  | [] =>
      v <- dict_item name2xy_right node_name ;;
      Ok (dict_set d node_name v)
  | _ :: _ =>
      tree_path <- get_path_by_name tree (name node) ;;
      match tree_path with
      | None => Raise TypeError
      | Some tree_path =>
          parent <- second_to_last ([] :: tree_path) ;;
          match get_node tree parent with
          | None => Raise ValueError
          | Some parent_node =>
              parent_xy <- dict_item name2xy_right (str_name parent_node) ;;
              x <- (if String.eqb pos "center" then
                      v <- dict_item name2xy_right node_name ;;
                      Ok ((fst v + fst parent_xy) / 2)%Q
                    else if String.eqb pos "left" then Ok (fst parent_xy)
                    else Raise ValueError) ;;
              v <- dict_item name2xy_right node_name ;;
              Ok (dict_set d node_name (x, snd v))
          end
      end
  end.

Definition _calc_name2xy_pos (tree : Clade) (reverse : bool) (pos : string)
  : result (dict xy) :=
  if negb (valid_pos pos) then Raise ValueError
  else
    name2xy_right <- calc_name2xy_right tree reverse ;;
    if String.eqb pos "right" then Ok name2xy_right
    else for_each (place_pos tree name2xy_right pos) (preorder tree) [].

(** [(A:1,(B:2,C:3)N:1)R;] *)
Definition tree_abc : Clade :=
  Node (Some "R") None None
    [bleaf "A" 1; Node (Some "N") (Some 1%Q) None [bleaf "B" 2; bleaf "C" 3]].

(** Every entry of a coordinate dictionary has the distance of its key as
    x-coordinate. *)
Definition xs_ok (tree : Clade) (d : dict xy) : Prop :=
  forall s v, In (s, v) d -> distance tree (Some s) = Ok (fst v).

(** The clades of [c] are clades of [tree]. *)
Definition subtree_of (tree c : Clade) : Prop :=
  forall p node, get_node c p = Some node -> exists q, get_node tree q = Some node.

(** The clades that [get_nonterminals("postorder")] lists for the
    children [cs] of a clade. *)
Definition internal_blocks (cs : list Clade) : list Clade :=
  flat_map (fun ch => map snd (get_nonterminals_postorder ch)) cs.

(** What the loop over the internal clades of [c] achieves, starting from
    a dictionary [d] that has the leaves of [c]. *)
Definition internal_loop_spec (tree c : Clade) : Prop :=
  subtree_of tree c ->
  forall d, xs_ok tree d ->
    (forall p node, get_node c p = Some node -> is_terminal node = true ->
                    In (str_name node) (keys d)) ->
    exists d',
      for_each (place_internal tree) (map snd (get_nonterminals_postorder c)) d
        = Ok d' /\
      xs_ok tree d' /\
      (forall k, In k (keys d) -> In k (keys d')) /\
      (forall p node, get_node c p = Some node -> In (str_name node) (keys d')) /\
      (forall k, (forall p node, get_node c p = Some node ->
                    is_terminal node = false -> str_name node <> k) ->
                 dict_get d' k = dict_get d k).

(** The entry the first loop of [_calc_name2xy_pos] stores for a leaf. *)
Definition leaf_key (it : nat * (pos * Clade)) : string := str_name (snd (snd it)).

Definition leaf_xy (tree : Clade) (it : nat * (pos * Clade)) : xy :=
  (depth_at tree (fst (snd it)), inject_Z (Z.of_nat (fst it))).

(** [d[k]] with a default, for stating what the loops store. *)
Definition get_or (d : dict xy) (k : string) : xy :=
  match dict_get d k with Some v => v | None => (0%Q, 0%Q) end.

(** The entry the second half of [_calc_name2xy_pos] stores for a clade. *)
Definition pos_xy (tree : Clade) (name2xy_right : dict xy) (pos : string)
  (pc : list nat * Clade) : xy :=
  let v := get_or name2xy_right (row_name pc) in
  match fst pc with
  | [] => v
  | _ :: _ =>
      let parent_xy :=
        match get_node tree (removelast (fst pc)) with
        | Some parent_node => get_or name2xy_right (str_name parent_node)
        | None => (0%Q, 0%Q)
        end in
      ((if String.eqb pos "center" then (fst v + fst parent_xy) / 2
        else fst parent_xy)%Q, snd v)
  end.

(** The ranks [1, ..., n] as y-coordinates. *)
Definition ranks (n : nat) : list Q :=
  map (fun k => inject_Z (Z.of_nat k)) (seq 1 n).

(** The y-coordinate stored under the name of a listed clade. *)
Definition has_y (d : dict xy) (pc : pos * Clade) (y : Q) : Prop :=
  exists x, dict_get d (row_name pc) = Some (x, y).

(** ** Node queries ([_check_node_name_exist], [_search_target_node_name]) *)

(** [query: str | list[str] | tuple[str]] *)
Inductive query : Type :=
| QName (s : string)
| QNames (l : list string).

(** The [leaf_labels], [innode_labels] and [all_node_labels] properties. *)
Definition leaf_labels (tree : Clade) : list string :=
  map row_name (get_terminals tree).
Definition innode_labels (tree : Clade) : list string :=
  map row_name (get_nonterminals tree).
Definition all_node_labels (tree : Clade) : list string :=
  leaf_labels tree ++ innode_labels tree.

Definition mem_string (s : string) (l : list string) : bool :=
  existsb (String.eqb s) l.

Definition query_names (q : query) : list string :=
  match q with
  | QName s => [s]
  | QNames l => l
  end.

(** The message lists every name that is not found, then the available
    names; [NamesNotFound] keeps both lists. *)
Definition _check_node_name_exist (tree : Clade) (q : query) : result unit :=
  let missing :=
    filter (fun node_name => negb (mem_string node_name (all_node_labels tree)))
           (query_names q) in
  match missing with
  | [] => Ok tt
  | _ :: _ => Raise (NamesNotFound missing (all_node_labels tree))
  end.

(** [zip] over the unpacked [paths]: one tuple per level, as long as every
    path has one. *)
Fixpoint heads (ls : list (list pos)) : option (list pos) :=
  match ls with
  | [] => Some []
  | [] :: _ => None
  | (x :: _) :: r =>
      match heads r with
      | Some hs => Some (x :: hs)
      | None => None
      end
  end.

Fixpoint zip_star (first : list pos) (others : list (list pos)) : list (list pos) :=
  match first with
  | [] => []
  | x :: first' =>
      match heads others with
      | Some hs => (x :: hs) :: zip_star first' (map (@tl pos) others)
      | None => []
      end
  end.

(** The loop of [common_ancestor] over the levels: [mrca] moves down as
    long as all paths agree. *)
Fixpoint mrca_loop (levels : list (list pos)) (mrca : pos) : pos :=
  match levels with
  | [] => mrca
  | level :: rest =>
      match level with
      | [] => mrca
      | ref :: others =>
          let mrca' := if forallb (pos_eqb ref) others then ref else mrca in
          if pos_eqb ref mrca' then mrca_loop rest mrca' else mrca'
      end
  end.

(** The validation loop pairs the paths with the characters of the first
    target, so a missing path is reported by [ValueError] only within that
    range; beyond it the [zip] over the paths fails with [TypeError]. *)
Fixpoint check_paths (paths : list (option (list pos))) (budget : nat) (i : nat)
  : result (list (list pos)) :=
  match paths with
  | [] => Ok []
  | Some p :: r => ps <- check_paths r budget (S i) ;; Ok (p :: ps)
  | None :: _ => if i <? budget then Raise ValueError else Raise TypeError
  end.

(** [tree.common_ancestor], called with the unpacked [targets]. *)
Definition common_ancestor (tree : Clade) (targets : list string) : result pos :=
  match targets with
  | [] => Raise TypeError
  | first :: _ =>
      paths <- map_result (fun t => get_path_by_name tree (Some t)) targets ;;
      paths <- check_paths paths (String.length first) 0 ;;
      match paths with
      | [] => Raise TypeError
      | p :: ps => Ok (mrca_loop (zip_star p ps) [])
      end
  end.

Definition _search_target_node_name (tree : Clade) (q : query)
  : result (option string) :=
  _ <- _check_node_name_exist tree q ;;
  match q with
  | QNames l =>
      p <- common_ancestor tree l ;;
      match get_node tree p with
      | Some c => Ok (name c)
      | None => Raise ValueError
      end
  | QName s => Ok (Some s)
  end.

(** [q] is [p] or an ancestor of [p]. *)
Definition is_prefix (q p : pos) : Prop := exists r, p = q ++ r.

(** The longest common prefix of [p] and the positions [ps]. *)
Fixpoint all_cons (i : nat) (ps : list pos) : option (list pos) :=
  match ps with
  | [] => Some []
  | [] :: _ => None
  | (j :: q) :: r =>
      if Nat.eqb i j then
        match all_cons i r with
        | Some qs => Some (q :: qs)
        | None => None
        end
      else None
  end.

Fixpoint lcp (p : pos) (ps : list pos) : pos :=
  match p with
  | [] => []
  | i :: p' =>
      match all_cons i ps with
      | Some qs => i :: lcp p' qs
      | None => []
      end
  end.

(** The position found under a name. *)
Definition pos_of_name (tree : Clade) (s : string) : pos :=
  match find_clades tree s with
  | (p, _) :: _ => p
  | [] => []
  end.

(** ** The [TreeViz] object *)

(** A rectangle ([matplotlib.patches.Rectangle]): origin, width, height. *)
Record Rect : Type := mkRect {
  rect_x : Q; rect_y : Q; rect_width : Q; rect_height : Q }.

(** A text drawn on the axes, with what [get_text()] returns for it. *)
Record Text : Type := mkText { text_s : string; text_x : Q; text_y : Q }.

(** The other things drawn on the axes, without their styles. *)
Inductive artist : Type :=
| Line (xs ys : Q * Q)
| Patch (r : Rect)
| Scatter (points : list xy)
| Arrow (xytext xy_to : xy)
| Title (label : string)
| ScaleAxis (ypos : Q)
| ScaleBar (size : option Q).

(** A matplotlib [Axes]: an object ([ax_id] is its identity) that collects
    what is drawn on it. [ax_xticks] holds the tick positions of the x-axis
    once they were set explicitly ([set_xticks]); [None] stands for the
    automatic locator, which places at least two ticks. For the scale bar
    [ScaleBar None] is a bar of the size of the second automatic tick. *)
Record Axes : Type := mkAxes {
  ax_id : nat;
  ax_xlim : Q * Q;
  ax_ylim : Q * Q;
  ax_xticks : option (list Q);
  ax_texts : list Text;
  ax_artists : list artist }.

(** A matplotlib [Figure] refers to its axes. *)
Record Figure : Type := mkFigure { fig_axes : nat; fig_dpi : nat }.

(** The closures appended to [_plot_funcs], with the values they
    captured. *)
Inductive plot_func : Type :=
| plot_scale_axis (ticks_interval : option Q) (ypos : Q)
| plot_scale_bar (scale_size : option Q)
| plot_highlight (area : string) (q : query) (rect : Rect)
| plot_annotate (q : query) (label : string) (xmargin_ratio : Q) (align : bool)
| plot_marker (points : list xy)
| plot_link (xy1 xy2 : xy)
| plot_text (x y : Q) (text : string)
| set_title_func (label : string).

Record TreeViz : Type := mkTreeViz {
  _tree : Clade;
  _figsize : Q * Q;
  _align_leaf_label : bool;
  _leaf_label_size : Q;
  _innode_label_size : Q;
  _show_auto_innode_label : bool;
  _auto_innode_labels : list string;
  _leaf_label_xmargin_ratio : Q;
  _innode_label_xmargin_ratio : Q;
  _reverse : bool;
  _ax : option nat;
  _node2label_props : dict string;
  _node2line_props : dict string;
  _plot_patches : list Rect;
  _plot_funcs : list plot_func }.

(** [TreeViz.__init__], given the tree [_load_tree] returned. *)
Definition TreeViz_init (tree_data : Clade) (height width : Q)
  (align_leaf_label ignore_branch_length : bool)
  (leaf_label_size innode_label_size : Q)
  (show_auto_innode_label : bool)
  (leaf_label_xmargin_ratio innode_label_xmargin_ratio : Q)
  (reverse : bool) : result TreeViz :=
  let '(tree, auto_innode_labels) := _set_uniq_innode_name tree_data in
  _ <- _check_node_name_dup tree ;;
  let max_tree_depth := max_depth_of false tree in
  tree <- (if ignore_branch_length || Qeq_bool max_tree_depth 0
           then _to_ultrametric_tree tree else Ok tree) ;;
  Ok {| _tree := tree;
        _figsize := (width, height * inject_Z (Z.of_nat (count_terminals tree)))%Q;
        _align_leaf_label := align_leaf_label;
        _leaf_label_size := leaf_label_size;
        _innode_label_size := innode_label_size;
        _show_auto_innode_label := show_auto_innode_label;
        _auto_innode_labels := auto_innode_labels;
        _leaf_label_xmargin_ratio := leaf_label_xmargin_ratio;
        _innode_label_xmargin_ratio := innode_label_xmargin_ratio;
        _reverse := reverse;
        _ax := None;
        _node2label_props := [];
        _node2line_props := [];
        _plot_patches := [];
        _plot_funcs := [] |}.

(** The [ax] property. *)
Definition ax (tv : TreeViz) : result nat :=
  match _ax tv with
  | None => Raise ValueError
  | Some a => Ok a
  end.

(** The cached properties. *)
Definition max_tree_depth (tv : TreeViz) : Q := max_depth_of false (_tree tv).
Definition xlim (tv : TreeViz) : Q * Q := (0%Q, max_tree_depth tv).
Definition ylim (tv : TreeViz) : Q * Q :=
  (0%Q, inject_Z (Z.of_nat (count_terminals (_tree tv) + 1))).
Definition name2xy_right (tv : TreeViz) : result (dict xy) :=
  _calc_name2xy_pos (_tree tv) (_reverse tv) "right".
Definition name2xy_center (tv : TreeViz) : result (dict xy) :=
  _calc_name2xy_pos (_tree tv) (_reverse tv) "center".
Definition name2xy_left (tv : TreeViz) : result (dict xy) :=
  _calc_name2xy_pos (_tree tv) (_reverse tv) "left".
Definition name2xy (tv : TreeViz) : result (dict xy) := name2xy_right tv.

(** A dictionary lookup with a key that may be [None]. *)
Definition dict_item_opt {V : Type} (d : dict V) (k : option string) : result V :=
  match k with
  | Some s => dict_item d s
  | None => Raise KeyError
  end.

(** [tree.find_clades(target)] for a target that may be [None]; without a
    target every clade matches. *)
Definition find_clades_opt (tree : Clade) (target : option string)
  : list (pos * Clade) :=
  match target with
  | Some s => find_clades tree s
  | None => preorder tree
  end.

(** [min(values)] of a non-empty sequence. *)
Definition min_of (l : list Q) : Q :=
  match l with
  | [] => 0%Q
  | x :: r => fold_left (fun m y => if Qle_bool m y then m else y) r x
  end.

(** [min(l)] and [max(l)], raising on an empty list. *)
Definition py_min (l : list Q) : result Q :=
  match l with [] => Raise ValueError | _ :: _ => Ok (min_of l) end.
Definition py_max (l : list Q) : result Q :=
  match l with [] => Raise ValueError | _ :: _ => Ok (max_of l) end.

(** The parent looked up through [get_path(node.name)], as in
    [_calc_name2rect] and [_calc_name2xy_pos]. *)
Definition parent_by_name (tree : Clade) (p : list nat) (node : Clade) : result Clade :=
  match p with
  | [] => Ok node
  | _ :: _ =>
      tree_path <- get_path_by_name tree (name node) ;;
      match tree_path with
      | None => Raise TypeError
      | Some tree_path =>
          parent <- second_to_last ([] :: tree_path) ;;
          match get_node tree parent with
          | Some parent_node => Ok parent_node
          | None => Raise ValueError
          end
      end
  end.

(** [_calc_name2rect]: one entry of [name2xy]. *)
Definition calc_rect (tv : TreeViz) (name2xy : dict xy) (d : dict Rect)
  (item : string * xy) : result (dict Rect) :=
  let '(name, xy) := item in
  node <- next (find_clades (_tree tv) name) ;;
  parent_node <- parent_by_name (_tree tv) (fst node) (snd node) ;;
  let child_node_names := map row_name (preorder (snd node)) in
  child_xy <- map_result (dict_item name2xy) child_node_names ;;
  let x_list := map fst child_xy in
  let y_list := map snd child_xy in
  parent_xy <- dict_item name2xy (str_name parent_node) ;;
  let min_x := ((fst xy + fst parent_xy) / 2)%Q in
  max_x <- (if _align_leaf_label tv then Ok (max_tree_depth tv) else py_max x_list) ;;
  min_y <- py_min y_list ;;
  max_y <- py_max y_list ;;
  Ok (dict_set d name
        (mkRect min_x (min_y - (1 # 2)) (max_x - min_x)
                ((max_y + (1 # 2)) - (min_y - (1 # 2))))%Q).

Definition _calc_name2rect (tv : TreeViz) : result (dict Rect) :=
  name2xy <- name2xy tv ;;
  for_each (calc_rect tv name2xy) name2xy [].

Definition name2rect (tv : TreeViz) : result (dict Rect) := _calc_name2rect tv.

Definition append_plot_func (tv : TreeViz) (f : plot_func) : TreeViz :=
  {| _tree := _tree tv; _figsize := _figsize tv;
     _align_leaf_label := _align_leaf_label tv;
     _leaf_label_size := _leaf_label_size tv;
     _innode_label_size := _innode_label_size tv;
     _show_auto_innode_label := _show_auto_innode_label tv;
     _auto_innode_labels := _auto_innode_labels tv;
     _leaf_label_xmargin_ratio := _leaf_label_xmargin_ratio tv;
     _innode_label_xmargin_ratio := _innode_label_xmargin_ratio tv;
     _reverse := _reverse tv; _ax := _ax tv;
     _node2label_props := _node2label_props tv;
     _node2line_props := _node2line_props tv;
     _plot_patches := _plot_patches tv;
     _plot_funcs := _plot_funcs tv ++ [f] |}.

Definition with_label_props (tv : TreeViz) (d : dict string) : TreeViz :=
  {| _tree := _tree tv; _figsize := _figsize tv;
     _align_leaf_label := _align_leaf_label tv;
     _leaf_label_size := _leaf_label_size tv;
     _innode_label_size := _innode_label_size tv;
     _show_auto_innode_label := _show_auto_innode_label tv;
     _auto_innode_labels := _auto_innode_labels tv;
     _leaf_label_xmargin_ratio := _leaf_label_xmargin_ratio tv;
     _innode_label_xmargin_ratio := _innode_label_xmargin_ratio tv;
     _reverse := _reverse tv; _ax := _ax tv;
     _node2label_props := d;
     _node2line_props := _node2line_props tv;
     _plot_patches := _plot_patches tv;
     _plot_funcs := _plot_funcs tv |}.

Definition with_line_props (tv : TreeViz) (d : dict string) : TreeViz :=
  {| _tree := _tree tv; _figsize := _figsize tv;
     _align_leaf_label := _align_leaf_label tv;
     _leaf_label_size := _leaf_label_size tv;
     _innode_label_size := _innode_label_size tv;
     _show_auto_innode_label := _show_auto_innode_label tv;
     _auto_innode_labels := _auto_innode_labels tv;
     _leaf_label_xmargin_ratio := _leaf_label_xmargin_ratio tv;
     _innode_label_xmargin_ratio := _innode_label_xmargin_ratio tv;
     _reverse := _reverse tv; _ax := _ax tv;
     _node2label_props := _node2label_props tv;
     _node2line_props := d;
     _plot_patches := _plot_patches tv;
     _plot_funcs := _plot_funcs tv |}.

Definition with_ax (tv : TreeViz) (a : nat) : TreeViz :=
  {| _tree := _tree tv; _figsize := _figsize tv;
     _align_leaf_label := _align_leaf_label tv;
     _leaf_label_size := _leaf_label_size tv;
     _innode_label_size := _innode_label_size tv;
     _show_auto_innode_label := _show_auto_innode_label tv;
     _auto_innode_labels := _auto_innode_labels tv;
     _leaf_label_xmargin_ratio := _leaf_label_xmargin_ratio tv;
     _innode_label_xmargin_ratio := _innode_label_xmargin_ratio tv;
     _reverse := _reverse tv; _ax := Some a;
     _node2label_props := _node2label_props tv;
     _node2line_props := _node2line_props tv;
     _plot_patches := _plot_patches tv;
     _plot_funcs := _plot_funcs tv |}.

(** ** Registration methods *)

Definition in_strings (s : string) (l : list string) : bool := mem_string s l.

(** What the registration methods need of matplotlib, which is not part of
    the repository: whether a string is a colour
    ([matplotlib.colors.is_color_like]), and what [Rectangle.set] does with
    the keyword arguments of a call (it raises for a property it does not
    know or a value it does not accept). *)
Record Backend : Type := mkBackend {
  is_color_like : string -> bool;
  rect_set : string -> result unit }.

(** [rect.set_color(color)]: an invalid colour is a [ValueError]. *)
Definition rect_set_color (mpl : Backend) (color : string) : result unit :=
  if is_color_like mpl color then Ok tt else Raise ValueError.

(** [rect.set_alpha(alpha)]: a number outside of [0, 1] is a
    [ValueError]. *)
Definition rect_set_alpha (alpha : Q) : result unit :=
  if Qle_bool 0 alpha && Qle_bool alpha 1 then Ok tt else Raise ValueError.

(** [highlight]: the copy of the rectangle is styled when the method is
    called, after the query was resolved. *)
Definition highlight (mpl : Backend) (tv : TreeViz) (q : query) (color : string)
  (alpha : Q) (area : string) (kwargs : string) : result TreeViz :=
  if negb (in_strings area ["branch"; "branch-label"; "full"]) then Raise ValueError
  else
    target_node_name <- _search_target_node_name (_tree tv) q ;;
    rects <- name2rect tv ;;
    rect <- dict_item_opt rects target_node_name ;;
    _ <- rect_set_color mpl color ;;
    _ <- rect_set_alpha alpha ;;
    _ <- rect_set mpl kwargs ;;
    Ok (append_plot_func tv (plot_highlight area q rect)).

(** [annotate]: the query is only captured by the closure. *)
Definition annotate (tv : TreeViz) (q : query) (label : string)
  (text_orientation : string) (xmargin_ratio : Q) (align : bool) : result TreeViz :=
  if String.eqb text_orientation "horizontal"
     || String.eqb text_orientation "vertical"
  then Ok (append_plot_func tv (plot_annotate q label xmargin_ratio align))
  else Raise ValueError.

(** [max(self.xlim)] *)
Definition max_xlim (tv : TreeViz) : Q := max_of [fst (xlim tv); snd (xlim tv)].

Definition marker_point (tv : TreeViz) (d : dict xy) (node : Clade) : result xy :=
  v <- dict_item d (str_name node) ;;
  Ok (if is_terminal node && _align_leaf_label tv then (max_xlim tv, snd v) else v).

(** [marker] *)
Definition marker (tv : TreeViz) (q : query) (descendent : bool) : result TreeViz :=
  target_node_name <- _search_target_node_name (_tree tv) q ;;
  points <-
    (if descendent then
       clade <- next (find_clades_opt (_tree tv) target_node_name) ;;
       d <- name2xy tv ;;
       map_result (marker_point tv d) (map snd (preorder (snd clade)))
     else
       d <- name2xy tv ;;
       v <- dict_item_opt d target_node_name ;;
       target_node <- next (find_clades_opt (_tree tv) target_node_name) ;;
       Ok [if is_terminal (snd target_node) && _align_leaf_label tv
           then (max_xlim tv, snd v) else v]) ;;
  Ok (append_plot_func tv (plot_marker points)).

(** [_get_target_pos_name2xy] *)
Definition _get_target_pos_name2xy (tv : TreeViz) (pos : string) : result (dict xy) :=
  if negb (valid_pos pos) then Raise ValueError
  else _calc_name2xy_pos (_tree tv) (_reverse tv) pos.

(** [link] *)
Definition link (tv : TreeViz) (q1 q2 : query) (pos1 pos2 : string) : result TreeViz :=
  target_node_name1 <- _search_target_node_name (_tree tv) q1 ;;
  target_node_name2 <- _search_target_node_name (_tree tv) q2 ;;
  d1 <- _get_target_pos_name2xy tv pos1 ;;
  xy1 <- dict_item_opt d1 target_node_name1 ;;
  d2 <- _get_target_pos_name2xy tv pos2 ;;
  xy2 <- dict_item_opt d2 target_node_name2 ;;
  Ok (append_plot_func tv (plot_link xy1 xy2)).

(** [text_on_branch] *)
Definition text_on_branch (tv : TreeViz) (q : query) (text : string)
  (xpos ypos : string) (xmargin_ratio ymargin_ratio : Q) : result TreeViz :=
  if negb (valid_pos xpos) then Raise ValueError
  else if negb (in_strings ypos ["top"; "center"; "bottom"]) then Raise ValueError
  else
    target_node_name <- _search_target_node_name (_tree tv) q ;;
    dl <- name2xy_left tv ;; vl <- dict_item_opt dl target_node_name ;;
    dc <- name2xy_center tv ;; vc <- dict_item_opt dc target_node_name ;;
    dr <- name2xy_right tv ;; vr <- dict_item_opt dr target_node_name ;;
    let v := if String.eqb xpos "left" then vl
             else if String.eqb xpos "center" then vc else vr in
    let xmargin_size := (max_tree_depth tv * xmargin_ratio)%Q in
    let x := (if String.eqb xpos "left" then fst v + xmargin_size
              else if String.eqb xpos "right" then fst v - xmargin_size
              else fst v)%Q in
    let y := (if String.eqb ypos "top" then snd v + ymargin_ratio
              else if String.eqb ypos "bottom" then snd v - ymargin_ratio
              else snd v)%Q in
    Ok (append_plot_func tv (plot_text x y text)).

(** [text_on_node] *)
Definition text_on_node (tv : TreeViz) (q : query) (text : string) : result TreeViz :=
  target_node_name <- _search_target_node_name (_tree tv) q ;;
  d <- name2xy tv ;;
  v <- dict_item_opt d target_node_name ;;
  Ok (append_plot_func tv (plot_text (fst v) (snd v) text)).

(** [set_node_label_props] *)
Definition set_node_label_props (tv : TreeViz) (target_node_label : string)
  (kwargs : string) : result TreeViz :=
  _ <- _search_target_node_name (_tree tv) (QName target_node_label) ;;
  Ok (with_label_props tv (dict_set (_node2label_props tv) target_node_label kwargs)).

(** [set_node_line_props] *)
Definition set_node_line_props (tv : TreeViz) (q : query) (descendent : bool)
  (kwargs : string) : result TreeViz :=
  target_node_name <- _search_target_node_name (_tree tv) q ;;
  clade <- next (find_clades_opt (_tree tv) target_node_name) ;;
  let targets := if descendent then map row_name (preorder (snd clade))
                 else [str_name (snd clade)] in
  Ok (with_line_props tv
        (fold_left (fun d k => dict_set d k kwargs) targets (_node2line_props tv))).

(** [set_title], [show_scale_axis], [show_scale_bar]: the closures keep
    the arguments that decide what they do ([ticks_interval] and [ypos];
    [scale_size]). *)
Definition set_title (tv : TreeViz) (label : string) : result TreeViz :=
  Ok (append_plot_func tv (set_title_func label)).
Definition show_scale_axis (tv : TreeViz) (ticks_interval : option Q) (ypos : Q)
  : result TreeViz :=
  Ok (append_plot_func tv (plot_scale_axis ticks_interval ypos)).
Definition show_scale_bar (tv : TreeViz) (scale_size : option Q) : result TreeViz :=
  Ok (append_plot_func tv (plot_scale_bar scale_size)).

(** ** Rendering ([plotfig]) *)

Definition add_text (a : Axes) (t : Text) : Axes :=
  mkAxes (ax_id a) (ax_xlim a) (ax_ylim a) (ax_xticks a) (ax_texts a ++ [t])
         (ax_artists a).

Definition add_artist (a : Axes) (x : artist) : Axes :=
  mkAxes (ax_id a) (ax_xlim a) (ax_ylim a) (ax_xticks a) (ax_texts a)
         (ax_artists a ++ [x]).

(** [_init_figure]: a new figure with new axes. *)
Definition _init_figure (fresh : nat) : Axes :=
  mkAxes fresh (0%Q, 1%Q) (0%Q, 1%Q) None [] [].

(** [_init_axes] *)
Definition _init_axes (tv : TreeViz) (a : Axes) : Axes :=
  mkAxes (ax_id a) (xlim tv) (ylim tv) (ax_xticks a) (ax_texts a) (ax_artists a).

(** [np.arange(0, stop, step)] for a step other than 0: the multiples
    [k * step] for [k = 0, 1, ...] below [ceil(stop / step)]. *)
Definition arange (stop step : Q) : list Q :=
  map (fun k => (inject_Z (Z.of_nat k) * step)%Q)
      (seq 0 (Z.to_nat (Qceiling (stop / step)))).

(** [ax.set_xticks(ticks)]: the ticks are fixed, and the view limits are
    expanded where a tick lies outside of them. *)
Definition set_xticks (a : Axes) (ticks : list Q) : Axes :=
  mkAxes (ax_id a)
         (match ticks with
          | [] => ax_xlim a
          | _ :: _ => (min_of [fst (ax_xlim a); min_of ticks],
                       max_of [snd (ax_xlim a); max_of ticks])
          end)
         (ax_ylim a) (Some ticks) (ax_texts a) (ax_artists a).

(** [ax.get_xticks()[1]]: with explicit ticks the second of them, and an
    [IndexError] when there are fewer than two; [None] stands for the
    second tick of the automatic locator. *)
Definition second_xtick (a : Axes) : result (option Q) :=
  match ax_xticks a with
  | None => Ok None
  | Some ticks =>
      match nth_error ticks 1 with
      | Some x => Ok (Some x)
      | None => Raise IndexError
      end
  end.

(** [_plot_tree_node_line]: the lines from one internal clade to a child. *)
Definition plot_child_line (tv : TreeViz) (parent_xy : xy) (a : Axes) (child_node : Clade)
  : result Axes :=
  d <- name2xy tv ;;
  child_xy <- dict_item d (str_name child_node) ;;
  let a := add_artist a (Line (fst parent_xy, fst parent_xy) (snd parent_xy, snd child_xy)) in
  let a := add_artist a (Line (fst parent_xy, fst child_xy) (snd child_xy, snd child_xy)) in
  Ok (if is_terminal child_node && _align_leaf_label tv
      then add_artist a (Line (fst child_xy, max_tree_depth tv)
                              (snd child_xy, snd child_xy))
      else a).

Definition _plot_tree_node_line (tv : TreeViz) (a : Axes) : result Axes :=
  for_each
    (fun a node =>
       d <- name2xy tv ;;
       parent_xy <- dict_item d (str_name node) ;;
       for_each (plot_child_line tv parent_xy) (clades node) a)
    (map snd (get_nonterminals (_tree tv))) a.

(** [_plot_node_label] *)
Definition plot_one_label (tv : TreeViz) (a : Axes) (node : Clade) : result Axes :=
  d <- name2xy tv ;;
  v <- dict_item d (str_name node) ;;
  let label_size :=
    if is_terminal node then _leaf_label_size tv else _innode_label_size tv in
  let label_xmargin_ratio :=
    if is_terminal node then _leaf_label_xmargin_ratio tv
    else _innode_label_xmargin_ratio tv in
  let label_xmargin := (max_tree_depth tv * label_xmargin_ratio)%Q in
  let x := (if is_terminal node && _align_leaf_label tv
            then max_tree_depth tv + label_xmargin
            else fst v + label_xmargin)%Q in
  if Qle_bool label_size 0 then Ok a
  else
    let is_auto_innode_label :=
      match name node with
      | Some s => mem_string s (_auto_innode_labels tv)
      | None => false
      end in
    if negb (_show_auto_innode_label tv) && is_auto_innode_label then Ok a
    else Ok (add_text a (mkText (match name node with Some s => s | None => "" end)
                                x (snd v))).

Definition _plot_node_label (tv : TreeViz) (a : Axes) : result Axes :=
  for_each (plot_one_label tv) (map snd (preorder (_tree tv))) a.

Section Rendering.
(** What the backend measures for a drawn text, in data coordinates:
    [(xmin, xmax, ymin, ymax)]. *)
Variable text_extent : Text -> (Q * Q) * (Q * Q).

(** [_get_texts_rect]; [a] is the axes [self.ax] refers to. *)
Definition _get_texts_rect (tv : TreeViz) (a : Axes) (q : query) : result Rect :=
  target_node_name <- _search_target_node_name (_tree tv) q ;;
  node <- next (find_clades_opt (_tree tv) target_node_name) ;;
  let target_labels := map row_name (get_terminals (snd node)) in
  _ <- ax tv ;;
  let target_texts :=
    filter (fun t => mem_string (text_s t) target_labels) (ax_texts a) in
  let x_list :=
    flat_map (fun t => [fst (fst (text_extent t)); snd (fst (text_extent t))])
             target_texts in
  let y_list :=
    flat_map (fun t => [fst (snd (text_extent t)); snd (snd (text_extent t))])
             target_texts in
  xmin <- py_min x_list ;; xmax <- py_max x_list ;;
  ymin <- py_min y_list ;; ymax <- py_max y_list ;;
  Ok (mkRect xmin ymin (xmax - xmin) (ymax - ymin))%Q.

(** Calling one of the closures of [_plot_funcs]. *)
Definition run_plot_func (tv : TreeViz) (a : Axes) (f : plot_func) : result Axes :=
  match f with
  | plot_scale_axis ticks_interval ypos =>
      let a := add_artist a (ScaleAxis ypos) in
      Ok (match ticks_interval with
          | Some t =>
              if Qeq_bool t 0 then a
              else set_xticks a (arange (max_tree_depth tv + t / 100) t)
          | None => a
          end)%Q
  | plot_scale_bar scale_size =>
      auto_size <- second_xtick a ;;
      Ok (add_artist a (ScaleBar (match scale_size with
                                  | Some size => Some size
                                  | None => auto_size
                                  end)))
  | plot_highlight area q rect =>
      if String.eqb area "branch-label" then
        texts_rect <- _get_texts_rect tv a q ;;
        let texts_rect_xmax := (rect_x texts_rect + rect_width texts_rect)%Q in
        Ok (add_artist a
              (Patch (mkRect (rect_x rect) (rect_y rect)
                             (texts_rect_xmax - rect_x rect) (rect_height rect))))%Q
      else if String.eqb area "full" then
        texts_rect <- _get_texts_rect tv a (QNames (leaf_labels (_tree tv))) ;;
        let texts_rect_xmax := (rect_x texts_rect + rect_width texts_rect)%Q in
        Ok (add_artist a
              (Patch (mkRect (rect_x rect) (rect_y rect)
                             (texts_rect_xmax - rect_x rect) (rect_height rect))))%Q
      else Ok (add_artist a (Patch rect))
  | plot_annotate q label xmargin_ratio align =>
      texts_rect <- _get_texts_rect tv a q ;;
      let ymin := rect_y texts_rect in
      let ymax := (rect_y texts_rect + rect_height texts_rect)%Q in
      let xmargin := (max_tree_depth tv * xmargin_ratio)%Q in
      xmax <- (if align then
                 all_texts_rect <-
                   _get_texts_rect tv a (QNames (leaf_labels (_tree tv))) ;;
                 Ok (rect_x all_texts_rect + rect_width all_texts_rect)%Q
               else Ok (rect_x texts_rect + rect_width texts_rect)%Q) ;;
      let line_x := (xmax + xmargin)%Q in
      let a := add_artist a (Line (line_x, line_x) (ymin, ymax)) in
      Ok (add_text a (mkText label (line_x + xmargin) ((ymin + ymax) / 2)))%Q
  | plot_marker points => Ok (add_artist a (Scatter points))
  | plot_link xy1 xy2 => Ok (add_artist a (Arrow xy1 xy2))
  | plot_text x y text => Ok (add_text a (mkText text x y))
  | set_title_func label => Ok (add_artist a (Title label))
  end.

(** [plotfig]: the figure, and the axes as they are after the drawing.
    [fresh] is the identity a newly created axes object receives. *)
Definition plotfig (tv : TreeViz) (dpi : nat) (given : option Axes) (fresh : nat)
  : result (TreeViz * Figure * Axes) :=
  let a := match given with
           | None => _init_axes tv (_init_figure fresh)
           | Some a => _init_axes tv a
           end in
  let fig := mkFigure (ax_id a) dpi in
  let tv := with_ax tv (ax_id a) in
  a <- _plot_tree_node_line tv a ;;
  a <- _plot_node_label tv a ;;
  let a := fold_left (fun a patch => add_artist a (Patch patch)) (_plot_patches tv) a in
  a <- for_each (run_plot_func tv) (_plot_funcs tv) a ;;
  Ok (tv, fig, a).
End Rendering.

(** The public methods other than [plotfig]. *)
Inductive call : Type :=
| CallHighlight (q : query) (color : string) (alpha : Q) (area : string)
    (kwargs : string)
| CallAnnotate (q : query) (label : string) (text_orientation : string)
    (xmargin_ratio : Q) (align : bool)
| CallMarker (q : query) (descendent : bool)
| CallLink (q1 q2 : query) (pos1 pos2 : string)
| CallTextOnBranch (q : query) (text : string) (xpos ypos : string)
    (xmargin_ratio ymargin_ratio : Q)
| CallTextOnNode (q : query) (text : string)
| CallSetNodeLabelProps (target_node_label : string) (kwargs : string)
| CallSetNodeLineProps (q : query) (descendent : bool) (kwargs : string)
| CallSetTitle (label : string)
| CallShowScaleAxis (ticks_interval : option Q) (ypos : Q)
| CallShowScaleBar (scale_size : option Q).

Definition run_call (mpl : Backend) (tv : TreeViz) (c : call) : result TreeViz :=
  match c with
  | CallHighlight q color alpha area kwargs =>
      highlight mpl tv q color alpha area kwargs
  | CallAnnotate q label o r al => annotate tv q label o r al
  | CallMarker q d => marker tv q d
  | CallLink q1 q2 p1 p2 => link tv q1 q2 p1 p2
  | CallTextOnBranch q t x y xr yr => text_on_branch tv q t x y xr yr
  | CallTextOnNode q t => text_on_node tv q t
  | CallSetNodeLabelProps l k => set_node_label_props tv l k
  | CallSetNodeLineProps q d k => set_node_line_props tv q d k
  | CallSetTitle l => set_title tv l
  | CallShowScaleAxis ticks_interval ypos => show_scale_axis tv ticks_interval ypos
  | CallShowScaleBar scale_size => show_scale_bar tv scale_size
  end.

(** The query a call registers, if it takes one. *)
Definition call_queries (c : call) : list query :=
  match c with
  | CallHighlight q _ _ _ _ => [q]
  | CallAnnotate q _ _ _ _ => [q]
  | CallMarker q _ => [q]
  | CallLink q1 q2 _ _ => [q1; q2]
  | CallTextOnBranch q _ _ _ _ _ => [q]
  | CallTextOnNode q _ => [q]
  | CallSetNodeLabelProps l _ => [QName l]
  | CallSetNodeLineProps q _ _ => [q]
  | _ => []
  end.

(** [TreeViz("(A,B)R;")] with the default arguments. *)
Definition tree_ab : Clade := Node (Some "R") None None [leaf "A"; leaf "B"].

Definition default_init (tree_data : Clade) : result TreeViz :=
  TreeViz_init tree_data (1 # 2) 8 false false 12 0 true (1 # 100) (1 # 100) false.

(** [(X,X)R;]: two leaves of the same name. *)
Definition tree_xx : Clade := Node (Some "R") None None [leaf "X"; leaf "X"].

(** An axes object passed to [plotfig] by the caller. *)
Definition some_axes : Axes := mkAxes 42 (0%Q, 1%Q) (0%Q, 1%Q) None [] [].

(** A backend that reports every text as a point. *)
Definition point_extent (t : Text) : (Q * Q) * (Q * Q) :=
  ((text_x t, text_x t), (text_y t, text_y t)).

(** ** Proof automation *)

(** Case analysis on a computation that returned. *)
Ltac result_cases H :=
  repeat match type of H with
         | bind ?r _ = Ok _ =>
             let a := fresh "a" in
             let E := fresh "E" in
             destruct r as [a|] eqn:E; cbn [bind] in H; [|discriminate H]
         | (if ?b then _ else _) = Ok _ => destruct b
         | Raise _ = Ok _ => discriminate H
         end.

(** ** Further example trees *)

(** [(A:1,:1)B;]: a leaf without a name, in a tree with branch lengths. *)
Definition tree_unnamed_leaf_bl : Clade :=
  Node (Some "B") None None [bleaf "A" 1; Node None (Some 1%Q) None []].

(** ** The layout, clade by clade *)

(** The y-coordinate the layout gives to a clade, from those of the
    leaves: [sum(ys of the children) / len(node.clades)] for an internal
    clade. *)
Fixpoint node_y (leaf_y : string -> Q) (c : Clade) : Q :=
  match c with
  | Node _ _ _ [] => leaf_y (str_name c)
  | Node _ _ _ cs =>
      (py_sum (map (node_y leaf_y) cs) / inject_Z (Z.of_nat (List.length cs)))%Q
  end.

(** [self.tree.distance(node.name)], when it returns. *)
Definition x_of (tree : Clade) (node : Clade) : Q :=
  match distance tree (name node) with
  | Ok x => x
  | Raise _ => 0%Q
  end.

(** The entry the second loop of [_calc_name2xy_pos] stores for an
    internal clade. *)
Definition internal_entry (tree : Clade) (leaf_y : string -> Q) (node : Clade)
  : string * xy :=
  (str_name node, (x_of tree node, node_y leaf_y node)).

(** The entries the first loop stores for the leaves. *)
Definition leaf_entries (tree : Clade) (reverse : bool) : dict xy :=
  map (fun it => (leaf_key it, leaf_xy tree it)) (enumerate 1 (leaf_nodes tree reverse)).

(** The rank the first loop gives to the leaf of a name. *)
Definition leaf_rank (tree : Clade) (reverse : bool) (s : string) : Q :=
  snd (get_or (leaf_entries tree reverse) s).

(** What the loop over the internal clades of [c] computes, starting from
    a dictionary [d] that has the leaves of [c] and none of its internal
    clades. *)
Definition internal_loop_y_spec (tree : Clade) (leaf_y : string -> Q) (c : Clade)
  : Prop :=
  subtree_of tree c -> NoDup (all_node_names c) ->
  forall d,
    (forall p node, get_node c p = Some node -> is_terminal node = true ->
       exists x, dict_get d (str_name node) = Some (x, leaf_y (str_name node))) ->
    (forall p node, get_node c p = Some node -> is_terminal node = false ->
       ~ In (str_name node) (keys d)) ->
    for_each (place_internal tree) (map snd (get_nonterminals_postorder c)) d
    = Ok (d ++ map (internal_entry tree leaf_y)
                   (map snd (get_nonterminals_postorder c))) /\
    (forall p node, get_node c p = Some node -> is_terminal node = false ->
       dict_get (d ++ map (internal_entry tree leaf_y)
                          (map snd (get_nonterminals_postorder c)))
                (str_name node)
       = Some (x_of tree node, node_y leaf_y node)).

(** The x-coordinate the layout gives to the clade at [p]: its depth for
    the right position, the depth of its parent for the left one, the
    midpoint for the center; the root has its own depth in all three. *)
Definition layout_x (t : Clade) (pos : string) (p : list nat) : Q :=
  match p with
  | [] => depth_at t []
  | _ :: _ =>
      if String.eqb pos "right" then depth_at t p
      else if String.eqb pos "center"
           then ((depth_at t p + depth_at t (removelast p)) / 2)%Q
           else depth_at t (removelast p)
  end.

(** The rectangle [_calc_name2rect] stores for one item of [name2xy]. *)
Definition rect_of (tv : TreeViz) (name2xy : dict xy) (item : string * xy) : Rect :=
  match calc_rect tv name2xy [] item with
  | Ok ((_, r) :: _) => r
  | _ => mkRect 0 0 0 0
  end.

(** ** What the rendering loops draw *)

(** The lines [_plot_tree_node_line] draws for one child of a clade whose
    coordinates are [parent_xy]. *)
Definition child_lines (tv : TreeViz) (d : dict xy) (parent_xy : xy)
  (child_node : Clade) : list artist :=
  let child_xy := get_or d (str_name child_node) in
  [Line (fst parent_xy, fst parent_xy) (snd parent_xy, snd child_xy);
   Line (fst parent_xy, fst child_xy) (snd child_xy, snd child_xy)]
  ++ (if is_terminal child_node && _align_leaf_label tv
      then [Line (fst child_xy, max_tree_depth tv) (snd child_xy, snd child_xy)]
      else []).

Definition node_lines (tv : TreeViz) (d : dict xy) (node : Clade) : list artist :=
  flat_map (child_lines tv d (get_or d (str_name node))) (clades node).

(** Whether [_plot_node_label] draws the label of a clade: its label size
    is positive, and it is not an automatic label that is to be hidden. *)
Definition label_shown (tv : TreeViz) (node : Clade) : bool :=
  negb (Qle_bool (if is_terminal node then _leaf_label_size tv
                  else _innode_label_size tv) 0)
  && negb (negb (_show_auto_innode_label tv)
           && match name node with
              | Some s => mem_string s (_auto_innode_labels tv)
              | None => false
              end).

(** The text [_plot_node_label] draws for a clade. *)
Definition label_text (tv : TreeViz) (d : dict xy) (node : Clade) : Text :=
  let v := get_or d (str_name node) in
  let label_xmargin :=
    (max_tree_depth tv
     * (if is_terminal node then _leaf_label_xmargin_ratio tv
        else _innode_label_xmargin_ratio tv))%Q in
  mkText (match name node with Some s => s | None => "" end)
         (if is_terminal node && _align_leaf_label tv
          then max_tree_depth tv + label_xmargin
          else fst v + label_xmargin)%Q
         (snd v).

(** The checks the registration methods make on their options: [area]
    for [highlight], and the colour, the alpha value and the keyword
    arguments its rectangle is styled with; [text_orientation] for
    [annotate]; the two positions for [link]; [xpos] and [ypos] for
    [text_on_branch]. *)
Definition call_options_valid (mpl : Backend) (c : call) : bool :=
  match c with
  | CallHighlight _ color alpha area kwargs =>
      in_strings area ["branch"; "branch-label"; "full"]
      && is_color_like mpl color
      && (Qle_bool 0 alpha && Qle_bool alpha 1)
      && match rect_set mpl kwargs with Ok _ => true | Raise _ => false end
  | CallAnnotate _ _ text_orientation _ _ =>
      String.eqb text_orientation "horizontal" || String.eqb text_orientation "vertical"
  | CallLink _ _ pos1 pos2 => valid_pos pos1 && valid_pos pos2
  | CallTextOnBranch _ _ xpos ypos _ _ =>
      valid_pos xpos && in_strings ypos ["top"; "center"; "bottom"]
  | _ => true
  end.

(** ** Positive branch lengths *)

(** Every branch length that is set below the root is positive. *)
Definition positive_lengths (current : Clade) : Prop :=
  forall q b, q <> [] -> branch_length_at current q = Some b -> (0 < b)%Q.

(** ** Closures that measure the leaf texts *)

(** A query that names at least one node, and only nodes of the tree. *)
Definition known_query (tree : Clade) (q : query) : Prop :=
  query_names q <> [] /\
  forall s, In s (query_names q) -> In s (all_node_labels tree).

(** The query a closure of [_plot_funcs] passes to its first call of
    [_get_texts_rect], for the closures that make one: [plot_highlight]
    unless its area is ["branch"], and [plot_annotate]. *)
Definition texts_query (tree : Clade) (f : plot_func) : option query :=
  match f with
  | plot_highlight area q _ =>
      if String.eqb area "branch-label" then Some q
      else if String.eqb area "full" then Some (QNames (leaf_labels tree))
      else None
  | plot_annotate q _ _ _ => Some q
  | _ => None
  end.

(** ** [show_branch_length] and [show_confidence] *)

Section ShowLabels.
(** The label of a value: [label_formatter] when one is given, else the
    default formatting of the value. *)
Variable format_label : Q -> string.

(** [show_branch_length]: one [text_on_branch] per clade other than the
    root that has a branch length. *)
Definition show_branch_length (tv : TreeViz) (xpos ypos : string)
  (xmargin_ratio ymargin_ratio : Q) : result TreeViz :=
  for_each
    (fun tv (node : pos * Clade) =>
       match fst node, branch_length (snd node) with
       | _ :: _, Some b =>
           text_on_branch tv (QName (str_name (snd node))) (format_label b)
             xpos ypos xmargin_ratio ymargin_ratio
       | _, _ => Ok tv
       end)
    (preorder (_tree tv)) tv.

(** [show_confidence]: one [text_on_branch] per clade that has a
    confidence; at the root ["center"] is replaced by ["right"]. *)
Definition show_confidence (tv : TreeViz) (xpos ypos : string)
  (xmargin_ratio ymargin_ratio : Q) : result TreeViz :=
  for_each
    (fun tv (node : pos * Clade) =>
       match confidence (snd node) with
       | Some k =>
           text_on_branch tv (QName (str_name (snd node))) (format_label k)
             (match fst node with
              | [] => if String.eqb xpos "center" then "right" else xpos
              | _ :: _ => xpos
              end)
             ypos xmargin_ratio ymargin_ratio
       | None => Ok tv
       end)
    (preorder (_tree tv)) tv.
End ShowLabels.

(** Where [text_on_branch] puts a text for the clade at [p]. *)
Definition branch_text_x (t : Clade) (xpos : string) (xmargin_ratio : Q) (p : pos) : Q :=
  let x := layout_x t xpos p in
  let xmargin_size := (max_depth_of false t * xmargin_ratio)%Q in
  (if String.eqb xpos "left" then x + xmargin_size
   else if String.eqb xpos "right" then x - xmargin_size
   else x)%Q.

Definition branch_text_y (t : Clade) (reverse : bool) (ypos : string)
  (ymargin_ratio : Q) (c : Clade) : Q :=
  let y := node_y (leaf_rank t reverse) c in
  (if String.eqb ypos "top" then y + ymargin_ratio
   else if String.eqb ypos "bottom" then y - ymargin_ratio
   else y)%Q.





(** A backend for the examples: a few colour names are colours, and the
    only keyword arguments [Rectangle.set] is tried with are none. *)
Definition example_backend : Backend :=
  mkBackend (fun s => mem_string s ["red"; "orange"; "lime"; "skyblue"; "pink"])
            (fun kwargs => if String.eqb kwargs "" then Ok tt
                           else Raise AttributeError).

(* ================================================================== *)
(** * Properties *)
(* ================================================================== *)

(** ** Positions and traversals *)

Lemma nth_error_list_update_eq {A : Type} (f : A -> A) (l : list A) (i : nat) :
  nth_error (list_update i f l) i = option_map f (nth_error l i).
Proof.
  revert i; induction l as [|x r IH]; intros [|i]; simpl; auto.
Qed.

Lemma nth_error_list_update_ne {A : Type} (f : A -> A) (l : list A) (i j : nat) :
  i <> j -> nth_error (list_update i f l) j = nth_error l j.
Proof.
  revert i j; induction l as [|x r IH]; intros [|i] [|j] H; simpl; auto;
    try congruence.
Qed.

Lemma length_list_update {A : Type} (f : A -> A) (l : list A) (i : nat) :
  List.length (list_update i f l) = List.length l.
Proof.
  revert i; induction l as [|x r IH]; intros [|i]; simpl; auto.
Qed.

Lemma in_walk_list (f : Clade -> list (pos * Clade)) (l : list Clade) :
  forall s p c,
    In (p, c) (walk_list f s l) <->
    exists i c0 p', nth_error l i = Some c0 /\ p = (s + i) :: p' /\ In (p', c) (f c0).
Proof.
  induction l as [|x r IH]; intros s p c; simpl.
  - split; [tauto|]. intros (i & c0 & p' & H & _). destruct i; discriminate.
  - rewrite in_app_iff, in_map_iff, IH. split.
    + intros [((p', c') & E & Hin) | (i & c0 & p' & Hn & -> & Hin)].
      * simpl in E. inversion E; subst. exists 0, x, p'.
        rewrite Nat.add_0_r. auto.
      * exists (S i), c0, p'. rewrite Nat.add_succ_r. auto.
    + intros (i & c0 & p' & Hn & -> & Hin). destruct i as [|i]; simpl in Hn.
      * left. inversion Hn; subst. exists (p', c). rewrite Nat.add_0_r. auto.
      * right. exists i, c0, p'. rewrite Nat.add_succ_r. auto.
Qed.

Lemma preorder_unfold (t : Clade) :
  preorder t = ([], t) :: walk_list preorder 0 (clades t).
Proof. destruct t; reflexivity. Qed.

Lemma postorder_unfold (t : Clade) :
  postorder t = walk_list postorder 0 (clades t) ++ [([], t)].
Proof. destruct t; reflexivity. Qed.

(** A clade is listed by the traversal exactly at the position that
    dereferences to it. *)
Lemma in_preorder (p : pos) :
  forall t c, In (p, c) (preorder t) <-> get_node t p = Some c.
Proof.
  induction p as [|i p IH]; intros t c; rewrite preorder_unfold; simpl.
  - rewrite in_walk_list. split.
    + intros [E | (i & c0 & p' & _ & E & _)]; [inversion E; auto | discriminate].
    + intros E; inversion E; auto.
  - rewrite in_walk_list. split.
    + intros [E | (j & c0 & p' & Hn & E & Hin)]; [discriminate|].
      inversion E; subst. rewrite Hn. apply IH; assumption.
    + destruct (nth_error (clades t) i) as [c0|] eqn:Hn; [|discriminate].
      intros H. right. exists i, c0, p. rewrite <- IH in H. auto.
Qed.

Lemma in_postorder (p : pos) :
  forall t c, In (p, c) (postorder t) <-> get_node t p = Some c.
Proof.
  induction p as [|i p IH]; intros t c; rewrite postorder_unfold; simpl;
    rewrite in_app_iff, in_walk_list; simpl.
  - split.
    + intros [(i & c0 & p' & _ & E & _) | [E | []]]; [discriminate | inversion E; auto].
    + intros E; inversion E; auto.
  - split.
    + intros [(j & c0 & p' & Hn & E & Hin) | [E | []]]; [|discriminate].
      inversion E; subst. rewrite Hn. apply IH; assumption.
    + destruct (nth_error (clades t) i) as [c0|] eqn:Hn; [|discriminate].
      intros H. left. exists i, c0, p. rewrite <- IH in H. auto.
Qed.

Lemma same_fields_refl c : same_fields c c.
Proof. repeat split. Qed.

Lemma same_fields_trans c1 c2 c3 :
  same_fields c1 c2 -> same_fields c2 c3 -> same_fields c1 c3.
Proof. unfold same_fields. intuition congruence. Qed.

Lemma same_fields_terminal c c' :
  same_fields c c' -> is_terminal c = is_terminal c'.
Proof.
  intros (_ & _ & _ & H). unfold is_terminal.
  destruct (clades c), (clades c'); simpl in H; congruence.
Qed.

Lemma opt_rel_refl {A : Type} (R : A -> A -> Prop) :
  (forall a, R a a) -> forall x, opt_rel R x x.
Proof. intros H [a|]; simpl; auto. Qed.

Lemma opt_rel_trans {A : Type} (R : A -> A -> Prop) :
  (forall a b c, R a b -> R b c -> R a c) ->
  forall x y z, opt_rel R x y -> opt_rel R y z -> opt_rel R x z.
Proof. intros H [a|] [b|] [c|]; simpl; eauto; tauto. Qed.

Section UpdateAt.
Variable f : Clade -> Clade.
Hypothesis f_clades : forall c, clades (f c) = clades c.

Lemma get_node_update_same (p : pos) :
  forall t c, get_node t p = Some c -> get_node (update_at f p t) p = Some (f c).
Proof.
  induction p as [|i p IH]; intros t c; simpl.
  - congruence.
  - destruct t as [n b k cs]; simpl.
    rewrite nth_error_list_update_eq.
    destruct (nth_error cs i) as [c0|]; simpl; [apply IH | discriminate].
Qed.

Lemma get_node_update_below (p : pos) :
  forall t q, q <> [] ->
    get_node (update_at f p t) (p ++ q) = get_node t (p ++ q).
Proof.
  induction p as [|i p IH]; intros t q Hq; simpl.
  - destruct q as [|j q]; [congruence|]. simpl. rewrite f_clades. reflexivity.
  - destruct t as [n b k cs]; simpl.
    rewrite nth_error_list_update_eq.
    destruct (nth_error cs i) as [c0|]; simpl; auto.
Qed.

Lemma get_node_update_other (p : pos) :
  forall t q, q <> p ->
    opt_rel same_fields (get_node t q) (get_node (update_at f p t) q).
Proof.
  induction p as [|i p IH]; intros t q Hq.
  - destruct q as [|j q]; [congruence|]. simpl. rewrite f_clades.
    apply opt_rel_refl, same_fields_refl.
  - destruct t as [n b k cs]. simpl update_at.
    destruct q as [|j q]; simpl.
    + repeat split. simpl. symmetry. apply length_list_update.
    + destruct (Nat.eq_dec i j) as [->|Hij].
      * rewrite nth_error_list_update_eq.
        destruct (nth_error cs j) as [c0|]; simpl; auto.
        apply IH. congruence.
      * rewrite nth_error_list_update_ne by assumption.
        apply opt_rel_refl, same_fields_refl.
Qed.

Lemma get_node_update_invalid (p : pos) :
  forall t, get_node t p = None -> update_at f p t = t.
Proof.
  induction p as [|i p IH]; intros t; simpl; [discriminate|].
  destruct t as [n b k cs]; simpl. intros H. f_equal.
  revert i H. induction cs as [|x r IHr]; intros [|i] H; simpl in *; auto.
  - rewrite IH; auto.
  - rewrite IHr; auto.
Qed.
End UpdateAt.

(** ** The positions of a tree *)

Lemma positions_unfold (t : Clade) :
  positions t = [] :: map fst (walk_list preorder 0 (clades t)).
Proof. unfold positions. rewrite preorder_unfold. reflexivity. Qed.

Lemma map_fst_shift (s : nat) (l : list (pos * Clade)) :
  map fst (map (fun pc => (s :: fst pc, snd pc)) l) = map (cons s) (map fst l).
Proof. induction l as [|x r IH]; simpl; [|rewrite IH]; reflexivity. Qed.

Lemma walk_list_positions (s : nat) (l l' : list Clade) :
  Forall2 (fun c c' => positions c = positions c') l l' ->
  map fst (walk_list preorder s l) = map fst (walk_list preorder s l').
Proof.
  intros H. revert s. induction H as [|c c' l l' Hc _ IH]; intros s; simpl; auto.
  rewrite !map_app, !map_fst_shift, IH.
  unfold positions in Hc. rewrite Hc. reflexivity.
Qed.

Lemma Forall2_list_update {A : Type} (R : A -> A -> Prop) (g : A -> A) :
  (forall x, R x x) -> (forall x, R x (g x)) ->
  forall l i, Forall2 R l (list_update i g l).
Proof.
  intros Hr Hg. induction l as [|x r IH]; intros [|i]; simpl; constructor; auto.
  clear IH. induction r; constructor; auto.
Qed.

Lemma positions_update (f : Clade -> Clade) :
  (forall c, clades (f c) = clades c) ->
  forall p t, positions (update_at f p t) = positions t.
Proof.
  intros Hf. induction p as [|i p IH]; intros t; simpl.
  - rewrite !positions_unfold, Hf. reflexivity.
  - destruct t as [n b k cs]. rewrite !positions_unfold. simpl. f_equal.
    symmetry. apply walk_list_positions.
    apply Forall2_list_update; auto.
Qed.

Lemma NoDup_walk_list (l : list Clade) :
  Forall (fun c => NoDup (positions c)) l ->
  forall s, NoDup (map fst (walk_list preorder s l)).
Proof.
  induction 1 as [|c r Hc _ IH]; intros s; simpl; [constructor|].
  rewrite map_app. apply NoDup_app.
  - rewrite map_fst_shift.
    apply Finite.Injective_map_NoDup; [|exact Hc].
    intros a b E; congruence.
  - apply IH.
  - intros p Hp Hq. rewrite in_map_iff in Hp, Hq.
    destruct Hp as ((p1 & c1) & Ep & H1). destruct Hq as ((p2 & c2) & Eq & H2).
    rewrite in_map_iff in H1. destruct H1 as ((p0 & c0) & E1 & _).
    apply in_walk_list in H2. destruct H2 as (i & c3 & p' & _ & E2 & _).
    simpl in *. inversion E1. rewrite <- Ep, <- H0 in Eq. rewrite E2 in Eq.
    inversion Eq. lia.
Qed.

Lemma NoDup_positions (t : Clade) : NoDup (positions t).
Proof.
  induction t as [n b k cs IH] using Clade_rect'.
  rewrite positions_unfold. simpl. constructor.
  - rewrite in_map_iff. intros ((p & c) & E & H). simpl in E; subst.
    apply in_walk_list in H. destruct H as (i & _ & p' & _ & E & _). discriminate.
  - apply NoDup_walk_list. exact IH.
Qed.

Lemma in_positions (t : Clade) (p : pos) :
  In p (positions t) <-> exists c, get_node t p = Some c.
Proof.
  unfold positions. rewrite in_map_iff. split.
  - intros ((q & c) & E & H). simpl in E; subst. exists c. apply in_preorder; auto.
  - intros (c & H). exists (p, c). split; auto. apply in_preorder; auto.
Qed.

Lemma preorder_get_node (t : Clade) :
  Forall (fun pc => get_node t (fst pc) = Some (snd pc)) (preorder t).
Proof.
  apply Forall_forall. intros (p & c) H. apply in_preorder; auto.
Qed.

(** ** [_set_uniq_innode_name] *)

Lemma with_name_clades v c : clades (with_name v c) = clades c.
Proof. reflexivity. Qed.

Lemma with_branch_length_clades v c : clades (with_branch_length v c) = clades c.
Proof. reflexivity. Qed.

Lemma renamed_same_fields idx c c' c'' :
  renamed idx c c' -> same_fields c' c'' -> renamed idx c c''.
Proof. unfold renamed, same_fields. intuition congruence. Qed.

Lemma set_uniq_step_other st it q :
  q <> item_pos it ->
  opt_rel same_fields (get_node (fst st) q) (get_node (fst (set_uniq_step st it)) q).
Proof.
  destruct st as [t a], it as [k [p c]]. unfold item_pos. simpl. intros Hq.
  destruct (get_node t p) as [node|]; [|apply opt_rel_refl, same_fields_refl].
  destruct (name node); simpl; [apply opt_rel_refl, same_fields_refl|].
  apply get_node_update_other; auto.
Qed.

Lemma set_uniq_step_same st k p c node :
  get_node (fst st) p = Some node ->
  exists c', get_node (fst (set_uniq_step st (k, (p, c)))) p = Some c' /\
             renamed k node c'.
Proof.
  destruct st as [t a]. simpl. intros H. rewrite H.
  destruct (name node) as [s|] eqn:Hn; simpl.
  - exists node. split; auto. unfold renamed, innode_name_after. rewrite Hn. auto.
  - exists (with_name (Some (uniq_innode_name k)) node). split.
    + apply get_node_update_same. assumption.
    + unfold renamed, innode_name_after. rewrite Hn. simpl. auto.
Qed.

Lemma set_uniq_step_positions st it :
  positions (fst (set_uniq_step st it)) = positions (fst st).
Proof.
  destruct st as [t a], it as [k [p c]]. simpl.
  destruct (get_node t p) as [node|]; auto.
  destruct (name node); simpl; auto.
  apply positions_update. apply with_name_clades.
Qed.

Lemma set_uniq_step_names st it :
  snd (set_uniq_step st it) = snd st ++ auto_name_in (fst st) it.
Proof.
  destruct st as [t a], it as [k [p c]]. unfold auto_name_in, item_pos. simpl.
  destruct (get_node t p) as [node|]; simpl; [|rewrite app_nil_r; auto].
  destruct (name node); simpl; [rewrite app_nil_r|]; auto.
Qed.

Lemma auto_name_in_same_fields t t' it :
  opt_rel same_fields (get_node t (item_pos it)) (get_node t' (item_pos it)) ->
  auto_name_in t it = auto_name_in t' it.
Proof.
  unfold auto_name_in.
  destruct (get_node t (item_pos it)) as [c|], (get_node t' (item_pos it)) as [c'|];
    simpl; try tauto.
  intros (Hn & _). rewrite Hn. reflexivity.
Qed.

Lemma flat_map_ext_in' {A B : Type} (f g : A -> list B) (l : list A) :
  (forall x, In x l -> f x = g x) -> flat_map f l = flat_map g l.
Proof.
  induction l as [|x r IH]; simpl; intros H; auto.
  rewrite H, IH; auto.
Qed.

Lemma set_uniq_fold (its : list (nat * (pos * Clade))) :
  NoDup (map item_pos its) ->
  forall st,
    let st' := fold_left set_uniq_step its st in
    positions (fst st') = positions (fst st) /\
    snd st' = snd st ++ flat_map (auto_name_in (fst st)) its /\
    (forall q, ~ In q (map item_pos its) ->
               opt_rel same_fields (get_node (fst st) q) (get_node (fst st') q)) /\
    (forall k p c node, In (k, (p, c)) its -> get_node (fst st) p = Some node ->
               exists c', get_node (fst st') p = Some c' /\ renamed k node c').
Proof.
  induction its as [|it its IH]; intros Hnd st; simpl.
  - rewrite app_nil_r. repeat split; auto.
    + intros q _. apply opt_rel_refl, same_fields_refl.
    + intros k p c node [].
  - inversion Hnd as [|x l Hnotin Hnd']; subst.
    destruct (IH Hnd' (set_uniq_step st it)) as (Hpos & Hnames & Hother & Hsame).
    split; [|split; [|split]].
    + rewrite Hpos. apply set_uniq_step_positions.
    + rewrite Hnames, set_uniq_step_names, <- app_assoc. do 2 f_equal.
      apply flat_map_ext_in'. intros it' Hin. symmetry.
      apply auto_name_in_same_fields, set_uniq_step_other.
      intros E. apply Hnotin. rewrite <- E. apply in_map; assumption.
    + intros q Hq.
      eapply opt_rel_trans; [apply same_fields_trans | | apply Hother; tauto].
      apply set_uniq_step_other. intros E; apply Hq; auto.
    + intros k p c node [E | Hin] Hget.
      * subst it.
        destruct (set_uniq_step_same st k p c node Hget) as (c1 & Hc1 & Hr).
        specialize (Hother p Hnotin). rewrite Hc1 in Hother.
        destruct (get_node (fst (fold_left set_uniq_step its
                    (set_uniq_step st (k, (p, c))))) p) as [c2|]; simpl in Hother;
          [|tauto].
        exists c2. split; auto. eapply renamed_same_fields; eauto.
      * assert (Hne : p <> item_pos it).
        { intros E. apply Hnotin. rewrite <- E.
          change p with (item_pos (k, (p, c))). apply in_map; assumption. }
        pose proof (set_uniq_step_other st it p Hne) as Hrel. rewrite Hget in Hrel.
        destruct (get_node (fst (set_uniq_step st it)) p) as [node1|] eqn:Hg1;
          simpl in Hrel; [|tauto].
        destruct (Hsame k p c node1 Hin Hg1) as (c' & Hc' & Hr).
        exists c'. split; auto. unfold renamed, innode_name_after in *.
        destruct Hrel as (E1 & E2 & E3 & E4). rewrite E1, E2, E3, E4. exact Hr.
Qed.

Lemma map_item_pos_enumerate (l : list (pos * Clade)) :
  forall s, map item_pos (enumerate s l) = map fst l.
Proof. induction l as [|x r IH]; intros s; simpl; [|rewrite IH]; reflexivity. Qed.

Lemma in_enumerate {A : Type} (l : list A) :
  forall s k x, In (k, x) (enumerate s l) -> In x l /\ s <= k.
Proof.
  induction l as [|y r IH]; intros s k x; simpl; [tauto|].
  intros [E | H].
  - inversion E; subst. auto.
  - apply IH in H. destruct H; split; auto. lia.
Qed.

Lemma NoDup_map_filter {A B : Type} (f : A -> B) (g : A -> bool) (l : list A) :
  NoDup (map f l) -> NoDup (map f (filter g l)).
Proof.
  induction l as [|x r IH]; simpl; intros H; [constructor|].
  inversion H as [|y l' Hn Hd]; subst.
  destruct (g x); simpl; auto. constructor; auto.
  intros Hin. apply Hn. rewrite in_map_iff in *.
  destruct Hin as (z & E & Hz). exists z. split; auto.
  apply filter_In in Hz. tauto.
Qed.

Lemma NoDup_nonterminal_items (t : Clade) :
  NoDup (map item_pos (enumerate 1 (get_nonterminals t))).
Proof.
  rewrite map_item_pos_enumerate. unfold get_nonterminals.
  apply NoDup_map_filter. apply NoDup_positions.
Qed.

Lemma in_get_nonterminals t p c :
  In (p, c) (get_nonterminals t) <-> get_node t p = Some c /\ is_terminal c = false.
Proof.
  unfold get_nonterminals. rewrite filter_In, in_preorder.
  unfold terminal_at. simpl. rewrite negb_true_iff. tauto.
Qed.

Lemma in_get_terminals t p c :
  In (p, c) (get_terminals t) <-> get_node t p = Some c /\ is_terminal c = true.
Proof.
  unfold get_terminals. rewrite filter_In, in_preorder.
  unfold terminal_at. simpl. tauto.
Qed.

Lemma auto_name_in_enumerated t it :
  In it (enumerate 1 (get_nonterminals t)) -> auto_name_in t it = auto_name_of it.
Proof.
  destruct it as [k [p c]]. intros H. apply in_enumerate in H. destruct H as [H _].
  apply in_get_nonterminals in H. destruct H as [H _].
  unfold auto_name_in, auto_name_of, item_pos. simpl. rewrite H. reflexivity.
Qed.

(** The list of generated names, in the order of the enumeration. *)
Lemma set_uniq_innode_name_labels (t : Clade) :
  snd (_set_uniq_innode_name t) =
  flat_map auto_name_of (enumerate 1 (get_nonterminals t)).
Proof.
  unfold _set_uniq_innode_name.
  destruct (set_uniq_fold _ (NoDup_nonterminal_items t) (t, [])) as (_ & H & _).
  rewrite H. simpl. apply flat_map_ext_in'. apply auto_name_in_enumerated.
Qed.

Lemma set_uniq_innode_name_positions (t : Clade) :
  positions (fst (_set_uniq_innode_name t)) = positions t.
Proof.
  unfold _set_uniq_innode_name.
  destruct (set_uniq_fold _ (NoDup_nonterminal_items t) (t, [])) as (H & _).
  exact H.
Qed.

(** Terminal clades keep all their fields. *)
Lemma set_uniq_innode_name_terminal (t : Clade) p c :
  get_node t p = Some c -> is_terminal c = true ->
  exists c', get_node (fst (_set_uniq_innode_name t)) p = Some c' /\
             same_fields c c'.
Proof.
  intros Hget Hterm. unfold _set_uniq_innode_name.
  destruct (set_uniq_fold _ (NoDup_nonterminal_items t) (t, [])) as (_ & _ & H & _).
  specialize (H p). simpl in H. rewrite Hget in H.
  match type of H with _ -> opt_rel _ _ ?x => destruct x as [c'|] end.
  - exists c'. split; auto. apply H.
    rewrite map_item_pos_enumerate, in_map_iff. intros ((q & c0) & E & Hin).
    simpl in E; subst q. apply in_get_nonterminals in Hin. destruct Hin as [H1 H2].
    congruence.
  - exfalso. apply H.
    rewrite map_item_pos_enumerate, in_map_iff. intros ((q & c0) & E & Hin).
    simpl in E; subst q. apply in_get_nonterminals in Hin. destruct Hin as [H1 H2].
    congruence.
Qed.

Lemma set_uniq_innode_name_internal (t : Clade) idx p c :
  In (idx, (p, c)) (enumerate 1 (get_nonterminals t)) ->
  exists c', get_node (fst (_set_uniq_innode_name t)) p = Some c' /\
             renamed idx c c'.
Proof.
  intros Hin. unfold _set_uniq_innode_name.
  destruct (set_uniq_fold _ (NoDup_nonterminal_items t) (t, [])) as (_ & _ & _ & H).
  apply (H idx p c c Hin). simpl.
  apply in_enumerate in Hin. destruct Hin as [Hin _].
  apply in_get_nonterminals in Hin. tauto.
Qed.

(** C9 (as the code has it). An internal clade without a name receives
    [N_<idx>], where [idx] is its rank, counted from 1, among all internal
    clades (named or not) in the preorder traversal that
    [tree.get_nonterminals()] performs; the generated name is appended to
    the returned list of automatic names. *)
Theorem set_uniq_innode_name_preorder (t : Clade) (idx : nat) (p : pos) (c : Clade) :
  In (idx, (p, c)) (enumerate 1 (get_nonterminals t)) ->
  name c = None ->
  (exists c', get_node (fst (_set_uniq_innode_name t)) p = Some c' /\
              name c' = Some (uniq_innode_name idx) /\
              is_terminal c' = false) /\
  In (uniq_innode_name idx) (snd (_set_uniq_innode_name t)).
Proof.
  intros Hin Hname. split.
  - destruct (set_uniq_innode_name_internal t idx p c Hin) as (c' & Hget & Hr).
    exists c'. split; auto. destruct Hr as (Hn & _ & _ & Hlen).
    unfold innode_name_after in Hn. rewrite Hname in Hn. split; auto.
    apply in_enumerate in Hin. destruct Hin as [Hin _].
    apply in_get_nonterminals in Hin. destruct Hin as [_ Ht].
    unfold is_terminal in *. destruct (clades c), (clades c'); simpl in *; congruence.
  - rewrite set_uniq_innode_name_labels. apply in_flat_map.
    exists (idx, (p, c)). split; auto. unfold auto_name_of. simpl.
    rewrite Hname. simpl. auto.
Qed.

Lemma set_uniq_innode_name_preorder_witness :
  (exists c', get_node (fst (_set_uniq_innode_name tree_abcde)) [1] = Some c' /\
              name c' = Some (uniq_innode_name 4) /\
              is_terminal c' = false) /\
  In (uniq_innode_name 4) (snd (_set_uniq_innode_name tree_abcde)).
Proof.
  apply (set_uniq_innode_name_preorder tree_abcde 4 [1]
           (inner [leaf "D"; leaf "E"])).
  - simpl. auto.
  - reflexivity.
Defined.

(** C9 (as stated) fails: in [(((A,B),C),(D,E));] the clade [(D,E)] is the
    third internal clade in level order, yet it is named [N_4]. *)
Lemma set_uniq_innode_name_not_level_order : ~ named_in_level_order tree_abcde.
Proof.
  intros H.
  destruct (H 3 [1] (inner [leaf "D"; leaf "E"])) as (c' & Hget & Hname).
  - simpl. auto.
  - reflexivity.
  - vm_compute in Hget. inversion Hget; subst. vm_compute in Hname. discriminate.
Qed.

(** ** Dictionaries *)

Lemma dict_get_set_eq {V : Type} (d : dict V) k (v : V) :
  dict_get (dict_set d k v) k = Some v.
Proof.
  induction d as [|[k' v'] r IH]; simpl.
  - rewrite String.eqb_refl. reflexivity.
  - destruct (String.eqb k' k) eqn:E; simpl; rewrite E; auto.
Qed.

Lemma dict_get_set_ne {V : Type} (d : dict V) k k' (v : V) :
  k <> k' -> dict_get (dict_set d k v) k' = dict_get d k'.
Proof.
  intros Hne. induction d as [|[k0 v0] r IH]; simpl.
  - destruct (String.eqb k k') eqn:E; auto.
    apply String.eqb_eq in E. contradiction.
  - destruct (String.eqb k0 k) eqn:E; simpl.
    + apply String.eqb_eq in E. subst k0.
      destruct (String.eqb k k') eqn:E'; auto.
      apply String.eqb_eq in E'. contradiction.
    + rewrite IH. reflexivity.
Qed.

Lemma dict_get_set {V : Type} (d : dict V) k k' (v : V) :
  dict_get (dict_set d k v) k' = if String.eqb k k' then Some v else dict_get d k'.
Proof.
  destruct (String.eqb k k') eqn:E.
  - apply String.eqb_eq in E. subst. apply dict_get_set_eq.
  - apply String.eqb_neq in E. apply dict_get_set_ne; auto.
Qed.

Lemma in_keys_dict_set {V : Type} (d : dict V) k k' (v : V) :
  In k' (keys (dict_set d k v)) <-> k' = k \/ In k' (keys d).
Proof.
  induction d as [|[k0 v0] r IH]; simpl.
  - intuition.
  - destruct (String.eqb k0 k) eqn:E; simpl.
    + apply String.eqb_eq in E. subst. intuition.
    + rewrite IH. intuition.
Qed.

Lemma NoDup_keys_dict_set {V : Type} (d : dict V) k (v : V) :
  NoDup (keys d) -> NoDup (keys (dict_set d k v)).
Proof.
  induction d as [|[k0 v0] r IH]; simpl; intros H.
  - constructor; [simpl; tauto | constructor].
  - inversion H as [|x l Hn Hd]; subst.
    destruct (String.eqb k0 k) eqn:E; simpl.
    + constructor; auto.
    + constructor; auto. fold (keys (dict_set r k v)).
      rewrite in_keys_dict_set. apply String.eqb_neq in E.
      intros [E' | Hin]; [congruence | contradiction].
Qed.

Lemma dict_get_in {V : Type} (d : dict V) k (v : V) :
  dict_get d k = Some v -> In (k, v) d.
Proof.
  induction d as [|[k0 v0] r IH]; simpl; [discriminate|].
  destruct (String.eqb k0 k) eqn:E.
  - apply String.eqb_eq in E. intros H; inversion H; subst; auto.
  - auto.
Qed.

Lemma dict_get_none {V : Type} (d : dict V) k :
  dict_get d k = None <-> ~ In k (keys d).
Proof.
  induction d as [|[k0 v0] r IH]; simpl; [tauto|].
  destruct (String.eqb k0 k) eqn:E.
  - apply String.eqb_eq in E. split; [discriminate | tauto].
  - apply String.eqb_neq in E. rewrite IH. tauto.
Qed.

Lemma in_dict_get {V : Type} (d : dict V) k (v : V) :
  NoDup (keys d) -> In (k, v) d -> dict_get d k = Some v.
Proof.
  induction d as [|[k0 v0] r IH]; simpl; [tauto|].
  intros Hnd [E | Hin]; inversion Hnd as [|x l Hn Hd]; subst.
  - inversion E; subst. rewrite String.eqb_refl. reflexivity.
  - destruct (String.eqb k0 k) eqn:E.
    + apply String.eqb_eq in E. subst. exfalso. apply Hn.
      apply (in_map fst) in Hin. exact Hin.
    + auto.
Qed.

(** ** [Counter] and [_check_node_name_dup] *)

Lemma Counter_fold (l : list string) :
  forall d k,
    dict_get (fold_left count_step l d) k =
    match count_occ string_dec l k with
    | 0 => dict_get d k
    | S n => Some (S n + match dict_get d k with Some m => m | None => 0 end)
    end.
Proof.
  induction l as [|x r IH]; intros d k; simpl; auto.
  rewrite IH. unfold count_step. rewrite dict_get_set.
  destruct (string_dec x k) as [->|Hne].
  - rewrite String.eqb_refl. destruct (count_occ string_dec r k); simpl; f_equal; lia.
  - apply String.eqb_neq in Hne. rewrite Hne. reflexivity.
Qed.

Lemma Counter_keys_fold (l : list string) :
  forall d, NoDup (keys d) -> NoDup (keys (fold_left count_step l d)).
Proof.
  induction l as [|x r IH]; intros d H; simpl; auto.
  apply IH. apply NoDup_keys_dict_set. exact H.
Qed.

Lemma Counter_get (l : list string) (k : string) :
  dict_get (Counter l) k =
  match count_occ string_dec l k with 0 => None | S n => Some (S n) end.
Proof.
  unfold Counter. change (fun d k0 => dict_set d k0 _) with count_step.
  rewrite Counter_fold. simpl. destruct (count_occ string_dec l k); auto.
Qed.

Lemma in_Counter (l : list string) (k : string) (c : nat) :
  In (k, c) (Counter l) <-> c = count_occ string_dec l k /\ 0 < c.
Proof.
  split.
  - intros H. apply in_dict_get in H.
    + rewrite Counter_get in H. destruct (count_occ string_dec l k); inversion H.
      split; auto. lia.
    + apply (Counter_keys_fold l []). constructor.
  - intros [-> H]. apply dict_get_in. rewrite Counter_get.
    destruct (count_occ string_dec l k); [lia | reflexivity].
Qed.

Lemma in_duplicated (l : list string) (k : string) (c : nat) :
  In (k, c) (duplicated l) <-> c = count_occ string_dec l k /\ 1 < c.
Proof.
  unfold duplicated. rewrite filter_In, in_Counter. simpl.
  rewrite Nat.ltb_lt. intuition lia.
Qed.

Lemma duplicated_nil (l : list string) : duplicated l = [] <-> NoDup l.
Proof.
  rewrite (NoDup_count_occ string_dec). split.
  - intros H k. destruct (le_lt_dec (count_occ string_dec l k) 1) as [|Hlt]; auto.
    assert (Hin : In (k, count_occ string_dec l k) (duplicated l))
      by (apply in_duplicated; auto).
    rewrite H in Hin. destruct Hin.
  - intros H. destruct (duplicated l) as [|[k c] r] eqn:E; auto.
    assert (Hin : In (k, c) (duplicated l)) by (rewrite E; left; auto).
    apply in_duplicated in Hin. specialize (H k). lia.
Qed.

Lemma check_node_name_dup_ok (tree : Clade) :
  _check_node_name_dup tree = Ok tt <-> NoDup (all_node_names tree).
Proof.
  rewrite <- duplicated_nil. unfold _check_node_name_dup.
  fold (duplicated (all_node_names tree)).
  destruct (duplicated (all_node_names tree)); split; auto; discriminate.
Qed.

Lemma check_node_name_dup_raise (tree : Clade) :
  ~ NoDup (all_node_names tree) ->
  _check_node_name_dup tree =
  Raise (DuplicateNames (duplicated (all_node_names tree))).
Proof.
  intros H. rewrite <- duplicated_nil in H. unfold _check_node_name_dup.
  fold (duplicated (all_node_names tree)).
  destruct (duplicated (all_node_names tree)); [congruence | reflexivity].
Qed.

(** ** Trees that differ in branch lengths only *)

Lemma same_but_bl_refl c : same_but_bl c c.
Proof. repeat split. Qed.

Lemma same_but_bl_sym c c' : same_but_bl c c' -> same_but_bl c' c.
Proof. unfold same_but_bl. intuition congruence. Qed.

Lemma same_but_bl_trans c1 c2 c3 :
  same_but_bl c1 c2 -> same_but_bl c2 c3 -> same_but_bl c1 c3.
Proof. unfold same_but_bl. intuition congruence. Qed.

Lemma same_fields_but_bl c c' : same_fields c c' -> same_but_bl c c'.
Proof. unfold same_fields, same_but_bl. tauto. Qed.

Lemma same_but_bl_terminal c c' :
  same_but_bl c c' -> is_terminal c = is_terminal c'.
Proof.
  intros (_ & _ & H). unfold is_terminal.
  destruct (clades c), (clades c'); simpl in H; congruence.
Qed.

Lemma opt_rel_impl {A : Type} (R R' : A -> A -> Prop) :
  (forall a b, R a b -> R' a b) -> forall x y, opt_rel R x y -> opt_rel R' x y.
Proof. intros H [a|] [b|]; simpl; auto. Qed.

Lemma opt_rel_sym {A : Type} (R : A -> A -> Prop) :
  (forall a b, R a b -> R b a) -> forall x y, opt_rel R x y -> opt_rel R y x.
Proof. intros H [a|] [b|]; simpl; auto. Qed.

Lemma tree_agree_refl t : tree_agree t t.
Proof. split; auto. intros p. apply opt_rel_refl, same_but_bl_refl. Qed.

Lemma tree_agree_sym t t' : tree_agree t t' -> tree_agree t' t.
Proof.
  intros [H1 H2]. split; auto. intros p.
  apply opt_rel_sym; [apply same_but_bl_sym | apply H2].
Qed.

Lemma tree_agree_trans t1 t2 t3 :
  tree_agree t1 t2 -> tree_agree t2 t3 -> tree_agree t1 t3.
Proof.
  intros [H1 H2] [H3 H4]. split; [congruence|]. intros p.
  eapply opt_rel_trans; [apply same_but_bl_trans | apply H2 | apply H4].
Qed.

Lemma set_branch_length_agree t q v : tree_agree t (set_branch_length t q v).
Proof.
  unfold set_branch_length. split.
  - symmetry. apply positions_update. apply with_branch_length_clades.
  - intros p. destruct (list_eq_dec Nat.eq_dec p q) as [->|Hne].
    + destruct (get_node t q) as [c|] eqn:Hg.
      * erewrite get_node_update_same by eassumption. simpl. repeat split.
      * rewrite get_node_update_invalid by assumption. rewrite Hg. exact I.
    + eapply opt_rel_impl; [apply same_fields_but_bl|].
      apply get_node_update_other; auto.
Qed.

Lemma branch_length_at_set_same t q v :
  get_node t q <> None -> branch_length_at (set_branch_length t q v) q = v.
Proof.
  intros H. unfold branch_length_at, set_branch_length.
  destruct (get_node t q) as [c|] eqn:Hg; [|congruence].
  erewrite get_node_update_same by eassumption. reflexivity.
Qed.

Lemma branch_length_at_set_other t q q' v :
  q' <> q -> branch_length_at (set_branch_length t q v) q' = branch_length_at t q'.
Proof.
  intros Hne. unfold branch_length_at, set_branch_length.
  pose proof (get_node_update_other (with_branch_length v)
                (with_branch_length_clades v) q t q' Hne) as H.
  destruct (get_node t q') as [c|],
           (get_node (update_at (with_branch_length v) q t) q') as [c'|];
    simpl in H; try tauto.
  symmetry. apply H.
Qed.

Lemma tree_agree_valid t t' p :
  tree_agree t t' -> get_node t p <> None -> get_node t' p <> None.
Proof.
  intros [_ H] Hv. specialize (H p).
  destruct (get_node t p), (get_node t' p); simpl in H; congruence || tauto.
Qed.

(** A loop that assigns branch lengths along a list of distinct clades:
    the clade at [q] gets [g] of its current branch length. *)
Section UpdateLoop.
Variable stp : Clade -> pos -> Clade.
Variable g : option Q -> option Q.
Hypothesis stp_agree : forall t q, tree_agree t (stp t q).
Hypothesis stp_same : forall t q,
    get_node t q <> None ->
    branch_length_at (stp t q) q = g (branch_length_at t q).
Hypothesis stp_other : forall t q q',
    q' <> q -> branch_length_at (stp t q) q' = branch_length_at t q'.

Lemma update_loop (path : list pos) :
  NoDup path ->
  forall t, (forall q, In q path -> get_node t q <> None) ->
    let t' := fold_left stp path t in
    tree_agree t t' /\
    (forall q, In q path -> branch_length_at t' q = g (branch_length_at t q)) /\
    (forall q, ~ In q path -> branch_length_at t' q = branch_length_at t q).
Proof.
  induction path as [|q0 path IH]; intros Hnd t Hvalid; simpl.
  - split; [apply tree_agree_refl|]. split; auto. intros q [].
  - inversion Hnd as [|x l Hnotin Hnd']; subst.
    destruct (IH Hnd' (stp t q0)) as (Ha & Hin & Hout).
    { intros q Hq. eapply tree_agree_valid; [apply stp_agree|].
      apply Hvalid. right; assumption. }
    split; [|split].
    + eapply tree_agree_trans; [apply stp_agree | exact Ha].
    + intros q [-> | Hq].
      * rewrite Hout by assumption. apply stp_same. apply Hvalid. left; auto.
      * rewrite Hin by assumption. f_equal. apply stp_other.
        intros ->. contradiction.
    + intros q Hq. rewrite Hout by tauto. apply stp_other.
      intros ->. apply Hq. left; auto.
Qed.
End UpdateLoop.

(** ** Paths *)

Lemma in_path_to (p : pos) :
  forall q, In q (path_to p) <-> q <> [] /\ exists r, p = q ++ r.
Proof.
  induction p as [|i p IH]; intros q; simpl.
  - split; [tauto|]. intros (Hq & r & E). destruct q; [congruence|discriminate].
  - rewrite in_map_iff. split.
    + intros [<- | (q' & <- & Hq')].
      * split; [discriminate|]. exists p. reflexivity.
      * apply IH in Hq'. destruct Hq' as (_ & r & ->).
        split; [discriminate|]. exists r. reflexivity.
    + intros (Hq & r & E). destruct q as [|j q]; [congruence|].
      simpl in E. inversion E; subst. destruct q as [|k q]; auto.
      right. exists (k :: q). split; auto. apply IH. split; [discriminate|].
      exists r. reflexivity.
Qed.

Lemma NoDup_path_to (p : pos) : NoDup (path_to p).
Proof.
  induction p as [|i p IH]; simpl; constructor.
  - rewrite in_map_iff. intros (q & E & Hq). inversion E; subst.
    apply in_path_to in Hq. tauto.
  - apply Finite.Injective_map_NoDup; auto. intros a b E; congruence.
Qed.

Lemma length_path_to (p : pos) : List.length (path_to p) = List.length p.
Proof. induction p; simpl; [|rewrite length_map]; auto. Qed.

Lemma in_path_to_self (p : pos) : p <> [] -> In p (path_to p).
Proof.
  intros H. apply in_path_to. split; auto. exists []. rewrite app_nil_r. auto.
Qed.

Lemma get_node_prefix (q : pos) :
  forall t r, get_node t (q ++ r) <> None -> get_node t q <> None.
Proof.
  induction q as [|i q IH]; intros t r; simpl; [discriminate|].
  destruct (nth_error (clades t) i); [apply IH | auto].
Qed.

Lemma path_to_valid t p :
  get_node t p <> None -> forall q, In q (path_to p) -> get_node t q <> None.
Proof.
  intros Hp q Hq. apply in_path_to in Hq. destruct Hq as (_ & r & ->).
  eapply get_node_prefix; eauto.
Qed.

(** Nothing lies below a terminal clade. *)
Lemma terminal_no_extension (q : pos) :
  forall t c r, get_node t q = Some c -> is_terminal c = true ->
                get_node t (q ++ r) <> None -> r = [].
Proof.
  induction q as [|i q IH]; intros t c r; simpl.
  - intros E Ht. inversion E; subst. destruct r as [|j r]; auto. simpl.
    unfold is_terminal in Ht. destruct (clades c); [|discriminate].
    destruct j; simpl; congruence.
  - destruct (nth_error (clades t) i); [apply IH | discriminate].
Qed.

(** ** The loops of [_to_ultrametric_tree] over a path *)

Lemma branch_length_at_invalid t q :
  get_node t q = None -> branch_length_at t q = None.
Proof. unfold branch_length_at. intros ->. reflexivity. Qed.

Lemma reset_branch_lengths_spec (t : Clade) :
  tree_agree t (reset_branch_lengths t) /\
  branch_length_at (reset_branch_lengths t) [] = Some 0%Q /\
  (forall q, q <> [] -> branch_length_at (reset_branch_lengths t) q = None).
Proof.
  unfold reset_branch_lengths.
  destruct (update_loop (fun t p => set_branch_length t p None) (fun _ => None)
              (fun t q => set_branch_length_agree t q None)
              (fun t q => branch_length_at_set_same t q None)
              (fun t q q' => branch_length_at_set_other t q q' None)
              (positions t) (NoDup_positions t) t) as (Ha & Hin & Hout).
  { intros q Hq. apply in_positions in Hq. destruct Hq as (c & ->). discriminate. }
  set (cleared := fold_left _ (positions t) t) in *.
  split; [|split].
  - eapply tree_agree_trans; [exact Ha | apply set_branch_length_agree].
  - apply branch_length_at_set_same. simpl. discriminate.
  - intros q Hq. rewrite branch_length_at_set_other by assumption.
    destruct (in_dec (list_eq_dec Nat.eq_dec) q (positions t)) as [Hi|Hn].
    + apply Hin; assumption.
    + rewrite Hout by assumption. apply branch_length_at_invalid.
      destruct (get_node t q) as [c|] eqn:E; auto.
      exfalso. apply Hn. apply in_positions. eauto.
Qed.

Lemma set_path_unit_spec (t : Clade) (path : list pos) :
  NoDup path -> (forall q, In q path -> get_node t q <> None) ->
  tree_agree t (set_path_unit t path) /\
  (forall q, In q path -> branch_length_at (set_path_unit t path) q = Some 1%Q) /\
  (forall q, ~ In q path ->
             branch_length_at (set_path_unit t path) q = branch_length_at t q).
Proof.
  intros Hnd Hv. unfold set_path_unit.
  apply (update_loop (fun t q => set_branch_length t q (Some 1%Q))
           (fun _ => Some 1%Q)
           (fun t q => set_branch_length_agree t q _)
           (fun t q => branch_length_at_set_same t q _)
           (fun t q q' => branch_length_at_set_other t q q' _)
           path Hnd t Hv).
Qed.

Lemma fill_path_spec (t : Clade) (path : list pos) (other_bl : Q) :
  NoDup path -> (forall q, In q path -> get_node t q <> None) ->
  tree_agree t (fill_path t path other_bl) /\
  (forall q, In q path ->
             branch_length_at (fill_path t path other_bl) q =
             fill_value other_bl (branch_length_at t q)) /\
  (forall q, ~ In q path ->
             branch_length_at (fill_path t path other_bl) q = branch_length_at t q).
Proof.
  intros Hnd Hv. unfold fill_path.
  apply (update_loop
           (fun t q => match branch_length_at t q with
                       | None => set_branch_length t q (Some other_bl)
                       | Some _ => t
                       end)
           (fill_value other_bl)); auto.
  - intros t0 q. destruct (branch_length_at t0 q);
      [apply tree_agree_refl | apply set_branch_length_agree].
  - intros t0 q Hq. destruct (branch_length_at t0 q) as [b|] eqn:E; simpl.
    + exact E.
    + apply branch_length_at_set_same; assumption.
  - intros t0 q q' Hne. destruct (branch_length_at t0 q); auto.
    apply branch_length_at_set_other; assumption.
Qed.

(** ** Sums of branch lengths *)

Lemma fold_left_Qplus {A : Type} (f : A -> Q) (l : list A) :
  forall a, (fold_left (fun acc x => acc + f x) l a == a + Qsum (map f l))%Q.
Proof.
  induction l as [|x r IH]; intros a; simpl.
  - ring.
  - rewrite IH. ring.
Qed.

Lemma sum_branch_lengths_Qsum t path :
  (sum_branch_lengths t path == Qsum (map (bl_or0 t) path))%Q.
Proof.
  unfold sum_branch_lengths.
  rewrite (fold_left_Qplus (fun q => or0 (branch_length_at t q))). 
  unfold bl_or0. ring.
Qed.

Lemma Qsum_ext {A : Type} (f g : A -> Q) (l : list A) :
  (forall x, In x l -> (f x == g x)%Q) -> (Qsum (map f l) == Qsum (map g l))%Q.
Proof.
  induction l as [|x r IH]; simpl; intros H; [reflexivity|].
  rewrite H by auto. rewrite IH by auto. reflexivity.
Qed.

Lemma Qsum_const {A : Type} (f : A -> Q) (l : list A) (v : Q) :
  (forall x, In x l -> (f x == v)%Q) ->
  (Qsum (map f l) == inject_Z (Z.of_nat (List.length l)) * v)%Q.
Proof.
  induction l as [|x r IH]; intros H.
  - simpl. ring.
  - change (List.length (x :: r)) with (S (List.length r)).
    rewrite Nat2Z.inj_succ. unfold Z.succ. rewrite inject_Z_plus.
    simpl Qsum. rewrite H by (left; auto). rewrite IH by (intros; apply H; right; auto).
    change (inject_Z 1) with 1%Q. ring.
Qed.

Lemma fixed_unfixed_count t path :
  fixed_count t path + unfixed_count t path = List.length path.
Proof.
  unfold fixed_count, unfixed_count.
  induction path as [|q r IH]; simpl; auto.
  destruct (is_fixed t q); simpl; lia.
Qed.

Lemma collect_branch_lengths_fold t path :
  forall acc,
    let res := fold_left
      (fun acc q =>
         match branch_length_at t q with
         | Some b => (fst acc + b, S (snd acc))%Q
         | None => acc
         end) path acc in
    (fst res == fst acc + Qsum (map (bl_or0 t) path))%Q /\
    snd res = snd acc + fixed_count t path.
Proof.
  unfold fixed_count, bl_or0, is_fixed.
  induction path as [|q r IH]; intros acc; simpl.
  - split; [ring | lia].
  - destruct (branch_length_at t q) as [b|]; simpl.
    + destruct (IH (fst acc + b, S (snd acc))%Q) as [H1 H2]. simpl in *.
      rewrite H1, H2. split; [ring | lia].
    + destruct (IH acc) as [H1 H2]. rewrite H1, H2. split; [ring | lia].
Qed.

Lemma collect_branch_lengths_spec t path :
  (fst (collect_branch_lengths t path) == Qsum (map (bl_or0 t) path))%Q /\
  snd (collect_branch_lengths t path) = fixed_count t path.
Proof.
  unfold collect_branch_lengths.
  destruct (collect_branch_lengths_fold t path (0%Q, 0)) as [H1 H2].
  simpl in *. rewrite H1, H2. split; [ring | reflexivity].
Qed.

(** The sum along a path after its unfixed edges have received [other]. *)
Lemma Qsum_filled t path other :
  (Qsum (map (fun q => or0 (fill_value other (branch_length_at t q))) path) ==
   Qsum (map (bl_or0 t) path) +
   inject_Z (Z.of_nat (unfixed_count t path)) * other)%Q.
Proof.
  unfold unfixed_count, bl_or0, is_fixed.
  induction path as [|q r IH].
  - simpl. ring.
  - simpl map. simpl Qsum. rewrite IH. simpl filter.
    destruct (branch_length_at t q) as [b|]; simpl negb; cbv iota.
    + simpl. ring.
    + change (List.length (q :: ?l)) with (S (List.length l)).
      simpl List.length. rewrite Nat2Z.inj_succ. unfold Z.succ.
      rewrite inject_Z_plus. change (inject_Z 1) with 1%Q. simpl or0. ring.
Qed.

(** ** Lookups in trees that agree *)

Lemma rows_agree t t' (l l' : list (pos * Clade)) :
  (forall p, opt_rel same_but_bl (get_node t p) (get_node t' p)) ->
  map fst l = map fst l' ->
  Forall (fun pc => get_node t (fst pc) = Some (snd pc)) l ->
  Forall (fun pc => get_node t' (fst pc) = Some (snd pc)) l' ->
  Forall2 row_agree l l'.
Proof.
  intros Hrel. revert l'. induction l as [|[p c] l IH]; intros [|[p' c'] l'] E H H';
    simpl in E; try discriminate; constructor.
  - injection E as Ep _. subst p'.
    apply Forall_inv in H, H'. simpl in H, H'.
    split; simpl; auto. specialize (Hrel p). rewrite H, H' in Hrel. exact Hrel.
  - injection E as _ El. apply Forall_inv_tail in H, H'. apply IH; auto.
Qed.

Lemma preorder_agree t t' :
  tree_agree t t' -> Forall2 row_agree (preorder t) (preorder t').
Proof.
  intros [Hpos Hrel]. apply (rows_agree t t'); auto using preorder_get_node.
Qed.

Lemma Forall2_filter {A : Type} (R : A -> A -> Prop) (f : A -> bool) (l l' : list A) :
  (forall a b, R a b -> f a = f b) ->
  Forall2 R l l' -> Forall2 R (filter f l) (filter f l').
Proof.
  intros Hf. induction 1 as [|a b l l' Hab _ IH]; simpl; [constructor|].
  rewrite (Hf a b Hab). destruct (f b); auto.
Qed.

Lemma matches_agree s c c' : same_but_bl c c' -> matches s c = matches s c'.
Proof. intros (Hn & _). unfold matches. rewrite Hn. reflexivity. Qed.

Lemma find_clades_agree t t' s :
  tree_agree t t' -> Forall2 row_agree (find_clades t s) (find_clades t' s).
Proof.
  intros H. unfold find_clades. apply Forall2_filter.
  - intros a b [_ Hab]. apply matches_agree; assumption.
  - apply preorder_agree; assumption.
Qed.

Lemma find_clades_head t s p c rest :
  find_clades t s = (p, c) :: rest ->
  get_node t p = Some c /\ matches s c = true.
Proof.
  intros H.
  assert (Hin : In (p, c) (find_clades t s)) by (rewrite H; left; auto).
  unfold find_clades in Hin. apply filter_In in Hin. destruct Hin as [Hin Hm].
  apply in_preorder in Hin. auto.
Qed.

Lemma find_clades_empty_target t : find_clades t "" = preorder t.
Proof.
  unfold find_clades. apply forallb_filter_id. apply forallb_forall.
  intros pc _. reflexivity.
Qed.

(** Two different targets whose first matches coincide: only the root,
    matched by the empty target, can be that clade. *)
Lemma find_clades_head_inj t s s' p c c' rest rest' :
  find_clades t s = (p, c) :: rest ->
  find_clades t s' = (p, c') :: rest' ->
  p <> [] -> s = s'.
Proof.
  intros H H' Hp.
  assert (Hs : s <> "").
  { intros ->. rewrite find_clades_empty_target, preorder_unfold in H.
    inversion H; subst. congruence. }
  assert (Hs' : s' <> "").
  { intros ->. rewrite find_clades_empty_target, preorder_unfold in H'.
    inversion H'; subst. congruence. }
  apply find_clades_head in H, H'. destruct H as [Hg Hm], H' as [Hg' Hm'].
  assert (c' = c) by congruence. subst c'.
  unfold matches in Hm, Hm'.
  apply String.eqb_neq in Hs, Hs'. rewrite Hs in Hm. rewrite Hs' in Hm'.
  destruct (name c) as [n|]; [|discriminate].
  apply String.eqb_eq in Hm, Hm'. congruence.
Qed.

(** ** One iteration of the loop *)

Lemma slots_unfixed t path :
  List.length path - snd (collect_branch_lengths t path) = unfixed_count t path.
Proof.
  destruct (collect_branch_lengths_spec t path) as [_ ->].
  pose proof (fixed_unfixed_count t path). lia.
Qed.

Lemma ultrametric_step_outcome tree maxd done current s d :
  tree_agree tree current ->
  fixed_by_done tree done current ->
  ~ In s (keys done) ->
  (is_terminal tree = true -> Qeq_bool d maxd = true) ->
  step_outcome tree maxd current (s, d).
Proof.
  intros Hagree Hfixed Hnew Hroot. unfold step_outcome. simpl fst. simpl snd.
  pose proof (find_clades_agree tree current s Hagree) as HF.
  destruct (find_clades tree s) as [|[p c] rest] eqn:Hfind;
    destruct (find_clades current s) as [|[p' c'] rest'] eqn:E2;
    try (exfalso; inversion HF; fail).
  - left. split; auto. unfold ultrametric_step. rewrite E2. reflexivity.
  - right. exists p, c, rest. split; auto.
    apply Forall2_cons_iff in HF. destruct HF as [[Ep Hc] _]. simpl in Ep, Hc.
    subst p'.
    destruct (find_clades_head _ _ _ _ _ Hfind) as [Hget _].
    destruct (find_clades_head _ _ _ _ _ E2) as [Hget' _].
    unfold ultrametric_step. rewrite E2. simpl.
    rewrite <- (same_but_bl_terminal c c' Hc).
    destruct (is_terminal c) eqn:Hterm; simpl; [|left; auto].
    right. unfold get_path. rewrite Hget'.
    destruct (Qeq_bool d maxd) eqn:Hd; [left; auto|]. right.
    assert (Hunfixed : unfixed_count current (path_to p) <> 0).
    { destruct p as [|i p0].
      - simpl in Hget. injection Hget as ->. discriminate (Hroot Hterm).
      - assert (Hin : In (i :: p0) (path_to (i :: p0)))
          by (apply in_path_to_self; discriminate).
        assert (Hnone : is_fixed current (i :: p0) = false).
        { unfold is_fixed.
          destruct (branch_length_at current (i :: p0)) as [b|] eqn:Hb; auto.
          exfalso. destruct (Hfixed (i :: p0)) as (s' & d' & p' & c1 & r1 & Hs' & Hf' & Ht' & Hq).
          { discriminate. } { congruence. }
          apply in_path_to in Hq. destruct Hq as (_ & r & ->).
          destruct (find_clades_head _ _ _ _ _ Hf') as [Hg1 _].
          assert (r = []).
          { apply (terminal_no_extension (i :: p0) tree c r Hget Hterm).
            rewrite Hg1. discriminate. }
          subst r. rewrite app_nil_r in *.
          assert (s = s').
          { apply (find_clades_head_inj tree s s' (i :: p0) c c1 rest r1 Hfind Hf').
            discriminate. }
          subst s'. apply Hnew. apply (in_map fst) in Hs'. exact Hs'. }
        unfold unfixed_count. intros Hz.
        apply length_zero_iff_nil in Hz.
        assert (Hin' : In (i :: p0)
                  (filter (fun q => negb (is_fixed current q)) (path_to (i :: p0)))).
        { apply filter_In. rewrite Hnone. auto. }
        rewrite Hz in Hin'. destruct Hin'. }
    repeat split; auto.
    destruct (collect_branch_lengths current (path_to p)) as [bl_sum cnt] eqn:Hcol.
    pose proof (slots_unfixed current (path_to p)) as Hslots.
    pose proof (collect_branch_lengths_spec current (path_to p)) as [Hsum _].
    rewrite Hcol in Hslots, Hsum. simpl in Hslots, Hsum. rewrite Hslots.
    destruct (unfixed_count current (path_to p) =? 0) eqn:Hz.
    { apply Nat.eqb_eq in Hz. contradiction. }
    eexists. split; [|reflexivity]. rewrite Hsum. reflexivity.
Qed.

(** ** Loop invariants *)

(** A loop keeps an invariant indexed by the items already processed; an
    iteration that raises does so with an exception satisfying [E]. *)
Lemma for_each_invariant {A S : Type} (body : S -> A -> result S)
  (Inv : list A -> S -> Prop) (E : exn -> Prop) (l : list A) :
  (forall done x rest s,
      l = done ++ x :: rest -> Inv done s ->
      match body s x with
      | Ok s' => Inv (done ++ [x]) s'
      | Raise e => E e
      end) ->
  forall s0, Inv [] s0 ->
    match for_each body l s0 with
    | Ok s' => Inv l s'
    | Raise e => E e
    end.
Proof.
  intros Hstep.
  assert (H : forall rest done s, l = done ++ rest -> Inv done s ->
              match for_each body rest s with
              | Ok s' => Inv l s'
              | Raise e => E e
              end).
  { induction rest as [|x rest IH]; intros done s El HI; simpl.
    - rewrite app_nil_r in El. subst. exact HI.
    - specialize (Hstep done x rest s El HI).
      destruct (body s x) as [s'|e]; simpl; auto.
      apply (IH (done ++ [x])); auto. rewrite <- app_assoc. exact El. }
  intros s0 H0. apply (H l [] s0); auto.
Qed.

Lemma NoDup_keys_dict_of_items {V : Type} (items : list (string * V)) :
  NoDup (keys (dict_of_items items)).
Proof.
  unfold dict_of_items.
  assert (H : forall d, NoDup (keys d) ->
              NoDup (keys (fold_left (fun d kv => dict_set d (fst kv) (snd kv)) items d))).
  { induction items as [|x r IH]; intros d Hd; simpl; auto.
    apply IH. apply NoDup_keys_dict_set. exact Hd. }
  apply H. constructor.
Qed.

Lemma fixed_by_done_mono tree done done' current :
  (forall x, In x done -> In x done') ->
  fixed_by_done tree done current -> fixed_by_done tree done' current.
Proof.
  intros Hsub H q Hq Hb.
  destruct (H q Hq Hb) as (s & d & p & c & rest & Hin & Hrest).
  exists s, d, p, c, rest. split; auto.
Qed.

Lemma fixed_by_done_step tree done current current' s d p c rest :
  find_clades tree s = (p, c) :: rest -> is_terminal c = true ->
  fixed_by_done tree done current ->
  (forall q, ~ In q (path_to p) ->
             branch_length_at current' q = branch_length_at current q) ->
  fixed_by_done tree (done ++ [(s, d)]) current'.
Proof.
  intros Hfind Hterm Hfixed Hout q Hq Hb.
  destruct (in_dec (list_eq_dec Nat.eq_dec) q (path_to p)) as [Hin|Hnin].
  - exists s, d, p, c, rest. repeat split; auto. apply in_or_app. right. left. auto.
  - rewrite Hout in Hb by assumption.
    destruct (Hfixed q Hq Hb) as (s' & d' & p' & c' & rest' & Hin' & Hrest).
    exists s', d', p', c', rest'. split; auto. apply in_or_app. auto.
Qed.

Lemma path_valid_in_current tree current p c :
  tree_agree tree current -> get_node tree p = Some c ->
  forall q, In q (path_to p) -> get_node current q <> None.
Proof.
  intros Ha Hg. apply path_to_valid. eapply tree_agree_valid; eauto. congruence.
Qed.

Lemma loop_invariant_step tree maxd done current item :
  loop_invariant tree done current ->
  step_outcome tree maxd current item ->
  match ultrametric_step maxd current item with
  | Ok current' => loop_invariant tree (done ++ [item]) current'
  | Raise e => e = StopIteration
  end.
Proof.
  intros [Ha Hf] Hout. destruct item as [s d].
  destruct Hout as [[_ ->] | (p & c & rest & Hfind & Hcases)]; auto.
  destruct (find_clades_head _ _ _ _ _ Hfind) as [Hget _].
  pose proof (path_valid_in_current tree current p c Ha Hget) as Hvalid.
  destruct Hcases as [[Hterm ->] | [(Hterm & Hd & ->) | (Hterm & Hd & Hu & o & Ho & ->)]].
  - split; auto. eapply fixed_by_done_mono; [|exact Hf].
    intros x Hx. apply in_or_app. auto.
  - destruct (set_path_unit_spec current (path_to p) (NoDup_path_to p) Hvalid)
      as (Ha' & _ & Hother).
    split; [eapply tree_agree_trans; eauto|].
    eapply fixed_by_done_step; eauto.
  - destruct (fill_path_spec current (path_to p) o (NoDup_path_to p) Hvalid)
      as (Ha' & _ & Hother).
    split; [eapply tree_agree_trans; eauto|].
    eapply fixed_by_done_step; eauto.
Qed.

Lemma reset_invariant tree : loop_invariant tree [] (reset_branch_lengths tree).
Proof.
  destruct (reset_branch_lengths_spec tree) as (Ha & _ & Hnone).
  split; auto. intros q Hq Hb. rewrite Hnone in Hb by assumption. congruence.
Qed.

Lemma single_clade_depth tree :
  is_terminal tree = true ->
  forall s d, In (s, d) (name2depth tree) ->
              Qeq_bool d (max_of (map snd (name2depth tree))) = true.
Proof.
  destruct tree as [n b k cs]. unfold is_terminal. simpl.
  destruct cs; [|discriminate]. intros _ s d. unfold name2depth, depths. simpl.
  unfold dict_of_items. simpl. intros [E | []]. inversion E; subst.
  simpl. apply Qeq_bool_iff. reflexivity.
Qed.

(** Whatever the tree, the only exception [_to_ultrametric_tree] can raise
    is the [StopIteration] of a failed lookup: the divisor is never zero. *)
Lemma to_ultrametric_tree_invariant (tree : Clade) :
  match _to_ultrametric_tree tree with
  | Ok tree' => loop_invariant tree (name2depth tree) tree'
  | Raise e => e = StopIteration
  end.
Proof.
  unfold _to_ultrametric_tree.
  apply (for_each_invariant _ (loop_invariant tree) (fun e => e = StopIteration)).
  - intros done [s d] rest current El HI.
    apply loop_invariant_step; auto. destruct HI as [Ha Hf].
    eapply ultrametric_step_outcome; eauto.
    + pose proof (NoDup_keys_dict_of_items
                    (sorted_desc (dict_of_items
                       (map (fun x => (str_name (snd (fst x)), snd x))
                            (depths true tree))))) as Hnd.
      fold (name2depth tree) in Hnd. rewrite El in Hnd.
      unfold keys in Hnd. rewrite map_app in Hnd. simpl in Hnd.
      apply NoDup_remove_2 in Hnd. intros Hin. apply Hnd.
      apply in_or_app. left. exact Hin.
    + intros Ht. apply (single_clade_depth tree Ht s). rewrite El.
      apply in_or_app. right. left. reflexivity.
  - apply reset_invariant.
Qed.

(** ** Sorting by depth *)

Lemma insert_desc_perm x l : Permutation (insert_desc x l) (x :: l).
Proof.
  induction l as [|y r IH]; simpl; auto.
  destruct (Qle_bool (snd y) (snd x)); auto.
  rewrite IH. apply perm_swap.
Qed.

Lemma sorted_desc_perm l : Permutation (sorted_desc l) l.
Proof.
  induction l as [|x r IH]; simpl; auto.
  rewrite insert_desc_perm. auto.
Qed.

Lemma insert_desc_sorted x l :
  StronglySorted depth_ge l -> StronglySorted depth_ge (insert_desc x l).
Proof.
  induction 1 as [|y r Hs IH Hall]; simpl.
  - constructor; constructor.
  - destruct (Qle_bool (snd y) (snd x)) eqn:E.
    + apply Qle_bool_iff in E. constructor.
      * constructor; auto.
      * constructor; [exact E|].
        eapply Forall_impl; [|exact Hall]. intros z Hz. unfold depth_ge in *.
        eapply Qle_trans; eauto.
    + constructor; auto.
      apply Forall_forall. intros z Hz.
      apply (Permutation_in _ (insert_desc_perm x r)) in Hz.
      destruct Hz as [<- | Hz].
      * unfold depth_ge. apply Qlt_le_weak. apply Qnot_le_lt.
        intros Hle. apply Qle_bool_iff in Hle. congruence.
      * rewrite Forall_forall in Hall. auto.
Qed.

Lemma sorted_desc_sorted l : StronglySorted depth_ge (sorted_desc l).
Proof.
  induction l as [|x r IH]; simpl; [constructor|].
  apply insert_desc_sorted. exact IH.
Qed.

Lemma sorted_before (done : list (string * Q)) x rest :
  StronglySorted depth_ge (done ++ x :: rest) ->
  forall y, In y done -> depth_ge y x.
Proof.
  induction done as [|z done IH]; simpl; intros H y Hy; [tauto|].
  inversion H as [|a l Hs Hall]; subst. destruct Hy as [<- | Hy].
  - rewrite Forall_forall in Hall. apply Hall. apply in_or_app. right. left. auto.
  - apply IH; auto.
Qed.

(** ** The maximum *)

Lemma max_of_fold (l : list Q) :
  forall m,
    let r := fold_left (fun m y => if Qle_bool y m then m else y) l m in
    (m <= r)%Q /\ (forall y, In y l -> (y <= r)%Q) /\ (r = m \/ In r l).
Proof.
  induction l as [|x l IH]; intros m; simpl.
  - split; [apply Qle_refl|]. split; [tauto | auto].
  - destruct (Qle_bool x m) eqn:E.
    + apply Qle_bool_iff in E. destruct (IH m) as (H1 & H2 & H3).
      split; auto. split.
      * intros y [<- | Hy]; auto. eapply Qle_trans; eauto.
      * destruct H3; auto.
    + assert (Hlt : (m < x)%Q).
      { apply Qnot_le_lt. intros Hle. apply Qle_bool_iff in Hle. congruence. }
      destruct (IH x) as (H1 & H2 & H3). split.
      * eapply Qle_trans; [apply Qlt_le_weak; exact Hlt | exact H1].
      * split.
        -- intros y [<- | Hy]; auto.
        -- destruct H3 as [-> | H3]; auto.
Qed.

Lemma max_of_spec (l : list Q) :
  l <> [] ->
  In (max_of l) l /\ forall y, In y l -> (y <= max_of l)%Q.
Proof.
  destruct l as [|x l]; [congruence|]. intros _. simpl.
  destruct (max_of_fold l x) as (H1 & H2 & H3). split.
  - destruct H3 as [-> | H3]; auto.
  - intros y [<- | Hy]; auto.
Qed.

Lemma max_of_perm (l l' : list Q) :
  l <> [] -> Permutation l l' -> (max_of l == max_of l')%Q.
Proof.
  intros Hl Hp.
  assert (Hl' : l' <> []).
  { intros ->. apply Permutation_sym, Permutation_nil in Hp. contradiction. }
  destruct (max_of_spec l Hl) as [Hi Hm]. destruct (max_of_spec l' Hl') as [Hi' Hm'].
  apply Qle_antisym.
  - apply Hm'. eapply Permutation_in; eauto.
  - apply Hm. eapply Permutation_in; [apply Permutation_sym|]; eauto.
Qed.

(** ** Dictionaries built from items with distinct keys *)

Lemma dict_set_fresh {V : Type} (d : dict V) k (v : V) :
  ~ In k (keys d) -> dict_set d k v = d ++ [(k, v)].
Proof.
  induction d as [|[k0 v0] r IH]; simpl; intros H; auto.
  destruct (String.eqb k0 k) eqn:E.
  - apply String.eqb_eq in E. tauto.
  - rewrite IH; auto.
Qed.

Lemma dict_of_items_NoDup {V : Type} (items : list (string * V)) :
  NoDup (keys items) -> dict_of_items items = items.
Proof.
  unfold dict_of_items.
  assert (H : forall d, NoDup (keys (d ++ items)) ->
              fold_left (fun d kv => dict_set d (fst kv) (snd kv)) items d
              = d ++ items).
  { induction items as [|[k v] r IH]; intros d Hd; simpl.
    - rewrite app_nil_r. reflexivity.
    - rewrite dict_set_fresh.
      + rewrite IH; rewrite <- app_assoc; auto.
      + unfold keys in Hd. rewrite map_app in Hd. simpl in Hd.
        apply NoDup_remove_2 in Hd. intros Hin. apply Hd.
        apply in_or_app. auto. }
  intros Hnd. apply (H []). exact Hnd.
Qed.

(** ** Depths *)

Lemma in_walk_depths u (f : Clade -> Q -> list (pos * Clade * Q)) curr (l : list Clade) :
  forall s p c d,
    In (p, c, d) (walk_depths u f curr s l) <->
    exists i c0 p', nth_error l i = Some c0 /\ p = (s + i) :: p' /\
                    In (p', c, d) (f c0 (curr + depth_of u c0)%Q).
Proof.
  induction l as [|x r IH]; intros s p c d; simpl.
  - split; [tauto|]. intros (i & c0 & p' & H & _). destruct i; discriminate.
  - rewrite in_app_iff, in_map_iff, IH. split.
    + intros [([[p' c'] d'] & E & Hin) | (i & c0 & p' & Hn & -> & Hin)].
      * simpl in E. inversion E; subst. exists 0, x, p'.
        rewrite Nat.add_0_r. auto.
      * exists (S i), c0, p'. rewrite Nat.add_succ_r. auto.
    + intros (i & c0 & p' & Hn & -> & Hin). destruct i as [|i]; simpl in Hn.
      * left. inversion Hn; subst. exists (p', c, d). rewrite Nat.add_0_r. auto.
      * right. exists i, c0, p'. rewrite Nat.add_succ_r. auto.
Qed.

Lemma update_depths_unfold u t curr :
  update_depths u t curr =
  ([], t, curr) :: walk_depths u (update_depths u) curr 0 (clades t).
Proof. destruct t; reflexivity. Qed.

Lemma walk_depths_rows u (cs : list Clade) :
  Forall (fun c => forall curr, map fst (update_depths u c curr) = preorder c) cs ->
  forall i curr,
    map fst (walk_depths u (update_depths u) curr i cs) = walk_list preorder i cs.
Proof.
  induction 1 as [|c r Hc _ IH]; intros i curr; simpl; auto.
  rewrite map_app, IH. f_equal. rewrite map_map. simpl.
  rewrite <- (Hc (curr + depth_of u c)%Q). rewrite map_map. reflexivity.
Qed.

Lemma update_depths_rows u t :
  forall curr, map fst (update_depths u t curr) = preorder t.
Proof.
  induction t as [n b k cs IH] using Clade_rect'. intros curr. simpl.
  f_equal. apply walk_depths_rows. exact IH.
Qed.

Lemma depths_rows u t : map fst (depths u t) = preorder t.
Proof. apply update_depths_rows. Qed.

(** With unit branch lengths the depth of a clade is the number of edges
    above it, counted from the root's own branch length. *)
Lemma update_depths_unit (p : pos) :
  forall t curr c d,
    In (p, c, d) (update_depths true t curr) ->
    (d == curr + inject_Z (Z.of_nat (List.length p)))%Q.
Proof.
  induction p as [|i p IH]; intros t curr c d; rewrite update_depths_unfold; simpl In.
  - intros [E | H].
    + inversion E; subst. simpl. ring.
    + apply in_walk_depths in H. destruct H as (j & c0 & p' & _ & E & _). discriminate.
  - intros [E | H]; [discriminate|].
    apply in_walk_depths in H. destruct H as (j & c0 & p' & _ & E & Hin).
    inversion E; subst. apply IH in Hin. rewrite Hin.
    change (List.length (j :: p')) with (S (List.length p')).
    rewrite Nat2Z.inj_succ. unfold Z.succ. rewrite inject_Z_plus.
    unfold depth_of. change (inject_Z 1) with 1%Q. ring.
Qed.

Lemma depths_unit t p c d :
  In (p, c, d) (depths true t) ->
  get_node t p = Some c /\
  (d == or0 (branch_length t) + inject_Z (Z.of_nat (List.length p)))%Q.
Proof.
  intros H. split.
  - apply in_preorder. rewrite <- (depths_rows true t).
    change (p, c) with (fst (p, c, d)). apply in_map. exact H.
  - apply (update_depths_unit p t _ c d). exact H.
Qed.

(** ** Names that identify their clade *)

Lemma all_node_names_rows t : all_node_names t = map row_name (preorder t).
Proof. reflexivity. Qed.

Lemma filter_none {A : Type} (f : A -> bool) (l : list A) :
  (forall y, In y l -> f y = false) -> filter f l = [].
Proof.
  induction l as [|y r IH]; simpl; intros H; auto.
  rewrite (H y) by auto. apply IH. auto.
Qed.

Lemma filter_unique {A : Type} (key : A -> string) (l : list A) (x : A) :
  NoDup (map key l) -> In x l ->
  filter (fun y => String.eqb (key y) (key x)) l = [x].
Proof.
  induction l as [|y r IH]; simpl; intros Hnd Hin; [tauto|].
  inversion Hnd as [|a l' Hn Hd]; subst. destruct Hin as [-> | Hin].
  - rewrite String.eqb_refl. f_equal. apply filter_none.
    intros z Hz. apply String.eqb_neq. intros E. apply Hn. rewrite <- E.
    apply in_map. exact Hz.
  - destruct (String.eqb (key y) (key x)) eqn:E; auto.
    apply String.eqb_eq in E. exfalso. apply Hn. rewrite E. apply in_map. exact Hin.
Qed.

Lemma well_named_NoDup t : well_named t -> NoDup (map row_name (preorder t)).
Proof. intros [H _]. apply check_node_name_dup_ok in H. exact H. Qed.

Lemma well_named_name t p c :
  well_named t -> get_node t p = Some c ->
  name c = Some (str_name c) /\ str_name c <> "".
Proof.
  intros [_ H] Hg. unfold all_named in H. rewrite forallb_forall in H.
  apply in_preorder in Hg. specialize (H _ Hg). unfold has_name in H. simpl in H.
  unfold str_name. destruct (name c) as [s|]; [|discriminate]. split; auto.
  intros ->. discriminate.
Qed.

Lemma well_named_matches t s pc :
  well_named t -> s <> "" -> In pc (preorder t) ->
  matches s (snd pc) = String.eqb (row_name pc) s.
Proof.
  intros Hw Hs Hin. destruct pc as [p c]. apply in_preorder in Hin.
  destruct (well_named_name t p c Hw Hin) as [Hn _].
  unfold matches, row_name. simpl. rewrite Hn.
  apply String.eqb_neq in Hs. rewrite Hs. reflexivity.
Qed.

Lemma filter_ext_in' {A : Type} (f g : A -> bool) (l : list A) :
  (forall x, In x l -> f x = g x) -> filter f l = filter g l.
Proof.
  induction l as [|x r IH]; simpl; intros H; auto.
  rewrite (H x) by auto. rewrite IH by auto. reflexivity.
Qed.

(** In a well-named tree a clade is the only one found under its name. *)
Lemma find_clades_unique t p c :
  well_named t -> get_node t p = Some c ->
  find_clades t (str_name c) = [(p, c)].
Proof.
  intros Hw Hg. destruct (well_named_name t p c Hw Hg) as [_ Hne].
  unfold find_clades.
  rewrite (filter_ext_in' _ (fun y => String.eqb (row_name y) (row_name (p, c)))).
  - apply filter_unique.
    + apply well_named_NoDup; assumption.
    + apply in_preorder; assumption.
  - intros pc Hin. apply well_named_matches with (t := t); auto.
Qed.

Lemma well_named_pos_inj t p p' c c' :
  well_named t -> get_node t p = Some c -> get_node t p' = Some c' ->
  str_name c = str_name c' -> p = p'.
Proof.
  intros Hw Hg Hg' E.
  pose proof (find_clades_unique t p c Hw Hg) as H.
  pose proof (find_clades_unique t p' c' Hw Hg') as H'.
  rewrite E in H. congruence.
Qed.

(** ** [name2depth] of a well-named tree *)

Lemma keys_depth_items t : keys (depth_items t) = all_node_names t.
Proof.
  unfold keys, depth_items, all_node_names. rewrite map_map. simpl.
  rewrite <- (depths_rows true t). rewrite map_map. reflexivity.
Qed.

Lemma name2depth_sorted_items t :
  well_named t -> name2depth t = sorted_desc (depth_items t).
Proof.
  intros Hw. unfold name2depth. fold (depth_items t).
  assert (Hnd : NoDup (keys (depth_items t))).
  { rewrite keys_depth_items. apply well_named_NoDup. exact Hw. }
  rewrite (dict_of_items_NoDup (depth_items t)) by exact Hnd.
  apply dict_of_items_NoDup.
  unfold keys. eapply Permutation_NoDup; [|exact Hnd].
  apply Permutation_map. apply Permutation_sym. apply sorted_desc_perm.
Qed.

Lemma name2depth_perm t :
  well_named t -> Permutation (name2depth t) (depth_items t).
Proof.
  intros Hw. rewrite name2depth_sorted_items by assumption. apply sorted_desc_perm.
Qed.

Lemma name2depth_sorted t : well_named t -> StronglySorted depth_ge (name2depth t).
Proof.
  intros Hw. rewrite name2depth_sorted_items by assumption. apply sorted_desc_sorted.
Qed.

Lemma in_depth_items t s d :
  In (s, d) (depth_items t) <->
  exists p c, In (p, c, d) (depths true t) /\ s = str_name c.
Proof.
  unfold depth_items. rewrite in_map_iff. split.
  - intros ([[p c] d'] & E & H). simpl in E. inversion E; subst. eauto.
  - intros (p & c & H & ->). exists (p, c, d). auto.
Qed.

Lemma in_name2depth t s d :
  well_named t -> In (s, d) (name2depth t) ->
  exists p c, get_node t p = Some c /\ s = str_name c /\
    (d == or0 (branch_length t) + inject_Z (Z.of_nat (List.length p)))%Q.
Proof.
  intros Hw H. apply (Permutation_in _ (name2depth_perm t Hw)) in H.
  apply in_depth_items in H. destruct H as (p & c & H & ->).
  apply depths_unit in H. destruct H. eauto.
Qed.

Lemma name2depth_keys t p c :
  well_named t -> get_node t p = Some c -> In (str_name c) (keys (name2depth t)).
Proof.
  intros Hw Hg.
  apply (Permutation_in (l := keys (depth_items t))).
  - unfold keys. apply Permutation_map, Permutation_sym, name2depth_perm. exact Hw.
  - rewrite keys_depth_items. unfold all_node_names. apply in_preorder in Hg.
    apply (in_map (fun pc => str_name (snd pc))) in Hg. exact Hg.
Qed.

Lemma preorder_nonempty t : preorder t <> [].
Proof. rewrite preorder_unfold. discriminate. Qed.

Lemma depth_items_nonempty t : map snd (depth_items t) <> [].
Proof.
  unfold depth_items. rewrite map_map. simpl. intros H.
  apply map_eq_nil in H. pose proof (depths_rows true t) as E.
  rewrite H in E. simpl in E. symmetry in E. apply preorder_nonempty in E. exact E.
Qed.

Lemma name2depth_max t s d :
  well_named t -> In (s, d) (name2depth t) ->
  (d <= max_of (map snd (name2depth t)))%Q.
Proof.
  intros Hw H. apply max_of_spec.
  - intros E. apply map_eq_nil in E. rewrite E in H. destruct H.
  - apply (in_map snd) in H. exact H.
Qed.

(** The maximum that [_to_ultrametric_tree] computes is the maximal unit
    depth of the tree. *)
Lemma name2depth_max_depth t :
  well_named t ->
  (max_of (map snd (name2depth t)) == max_depth_of true t)%Q.
Proof.
  intros Hw. unfold max_depth_of.
  assert (E : map snd (depths true t) = map snd (depth_items t)).
  { unfold depth_items. rewrite map_map. reflexivity. }
  rewrite E. apply max_of_perm.
  - intros H. apply map_eq_nil in H.
    pose proof (name2depth_perm t Hw) as Hp. rewrite H in Hp.
    apply Permutation_nil in Hp. apply (depth_items_nonempty t).
    rewrite Hp. reflexivity.
  - apply Permutation_map. apply name2depth_perm. exact Hw.
Qed.

(** ** The loop on a well-named tree *)

Lemma inject_nat_nonzero (k : nat) : k <> 0 -> ~ (inject_Z (Z.of_nat k) == 0)%Q.
Proof.
  intros Hk E. unfold Qeq in E. simpl in E. lia.
Qed.

Lemma depth_at_Qsum t p : (depth_at t p == Qsum (map (bl_or0 t) (path_to p)))%Q.
Proof. apply sum_branch_lengths_Qsum. Qed.

Lemma depth_at_ext t t' p :
  (forall q, In q (path_to p) -> (bl_or0 t q == bl_or0 t' q)%Q) ->
  (depth_at t p == depth_at t' p)%Q.
Proof.
  intros H. rewrite !depth_at_Qsum. apply Qsum_ext. exact H.
Qed.

Lemma is_fixed_some t q : is_fixed t q = true -> exists b, branch_length_at t q = Some b.
Proof.
  unfold is_fixed. destruct (branch_length_at t q) as [b|]; [eauto | discriminate].
Qed.

Lemma in_path_to_nonempty p q : In q (path_to p) -> q <> [].
Proof. intros H. apply in_path_to in H. tauto. Qed.

Section WellNamedStep.
Variable tree : Clade.
Hypothesis Hw : well_named tree.
Let n2d := name2depth tree.
Let maxd := max_of (map snd n2d).

Variables (done rest : list (string * Q)) (s : string) (d : Q).
Hypothesis Hsplit : n2d = done ++ (s, d) :: rest.
Variable current : Clade.
Hypothesis Hinv : loop_invariant tree done current.
Hypothesis Hleaves : leaves_fixed tree maxd done current.
Hypothesis Hunit : unit_phase maxd done current.

Lemma step_item :
  exists p c, get_node tree p = Some c /\ s = str_name c /\
    (d == or0 (branch_length tree) + inject_Z (Z.of_nat (List.length p)))%Q /\
    find_clades tree s = [(p, c)].
Proof.
  assert (Hin : In (s, d) n2d).
  { rewrite Hsplit. apply in_or_app. right. left. reflexivity. }
  destruct (in_name2depth tree s d Hw Hin) as (p & c & Hg & -> & Hd).
  exists p, c. repeat split; auto. apply find_clades_unique; auto.
Qed.

Lemma step_fresh : ~ In s (keys done).
Proof.
  pose proof (NoDup_keys_dict_of_items
                (sorted_desc (dict_of_items
                   (map (fun x => (str_name (snd (fst x)), snd x))
                        (depths true tree))))) as Hnd.
  fold (name2depth tree) in Hnd. fold n2d in Hnd. rewrite Hsplit in Hnd.
  unfold keys in Hnd. rewrite map_app in Hnd. simpl in Hnd.
  apply NoDup_remove_2 in Hnd. intros Hin. apply Hnd.
  apply in_or_app. left. exact Hin.
Qed.

Lemma step_done_deepest :
  Qeq_bool d maxd = true -> forall it, In it done -> (snd it == maxd)%Q.
Proof.
  intros Hd [s' d'] Hin. simpl. apply Qeq_bool_iff in Hd.
  apply Qle_antisym.
  - apply (name2depth_max tree s' d' Hw). fold n2d. rewrite Hsplit.
    apply in_or_app. left. exact Hin.
  - rewrite <- Hd.
    pose proof (name2depth_sorted tree Hw) as Hs. fold n2d in Hs.
    rewrite Hsplit in Hs.
    apply (sorted_before done (s, d) rest Hs (s', d') Hin).
Qed.

Lemma step_outcome_here : step_outcome tree maxd current (s, d).
Proof.
  destruct Hinv as [Ha Hf].
  apply (ultrametric_step_outcome tree maxd done current s d Ha Hf step_fresh).
  intros Ht. apply (single_clade_depth tree Ht s). fold n2d. rewrite Hsplit.
  apply in_or_app. right. left. reflexivity.
Qed.

(** A leaf processed earlier, or the leaf of the current item. *)
Lemma step_leaf_cases p c :
  get_node tree p = Some c -> In (str_name c) (keys (done ++ [(s, d)])) ->
  In (str_name c) (keys done) \/ find_clades tree s = [(p, c)].
Proof.
  intros Hg Hin. unfold keys in Hin. rewrite map_app in Hin.
  apply in_app_or in Hin. destruct Hin as [Hin | [E | []]]; auto.
  right. simpl in E. rewrite E. apply find_clades_unique; auto.
Qed.

Lemma well_named_step :
  exists current',
    ultrametric_step maxd current (s, d) = Ok current' /\
    loop_invariant tree (done ++ [(s, d)]) current' /\
    leaves_fixed tree maxd (done ++ [(s, d)]) current' /\
    unit_phase maxd (done ++ [(s, d)]) current'.
Proof.
  destruct step_item as (p0 & c0 & Hg0 & Hs & Hd0 & Hfind).
  pose proof step_outcome_here as Hout.
  pose proof (loop_invariant_step tree maxd done current (s, d) Hinv Hout) as Hstep.
  destruct Hinv as [Ha Hf].
  pose proof (path_valid_in_current tree current p0 c0 Ha Hg0) as Hvalid.
  destruct Hout as [[Hnil _] | (p & c & rest' & Hfind' & Hcases)];
    [simpl in Hnil; congruence|].
  simpl in Hfind'. rewrite Hfind in Hfind'. injection Hfind' as <- <- <-.
  destruct Hcases as [[Hterm Hres] | [(Hterm & Hd & Hres) | (Hterm & Hd & Hu & o & Ho & Hres)]];
    rewrite Hres in Hstep; rewrite Hres; eexists; (split; [reflexivity|]);
    (split; [exact Hstep|]).
  - (* internal clade: nothing changes *)
    split.
    + intros p c Hg Ht Hin.
      destruct (step_leaf_cases p c Hg Hin) as [Hold | Hnew].
      * apply (Hleaves p c Hg Ht Hold).
      * rewrite Hfind in Hnew. injection Hnew as <- <-. congruence.
    + intros Hall. apply Hunit. intros it Hit. apply Hall.
      apply in_or_app. auto.
  - (* a deepest leaf: every edge of its path becomes 1 *)
    simpl in Hd.
    destruct (set_path_unit_spec current (path_to p0) (NoDup_path_to p0) Hvalid)
      as (_ & Hin1 & Hout1).
    pose proof (Hunit (step_done_deepest Hd)) as Hones.
    split.
    + intros p c Hg Ht Hin.
      destruct (step_leaf_cases p c Hg Hin) as [Hold | Hnew].
      * destruct (Hleaves p c Hg Ht Hold) as [Hfix Hdepth]. split.
        -- intros q Hq. unfold is_fixed.
           destruct (in_dec (list_eq_dec Nat.eq_dec) q (path_to p0)) as [Hi|Hn].
           ++ rewrite Hin1 by assumption. reflexivity.
           ++ rewrite Hout1 by assumption. apply Hfix. exact Hq.
        -- intros Hr. rewrite <- (Hdepth Hr). apply depth_at_ext.
           intros q Hq. unfold bl_or0.
           destruct (in_dec (list_eq_dec Nat.eq_dec) q (path_to p0)) as [Hi|Hn].
           ++ rewrite Hin1 by assumption.
              destruct (is_fixed_some current q (Hfix q Hq)) as [b Hb].
              rewrite Hb. simpl. symmetry.
              apply (Hones q b (in_path_to_nonempty p q Hq) Hb).
           ++ rewrite Hout1 by assumption. reflexivity.
      * rewrite Hfind in Hnew. injection Hnew as <- <-. split.
        -- intros q Hq. unfold is_fixed. rewrite Hin1 by assumption. reflexivity.
        -- intros Hr. rewrite depth_at_Qsum.
           rewrite (Qsum_const (bl_or0 (set_path_unit current (path_to p0)))
                      (path_to p0) 1%Q).
           ++ rewrite length_path_to. apply Qeq_bool_iff in Hd.
              rewrite <- Hd, Hd0, Hr. ring.
           ++ intros q Hq. unfold bl_or0. rewrite Hin1 by assumption.
              reflexivity.
    + intros Hall q b Hq Hb.
      destruct (in_dec (list_eq_dec Nat.eq_dec) q (path_to p0)) as [Hi|Hn].
      * rewrite Hin1 in Hb by assumption. injection Hb as <-. reflexivity.
      * rewrite Hout1 in Hb by assumption. apply (Hones q b Hq Hb).
  - (* a shallower leaf: the remainder is shared by the unfixed edges *)
    simpl in Hd.
    destruct (fill_path_spec current (path_to p0) o (NoDup_path_to p0) Hvalid)
      as (_ & Hin1 & Hout1).
    split.
    + intros p c Hg Ht Hin.
      destruct (step_leaf_cases p c Hg Hin) as [Hold | Hnew].
      * destruct (Hleaves p c Hg Ht Hold) as [Hfix Hdepth].
        assert (Hsame : forall q, In q (path_to p) ->
                  branch_length_at (fill_path current (path_to p0) o) q =
                  branch_length_at current q).
        { intros q Hq.
          destruct (in_dec (list_eq_dec Nat.eq_dec) q (path_to p0)) as [Hi|Hn].
          - rewrite Hin1 by assumption.
            destruct (is_fixed_some current q (Hfix q Hq)) as [b Hb].
            rewrite Hb. reflexivity.
          - apply Hout1. assumption. }
        split.
        -- intros q Hq. unfold is_fixed. rewrite Hsame by assumption.
           apply Hfix. exact Hq.
        -- intros Hr. rewrite <- (Hdepth Hr). apply depth_at_ext.
           intros q Hq. unfold bl_or0. rewrite Hsame by assumption. reflexivity.
      * rewrite Hfind in Hnew. injection Hnew as <- <-. split.
        -- intros q Hq. unfold is_fixed. rewrite Hin1 by assumption.
           destruct (branch_length_at current q); reflexivity.
        -- intros _. rewrite depth_at_Qsum.
           rewrite (Qsum_ext (bl_or0 (fill_path current (path_to p0) o))
                      (fun q => or0 (fill_value o (branch_length_at current q)))).
           ++ rewrite Qsum_filled, Ho. field.
              apply inject_nat_nonzero. exact Hu.
           ++ intros q Hq. unfold bl_or0. rewrite Hin1 by assumption.
              reflexivity.
    + intros Hall. exfalso.
      assert (Hd' : (d == maxd)%Q).
      { apply (Hall (s, d)). apply in_or_app. right. left. reflexivity. }
      apply Qeq_bool_iff in Hd'. congruence.
Qed.
End WellNamedStep.

Lemma full_invariant_reset tree : full_invariant tree [] (reset_branch_lengths tree).
Proof.
  split; [apply reset_invariant|]. split.
  - intros p c _ _ [].
  - intros _ q b Hq Hb.
    destruct (reset_branch_lengths_spec tree) as (_ & _ & Hnone).
    rewrite Hnone in Hb by assumption. discriminate.
Qed.

(** On a well-named tree every prefix of the loop succeeds and keeps the
    invariant. *)
Lemma well_named_loop tree done rest :
  well_named tree -> name2depth tree = done ++ rest ->
  exists current, loop_state tree done = Ok current /\
                  full_invariant tree done current.
Proof.
  intros Hw Hsplit. unfold loop_state.
  pose proof (for_each_invariant
                (ultrametric_step (max_of (map snd (name2depth tree))))
                (full_invariant tree) (fun _ => False) done) as H.
  match type of H with
  | ?A -> _ => assert (Hstep : A)
  end.
  { intros done' [s d] rest' cur El (Hi & Hl & Hu).
    assert (Hn : name2depth tree = done' ++ (s, d) :: (rest' ++ rest)).
    { rewrite Hsplit, El, <- app_assoc. reflexivity. }
    destruct (well_named_step tree Hw done' (rest' ++ rest) s d Hn cur Hi Hl Hu)
      as (cur' & Hres & Hi' & Hl' & Hu').
    rewrite Hres. exact (conj Hi' (conj Hl' Hu')). }
  specialize (H Hstep _ (full_invariant_reset tree)).
  destruct (for_each _ done (reset_branch_lengths tree)) as [cur|e]; [eauto | tauto].
Qed.

Lemma well_named_run tree :
  well_named tree ->
  exists tree', _to_ultrametric_tree tree = Ok tree' /\
                full_invariant tree (name2depth tree) tree'.
Proof.
  intros Hw.
  destruct (well_named_loop tree (name2depth tree) [] Hw) as (cur & H & Hinv).
  - rewrite app_nil_r. reflexivity.
  - exists cur. split; auto.
Qed.

Lemma unit_depth_bounds tree :
  well_named tree ->
  (forall p c, get_node tree p = Some c ->
     (or0 (branch_length tree) + inject_Z (Z.of_nat (List.length p))
      <= max_depth_of true tree)%Q) /\
  (exists p c, get_node tree p = Some c /\
     (max_depth_of true tree ==
      or0 (branch_length tree) + inject_Z (Z.of_nat (List.length p)))%Q).
Proof.
  intros Hw. pose proof (name2depth_max_depth tree Hw) as Hmax. split.
  - intros p c Hg.
    pose proof (name2depth_keys tree p c Hw Hg) as Hin.
    unfold keys in Hin. apply in_map_iff in Hin. destruct Hin as ([s d] & E & Hin).
    simpl in E. subst s.
    destruct (in_name2depth tree _ d Hw Hin) as (p' & c' & Hg' & En & Hd).
    assert (p' = p) by (eapply well_named_pos_inj; eauto). subst p'.
    rewrite <- Hmax, <- Hd. eapply name2depth_max; eauto.
  - destruct (max_of_spec (map snd (name2depth tree))) as [Hin _].
    { intros E. apply map_eq_nil in E.
      pose proof (name2depth_keys tree [] tree Hw eq_refl) as Hk.
      rewrite E in Hk. destruct Hk. }
    apply in_map_iff in Hin. destruct Hin as ([s d] & E & Hin). simpl in E.
    destruct (in_name2depth tree s d Hw Hin) as (p & c & Hg & _ & Hd).
    exists p, c. split; auto. rewrite <- Hmax, <- E. exact Hd.
Qed.

Lemma Qeq_near (a b : Q) : (a == b)%Q -> near a b.
Proof.
  intros E. unfold near. setoid_replace (a - b)%Q with 0%Q by (rewrite E; ring).
  unfold depth_tolerance. simpl. unfold Qle. simpl. lia.
Qed.

(** C1 (as the code has it). For a well-named tree whose root carries no
    branch length, [_to_ultrametric_tree] returns a tree with the same
    topology, names and confidences in which every leaf lies, within the
    tolerance [1e-9], at the maximal unit depth of the input: the number of
    edges of its longest root-to-leaf path. In particular the depths of any
    two leaves are equal within the tolerance. *)
Theorem to_ultrametric_tree_unit_depth (tree : Clade) :
  well_named tree ->
  (or0 (branch_length tree) == 0)%Q ->
  exists tree',
    _to_ultrametric_tree tree = Ok tree' /\
    tree_agree tree tree' /\
    leaves_near_depth tree' (max_depth_of true tree) /\
    (forall p c q c',
       In (p, c) (get_terminals tree') -> In (q, c') (get_terminals tree') ->
       near (depth_at tree' p) (depth_at tree' q)) /\
    (forall p c, get_node tree p = Some c ->
       (inject_Z (Z.of_nat (List.length p)) <= max_depth_of true tree)%Q) /\
    (exists p c, get_node tree p = Some c /\
       (max_depth_of true tree == inject_Z (Z.of_nat (List.length p)))%Q).
Proof.
  intros Hw Hr.
  destruct (well_named_run tree Hw) as (tree' & Hrun & (Ha & _) & Hl & _).
  assert (Hleaf : forall p c', In (p, c') (get_terminals tree') ->
            (depth_at tree' p == max_depth_of true tree)%Q).
  { intros p c' Hin. apply in_get_terminals in Hin. destruct Hin as [Hg' Ht'].
    destruct Ha as [_ Hrel]. specialize (Hrel p). rewrite Hg' in Hrel.
    destruct (get_node tree p) as [c|] eqn:Hg; simpl in Hrel; [|tauto].
    rewrite <- (name2depth_max_depth tree Hw).
    apply (Hl p c Hg).
    + rewrite (same_but_bl_terminal c c' Hrel). exact Ht'.
    + apply (name2depth_keys tree p c Hw Hg).
    + exact Hr. }
  exists tree'. split; auto. split; auto. split; [|split; [|split]].
  - intros p c' Hin. apply Qeq_near. apply (Hleaf p c' Hin).
  - intros p c q c' Hp Hq. apply Qeq_near.
    rewrite (Hleaf p c Hp), (Hleaf q c' Hq). reflexivity.
  - intros p c Hg. destruct (unit_depth_bounds tree Hw) as [H _].
    specialize (H p c Hg). rewrite Hr in H. rewrite Qplus_0_l in H. exact H.
  - destruct (unit_depth_bounds tree Hw) as [_ (p & c & Hg & H)].
    exists p, c. split; auto. rewrite H, Hr. ring.
Qed.

Lemma well_named_abcdefg : well_named tree_abcdefg_named.
Proof. split; reflexivity. Qed.

Lemma to_ultrametric_tree_unit_depth_witness :
  exists tree',
    _to_ultrametric_tree tree_abcdefg_named = Ok tree' /\
    tree_agree tree_abcdefg_named tree' /\
    leaves_near_depth tree' (max_depth_of true tree_abcdefg_named) /\
    (forall p c q c',
       In (p, c) (get_terminals tree') -> In (q, c') (get_terminals tree') ->
       near (depth_at tree' p) (depth_at tree' q)) /\
    (forall p c, get_node tree_abcdefg_named p = Some c ->
       (inject_Z (Z.of_nat (List.length p))
        <= max_depth_of true tree_abcdefg_named)%Q) /\
    (exists p c, get_node tree_abcdefg_named p = Some c /\
       (max_depth_of true tree_abcdefg_named
        == inject_Z (Z.of_nat (List.length p)))%Q).
Proof.
  apply (to_ultrametric_tree_unit_depth tree_abcdefg_named).
  - split; reflexivity.
  - reflexivity.
Defined.

(** C1 (as stated) fails: [((A,B),((C,D),(E,(F,G))));] has no branch
    lengths, so its original [max_tree_depth] is 0, but after the
    normalization the leaf [A] lies at depth 4, far beyond the tolerance. *)
Lemma to_ultrametric_tree_not_original_max :
  ~ ultrametric_at_original_max tree_abcdefg_named.
Proof.
  intros (tree' & Hrun & _ & Hl).
  vm_compute in Hrun. injection Hrun as <-.
  specialize (Hl [0; 0] (Node (Some "A") (Some (4 # 2)) None [])).
  unfold near in Hl. vm_compute in Hl. apply Hl; [|reflexivity].
  left. reflexivity.
Qed.



(** C2 at the failing input. [(A,)B;] is accepted at load (no internal
    clade is left to name, the duplicate check passes) and is not in the
    degenerate state, the normalization never reaches a division; yet it
    does not complete: the lookup of the unnamed leaf under the key
    ["None"] finds nothing, and [next] raises [StopIteration] before the
    check [path is None] that was meant to report a missing node. *)
Lemma to_ultrametric_tree_unnamed_leaf :
  _set_uniq_innode_name tree_unnamed_leaf = (tree_unnamed_leaf, []) /\
  _check_node_name_dup tree_unnamed_leaf = Ok tt /\
  _to_ultrametric_tree tree_unnamed_leaf = Raise StopIteration /\
  default_init tree_unnamed_leaf = Raise StopIteration.
Proof. repeat split; reflexivity. Qed.

Lemma sorted_after (done : list (string * Q)) x rest :
  StronglySorted depth_ge (done ++ x :: rest) ->
  forall y, In y rest -> depth_ge x y.
Proof.
  induction done as [|z done IH]; simpl; intros H y Hy.
  - inversion H as [|a l Hs Hall]; subst. rewrite Forall_forall in Hall. auto.
  - inversion H; subst. apply IH; auto.
Qed.

(** ** The order of the items of equal depth *)

Lemma Qeq_bool_congr (a b v : Q) : (a == b)%Q -> Qeq_bool a v = Qeq_bool b v.
Proof.
  intros E. destruct (Qeq_bool b v) eqn:Hb.
  - apply Qeq_bool_iff. apply Qeq_bool_iff in Hb. rewrite E. exact Hb.
  - destruct (Qeq_bool a v) eqn:Ha; [|reflexivity].
    apply Qeq_bool_iff in Ha. rewrite E in Ha. apply Qeq_bool_iff in Ha. congruence.
Qed.

(** The sort is stable: an item is inserted in front of the items of the
    same depth that are already there. *)
Lemma insert_desc_stable (v : Q) (x : string * Q) (l : list (string * Q)) :
  filter (fun it => Qeq_bool (snd it) v) (insert_desc x l)
  = (if Qeq_bool (snd x) v then [x] else [])
    ++ filter (fun it => Qeq_bool (snd it) v) l.
Proof.
  induction l as [|y r IH]; simpl.
  - destruct (Qeq_bool (snd x) v); reflexivity.
  - destruct (Qle_bool (snd y) (snd x)) eqn:E; simpl.
    + destruct (Qeq_bool (snd x) v); reflexivity.
    + rewrite IH.
      destruct (Qeq_bool (snd y) v) eqn:Ey; destruct (Qeq_bool (snd x) v) eqn:Ex;
        try reflexivity.
      exfalso. apply Qeq_bool_iff in Ey. apply Qeq_bool_iff in Ex.
      assert (Hle : (snd y <= snd x)%Q) by (rewrite Ey, Ex; apply Qle_refl).
      apply Qle_bool_iff in Hle. congruence.
Qed.

Lemma sorted_desc_stable (v : Q) (l : list (string * Q)) :
  filter (fun it => Qeq_bool (snd it) v) (sorted_desc l)
  = filter (fun it => Qeq_bool (snd it) v) l.
Proof.
  induction l as [|x r IH]; simpl; [reflexivity|].
  rewrite insert_desc_stable, IH. destruct (Qeq_bool (snd x) v); reflexivity.
Qed.

Lemma depth_rows_at (t : Clade) (v : Q) (l : list (pos * Clade * Q)) :
  (forall p c d, In (p, c, d) l ->
     (d == or0 (branch_length t) + inject_Z (Z.of_nat (List.length p)))%Q) ->
  keys (filter (fun it => Qeq_bool (snd it) v)
          (map (fun x => (str_name (snd (fst x)), snd x)) l))
  = map row_name
      (filter (fun pc => Qeq_bool (or0 (branch_length t)
                                   + inject_Z (Z.of_nat (List.length (fst pc)))) v)
              (map fst l)).
Proof.
  induction l as [|[[p c] d] r IH]; intros H; [reflexivity|].
  cbn [map filter fst snd].
  rewrite (Qeq_bool_congr d _ v (H p c d (or_introl eq_refl))).
  destruct (Qeq_bool (or0 (branch_length t) + inject_Z (Z.of_nat (List.length p))) v);
    cbn [keys map fst]; rewrite <- IH by (intros p' c' d' Hin; apply (H p' c' d');
                                            right; exact Hin); reflexivity.
Qed.

(** Among the items of one depth, the order of [name2depth] is the
    preorder of their clades. *)
Lemma name2depth_ties (t : Clade) (v : Q) :
  well_named t ->
  keys (filter (fun it => Qeq_bool (snd it) v) (name2depth t))
  = map row_name
      (filter (fun pc => Qeq_bool (or0 (branch_length t)
                                   + inject_Z (Z.of_nat (List.length (fst pc)))) v)
              (preorder t)).
Proof.
  intros Hw. rewrite (name2depth_sorted_items t Hw), sorted_desc_stable.
  unfold depth_items. rewrite <- (depths_rows true t).
  apply depth_rows_at. intros p c d Hin. apply (depths_unit t p c d Hin).
Qed.

(** C3 (as the code has it). The raw depth of an item is the unit depth of
    its clade (the number of edges above it, from [tree.depths(True)]), the
    items are processed in descending order of that depth, the items of
    equal depth in the preorder of their clades, and the item of a leaf is
    handled as follows: when its depth is the maximum, every edge
    of its path is set to 1; otherwise the remainder [max_tree_depth] minus
    the sum of the fixed edges of the path is divided by the number of
    unfixed edges and given to each of them. *)
Theorem to_ultrametric_tree_steps (tree : Clade) (done rest : list (string * Q))
    (s : string) (d : Q) (current : Clade) :
  well_named tree ->
  name2depth tree = done ++ (s, d) :: rest ->
  loop_state tree done = Ok current ->
  let max_tree_depth := max_of (map snd (name2depth tree)) in
  exists p c,
    get_node tree p = Some c /\ str_name c = s /\
    (d == or0 (branch_length tree) + inject_Z (Z.of_nat (List.length p)))%Q /\
    (forall it, In it done -> (d <= snd it)%Q) /\
    (forall it, In it rest -> (snd it <= d)%Q) /\
    (forall v,
       keys (filter (fun it => Qeq_bool (snd it) v) (name2depth tree))
       = map row_name
           (filter (fun pc => Qeq_bool (or0 (branch_length tree)
                                        + inject_Z (Z.of_nat (List.length (fst pc)))) v)
                   (preorder tree))) /\
    (is_terminal c = false ->
     ultrametric_step max_tree_depth current (s, d) = Ok current) /\
    (is_terminal c = true -> (d == max_tree_depth)%Q ->
     ultrametric_step max_tree_depth current (s, d) =
       Ok (set_path_unit current (path_to p)) /\
     forall q, In q (path_to p) ->
       branch_length_at (set_path_unit current (path_to p)) q = Some 1%Q) /\
    (is_terminal c = true -> ~ (d == max_tree_depth)%Q ->
     unfixed_count current (path_to p) <> 0 /\
     exists other_bl,
       (other_bl ==
        (max_tree_depth - Qsum (map (bl_or0 current) (path_to p)))
        / inject_Z (Z.of_nat (unfixed_count current (path_to p))))%Q /\
       ultrametric_step max_tree_depth current (s, d) =
         Ok (fill_path current (path_to p) other_bl) /\
       forall q, In q (path_to p) ->
         branch_length_at (fill_path current (path_to p) other_bl) q =
         fill_value other_bl (branch_length_at current q)).
Proof.
  intros Hw Hsplit Hstate max_tree_depth.
  destruct (well_named_loop tree done ((s, d) :: rest) Hw Hsplit)
    as (cur & Hcur & Hinv & Hl & Hu).
  rewrite Hstate in Hcur. injection Hcur as <-.
  destruct (step_item tree Hw done rest s d Hsplit) as (p & c & Hg & Hs & Hd & Hfind).
  pose proof (step_outcome_here tree done rest s d Hsplit current Hinv) as Hout.
  pose proof (name2depth_sorted tree Hw) as Hsorted. rewrite Hsplit in Hsorted.
  destruct Hinv as [Ha Hf].
  pose proof (path_valid_in_current tree current p c Ha Hg) as Hvalid.
  exists p, c. split; auto. split; auto. split; auto.
  split; [intros it Hit; apply (sorted_before done (s, d) rest Hsorted it Hit)|].
  split; [intros it Hit; apply (sorted_after done (s, d) rest Hsorted it Hit)|].
  split; [intros v; apply (name2depth_ties tree v Hw)|].
  destruct Hout as [[Hnil _] | (p' & c' & rest' & Hfind' & Hcases)];
    [simpl in Hnil; congruence|].
  simpl in Hfind'. rewrite Hfind in Hfind'. injection Hfind' as <- <- <-.
  fold max_tree_depth in Hcases. simpl snd in Hcases.
  split; [|split].
  - intros Ht.
    destruct Hcases as [[_ H] | [(Ht' & _) | (Ht' & _)]]; auto; congruence.
  - intros Ht Hmax. apply Qeq_bool_iff in Hmax.
    destruct Hcases as [[Ht' _] | [(_ & _ & H) | (_ & Hd' & _)]]; try congruence.
    split; auto.
    apply (set_path_unit_spec current (path_to p) (NoDup_path_to p) Hvalid).
  - intros Ht Hmax.
    destruct Hcases as [[Ht' _] | [(_ & Hd' & _) | (_ & _ & Hu' & o & Ho & H)]];
      try congruence.
    + apply Qeq_bool_iff in Hd'. contradiction.
    + split; auto. exists o. split; auto. split; auto.
      apply (fill_path_spec current (path_to p) o (NoDup_path_to p) Hvalid).
Qed.

Lemma to_ultrametric_tree_steps_witness :
  exists p c,
    get_node tree_a5 p = Some c /\ str_name c = "A" /\
    (1 == or0 (branch_length tree_a5) + inject_Z (Z.of_nat (List.length p)))%Q /\
    (forall it, In it [("B", 2%Q); ("C", 2%Q)] -> (1 <= snd it)%Q) /\
    (forall it, In it [("N", 1%Q); ("R", 0%Q)] -> (snd it <= 1)%Q) /\
    (forall v,
       keys (filter (fun it => Qeq_bool (snd it) v) (name2depth tree_a5))
       = map row_name
           (filter (fun pc => Qeq_bool (or0 (branch_length tree_a5)
                                        + inject_Z (Z.of_nat (List.length (fst pc)))) v)
                   (preorder tree_a5))) /\
    (is_terminal c = false ->
     ultrametric_step (max_of (map snd (name2depth tree_a5))) tree_a5_after_BC
       ("A", 1%Q) = Ok tree_a5_after_BC) /\
    (is_terminal c = true -> (1 == max_of (map snd (name2depth tree_a5)))%Q ->
     ultrametric_step (max_of (map snd (name2depth tree_a5))) tree_a5_after_BC
       ("A", 1%Q) = Ok (set_path_unit tree_a5_after_BC (path_to p)) /\
     forall q, In q (path_to p) ->
       branch_length_at (set_path_unit tree_a5_after_BC (path_to p)) q = Some 1%Q) /\
    (is_terminal c = true -> ~ (1 == max_of (map snd (name2depth tree_a5)))%Q ->
     unfixed_count tree_a5_after_BC (path_to p) <> 0 /\
     exists other_bl,
       (other_bl ==
        (max_of (map snd (name2depth tree_a5))
         - Qsum (map (bl_or0 tree_a5_after_BC) (path_to p)))
        / inject_Z (Z.of_nat (unfixed_count tree_a5_after_BC (path_to p))))%Q /\
       ultrametric_step (max_of (map snd (name2depth tree_a5))) tree_a5_after_BC
         ("A", 1%Q) = Ok (fill_path tree_a5_after_BC (path_to p) other_bl) /\
       forall q, In q (path_to p) ->
         branch_length_at (fill_path tree_a5_after_BC (path_to p) other_bl) q =
         fill_value other_bl (branch_length_at tree_a5_after_BC q)).
Proof.
  apply (to_ultrametric_tree_steps tree_a5 [("B", 2%Q); ("C", 2%Q)]
           [("N", 1%Q); ("R", 0%Q)] "A" 1%Q tree_a5_after_BC).
  - split; reflexivity.
  - reflexivity.
  - reflexivity.
Defined.

(** C3 (as stated) fails: in [(A:5,(B:1,C:1)N:1)R;] the leaf [A] is the
    deepest by the original branch lengths (depth 5, the maximum), yet its
    edge is not set to 1 but to 2, because the order and the maximum come
    from the unit depths. *)
Lemma to_ultrametric_tree_ignores_lengths :
  ~ deepest_by_length_gets_unit_edges tree_a5.
Proof.
  intros H.
  destruct (H _ [0] (bleaf "A" 5) eq_refl) with (q := [0]) as (b & Hb & Hone).
  - vm_compute. auto.
  - vm_compute. reflexivity.
  - simpl. auto.
  - vm_compute in Hb. injection Hb as <-. vm_compute in Hone. discriminate.
Qed.

(** ** Layout: distances and loops over dictionaries *)

Lemma distance_well_named t p c :
  well_named t -> get_node t p = Some c ->
  distance t (name c) = Ok (depth_at t p).
Proof.
  intros Hw Hg. destruct (well_named_name t p c Hw Hg) as [Hn Hne].
  unfold distance, get_path_by_name. rewrite Hn.
  apply String.eqb_neq in Hne. rewrite Hne.
  rewrite (find_clades_unique t p c Hw Hg). reflexivity.
Qed.

Lemma distance_str_name t p c :
  well_named t -> get_node t p = Some c ->
  distance t (Some (str_name c)) = Ok (depth_at t p).
Proof.
  intros Hw Hg. destruct (well_named_name t p c Hw Hg) as [Hn _].
  rewrite <- Hn. apply distance_well_named; assumption.
Qed.

Lemma for_each_app {A S : Type} (body : S -> A -> result S) (l1 l2 : list A) :
  forall s, for_each body (l1 ++ l2) s =
            (s' <- for_each body l1 s ;; for_each body l2 s').
Proof.
  induction l1 as [|x r IH]; intros s; simpl; auto.
  destruct (body s x) as [s'|e]; simpl; auto.
Qed.

(** A loop that stores, under distinct fresh keys, values that do not
    depend on the dictionary: the entries are appended in order. *)
Lemma for_each_dict_set {A V : Type} (body : dict V -> A -> result (dict V))
  (key : A -> string) (g : A -> V) (l : list A) :
  (forall d it, In it l -> body d it = Ok (dict_set d (key it) (g it))) ->
  forall d, NoDup (keys d ++ map key l) ->
    for_each body l d = Ok (d ++ map (fun it => (key it, g it)) l).
Proof.
  induction l as [|x r IH]; intros Hbody d Hnd; simpl.
  - rewrite app_nil_r. reflexivity.
  - rewrite Hbody by (left; auto). simpl.
    assert (Hfresh : ~ In (key x) (keys d)).
    { simpl in Hnd. apply NoDup_remove_2 in Hnd. intros H. apply Hnd.
      apply in_or_app. auto. }
    rewrite dict_set_fresh by assumption.
    rewrite IH.
    + rewrite <- app_assoc. reflexivity.
    + intros d' it Hit. apply Hbody. right. assumption.
    + unfold keys. rewrite map_app. simpl. rewrite <- app_assoc. exact Hnd.
Qed.

Lemma in_dict_set {V : Type} (d : dict V) k (v : V) s w :
  In (s, w) (dict_set d k v) -> (s = k /\ w = v) \/ In (s, w) d.
Proof.
  induction d as [|[k0 v0] r IH]; simpl.
  - intros [E | []]. inversion E; auto.
  - destruct (String.eqb k0 k) eqn:E; simpl.
    + apply String.eqb_eq in E. subst k0. intros [E' | H]; auto.
      inversion E'; auto.
    + intros [E' | H]; auto. apply IH in H. tauto.
Qed.

Lemma dict_get_some_in_keys {V : Type} (d : dict V) k :
  In k (keys d) -> exists v, dict_get d k = Some v.
Proof.
  intros H. destruct (dict_get d k) as [v|] eqn:E; eauto.
  apply dict_get_none in E. contradiction.
Qed.

Lemma get_node_app (q : pos) :
  forall t p, get_node t (q ++ p) =
              match get_node t q with Some c => get_node c p | None => None end.
Proof.
  induction q as [|i q IH]; intros t p; simpl; auto.
  destruct (nth_error (clades t) i); auto.
Qed.

(** ** Layout: the internal clades, in postorder *)

Lemma map_snd_filter_shift (f : Clade -> bool) (i : nat) (l : list (pos * Clade)) :
  map snd (filter (fun pc => f (snd pc)) (map (fun pc => (i :: fst pc, snd pc)) l))
  = map snd (filter (fun pc => f (snd pc)) l).
Proof.
  unfold pos in *. induction l as [|x r IH]; simpl; auto.
  destruct (f (snd x)); [cbn [map snd]; f_equal|]; exact IH.
Qed.

Lemma nonterminals_walk_list (cs : list Clade) :
  forall i,
    map snd (filter (fun pc => negb (terminal_at pc)) (walk_list postorder i cs))
    = internal_blocks cs.
Proof.
  unfold internal_blocks, get_nonterminals_postorder.
  induction cs as [|c r IH]; intros i; simpl; auto.
  rewrite filter_app, map_app, IH. f_equal.
  apply (map_snd_filter_shift (fun c => negb (is_terminal c))).
Qed.

Lemma nonterminals_postorder_unfold (c : Clade) :
  map snd (get_nonterminals_postorder c) =
  internal_blocks (clades c) ++ (if is_terminal c then [] else [c]).
Proof.
  unfold get_nonterminals_postorder. rewrite postorder_unfold.
  rewrite filter_app, map_app, nonterminals_walk_list. f_equal.
  simpl. unfold terminal_at. simpl. destruct (is_terminal c); reflexivity.
Qed.

Lemma map_result_ok {A B : Type} (f : A -> result B) (l : list A) :
  (forall x, In x l -> exists y, f x = Ok y) -> exists ys, map_result f l = Ok ys.
Proof.
  induction l as [|x r IH]; simpl; intros H; [eauto|].
  destruct (H x) as [y Hy]; auto. rewrite Hy. simpl.
  destruct IH as [ys Hys]; auto. rewrite Hys. simpl. eauto.
Qed.

Lemma subtree_of_child tree c i ch :
  subtree_of tree c -> nth_error (clades c) i = Some ch -> subtree_of tree ch.
Proof.
  intros H Hn p node Hg. apply (H (i :: p)). simpl. rewrite Hn. exact Hg.
Qed.

Lemma get_node_child c i p node :
  get_node c (i :: p) = Some node ->
  exists ch, In ch (clades c) /\ get_node ch p = Some node.
Proof.
  simpl. destruct (nth_error (clades c) i) as [ch|] eqn:E; [|discriminate].
  intros H. exists ch. split; auto. eapply nth_error_In; eauto.
Qed.

Section InternalLoop.
Variable tree : Clade.
Hypothesis Hw : well_named tree.

Lemma internal_blocks_loop (cs : list Clade) :
  Forall (internal_loop_spec tree) cs ->
  (forall ch, In ch cs -> subtree_of tree ch) ->
  forall d, xs_ok tree d ->
    (forall ch p node, In ch cs -> get_node ch p = Some node ->
                       is_terminal node = true -> In (str_name node) (keys d)) ->
    exists d',
      for_each (place_internal tree) (internal_blocks cs) d = Ok d' /\
      xs_ok tree d' /\
      (forall k, In k (keys d) -> In k (keys d')) /\
      (forall ch p node, In ch cs -> get_node ch p = Some node ->
                         In (str_name node) (keys d')) /\
      (forall k, (forall ch p node, In ch cs -> get_node ch p = Some node ->
                    is_terminal node = false -> str_name node <> k) ->
                 dict_get d' k = dict_get d k).
Proof.
  induction 1 as [|ch r Hch _ IH]; intros Hsub d Hxs Hleaves.
  - exists d. simpl. repeat split; auto. intros ch p node [].
  - unfold internal_blocks. simpl. fold (internal_blocks r).
    rewrite for_each_app.
    destruct (Hch (Hsub ch (or_introl eq_refl)) d Hxs) as (d1 & H1 & Hxs1 & Hm1 & Hall1 & Hf1).
    { intros p node. apply Hleaves. left; auto. }
    rewrite H1. simpl.
    destruct (IH (fun c Hc => Hsub c (or_intror Hc)) d1 Hxs1)
      as (d2 & H2 & Hxs2 & Hm2 & Hall2 & Hf2).
    { intros c p node Hc Hg Ht. apply Hm1. eapply Hleaves; eauto. right; auto. }
    exists d2. split; auto. split; auto. split; [auto|]. split.
    + intros c p node [<- | Hc] Hg.
      * apply Hm2. eapply Hall1; eauto.
      * eapply Hall2; eauto.
    + intros k Hk. rewrite Hf2, Hf1; auto.
      * intros p node. apply Hk. left; auto.
      * intros c p node Hc. apply Hk. right; auto.
Qed.

Lemma internal_loop (c : Clade) : internal_loop_spec tree c.
Proof.
  induction c as [n b k cs IH] using Clade_rect'.
  intros Hsub d Hxs Hleaves.
  set (c := Node n b k cs) in *.
  rewrite nonterminals_postorder_unfold, for_each_app.
  destruct (internal_blocks_loop cs IH) with (d := d)
    as (d1 & H1 & Hxs1 & Hm1 & Hall1 & Hf1); auto.
  { intros ch Hch. apply In_nth_error in Hch. destruct Hch as [i Hi].
    eapply subtree_of_child; eauto. }
  { intros ch p node Hch Hg Ht. apply In_nth_error in Hch. destruct Hch as [i Hi].
    apply (Hleaves (i :: p)); auto. simpl. change (clades c) with cs.
    rewrite Hi. exact Hg. }
  change (clades c) with cs. rewrite H1. simpl.
  assert (Hrest : forall p node, get_node c p = Some node -> p <> [] ->
                                 In (str_name node) (keys d1)).
  { intros [|i p] node Hg Hp; [congruence|].
    apply get_node_child in Hg. destruct Hg as (ch & Hch & Hg). eauto. }
  destruct (is_terminal c) eqn:Hterm.
  - exists d1. simpl. split; auto. split; auto. split; auto. split.
    + intros [|i p] node Hg.
      * simpl in Hg. injection Hg as <-. apply Hm1. apply (Hleaves []); auto.
      * apply Hrest with (p := i :: p); [exact Hg | discriminate].
    + intros key Hk. apply Hf1. intros ch p node Hch Hg.
      apply In_nth_error in Hch. destruct Hch as [i Hi].
      apply (Hk (i :: p)). simpl. change (clades c) with cs. rewrite Hi. exact Hg.
  - destruct (Hsub [] c eq_refl) as [q Hq].
    assert (Hys : exists ys, map_result (child_y d1) cs = Ok ys).
    { apply map_result_ok. intros ch Hch.
      assert (Hkey : In (str_name ch) (keys d1)) by (apply (Hall1 ch [] ch); auto).
      apply In_nth_error in Hch. destruct Hch as [i Hi].
      destruct (Hsub [i] ch) as [q' Hq'].
      { simpl. change (clades c) with cs. rewrite Hi. reflexivity. }
      destruct (well_named_name tree q' ch Hw Hq') as [Hn _].
      unfold child_y, dict_item. rewrite Hn.
      destruct (dict_get_some_in_keys d1 _ Hkey) as [v Hv]. rewrite Hv.
      simpl. eauto. }
    destruct Hys as [ys Hys].
    simpl. unfold place_internal.
    rewrite (distance_well_named tree q c Hw Hq). simpl.
    change (clades c) with cs. rewrite Hys. simpl.
    eexists. split; [reflexivity|]. split; [|split; [|split]].
    + intros s v Hin. apply in_dict_set in Hin. destruct Hin as [[-> ->] | Hin].
      * simpl. apply distance_str_name; assumption.
      * apply Hxs1; assumption.
    + intros key Hkey. apply in_keys_dict_set. right. apply Hm1. exact Hkey.
    + intros [|i p] node Hg.
      * simpl in Hg. injection Hg as <-. apply in_keys_dict_set. left. reflexivity.
      * apply in_keys_dict_set. right.
        apply Hrest with (p := i :: p); [exact Hg | discriminate].
    + intros key Hk. rewrite dict_get_set_ne.
      * apply Hf1. intros ch p node Hch Hg.
        apply In_nth_error in Hch. destruct Hch as [i Hi].
        apply (Hk (i :: p)). simpl. change (clades c) with cs. rewrite Hi. exact Hg.
      * apply (Hk [] c); auto.
Qed.
End InternalLoop.

(** ** Layout: the right-aligned coordinates *)

Lemma map_leaf_key_enumerate (l : list (pos * Clade)) :
  forall s, map leaf_key (enumerate s l) = map row_name l.
Proof. induction l as [|x r IH]; intros s; simpl; [|rewrite IH]; reflexivity. Qed.

Lemma in_leaf_nodes t reverse pc :
  In pc (leaf_nodes t reverse) <-> In pc (get_terminals t).
Proof.
  unfold leaf_nodes. destruct reverse.
  - rewrite <- !in_rev. tauto.
  - rewrite <- in_rev. tauto.
Qed.

Lemma leaf_nodes_perm t reverse :
  Permutation (leaf_nodes t reverse) (get_terminals t).
Proof.
  unfold leaf_nodes. destruct reverse.
  - rewrite rev_involutive. reflexivity.
  - apply Permutation_sym, Permutation_rev.
Qed.

Lemma NoDup_leaf_names t reverse :
  well_named t -> NoDup (map row_name (leaf_nodes t reverse)).
Proof.
  intros Hw. eapply Permutation_NoDup.
  - apply Permutation_map. apply Permutation_sym. apply leaf_nodes_perm.
  - unfold get_terminals. apply NoDup_map_filter. apply well_named_NoDup. exact Hw.
Qed.

Lemma leaves_loop t reverse :
  well_named t ->
  for_each (place_leaf t) (enumerate 1 (leaf_nodes t reverse)) [] =
  Ok (map (fun it => (leaf_key it, leaf_xy t it)) (enumerate 1 (leaf_nodes t reverse))).
Proof.
  intros Hw.
  apply (for_each_dict_set (place_leaf t) leaf_key (leaf_xy t)
           (enumerate 1 (leaf_nodes t reverse))).
  - intros d [idx [p c]] Hin. apply in_enumerate in Hin. destruct Hin as [Hin _].
    apply in_leaf_nodes, in_get_terminals in Hin. destruct Hin as [Hg _].
    unfold place_leaf. simpl. rewrite (distance_well_named t p c Hw Hg). reflexivity.
  - simpl. rewrite map_leaf_key_enumerate. apply NoDup_leaf_names. exact Hw.
Qed.

Lemma terminal_not_internal_name t p c p' c' :
  well_named t -> get_node t p = Some c -> get_node t p' = Some c' ->
  is_terminal c = true -> is_terminal c' = false -> str_name c' <> str_name c.
Proof.
  intros Hw Hg Hg' Ht Ht' E.
  assert (p' = p) by (eapply well_named_pos_inj; eauto). subst. congruence.
Qed.

Lemma in_enumerate_exists {A : Type} (l : list A) x :
  In x l -> forall s, exists k, In (k, x) (enumerate s l).
Proof.
  induction l as [|y r IH]; simpl; intros H s; [tauto|].
  destruct H as [-> | H].
  - exists s. auto.
  - destruct (IH H (S s)) as [k Hk]. exists k. auto.
Qed.

Lemma calc_name2xy_right_spec t reverse :
  well_named t ->
  exists name2xy_right,
    calc_name2xy_right t reverse = Ok name2xy_right /\
    (forall p c, get_node t p = Some c ->
       exists y, dict_get name2xy_right (str_name c) = Some (depth_at t p, y)) /\
    (forall idx p c, In (idx, (p, c)) (enumerate 1 (leaf_nodes t reverse)) ->
       dict_get name2xy_right (str_name c)
       = Some (depth_at t p, inject_Z (Z.of_nat idx))).
Proof.
  intros Hw. unfold calc_name2xy_right. rewrite (leaves_loop t reverse Hw). simpl.
  set (items := enumerate 1 (leaf_nodes t reverse)).
  set (d1 := map (fun it => (leaf_key it, leaf_xy t it)) items).
  assert (Hitems : forall idx p c, In (idx, (p, c)) items ->
                     get_node t p = Some c /\ is_terminal c = true).
  { intros idx p c Hin. apply in_enumerate in Hin. destruct Hin as [Hin _].
    apply in_leaf_nodes, in_get_terminals in Hin. exact Hin. }
  assert (Hkeys1 : NoDup (keys d1)).
  { unfold keys, d1. rewrite map_map. simpl.
    change (map (fun x => leaf_key x) items) with (map leaf_key items).
    unfold items. rewrite map_leaf_key_enumerate. apply NoDup_leaf_names. exact Hw. }
  destruct (internal_loop t Hw t) with (d := d1)
    as (right & Hrun & Hxs & _ & Hall & Hframe).
  - intros p node Hg. eauto.
  - intros s v Hin. unfold d1 in Hin. apply in_map_iff in Hin.
    destruct Hin as ([idx [p c]] & E & Hin). inversion E; subst.
    destruct (Hitems idx p c Hin) as [Hg _]. simpl.
    unfold leaf_key. simpl. apply distance_str_name; assumption.
  - intros p node Hg Ht.
    assert (Hin : In (p, node) (leaf_nodes t reverse)).
    { apply in_leaf_nodes, in_get_terminals. auto. }
    destruct (in_enumerate_exists _ _ Hin 1) as [idx Hidx].
    unfold keys, d1. rewrite map_map. simpl.
    apply in_map_iff. exists (idx, (p, node)). auto.
  - exists right. split; auto. split.
    + intros p c Hg.
      destruct (dict_get_some_in_keys right _ (Hall p c Hg)) as [[x y] Hv].
      exists y. rewrite Hv. f_equal. f_equal.
      apply dict_get_in, Hxs in Hv. simpl in Hv.
      rewrite (distance_str_name t p c Hw Hg) in Hv. congruence.
    + intros idx p c Hin. destruct (Hitems idx p c Hin) as [Hg Ht].
      rewrite Hframe.
      * apply in_dict_get; auto. unfold d1. apply in_map_iff.
        exists (idx, (p, c)). auto.
      * intros p' node Hg' Ht'.
        eapply terminal_not_internal_name; eauto.
Qed.

(** ** Layout: the left and center coordinates *)

Lemma prefixes_last_two (p : pos) :
  p <> [] -> exists l, [] :: path_to p = l ++ [removelast p; p].
Proof.
  induction p as [|i p IH]; [congruence|]. intros _.
  destruct p as [|j p].
  - exists []. reflexivity.
  - destruct IH as [l Hl]; [discriminate|].
    exists ([] :: map (cons i) l).
    change (path_to (i :: j :: p)) with ([i] :: map (cons i) (path_to (j :: p))).
    change ([i] :: map (cons i) (path_to (j :: p)))
      with (map (cons i) ([] :: path_to (j :: p))).
    rewrite Hl, map_app. reflexivity.
Qed.

Lemma second_to_last_path (p : pos) :
  p <> [] -> second_to_last ([] :: path_to p) = Ok (removelast p).
Proof.
  intros Hp. destruct (prefixes_last_two p Hp) as [l Hl].
  unfold second_to_last. rewrite Hl, rev_app_distr. reflexivity.
Qed.

Lemma removelast_prefix (p : pos) : p <> [] -> exists i, p = removelast p ++ [i].
Proof.
  intros Hp. exists (last p 0). apply app_removelast_last. exact Hp.
Qed.

Lemma get_node_parent t p c :
  get_node t p = Some c -> p <> [] ->
  exists parent_node, get_node t (removelast p) = Some parent_node.
Proof.
  intros Hg Hp. destruct (removelast_prefix p Hp) as [i Hi].
  destruct (get_node t (removelast p)) as [pn|] eqn:E; eauto.
  exfalso. apply (get_node_prefix (removelast p) t [i]); auto.
  rewrite <- Hi, Hg. discriminate.
Qed.

Section PosLoop.
Variables (t : Clade) (name2xy_right : dict xy) (pos : string).
Hypothesis Hw : well_named t.
Hypothesis Hpos : pos = "left" \/ pos = "center".
Hypothesis Hright : forall p c, get_node t p = Some c ->
    exists y, dict_get name2xy_right (str_name c) = Some (depth_at t p, y).

Lemma place_pos_ok d pc :
  In pc (preorder t) ->
  place_pos t name2xy_right pos d pc =
  Ok (dict_set d (row_name pc) (pos_xy t name2xy_right pos pc)).
Proof.
  destruct pc as [p c]. intros Hin. apply in_preorder in Hin.
  destruct (Hright p c Hin) as [y Hy].
  unfold place_pos, pos_xy, row_name, get_or, dict_item. simpl fst. simpl snd.
  rewrite Hy. destruct p as [|i p]; [reflexivity|].
  destruct (well_named_name t _ c Hw Hin) as [Hn Hne].
  unfold get_path_by_name. rewrite Hn.
  apply String.eqb_neq in Hne. rewrite Hne.
  rewrite (find_clades_unique t _ c Hw Hin). cbn [bind].
  rewrite second_to_last_path by discriminate. cbn [bind].
  destruct (get_node_parent t (i :: p) c Hin) as [pn Hpn]; [discriminate|].
  rewrite Hpn. destruct (Hright _ pn Hpn) as [py Hpy]. rewrite Hpy. cbn [bind].
  destruct Hpos as [-> | ->]; reflexivity.
Qed.

Lemma pos_loop :
  for_each (place_pos t name2xy_right pos) (preorder t) [] =
  Ok (map (fun pc => (row_name pc, pos_xy t name2xy_right pos pc)) (preorder t)).
Proof.
  apply (for_each_dict_set (place_pos t name2xy_right pos) row_name
           (pos_xy t name2xy_right pos) (preorder t)).
  - intros d pc Hin. apply place_pos_ok. exact Hin.
  - simpl. apply well_named_NoDup. exact Hw.
Qed.

Lemma pos_loop_get p c :
  get_node t p = Some c ->
  dict_get (map (fun pc => (row_name pc, pos_xy t name2xy_right pos pc)) (preorder t))
           (str_name c)
  = Some (pos_xy t name2xy_right pos (p, c)).
Proof.
  intros Hg. apply in_dict_get.
  - unfold keys. rewrite map_map. simpl. apply well_named_NoDup. exact Hw.
  - apply in_map_iff. exists (p, c). split; auto. apply in_preorder. exact Hg.
Qed.
End PosLoop.

Lemma calc_name2xy_pos_right t reverse :
  _calc_name2xy_pos t reverse "right" = calc_name2xy_right t reverse.
Proof.
  unfold _calc_name2xy_pos. simpl.
  destruct (calc_name2xy_right t reverse); reflexivity.
Qed.

Lemma calc_name2xy_pos_other t reverse pos name2xy_right :
  well_named t -> pos = "left" \/ pos = "center" ->
  calc_name2xy_right t reverse = Ok name2xy_right ->
  (forall p c, get_node t p = Some c ->
     exists y, dict_get name2xy_right (str_name c) = Some (depth_at t p, y)) ->
  _calc_name2xy_pos t reverse pos =
  Ok (map (fun pc => (row_name pc, pos_xy t name2xy_right pos pc)) (preorder t)).
Proof.
  intros Hw Hpos Hrun Hright. unfold _calc_name2xy_pos. rewrite Hrun.
  destruct Hpos as [-> | ->]; simpl; apply pos_loop; auto.
Qed.

(** C4. In the three coordinate maps of a well-named tree, the right
    x-coordinate of a clade is its depth, its left x-coordinate is the
    right x-coordinate of its parent, its center x-coordinate is the
    midpoint of the two, and for the root the three coincide; the
    y-coordinate is the same in the three maps. *)
Theorem calc_name2xy_pos_alignment (t : Clade) (reverse : bool) (p : pos) (c : Clade) :
  well_named t ->
  get_node t p = Some c ->
  exists right left center xr yr xl yl xc yc,
    _calc_name2xy_pos t reverse "right" = Ok right /\
    _calc_name2xy_pos t reverse "left" = Ok left /\
    _calc_name2xy_pos t reverse "center" = Ok center /\
    dict_get right (str_name c) = Some (xr, yr) /\
    dict_get left (str_name c) = Some (xl, yl) /\
    dict_get center (str_name c) = Some (xc, yc) /\
    xr = depth_at t p /\ yl = yr /\ yc = yr /\
    match p with
    | [] => xl = xr /\ xc = xr
    | _ :: _ =>
        exists parent_node xpr ypr,
          get_node t (removelast p) = Some parent_node /\
          dict_get right (str_name parent_node) = Some (xpr, ypr) /\
          xl = xpr /\ xc = ((xr + xpr) / 2)%Q
    end.
Proof.
  intros Hw Hg.
  destruct (calc_name2xy_right_spec t reverse Hw) as (right & Hrun & Hright & _).
  destruct (Hright p c Hg) as [yr Hyr].
  exists right.
  exists (map (fun pc => (row_name pc, pos_xy t right "left" pc)) (preorder t)).
  exists (map (fun pc => (row_name pc, pos_xy t right "center" pc)) (preorder t)).
  exists (depth_at t p), yr.
  exists (fst (pos_xy t right "left" (p, c))), (snd (pos_xy t right "left" (p, c))).
  exists (fst (pos_xy t right "center" (p, c))), (snd (pos_xy t right "center" (p, c))).
  split; [rewrite calc_name2xy_pos_right; exact Hrun|].
  split; [apply calc_name2xy_pos_other; auto|].
  split; [apply calc_name2xy_pos_other; auto|].
  split; [exact Hyr|].
  split; [rewrite (pos_loop_get t right "left" Hw p c Hg); rewrite <- surjective_pairing; reflexivity|].
  split; [rewrite (pos_loop_get t right "center" Hw p c Hg); rewrite <- surjective_pairing; reflexivity|].
  split; [reflexivity|].
  unfold pos_xy, get_or, row_name. simpl fst. simpl snd. rewrite Hyr.
  destruct p as [|i p].
  - simpl. auto.
  - destruct (get_node_parent t (i :: p) c Hg) as [pn Hpn]; [discriminate|].
    rewrite Hpn. destruct (Hright _ pn Hpn) as [py Hpy]. rewrite Hpy.
    cbn [fst snd String.eqb Ascii.eqb Bool.eqb]. split; auto. split; auto.
    exists pn, (depth_at t (removelast (i :: p))), py. auto.
Qed.

Lemma calc_name2xy_pos_alignment_witness :
  exists right left center xr yr xl yl xc yc,
    _calc_name2xy_pos tree_abc false "right" = Ok right /\
    _calc_name2xy_pos tree_abc false "left" = Ok left /\
    _calc_name2xy_pos tree_abc false "center" = Ok center /\
    dict_get right "B" = Some (xr, yr) /\
    dict_get left "B" = Some (xl, yl) /\
    dict_get center "B" = Some (xc, yc) /\
    xr = depth_at tree_abc [1; 0] /\ yl = yr /\ yc = yr /\
    exists parent_node xpr ypr,
      get_node tree_abc [1] = Some parent_node /\
      dict_get right (str_name parent_node) = Some (xpr, ypr) /\
      xl = xpr /\ xc = ((xr + xpr) / 2)%Q.
Proof.
  apply (calc_name2xy_pos_alignment tree_abc false [1; 0] (bleaf "B" 2)).
  - split; reflexivity.
  - reflexivity.
Defined.

(** ** Layout: the y-coordinates of the leaves *)

Lemma enumerated_ranks (d : dict xy) (l : list (pos * Clade)) :
  forall s,
    (forall idx pc, In (idx, pc) (enumerate s l) ->
       has_y d pc (inject_Z (Z.of_nat idx))) ->
    Forall2 (has_y d) l (map (fun k => inject_Z (Z.of_nat k)) (seq s (List.length l))).
Proof.
  induction l as [|pc r IH]; intros s H; simpl; constructor.
  - apply H. left. reflexivity.
  - apply IH. intros idx pc' Hin. apply H. right. exact Hin.
Qed.

Lemma Forall2_impl_in {A B : Type} (R R' : A -> B -> Prop) (l : list A) (l' : list B) :
  (forall a b, In a l -> R a b -> R' a b) -> Forall2 R l l' -> Forall2 R' l l'.
Proof.
  intros H HF. induction HF as [|a b l l' Hab _ IH]; constructor.
  - apply H; auto. left; auto.
  - apply IH. intros a' b' Hin. apply H. right; auto.
Qed.

Lemma Forall2_rev' {A B : Type} (R : A -> B -> Prop) (l : list A) (l' : list B) :
  Forall2 R l l' -> Forall2 R (rev l) (rev l').
Proof.
  induction 1 as [|a b l l' Hab _ IH]; simpl; [constructor|].
  apply Forall2_app; auto.
Qed.

Lemma valid_pos_cases pos :
  valid_pos pos = true -> pos = "right" \/ (pos = "left" \/ pos = "center").
Proof.
  unfold valid_pos. rewrite !orb_true_iff, !String.eqb_eq. tauto.
Qed.

Lemma length_leaf_nodes t reverse :
  List.length (leaf_nodes t reverse) = count_terminals t.
Proof.
  unfold leaf_nodes, count_terminals. destruct reverse; rewrite ?length_rev; auto.
Qed.

Lemma right_leaf_ranks t reverse name2xy_right :
  (forall idx p c, In (idx, (p, c)) (enumerate 1 (leaf_nodes t reverse)) ->
     dict_get name2xy_right (str_name c)
     = Some (depth_at t p, inject_Z (Z.of_nat idx))) ->
  Forall2 (has_y name2xy_right) (get_terminals t)
    (if reverse then ranks (count_terminals t) else rev (ranks (count_terminals t))).
Proof.
  intros H.
  assert (HL : Forall2 (has_y name2xy_right) (leaf_nodes t reverse)
                 (ranks (count_terminals t))).
  { unfold ranks. rewrite <- (length_leaf_nodes t reverse).
    apply enumerated_ranks. intros idx [p c] Hin.
    exists (depth_at t p). apply H. exact Hin. }
  unfold leaf_nodes in HL. destruct reverse.
  - rewrite rev_involutive in HL. exact HL.
  - apply Forall2_rev' in HL. rewrite rev_involutive in HL. exact HL.
Qed.

(** C5. In each of the three coordinate maps of a well-named tree with N
    leaves, the y-coordinates of the leaves, taken in the order of
    [get_terminals], are N, ..., 1 (or 1, ..., N when [reverse] is set):
    every rank from 1 to N exactly once. *)
Theorem calc_name2xy_pos_leaf_ranks (t : Clade) (reverse : bool) (pos : string) :
  well_named t ->
  valid_pos pos = true ->
  exists d ys,
    _calc_name2xy_pos t reverse pos = Ok d /\
    Forall2 (has_y d) (get_terminals t) ys /\
    ys = (if reverse then ranks (count_terminals t)
          else rev (ranks (count_terminals t))) /\
    Permutation ys (ranks (count_terminals t)).
Proof.
  intros Hw Hpos.
  destruct (calc_name2xy_right_spec t reverse Hw) as (right & Hrun & Hright & Hleaf).
  pose proof (right_leaf_ranks t reverse right Hleaf) as HF.
  assert (Hperm : Permutation
            (if reverse then ranks (count_terminals t)
             else rev (ranks (count_terminals t)))
            (ranks (count_terminals t))).
  { destruct reverse; [reflexivity | apply Permutation_sym, Permutation_rev]. }
  destruct (valid_pos_cases pos Hpos) as [-> | Hother].
  - exists right. eexists. split; [rewrite calc_name2xy_pos_right; exact Hrun|].
    split; [exact HF|]. split; [reflexivity | exact Hperm].
  - exists (map (fun pc => (row_name pc, pos_xy t right pos pc)) (preorder t)).
    eexists.
    split; [apply (calc_name2xy_pos_other t reverse pos right Hw Hother Hrun Hright)|].
    split; [|split; [reflexivity | exact Hperm]].
    eapply Forall2_impl_in; [|exact HF].
    intros [p c] y Hin [x Hx]. apply in_get_terminals in Hin. destruct Hin as [Hg _].
    unfold has_y. change (row_name (p, c)) with (str_name c) in *.
    rewrite (pos_loop_get t right pos Hw p c Hg).
    exists (fst (pos_xy t right pos (p, c))).
    rewrite (surjective_pairing (pos_xy t right pos (p, c))) at 1. f_equal. f_equal.
    unfold pos_xy, get_or, row_name. simpl fst. simpl snd. rewrite Hx.
    destruct p; reflexivity.
Qed.

Lemma calc_name2xy_pos_leaf_ranks_witness :
  exists d ys,
    _calc_name2xy_pos tree_abc true "center" = Ok d /\
    Forall2 (has_y d) (get_terminals tree_abc) ys /\
    ys = ranks (count_terminals tree_abc) /\
    Permutation ys (ranks (count_terminals tree_abc)).
Proof.
  apply (calc_name2xy_pos_leaf_ranks tree_abc true "center").
  - split; reflexivity.
  - reflexivity.
Defined.

(** ** Common ancestors *)

Lemma pos_eqb_eq p q : pos_eqb p q = true <-> p = q.
Proof.
  unfold pos_eqb. destruct (list_eq_dec Nat.eq_dec p q); split; auto; discriminate.
Qed.

Lemma pos_eqb_cons i p q : pos_eqb (i :: p) (i :: q) = pos_eqb p q.
Proof.
  destruct (pos_eqb p q) eqn:E.
  - apply pos_eqb_eq in E. subst. apply pos_eqb_eq. reflexivity.
  - destruct (pos_eqb (i :: p) (i :: q)) eqn:E'; auto.
    apply pos_eqb_eq in E'. injection E' as ->.
    rewrite (proj2 (pos_eqb_eq q q) eq_refl) in E. discriminate.
Qed.

Lemma forallb_pos_eqb_cons i ref (others : list pos) :
  forallb (pos_eqb (i :: ref)) (map (cons i) others) = forallb (pos_eqb ref) others.
Proof.
  induction others as [|x r IH]; simpl; auto.
  rewrite pos_eqb_cons, IH. reflexivity.
Qed.

(** Going down one edge [i] in all paths shifts the result by [i]. *)
Lemma mrca_loop_shift i (levels : list (list pos)) :
  forall mrca,
    mrca_loop (map (map (cons i)) levels) (i :: mrca) = i :: mrca_loop levels mrca.
Proof.
  induction levels as [|level rest IH]; intros mrca; simpl; auto.
  destruct level as [|ref others]; simpl; auto.
  rewrite forallb_pos_eqb_cons.
  destruct (forallb (pos_eqb ref) others).
  - rewrite pos_eqb_cons. rewrite (proj2 (pos_eqb_eq ref ref) eq_refl). apply IH.
  - rewrite pos_eqb_cons. destruct (pos_eqb ref mrca); auto.
Qed.

Lemma heads_map_cons i (ls : list (list pos)) :
  heads (map (map (cons i)) ls) = option_map (map (cons i)) (heads ls).
Proof.
  induction ls as [|l r IH]; simpl; auto.
  destruct l as [|x l]; simpl; auto.
  rewrite IH. destruct (heads r); reflexivity.
Qed.

Lemma zip_star_map_cons i (first : list pos) :
  forall others,
    zip_star (map (cons i) first) (map (map (cons i)) others)
    = map (map (cons i)) (zip_star first others).
Proof.
  induction first as [|x first IH]; intros others; simpl; auto.
  rewrite heads_map_cons. destruct (heads others) as [hs|]; simpl; auto.
  f_equal. rewrite <- IH. f_equal. rewrite !map_map.
  apply map_ext. intros l. destruct l; reflexivity.
Qed.

(** The heads of the paths to [ps], and what remains of them. *)
Lemma heads_path_to (ps : list pos) :
  heads (map path_to ps) =
  (fix go (l : list pos) : option (list pos) :=
     match l with
     | [] => Some []
     | [] :: _ => None
     | (j :: _) :: r =>
         match go r with Some hs => Some ([j] :: hs) | None => None end
     end) ps.
Proof.
  induction ps as [|p r IH]; simpl; auto.
  destruct p as [|j q]; simpl; auto. rewrite IH. reflexivity.
Qed.

Lemma all_cons_paths i (ps qs : list pos) :
  all_cons i ps = Some qs ->
  heads (map path_to ps) = Some (map (fun _ => [i]) ps) /\
  map (@tl pos) (map path_to ps) = map (map (cons i)) (map path_to qs).
Proof.
  revert qs. induction ps as [|p r IH]; intros qs H; simpl in *.
  - injection H as <-. auto.
  - destruct p as [|j q]; [discriminate|].
    destruct (Nat.eqb i j) eqn:E; [|discriminate]. apply Nat.eqb_eq in E. subst j.
    destruct (all_cons i r) as [qs'|]; [|discriminate]. injection H as <-.
    destruct (IH qs' eq_refl) as [H1 H2]. simpl. rewrite H1, H2. auto.
Qed.

Lemma all_cons_none_level i (ps : list pos) hs :
  all_cons i ps = None -> heads (map path_to ps) = Some hs ->
  forallb (pos_eqb [i]) hs = false.
Proof.
  revert hs. induction ps as [|p r IH]; intros hs H Hh; simpl in *; [discriminate|].
  destruct p as [|j q]; [discriminate|]. simpl in Hh.
  destruct (heads (map path_to r)) as [hs'|] eqn:Eh; [|discriminate].
  injection Hh as <-. simpl.
  destruct (Nat.eqb i j) eqn:E.
  - apply Nat.eqb_eq in E. subst j.
    destruct (all_cons i r); [discriminate|].
    rewrite (IH hs' eq_refl eq_refl). apply andb_false_r.
  - apply Nat.eqb_neq in E.
    destruct (pos_eqb [i] [j]) eqn:E'; auto.
    apply pos_eqb_eq in E'. congruence.
Qed.

Lemma forallb_same i (ps : list pos) :
  forallb (pos_eqb [i]) (map (fun _ => [i]) ps) = true.
Proof.
  induction ps; simpl; auto.
  rewrite (proj2 (pos_eqb_eq [i] [i]) eq_refl). auto.
Qed.

(** The loop of [common_ancestor] computes the longest common prefix. *)
Lemma mrca_loop_lcp (p : pos) :
  forall ps, mrca_loop (zip_star (path_to p) (map path_to ps)) [] = lcp p ps.
Proof.
  induction p as [|i p IH]; intros ps; simpl; auto.
  destruct (all_cons i ps) as [qs|] eqn:E.
  - destruct (all_cons_paths i ps qs E) as [H1 H2]. rewrite H1, H2.
    rewrite zip_star_map_cons. simpl. rewrite forallb_same.
    rewrite (proj2 (pos_eqb_eq [i] [i]) eq_refl).
    rewrite mrca_loop_shift. rewrite IH. reflexivity.
  - destruct (heads (map path_to ps)) as [hs|] eqn:Eh; simpl; auto.
    rewrite (all_cons_none_level i ps hs E Eh). reflexivity.
Qed.

Lemma all_cons_spec i (ps qs : list pos) :
  all_cons i ps = Some qs -> ps = map (cons i) qs.
Proof.
  revert qs. induction ps as [|p r IH]; intros qs H; simpl in *.
  - injection H as <-. reflexivity.
  - destruct p as [|j q]; [discriminate|].
    destruct (Nat.eqb i j) eqn:E; [|discriminate]. apply Nat.eqb_eq in E. subst j.
    destruct (all_cons i r) as [qs'|]; [|discriminate]. injection H as <-.
    simpl. rewrite (IH qs' eq_refl). reflexivity.
Qed.

Lemma all_cons_complete i (qs : list pos) : all_cons i (map (cons i) qs) = Some qs.
Proof.
  induction qs as [|q r IH]; simpl; auto.
  rewrite Nat.eqb_refl, IH. reflexivity.
Qed.

Lemma is_prefix_nil p : is_prefix [] p.
Proof. exists p. reflexivity. Qed.

Lemma is_prefix_cons i q p : is_prefix (i :: q) (i :: p) <-> is_prefix q p.
Proof.
  split; intros [r H]; exists r; simpl in *; congruence.
Qed.

(** [lcp p ps] is a prefix of [p] and of every element of [ps]. *)
Lemma lcp_is_prefix (p : pos) :
  forall ps, is_prefix (lcp p ps) p /\ forall q, In q ps -> is_prefix (lcp p ps) q.
Proof.
  induction p as [|i p IH]; intros ps; simpl.
  - split; [apply is_prefix_nil | intros; apply is_prefix_nil].
  - destruct (all_cons i ps) as [qs|] eqn:E.
    + apply all_cons_spec in E. subst ps. destruct (IH qs) as [H1 H2]. split.
      * apply is_prefix_cons. exact H1.
      * intros q Hq. apply in_map_iff in Hq. destruct Hq as (q' & <- & Hq').
        apply is_prefix_cons. auto.
    + split; [apply is_prefix_nil | intros; apply is_prefix_nil].
Qed.

(** Every common prefix is a prefix of [lcp p ps]. *)
Lemma lcp_greatest (p : pos) :
  forall ps m, is_prefix m p -> (forall q, In q ps -> is_prefix m q) ->
               is_prefix m (lcp p ps).
Proof.
  induction p as [|i p IH]; intros ps m Hp Hps; simpl.
  - exact Hp.
  - destruct m as [|j m]; [apply is_prefix_nil|].
    assert (j = i) by (destruct Hp as [r Hr]; simpl in Hr; congruence). subst j.
    assert (Hall : exists qs, ps = map (cons i) qs).
    { clear IH Hp. induction ps as [|q r IHr].
      - exists []. reflexivity.
      - destruct IHr as [qs Hqs]; [intros; apply Hps; right; auto|].
        destruct (Hps q (or_introl eq_refl)) as [t Ht].
        exists ((m ++ t) :: qs). rewrite Ht, Hqs. reflexivity. }
    destruct Hall as [qs ->]. rewrite all_cons_complete.
    apply is_prefix_cons. apply IH.
    + apply is_prefix_cons in Hp. exact Hp.
    + intros q Hq. apply (is_prefix_cons i). apply Hps. apply in_map. exact Hq.
Qed.

(** ** [_check_node_name_exist] and [_search_target_node_name] *)

Lemma mem_string_In s l : mem_string s l = true <-> In s l.
Proof.
  unfold mem_string. rewrite existsb_exists. split.
  - intros (x & Hx & E). apply String.eqb_eq in E. subst. exact Hx.
  - intros H. exists s. split; auto. apply String.eqb_refl.
Qed.

Lemma in_all_node_labels t s :
  In s (all_node_labels t) <-> exists p c, get_node t p = Some c /\ str_name c = s.
Proof.
  unfold all_node_labels, leaf_labels, innode_labels.
  rewrite in_app_iff, !in_map_iff. split.
  - intros [([p c] & E & H) | ([p c] & E & H)].
    + apply in_get_terminals in H. exists p, c. tauto.
    + apply in_get_nonterminals in H. exists p, c. tauto.
  - intros (p & c & Hg & E). destruct (is_terminal c) eqn:Ht.
    + left. exists (p, c). split; auto. apply in_get_terminals. auto.
    + right. exists (p, c). split; auto. apply in_get_nonterminals. auto.
Qed.

Lemma check_node_name_exist_ok t q :
  (forall s, In s (query_names q) -> In s (all_node_labels t)) ->
  _check_node_name_exist t q = Ok tt.
Proof.
  intros H. unfold _check_node_name_exist.
  rewrite filter_none; auto.
  intros s Hs. apply negb_false_iff. apply mem_string_In. auto.
Qed.

(** A query with an unknown name is rejected, and the exception lists
    exactly the unknown names of the query. *)
Lemma check_node_name_exist_raise t q s :
  In s (query_names q) -> ~ In s (all_node_labels t) ->
  exists missing,
    _check_node_name_exist t q = Raise (NamesNotFound missing (all_node_labels t)) /\
    (forall n, In n missing <-> In n (query_names q) /\ ~ In n (all_node_labels t)).
Proof.
  intros Hs Hn. unfold _check_node_name_exist.
  set (missing := filter _ (query_names q)).
  assert (Hspec : forall n, In n missing <->
                    In n (query_names q) /\ ~ In n (all_node_labels t)).
  { intros n. unfold missing. rewrite filter_In, negb_true_iff.
    rewrite <- (mem_string_In n (all_node_labels t)).
    destruct (mem_string n (all_node_labels t)); split; intros [H1 H2]; split;
      auto; try discriminate; try congruence; try (exfalso; apply H2; reflexivity). }
  exists missing. split; auto.
  destruct missing as [|m r] eqn:E; auto.
  exfalso. apply (proj2 (Hspec s)); auto.
Qed.

Lemma pos_of_name_spec t p c :
  well_named t -> get_node t p = Some c -> pos_of_name t (str_name c) = p.
Proof.
  intros Hw Hg. unfold pos_of_name. rewrite (find_clades_unique t p c Hw Hg).
  reflexivity.
Qed.

Lemma get_path_by_name_well_named t p c :
  well_named t -> get_node t p = Some c ->
  get_path_by_name t (Some (str_name c)) = Ok (Some (path_to p)).
Proof.
  intros Hw Hg. destruct (well_named_name t p c Hw Hg) as [_ Hne].
  unfold get_path_by_name. apply String.eqb_neq in Hne. rewrite Hne.
  rewrite (find_clades_unique t p c Hw Hg). reflexivity.
Qed.

Lemma paths_of_names t (names : list string) :
  well_named t ->
  (forall s, In s names -> In s (all_node_labels t)) ->
  map_result (fun s => get_path_by_name t (Some s)) names
  = Ok (map (fun s => Some (path_to (pos_of_name t s))) names).
Proof.
  intros Hw. induction names as [|s r IH]; intros H; [reflexivity|].
  destruct (proj1 (in_all_node_labels t s) (H s (or_introl eq_refl)))
    as (p & c & Hg & <-).
  cbn [map_result map].
  rewrite (get_path_by_name_well_named t p c Hw Hg). cbn [bind].
  rewrite IH by (intros; apply H; right; auto). cbn [bind].
  rewrite (pos_of_name_spec t p c Hw Hg). reflexivity.
Qed.

Lemma check_paths_some (ps : list (list pos)) :
  forall budget i, check_paths (map Some ps) budget i = Ok ps.
Proof.
  induction ps as [|p r IH]; intros budget i; simpl; auto.
  rewrite IH. reflexivity.
Qed.

Lemma common_ancestor_lcp t s (others : list string) :
  well_named t ->
  (forall n, In n (s :: others) -> In n (all_node_labels t)) ->
  common_ancestor t (s :: others)
  = Ok (lcp (pos_of_name t s) (map (pos_of_name t) others)).
Proof.
  intros Hw H. unfold common_ancestor.
  rewrite (paths_of_names t (s :: others) Hw H). cbn [bind].
  rewrite <- (map_map (fun n => path_to (pos_of_name t n)) Some).
  rewrite check_paths_some. cbn [bind map].
  rewrite <- (map_map (pos_of_name t) path_to).
  rewrite mrca_loop_lcp. reflexivity.
Qed.

Lemma lcp_nil (p : pos) : lcp p [] = p.
Proof. induction p as [|i p IH]; simpl; [|rewrite IH]; reflexivity. Qed.

Lemma is_prefix_valid t q p :
  is_prefix q p -> get_node t p <> None -> get_node t q <> None.
Proof. intros [r ->]. apply get_node_prefix. Qed.

(** C6. A single name that exists is returned unchanged. For a list of
    existing names the result is the name of their most recent common
    ancestor: the clade at a position that is an ancestor (or the clade
    itself) of every queried clade, and below every other such position. *)
Theorem search_target_node_name_mrca (t : Clade) (q : query) :
  well_named t ->
  query_names q <> [] ->
  (forall s, In s (query_names q) -> In s (all_node_labels t)) ->
  match q with
  | QName s => _search_target_node_name t q = Ok (Some s)
  | QNames names =>
      exists r c,
        _search_target_node_name t q = Ok (Some (str_name c)) /\
        get_node t r = Some c /\
        (forall s p n, In s names -> get_node t p = Some n -> str_name n = s ->
                       is_prefix r p) /\
        (forall m,
            (forall s p n, In s names -> get_node t p = Some n -> str_name n = s ->
                           is_prefix m p) ->
            is_prefix m r) /\
        (forall s, names = [s] -> str_name c = s)
  end.
Proof.
  intros Hw Hne Hex. unfold _search_target_node_name.
  rewrite (check_node_name_exist_ok t q Hex). cbn [bind].
  destruct q as [s | names]; [reflexivity|].
  simpl in Hne, Hex. destruct names as [|s others]; [congruence|].
  rewrite (common_ancestor_lcp t s others Hw Hex). cbn [bind].
  set (r := lcp (pos_of_name t s) (map (pos_of_name t) others)).
  destruct (proj1 (in_all_node_labels t s) (Hex s (or_introl eq_refl)))
    as (ps & cs & Hgs & Es).
  assert (Hps : pos_of_name t s = ps).
  { rewrite <- Es. apply pos_of_name_spec; auto. }
  destruct (lcp_is_prefix (pos_of_name t s) (map (pos_of_name t) others))
    as [Hr1 Hr2]. fold r in Hr1, Hr2.
  assert (Hvalid : get_node t r <> None).
  { apply (is_prefix_valid t r (pos_of_name t s) Hr1). rewrite Hps, Hgs. discriminate. }
  destruct (get_node t r) as [c|] eqn:Hgr; [|congruence].
  destruct (well_named_name t r c Hw Hgr) as [Hn _]. rewrite Hn.
  exists r, c. split; auto. split; auto. split; [|split].
  - intros s' p n [<- | Hin] Hg E.
    + assert (p = ps) by (eapply well_named_pos_inj; eauto; congruence).
      subst p. rewrite <- Hps. exact Hr1.
    + rewrite <- (pos_of_name_spec t p n Hw Hg), E.
      apply Hr2. apply in_map. exact Hin.
  - intros m Hm. apply lcp_greatest.
    + rewrite Hps. apply (Hm s ps cs); auto. left; auto.
    + intros p Hp. apply in_map_iff in Hp. destruct Hp as (s' & <- & Hs').
      destruct (proj1 (in_all_node_labels t s') (Hex s' (or_intror Hs')))
        as (p' & c' & Hg' & E').
      rewrite <- E', (pos_of_name_spec t p' c' Hw Hg').
      apply (Hm s' p' c'); auto. right; auto.
  - intros s' E. injection E as <- ->.
    unfold r in Hgr. simpl in Hgr. rewrite lcp_nil, Hps in Hgr. congruence.
Qed.

Lemma search_target_node_name_mrca_witness :
  exists r c,
    _search_target_node_name tree_abcdefg_named (QNames ["F"; "C"; "E"])
      = Ok (Some (str_name c)) /\
    get_node tree_abcdefg_named r = Some c /\
    (forall s p n, In s ["F"; "C"; "E"] ->
                   get_node tree_abcdefg_named p = Some n -> str_name n = s ->
                   is_prefix r p) /\
    (forall m,
        (forall s p n, In s ["F"; "C"; "E"] ->
                       get_node tree_abcdefg_named p = Some n -> str_name n = s ->
                       is_prefix m p) ->
        is_prefix m r) /\
    (forall s, ["F"; "C"; "E"] = [s] -> str_name c = s).
Proof.
  apply (search_target_node_name_mrca tree_abcdefg_named (QNames ["F"; "C"; "E"])).
  - split; reflexivity.
  - discriminate.
  - intros s Hs. apply mem_string_In.
    simpl in Hs. destruct Hs as [<- | [<- | [<- | []]]]; reflexivity.
Defined.

(** ** [TreeViz.__init__] and duplicated names *)

Lemma bind_ok {A B : Type} (r : result A) (k : A -> result B) (b : B) :
  bind r k = Ok b -> exists a, r = Ok a /\ k a = Ok b.
Proof. destruct r as [a|e]; simpl; [eauto | discriminate]. Qed.

Lemma bind_raise {A B : Type} (r : result A) (k : A -> result B) (e : exn) :
  bind r k = Raise e -> r = Raise e \/ exists a, r = Ok a /\ k a = Raise e.
Proof.
  destruct r as [a|e']; simpl; [eauto|]. intros H. left. injection H as ->.
  reflexivity.
Qed.

(** C7. [TreeViz.__init__] fails whenever a name occurs more than once
    among the clades after [_set_uniq_innode_name]: the exception carries
    every duplicated name with its number of occurrences, and nothing else;
    when all names are distinct no such exception is raised. *)
Theorem init_duplicate_names (tree_data : Clade) (height width : Q)
    (align_leaf_label ignore_branch_length : bool)
    (leaf_label_size innode_label_size : Q) (show_auto_innode_label : bool)
    (leaf_label_xmargin_ratio innode_label_xmargin_ratio : Q) (reverse : bool) :
  let names := all_node_names (fst (_set_uniq_innode_name tree_data)) in
  let init := TreeViz_init tree_data height width align_leaf_label
                ignore_branch_length leaf_label_size innode_label_size
                show_auto_innode_label leaf_label_xmargin_ratio
                innode_label_xmargin_ratio reverse in
  (~ NoDup names ->
   init = Raise (DuplicateNames (duplicated names)) /\
   duplicated names <> [] /\
   forall n c, In (n, c) (duplicated names) <->
               c = count_occ string_dec names n /\ 1 < c) /\
  (NoDup names -> forall dups, init <> Raise (DuplicateNames dups)).
Proof.
  intros names init. unfold init, TreeViz_init. subst names.
  destruct (_set_uniq_innode_name tree_data) as [tree autos]. simpl fst. split.
  - intros Hdup. rewrite (check_node_name_dup_raise tree Hdup). simpl.
    split; auto. split.
    + intros E. apply duplicated_nil in E. contradiction.
    + intros n c. apply in_duplicated.
  - intros Hnd dups. apply check_node_name_dup_ok in Hnd. rewrite Hnd. cbn [bind].
    destruct (ignore_branch_length || Qeq_bool (max_depth_of false tree) 0).
    + pose proof (to_ultrametric_tree_invariant tree) as H.
      destruct (_to_ultrametric_tree tree) as [t'|e]; simpl; [discriminate|].
      subst e. discriminate.
    + simpl. discriminate.
Qed.

Lemma init_duplicate_names_witness :
  default_init tree_xx
  = Raise (DuplicateNames
             (duplicated (all_node_names (fst (_set_uniq_innode_name tree_xx))))) /\
  duplicated (all_node_names (fst (_set_uniq_innode_name tree_xx))) = [("X", 2)].
Proof.
  split; [|reflexivity].
  apply (proj1 (init_duplicate_names tree_xx (1 # 2) 8 false false 12 0 true
                  (1 # 100) (1 # 100) false)).
  intros H. apply check_node_name_dup_ok in H. discriminate H.
Defined.

(** ** The [ax] property *)

Lemma append_plot_func_ax tv f : _ax (append_plot_func tv f) = _ax tv.
Proof. reflexivity. Qed.

(** No method other than [plotfig] assigns [_ax]. *)
Lemma run_call_ax mpl tv c tv' : run_call mpl tv c = Ok tv' -> _ax tv' = _ax tv.
Proof.
  destruct c; simpl; intros H.
  - unfold highlight in H. result_cases H. injection H as <-. reflexivity.
  - unfold annotate in H. result_cases H. injection H as <-. reflexivity.
  - unfold marker in H. result_cases H. injection H as <-. reflexivity.
  - unfold link in H. result_cases H. injection H as <-. reflexivity.
  - unfold text_on_branch in H. result_cases H. injection H as <-. reflexivity.
  - unfold text_on_node in H. result_cases H. injection H as <-. reflexivity.
  - unfold set_node_label_props in H. result_cases H. injection H as <-. reflexivity.
  - unfold set_node_line_props in H. result_cases H. injection H as <-. reflexivity.
  - injection H as <-. reflexivity.
  - injection H as <-. reflexivity.
  - injection H as <-. reflexivity.
Qed.

Lemma run_calls_ax mpl (calls : list call) :
  forall tv tv', for_each (run_call mpl) calls tv = Ok tv' -> _ax tv' = _ax tv.
Proof.
  induction calls as [|c r IH]; simpl; intros tv tv' H.
  - injection H as <-. reflexivity.
  - apply bind_ok in H. destruct H as (tv1 & H1 & H2).
    rewrite (IH _ _ H2). apply (run_call_ax _ _ _ _ H1).
Qed.

Lemma init_ax tree_data height width align ignore lsize isize show lr ir reverse tv :
  TreeViz_init tree_data height width align ignore lsize isize show lr ir reverse
  = Ok tv -> _ax tv = None.
Proof.
  unfold TreeViz_init. destruct (_set_uniq_innode_name tree_data) as [tree autos].
  intros H. result_cases H; injection H as <-; reflexivity.
Qed.

(** Drawing never replaces the axes object. *)
Lemma for_each_ax_id {A : Type} (body : Axes -> A -> result Axes) (l : list A) :
  (forall a x a', body a x = Ok a' -> ax_id a' = ax_id a) ->
  forall a a', for_each body l a = Ok a' -> ax_id a' = ax_id a.
Proof.
  intros Hbody. induction l as [|x r IH]; simpl; intros a a' H.
  - injection H as <-. reflexivity.
  - apply bind_ok in H. destruct H as (a1 & H1 & H2).
    rewrite (IH _ _ H2). apply (Hbody _ _ _ H1).
Qed.

Lemma plot_child_line_ax_id tv pxy a child a' :
  plot_child_line tv pxy a child = Ok a' -> ax_id a' = ax_id a.
Proof.
  unfold plot_child_line. intros H. result_cases H. injection H as <-.
  destruct (is_terminal child && _align_leaf_label tv); reflexivity.
Qed.

Lemma plot_tree_node_line_ax_id tv a a' :
  _plot_tree_node_line tv a = Ok a' -> ax_id a' = ax_id a.
Proof.
  unfold _plot_tree_node_line. apply for_each_ax_id.
  intros a0 node a1 H. result_cases H.
  apply (for_each_ax_id _ _ (plot_child_line_ax_id tv _) _ _ H).
Qed.

Lemma plot_node_label_ax_id tv a a' :
  _plot_node_label tv a = Ok a' -> ax_id a' = ax_id a.
Proof.
  unfold _plot_node_label. apply for_each_ax_id.
  intros a0 node a1 H. unfold plot_one_label in H. result_cases H;
    injection H as <-; reflexivity.
Qed.

Lemma run_plot_func_ax_id text_extent tv a f a' :
  run_plot_func text_extent tv a f = Ok a' -> ax_id a' = ax_id a.
Proof.
  destruct f; simpl; intros H; result_cases H; injection H as <-;
    try reflexivity.
  destruct ticks_interval as [t|]; [destruct (Qeq_bool t 0)|]; reflexivity.
Qed.

Lemma add_patches_ax_id (l : list Rect) :
  forall a, ax_id (fold_left (fun a patch => add_artist a (Patch patch)) l a) = ax_id a.
Proof. induction l as [|x r IH]; intros a; simpl; [|rewrite IH]; reflexivity. Qed.

(** C10. On a [TreeViz] object on which only methods other than [plotfig]
    were called, the [ax] property raises [ValueError]. After a [plotfig]
    that returned, on whatever object and also on one that was rendered
    before, it yields the axes of the returned figure: the axes passed by
    the caller, or the newly created one, on which all the drawing was done;
    it keeps yielding them after further registration calls. *)
Theorem ax_before_and_after_plotfig (mpl : Backend)
    (text_extent : Text -> (Q * Q) * (Q * Q)) (tree_data : Clade) (height width : Q)
    (align_leaf_label ignore_branch_length : bool)
    (leaf_label_size innode_label_size : Q) (show_auto_innode_label : bool)
    (leaf_label_xmargin_ratio innode_label_xmargin_ratio : Q) (reverse : bool)
    (calls : list call) (tv0 tv : TreeViz) :
  TreeViz_init tree_data height width align_leaf_label ignore_branch_length
    leaf_label_size innode_label_size show_auto_innode_label
    leaf_label_xmargin_ratio innode_label_xmargin_ratio reverse = Ok tv0 ->
  for_each (run_call mpl) calls tv0 = Ok tv ->
  ax tv = Raise ValueError /\
  forall (tv1 : TreeViz) dpi given fresh tv' fig a,
    plotfig text_extent tv1 dpi given fresh = Ok (tv', fig, a) ->
    ax tv' = Ok (fig_axes fig) /\
    ax_id a = fig_axes fig /\
    fig_axes fig = match given with Some g => ax_id g | None => fresh end /\
    forall calls' tv'',
      for_each (run_call mpl) calls' tv' = Ok tv'' -> ax tv'' = Ok (fig_axes fig).
Proof.
  intros Hinit Hcalls. split.
  - unfold ax. rewrite (run_calls_ax mpl calls tv0 tv Hcalls),
      (init_ax _ _ _ _ _ _ _ _ _ _ _ _ Hinit).
    reflexivity.
  - intros tv1 dpi given fresh tv' fig a H. unfold plotfig in H.
    apply bind_ok in H. destruct H as (a1 & H1 & H).
    apply bind_ok in H. destruct H as (a2 & H2 & H).
    apply bind_ok in H. destruct H as (a3 & H3 & H).
    injection H as <- <- <-.
    apply plot_tree_node_line_ax_id in H1. apply plot_node_label_ax_id in H2.
    apply (for_each_ax_id _ _ (run_plot_func_ax_id text_extent _)) in H3.
    rewrite add_patches_ax_id in H3.
    simpl. split; [reflexivity|]. split; [|split].
    + rewrite H3, H2, H1. reflexivity.
    + destruct given; reflexivity.
    + intros calls' tv'' Hc. unfold ax.
      rewrite (run_calls_ax mpl calls' _ tv'' Hc). reflexivity.
Qed.

Lemma ax_before_and_after_plotfig_witness :
  exists tv0 tv tv' fig a tv'' fig2 a2,
    default_init tree_ab = Ok tv0 /\
    for_each (run_call example_backend)
      [CallShowScaleAxis None 0; CallSetTitle "tree"] tv0 = Ok tv /\
    ax tv = Raise ValueError /\
    plotfig point_extent tv 100 None 7 = Ok (tv', fig, a) /\
    ax tv' = Ok 7 /\ ax_id a = 7 /\
    plotfig point_extent tv' 100 (Some some_axes) 8 = Ok (tv'', fig2, a2) /\
    ax tv'' = Ok 42 /\ ax_id a2 = 42.
Proof.
  do 8 eexists.
  split; [vm_compute; reflexivity|].
  split; [vm_compute; reflexivity|].
  split.
  { refine (proj1 (ax_before_and_after_plotfig example_backend point_extent tree_ab
                     (1 # 2) 8 false false 12 0 true (1 # 100) (1 # 100) false
                     [CallShowScaleAxis None 0; CallSetTitle "tree"] _ _ _ _));
      vm_compute; reflexivity. }
  split; [vm_compute; reflexivity|].
  split; [reflexivity|]. split; [reflexivity|].
  split; [vm_compute; reflexivity|].
  split; reflexivity.
Defined.

(** ** When a query is resolved *)

Lemma search_target_node_name_raise t q s :
  In s (query_names q) -> ~ In s (all_node_labels t) ->
  exists missing,
    _search_target_node_name t q = Raise (NamesNotFound missing (all_node_labels t)) /\
    In s missing.
Proof.
  intros Hs Hn.
  destruct (check_node_name_exist_raise t q s Hs Hn) as (missing & H & Hspec).
  exists missing. unfold _search_target_node_name. rewrite H. split; auto.
  apply Hspec. auto.
Qed.

(** The methods that resolve their query when they are called: a name that
    is not in the tree makes the call itself fail. *)
Lemma registration_rejects_unknown_name mpl tv c q s :
  In q (call_queries c) -> In s (query_names q) ->
  ~ In s (all_node_labels (_tree tv)) ->
  match c with
  | CallHighlight _ _ _ area _ =>
      in_strings area ["branch"; "branch-label"; "full"] = true
  | CallTextOnBranch _ _ xpos ypos _ _ =>
      valid_pos xpos = true /\ in_strings ypos ["top"; "center"; "bottom"] = true
  | CallLink q1 _ _ _ => q = q1
  | CallAnnotate _ _ _ _ _ => False
  | _ => True
  end ->
  exists missing,
    run_call mpl tv c = Raise (NamesNotFound missing (all_node_labels (_tree tv))) /\
    In s missing.
Proof.
  intros Hq Hs Hn Hc.
  assert (Hraise : exists missing,
             _search_target_node_name (_tree tv) q
             = Raise (NamesNotFound missing (all_node_labels (_tree tv))) /\
             In s missing)
    by (apply search_target_node_name_raise; assumption).
  destruct Hraise as (missing & H & Hin). exists missing. split; auto.
  destruct c; simpl in Hq; try tauto.
  - destruct Hq as [<- | []]. simpl. unfold highlight. rewrite Hc. simpl.
    rewrite H. reflexivity.
  - destruct Hq as [<- | []]. simpl. unfold marker. rewrite H. reflexivity.
  - subst q. simpl. unfold link. rewrite H. reflexivity.
  - destruct Hq as [<- | []]. simpl. unfold text_on_branch.
    destruct Hc as [-> ->]. simpl. rewrite H. reflexivity.
  - destruct Hq as [<- | []]. simpl. unfold text_on_node. rewrite H. reflexivity.
  - destruct Hq as [<- | []]. simpl. unfold set_node_label_props. rewrite H.
    reflexivity.
  - destruct Hq as [<- | []]. simpl. unfold set_node_line_props. rewrite H.
    reflexivity.
Qed.

(** C8 at the failing input. [annotate] stores its query without resolving
    it, whatever the query is; on [(A,B)R;] a query for the unknown name
    ["Z"] is accepted by [annotate] and the lookup error is raised only by
    [plotfig], whereas [highlight] raises it at once. *)
Theorem annotate_defers_lookup (mpl : Backend)
    (text_extent : Text -> (Q * Q) * (Q * Q)) :
  (forall tv q label xmargin_ratio align,
      annotate tv q label "horizontal" xmargin_ratio align
      = Ok (append_plot_func tv (plot_annotate q label xmargin_ratio align))) /\
  exists tv tv',
    default_init tree_ab = Ok tv /\
    annotate tv (QName "Z") "group" "horizontal" (1 # 100) false = Ok tv' /\
    plotfig text_extent tv' 100 None 0
      = Raise (NamesNotFound ["Z"] ["A"; "B"; "R"]) /\
    highlight mpl tv (QName "Z") "red" (1 # 2) "branch-label" ""
      = Raise (NamesNotFound ["Z"] ["A"; "B"; "R"]).
Proof.
  split; [reflexivity|].
  eexists. eexists.
  split; [vm_compute; reflexivity|].
  split; [vm_compute; reflexivity|].
  split; vm_compute; reflexivity.
Qed.

(* ================================================================== *)
(** * Further properties of the loading, layout and registration code *)
(* ================================================================== *)

(** ** Trees related clade by clade *)

Lemma rows_related (R : Clade -> Clade -> Prop) t t' :
  positions t = positions t' ->
  (forall p c, get_node t p = Some c ->
     exists c', get_node t' p = Some c' /\ R c c') ->
  Forall2 (fun pc pc' => fst pc = fst pc' /\ R (snd pc) (snd pc'))
          (preorder t) (preorder t').
Proof.
  intros Hpos Hrel.
  assert (H : forall l l' : list (pos * Clade),
             map fst l = map fst l' ->
             Forall (fun pc => get_node t (fst pc) = Some (snd pc)) l ->
             Forall (fun pc => get_node t' (fst pc) = Some (snd pc)) l' ->
             Forall2 (fun pc pc' => fst pc = fst pc' /\ R (snd pc) (snd pc')) l l').
  { induction l as [|[p c] l IH]; intros [|[p' c'] l'] E H H';
      simpl in E; try discriminate; constructor.
    - injection E as Ep _. subst p'.
      apply Forall_inv in H, H'. simpl in H, H'. split; simpl; auto.
      destruct (Hrel p c H) as (c1 & Hc1 & HR). congruence.
    - injection E as _ El. apply Forall_inv_tail in H, H'. apply IH; auto. }
  apply H; auto using preorder_get_node.
Qed.

Lemma is_terminal_length c c' :
  List.length (clades c) = List.length (clades c') -> is_terminal c = is_terminal c'.
Proof.
  unfold is_terminal. destruct (clades c), (clades c'); simpl; intros H;
    try reflexivity; discriminate H.
Qed.

Lemma related_count_terminals (R : Clade -> Clade -> Prop) l l' :
  (forall c c', R c c' -> is_terminal c = is_terminal c') ->
  Forall2 (fun pc pc' => fst pc = fst pc' /\ R (snd pc) (snd pc')) l l' ->
  List.length (filter terminal_at l) = List.length (filter terminal_at l').
Proof.
  intros HR. induction 1 as [|a b l l' [_ Hab] _ IH]; simpl; [reflexivity|].
  assert (E : terminal_at a = terminal_at b) by (apply HR; exact Hab).
  rewrite E. destruct (terminal_at b); simpl; rewrite IH; reflexivity.
Qed.

Lemma tree_agree_names t t' : tree_agree t t' -> all_node_names t' = all_node_names t.
Proof.
  intros H. apply preorder_agree in H. unfold all_node_names.
  induction H as [|a b l l' [_ (Hn & _)] _ IH]; simpl; [reflexivity|].
  rewrite IH. unfold str_name. rewrite Hn. reflexivity.
Qed.

Lemma tree_agree_count_terminals t t' :
  tree_agree t t' -> count_terminals t' = count_terminals t.
Proof.
  intros H. apply preorder_agree in H. unfold count_terminals, get_terminals.
  symmetry. apply (related_count_terminals same_but_bl).
  - apply same_but_bl_terminal.
  - exact H.
Qed.

(** ** [_set_uniq_innode_name]: what it keeps and what it sets *)

Lemma set_uniq_innode_name_node t p c :
  get_node t p = Some c ->
  exists c', get_node (fst (_set_uniq_innode_name t)) p = Some c' /\
    branch_length c' = branch_length c /\ confidence c' = confidence c /\
    List.length (clades c') = List.length (clades c) /\
    (is_terminal c = true -> name c' = name c) /\
    (is_terminal c = false ->
     exists idx, In (idx, (p, c)) (enumerate 1 (get_nonterminals t)) /\
                 name c' = Some (innode_name_after idx c)).
Proof.
  intros Hg. destruct (is_terminal c) eqn:Ht.
  - destruct (set_uniq_innode_name_terminal t p c Hg Ht) as (c' & Hg' & Hn & Hb & Hk & Hl).
    exists c'. repeat split; auto. discriminate.
  - assert (Hin : In (p, c) (get_nonterminals t)) by (apply in_get_nonterminals; auto).
    destruct (in_enumerate_exists _ _ Hin 1) as [idx Hidx].
    destruct (set_uniq_innode_name_internal t idx p c Hidx) as (c' & Hg' & Hn & Hb & Hk & Hl).
    exists c'. repeat split; auto; [discriminate|]. intros _. eauto.
Qed.

Lemma set_uniq_innode_name_back t p c' :
  get_node (fst (_set_uniq_innode_name t)) p = Some c' ->
  exists c, get_node t p = Some c.
Proof.
  intros Hg. apply in_positions. rewrite <- set_uniq_innode_name_positions.
  apply in_positions. eauto.
Qed.

Lemma set_uniq_innode_name_count_terminals t :
  count_terminals (fst (_set_uniq_innode_name t)) = count_terminals t.
Proof.
  symmetry. unfold count_terminals, get_terminals.
  apply (related_count_terminals
           (fun c c' => List.length (clades c) = List.length (clades c'))).
  - apply is_terminal_length.
  - apply (rows_related
             (fun c c' => List.length (clades c) = List.length (clades c'))).
    + symmetry. apply set_uniq_innode_name_positions.
    + intros p c Hg.
      destruct (set_uniq_innode_name_node t p c Hg) as (c' & Hg' & _ & _ & Hl & _).
      exists c'. auto.
Qed.

Lemma set_uniq_innode_name_internal_named t p c' :
  get_node (fst (_set_uniq_innode_name t)) p = Some c' ->
  is_terminal c' = false -> name c' <> None.
Proof.
  intros Hg Ht. destruct (set_uniq_innode_name_back t p c' Hg) as [c Hc].
  destruct (set_uniq_innode_name_node t p c Hc) as (c1 & Hg1 & _ & _ & Hl & _ & Hint).
  assert (c1 = c') by congruence. subst c1.
  rewrite (is_terminal_length _ _ Hl) in Ht.
  destruct (Hint Ht) as (idx & _ & Hn). congruence.
Qed.

Lemma set_uniq_fold_named (its : list (nat * (pos * Clade))) t' names :
  (forall it, In it its ->
     exists node s, get_node t' (item_pos it) = Some node /\ name node = Some s) ->
  fold_left set_uniq_step its (t', names) = (t', names).
Proof.
  induction its as [|[idx [p c]] its IH]; simpl; intros H; [reflexivity|].
  destruct (H _ (or_introl eq_refl)) as (node & s & Hg & Hn).
  unfold item_pos in Hg. simpl in Hg. rewrite Hg, Hn. apply IH.
  intros it Hit. apply H. right. exact Hit.
Qed.

(** X2. After [_set_uniq_innode_name] every internal clade carries a name,
    so that a second pass over the result changes nothing and reports no
    new name. *)
Theorem set_uniq_innode_name_idempotent (t : Clade) :
  (forall p c, get_node (fst (_set_uniq_innode_name t)) p = Some c ->
               is_terminal c = false -> name c <> None) /\
  _set_uniq_innode_name (fst (_set_uniq_innode_name t))
  = (fst (_set_uniq_innode_name t), []).
Proof.
  split; [apply set_uniq_innode_name_internal_named|].
  unfold _set_uniq_innode_name at 1. apply set_uniq_fold_named.
  intros [idx [p c]] Hin. apply in_enumerate in Hin. destruct Hin as [Hin _].
  apply in_get_nonterminals in Hin. destruct Hin as [Hg Ht].
  pose proof (set_uniq_innode_name_internal_named t p c Hg Ht) as Hn.
  unfold item_pos. simpl. destruct (name c) as [s|] eqn:E; [eauto | congruence].
Qed.

Lemma uniq_innode_name_inj i j : uniq_innode_name i = uniq_innode_name j -> i = j.
Proof.
  unfold uniq_innode_name. simpl. intros H. injection H as H.
  apply (f_equal NilEmpty.uint_of_string) in H. rewrite !NilEmpty.usu in H.
  injection H as H. apply (f_equal Nat.of_uint) in H.
  rewrite !DecimalNat.Unsigned.of_to in H. exact H.
Qed.

Lemma auto_names_enumerate (l : list (pos * Clade)) :
  forall s,
    NoDup (flat_map auto_name_of (enumerate s l)) /\
    forall x, In x (flat_map auto_name_of (enumerate s l)) ->
              exists k, s <= k /\ x = uniq_innode_name k.
Proof.
  induction l as [|a r IH]; intros s; simpl.
  - split; [constructor | intros x []].
  - destruct (IH (S s)) as [Hnd Hin]. unfold auto_name_of at 1 3. simpl.
    destruct (name (snd a)); simpl.
    + split; auto. intros x Hx. destruct (Hin x Hx) as (k & Hk & ->).
      exists k. split; [lia | reflexivity].
    + split.
      * constructor; auto. intros Hx. destruct (Hin _ Hx) as (k & Hk & E).
        apply uniq_innode_name_inj in E. lia.
      * intros x [<- | Hx]; [exists s; auto|].
        destruct (Hin x Hx) as (k & Hk & ->). exists k. split; [lia | reflexivity].
Qed.

Lemma in_auto_names (l : list (pos * Clade)) :
  forall s x, In x (flat_map auto_name_of (enumerate s l)) ->
    exists idx p c, In (idx, (p, c)) (enumerate s l) /\ name c = None /\
                    x = uniq_innode_name idx.
Proof.
  intros s x Hx. apply in_flat_map in Hx. destruct Hx as ([idx [p c]] & Hin & Hx).
  unfold auto_name_of in Hx. simpl in Hx.
  destruct (name c) eqn:E; [destruct Hx|]. destruct Hx as [<- | []].
  exists idx, p, c. auto.
Qed.

Lemma length_auto_names (l : list (pos * Clade)) :
  forall s,
    List.length (flat_map auto_name_of (enumerate s l)) =
    List.length (filter (fun pc => match name (snd pc) with
                                   | None => true
                                   | Some _ => false
                                   end) l).
Proof.
  induction l as [|a r IH]; intros s; simpl; [reflexivity|].
  rewrite length_app, IH. unfold auto_name_of. simpl.
  destruct (name (snd a)); reflexivity.
Qed.

(** X3. The names [_set_uniq_innode_name] reports are pairwise distinct;
    each one is the name the result gives to an internal clade that had no
    name, and there is one per such clade. *)
Theorem auto_innode_names_distinct (t : Clade) :
  NoDup (snd (_set_uniq_innode_name t)) /\
  (forall s, In s (snd (_set_uniq_innode_name t)) ->
     exists p c c',
       get_node t p = Some c /\ name c = None /\ is_terminal c = false /\
       get_node (fst (_set_uniq_innode_name t)) p = Some c' /\ name c' = Some s) /\
  List.length (snd (_set_uniq_innode_name t)) =
  List.length (filter (fun pc => match name (snd pc) with
                                 | None => true
                                 | Some _ => false
                                 end) (get_nonterminals t)).
Proof.
  rewrite set_uniq_innode_name_labels. split; [|split].
  - apply auto_names_enumerate.
  - intros s Hs. apply in_auto_names in Hs.
    destruct Hs as (idx & p & c & Hin & Hn & ->).
    destruct (set_uniq_innode_name_internal t idx p c Hin) as (c' & Hg' & Hn' & _).
    apply in_enumerate in Hin. destruct Hin as [Hin _].
    apply in_get_nonterminals in Hin. destruct Hin as [Hg Ht].
    exists p, c, c'. repeat split; auto.
    rewrite Hn'. unfold innode_name_after. rewrite Hn. reflexivity.
  - apply length_auto_names.
Qed.

(** ** [TreeViz.__init__]: the tree that is kept *)

(** X1. When [TreeViz.__init__] returns, the tree it keeps has pairwise
    distinct node names, the topology of the input and the names and
    confidences of the input after [_set_uniq_innode_name]; every internal
    clade is named; without normalization the branch lengths are kept too.
    The figure is [height] times the number of leaves high. *)
Theorem init_keeps_loaded_tree (tree_data : Clade) (height width : Q)
    (align_leaf_label ignore_branch_length : bool)
    (leaf_label_size innode_label_size : Q) (show_auto_innode_label : bool)
    (leaf_label_xmargin_ratio innode_label_xmargin_ratio : Q) (reverse : bool)
    (tv : TreeViz) :
  TreeViz_init tree_data height width align_leaf_label ignore_branch_length
    leaf_label_size innode_label_size show_auto_innode_label
    leaf_label_xmargin_ratio innode_label_xmargin_ratio reverse = Ok tv ->
  NoDup (all_node_names (_tree tv)) /\
  tree_agree (fst (_set_uniq_innode_name tree_data)) (_tree tv) /\
  positions (_tree tv) = positions tree_data /\
  count_terminals (_tree tv) = count_terminals tree_data /\
  (forall p c, get_node (_tree tv) p = Some c -> is_terminal c = false ->
               name c <> None) /\
  (ignore_branch_length = false ->
   ~ (max_depth_of false (fst (_set_uniq_innode_name tree_data)) == 0)%Q ->
   _tree tv = fst (_set_uniq_innode_name tree_data)) /\
  _figsize tv
  = (width, (height * inject_Z (Z.of_nat (count_terminals tree_data)))%Q) /\
  _auto_innode_labels tv = snd (_set_uniq_innode_name tree_data).
Proof.
  pose proof (set_uniq_innode_name_positions tree_data) as Hpos.
  pose proof (set_uniq_innode_name_count_terminals tree_data) as Hcount.
  pose proof (set_uniq_innode_name_internal_named tree_data) as Hnamed.
  unfold TreeViz_init.
  destruct (_set_uniq_innode_name tree_data) as [tree autos]. simpl in *.
  destruct (_check_node_name_dup tree) as [[]|e] eqn:Hdup; cbn [bind]; [|discriminate].
  destruct (if ignore_branch_length || Qeq_bool (max_depth_of false tree) 0
            then _to_ultrametric_tree tree else Ok tree) as [tree'|e] eqn:Hn;
    cbn [bind]; [|discriminate].
  intros H. injection H as <-. simpl.
  assert (Ha : tree_agree tree tree').
  { destruct (ignore_branch_length || Qeq_bool (max_depth_of false tree) 0).
    - pose proof (to_ultrametric_tree_invariant tree) as Hi. rewrite Hn in Hi.
      apply Hi.
    - injection Hn as <-. apply tree_agree_refl. }
  pose proof (tree_agree_count_terminals _ _ Ha) as Hc.
  split; [|split; [|split; [|split; [|split; [|split; [|split]]]]]].
  - rewrite (tree_agree_names _ _ Ha). apply check_node_name_dup_ok. exact Hdup.
  - exact Ha.
  - destruct Ha as [Hp _]. congruence.
  - congruence.
  - intros p c Hg Ht. destruct Ha as [_ Hrel]. specialize (Hrel p).
    rewrite Hg in Hrel. destruct (get_node tree p) as [c0|] eqn:Hg0; [|destruct Hrel].
    destruct Hrel as (Hn0 & _ & Hl). rewrite <- Hn0.
    apply (Hnamed p c0 Hg0). rewrite (is_terminal_length _ _ Hl). exact Ht.
  - intros -> Hm. simpl in Hn.
    destruct (Qeq_bool (max_depth_of false tree) 0) eqn:Hq.
    + apply Qeq_bool_iff in Hq. contradiction.
    + injection Hn as <-. reflexivity.
  - rewrite Hc, Hcount. reflexivity.
  - reflexivity.
Qed.

Lemma init_keeps_loaded_tree_witness :
  exists tv,
    TreeViz_init tree_abc (1 # 2) 8 false false 12 0 true (1 # 100) (1 # 100) false
    = Ok tv /\
    NoDup (all_node_names (_tree tv)) /\
    tree_agree (fst (_set_uniq_innode_name tree_abc)) (_tree tv) /\
    positions (_tree tv) = positions tree_abc /\
    count_terminals (_tree tv) = count_terminals tree_abc /\
    (forall p c, get_node (_tree tv) p = Some c -> is_terminal c = false ->
                 name c <> None) /\
    (false = false ->
     ~ (max_depth_of false (fst (_set_uniq_innode_name tree_abc)) == 0)%Q ->
     _tree tv = fst (_set_uniq_innode_name tree_abc)) /\
    _figsize tv
    = (8%Q, ((1 # 2) * inject_Z (Z.of_nat (count_terminals tree_abc)))%Q) /\
    _auto_innode_labels tv = snd (_set_uniq_innode_name tree_abc).
Proof.
  eexists. split; [vm_compute; reflexivity|].
  apply (init_keeps_loaded_tree tree_abc (1 # 2) 8 false false 12 0 true
           (1 # 100) (1 # 100) false).
  vm_compute. reflexivity.
Defined.

(** ** [_to_ultrametric_tree]: no branch length is left unset *)

Lemma ultrametric_step_root maxd current item current' :
  ultrametric_step maxd current item = Ok current' ->
  branch_length_at current' [] = branch_length_at current [].
Proof.
  destruct item as [s d]. unfold ultrametric_step.
  destruct (find_clades current s) as [|[p c] rest] eqn:Hfind; simpl; [discriminate|].
  destruct (find_clades_head _ _ _ _ _ Hfind) as [Hget _].
  assert (Hvalid : forall q, In q (path_to p) -> get_node current q <> None).
  { apply path_to_valid. congruence. }
  assert (Hroot : ~ In [] (path_to p)).
  { intros Hin. apply in_path_to_nonempty in Hin. congruence. }
  destruct (is_terminal c); simpl; [|intros E; injection E as <-; reflexivity].
  unfold get_path. rewrite Hget.
  destruct (Qeq_bool d maxd).
  - intros E. injection E as <-.
    apply (set_path_unit_spec current (path_to p) (NoDup_path_to p) Hvalid). exact Hroot.
  - destruct (collect_branch_lengths current (path_to p)) as [bl_sum cnt].
    destruct (List.length (path_to p) - cnt =? 0); [discriminate|].
    intros E. injection E as <-.
    apply (fill_path_spec current (path_to p) _ (NoDup_path_to p) Hvalid). exact Hroot.
Qed.

Lemma to_ultrametric_tree_root tree tree' :
  _to_ultrametric_tree tree = Ok tree' -> branch_length tree' = Some 0%Q.
Proof.
  intros H. unfold _to_ultrametric_tree in H.
  assert (HI : match for_each (ultrametric_step (max_of (map snd (name2depth tree))))
                       (name2depth tree) (reset_branch_lengths tree) with
               | Ok s' => branch_length_at s' [] = Some 0%Q
               | Raise _ => True
               end).
  { apply (for_each_invariant _
             (fun _ current => branch_length_at current [] = Some 0%Q)
             (fun _ => True)).
    - intros done x rest s _ Hs.
      destruct (ultrametric_step (max_of (map snd (name2depth tree))) s x)
        as [s'|e] eqn:E; auto.
      rewrite (ultrametric_step_root _ _ _ _ E). exact Hs.
    - apply (reset_branch_lengths_spec tree). }
  rewrite H in HI. exact HI.
Qed.

Lemma terminal_below (c : Clade) :
  exists r c', get_node c r = Some c' /\ is_terminal c' = true.
Proof.
  induction c as [n b k cs IH] using Clade_rect'.
  destruct cs as [|ch cs].
  - exists [], (Node n b k []). split; reflexivity.
  - apply Forall_inv in IH. destruct IH as (r & c' & Hg & Ht).
    exists (0 :: r), c'. split; auto.
Qed.

(** X4. On a well-named tree [_to_ultrametric_tree] leaves no branch
    length unset: the root gets 0 and every other clade a number; names
    and topology are those of the input. *)
Theorem to_ultrametric_tree_sets_all_lengths (tree : Clade) :
  well_named tree ->
  exists tree',
    _to_ultrametric_tree tree = Ok tree' /\
    branch_length tree' = Some 0%Q /\
    (forall p c, get_node tree' p = Some c -> exists b, branch_length c = Some b) /\
    positions tree' = positions tree /\
    all_node_names tree' = all_node_names tree.
Proof.
  intros Hw. destruct (well_named_run tree Hw) as (tree' & Hrun & (Ha & _) & Hl & _).
  exists tree'. split; [exact Hrun|].
  pose proof (to_ultrametric_tree_root tree tree' Hrun) as Hroot.
  split; [exact Hroot|]. split; [|split].
  - intros [|i p] c Hg.
    + simpl in Hg. injection Hg as <-. eauto.
    + destruct (terminal_below c) as (r & c' & Hr & Ht).
      assert (Hg' : get_node tree' ((i :: p) ++ r) = Some c').
      { rewrite get_node_app, Hg. exact Hr. }
      destruct Ha as [_ Hrel]. pose proof (Hrel ((i :: p) ++ r)) as Hleaf.
      rewrite Hg' in Hleaf.
      destruct (get_node tree ((i :: p) ++ r)) as [c0|] eqn:Hg0; [|destruct Hleaf].
      assert (Ht0 : is_terminal c0 = true)
        by (rewrite (same_but_bl_terminal _ _ Hleaf); exact Ht).
      destruct (Hl _ c0 Hg0 Ht0) as [Hfix _].
      { apply name2depth_keys with (p := (i :: p) ++ r); assumption. }
      assert (Hin : In (i :: p) (path_to ((i :: p) ++ r))).
      { apply in_path_to. split; [discriminate|]. exists r. reflexivity. }
      apply Hfix, is_fixed_some in Hin. destruct Hin as [b Hb].
      unfold branch_length_at in Hb. rewrite Hg in Hb. eauto.
  - destruct Ha as [Hp _]. congruence.
  - apply tree_agree_names. exact Ha.
Qed.

Lemma to_ultrametric_tree_sets_all_lengths_witness :
  exists tree',
    _to_ultrametric_tree tree_abcdefg_named = Ok tree' /\
    branch_length tree' = Some 0%Q /\
    (forall p c, get_node tree' p = Some c -> exists b, branch_length c = Some b) /\
    positions tree' = positions tree_abcdefg_named /\
    all_node_names tree' = all_node_names tree_abcdefg_named.
Proof.
  apply (to_ultrametric_tree_sets_all_lengths tree_abcdefg_named).
  split; vm_compute; reflexivity.
Defined.

(** ** Registration: what a successful call guarantees *)

Lemma search_target_node_name_ok_names t q r :
  _search_target_node_name t q = Ok r ->
  forall s, In s (query_names q) -> In s (all_node_labels t).
Proof.
  intros H s Hs. destruct (in_dec string_dec s (all_node_labels t)) as [Hin|Hn]; auto.
  destruct (search_target_node_name_raise t q s Hs Hn) as (m & E & _). congruence.
Qed.

(** X5. A registration call other than [annotate] that returns has
    resolved its queries: every name it was given is a node label of the
    tree. *)
Theorem registration_checks_names (mpl : Backend) (tv : TreeViz) (c : call)
    (tv' : TreeViz) :
  run_call mpl tv c = Ok tv' ->
  match c with CallAnnotate _ _ _ _ _ => False | _ => True end ->
  forall q s, In q (call_queries c) -> In s (query_names q) ->
              In s (all_node_labels (_tree tv)).
Proof.
  intros H Hc q s Hq Hs.
  destruct c; simpl in Hc; try contradiction; simpl in Hq, H;
    unfold highlight, marker, link, text_on_branch, text_on_node,
      set_node_label_props, set_node_line_props in H;
    result_cases H;
    repeat match goal with
           | Hq : _ \/ _ |- _ => destruct Hq as [<- | Hq]
           | Hq : False |- _ => destruct Hq
           end;
    eauto using search_target_node_name_ok_names.
Qed.

Lemma registration_checks_names_witness :
  exists tv tv',
    default_init tree_ab = Ok tv /\
    run_call example_backend tv
      (CallLink (QName "A") (QNames ["A"; "B"]) "left" "right") = Ok tv' /\
    forall q s,
      In q (call_queries (CallLink (QName "A") (QNames ["A"; "B"]) "left" "right")) ->
      In s (query_names q) -> In s (all_node_labels (_tree tv)).
Proof.
  eexists. eexists. split; [vm_compute; reflexivity|].
  split; [vm_compute; reflexivity|].
  eapply (registration_checks_names example_backend _
            (CallLink (QName "A") (QNames ["A"; "B"]) "left" "right")).
  - vm_compute. reflexivity.
  - exact I.
Defined.

Lemma run_call_fields mpl tv c tv' :
  run_call mpl tv c = Ok tv' ->
  _tree tv' = _tree tv /\ _reverse tv' = _reverse tv /\
  _align_leaf_label tv' = _align_leaf_label tv /\
  exists added, _plot_funcs tv' = _plot_funcs tv ++ added /\ List.length added <= 1.
Proof.
  assert (Hnil : forall l : list plot_func, l = l ++ [] /\ @List.length plot_func [] <= 1)
    by (intros l; rewrite app_nil_r; auto).
  destruct c; simpl; intros H;
    unfold highlight, annotate, marker, link, text_on_branch, text_on_node,
      set_node_label_props, set_node_line_props, set_title, show_scale_axis,
      show_scale_bar in H;
    result_cases H; injection H as <-; simpl;
    (repeat split; try reflexivity);
    first [ eexists; split; [reflexivity | simpl; lia]
          | exists []; apply Hnil ].
Qed.

(** X6. The tree and the flags the layout is computed from are never
    assigned after [__init__], so the cached coordinate dictionaries,
    rectangles and limits are the same after any sequence of registration
    calls; the calls only add plot functions, behind those that were
    registered before. *)
Theorem registration_keeps_layout (mpl : Backend) (calls : list call)
    (tv tv' : TreeViz) :
  for_each (run_call mpl) calls tv = Ok tv' ->
  _tree tv' = _tree tv /\
  name2xy_right tv' = name2xy_right tv /\
  name2xy_center tv' = name2xy_center tv /\
  name2xy_left tv' = name2xy_left tv /\
  name2rect tv' = name2rect tv /\
  xlim tv' = xlim tv /\ ylim tv' = ylim tv /\
  exists added, _plot_funcs tv' = _plot_funcs tv ++ added /\
                List.length added <= List.length calls.
Proof.
  intros H.
  assert (HF : _tree tv' = _tree tv /\ _reverse tv' = _reverse tv /\
               _align_leaf_label tv' = _align_leaf_label tv /\
               exists added, _plot_funcs tv' = _plot_funcs tv ++ added /\
                             List.length added <= List.length calls).
  { revert tv H. induction calls as [|c r IH]; simpl; intros tv H.
    - injection H as <-. repeat split; auto. exists []. rewrite app_nil_r. auto.
    - apply bind_ok in H. destruct H as (tv1 & H1 & H2).
      destruct (run_call_fields _ _ _ _ H1) as (Ht1 & Hr1 & Ha1 & l1 & Hl1 & Hn1).
      destruct (IH _ H2) as (Ht2 & Hr2 & Ha2 & l2 & Hl2 & Hn2).
      repeat split; try congruence.
      exists (l1 ++ l2). rewrite Hl2, Hl1, <- app_assoc, length_app.
      split; [reflexivity | lia]. }
  destruct HF as (Ht & Hr & Ha & Hadd).
  unfold name2rect, _calc_name2rect, calc_rect, name2xy, name2xy_right,
    name2xy_center, name2xy_left, xlim, ylim, max_tree_depth.
  rewrite Ht, Hr, Ha. repeat split; auto.
Qed.

Lemma registration_keeps_layout_witness :
  exists tv tv',
    default_init tree_ab = Ok tv /\
    for_each (run_call example_backend)
      [CallHighlight (QNames ["A"; "B"]) "red" (1 # 2) "full" "";
       CallSetNodeLineProps (QName "A") true "color=blue";
       CallTextOnNode (QName "R") "root"] tv = Ok tv' /\
    _tree tv' = _tree tv /\
    name2xy_right tv' = name2xy_right tv /\
    name2xy_center tv' = name2xy_center tv /\
    name2xy_left tv' = name2xy_left tv /\
    name2rect tv' = name2rect tv /\
    xlim tv' = xlim tv /\ ylim tv' = ylim tv /\
    exists added, _plot_funcs tv' = _plot_funcs tv ++ added /\
                  List.length added <= 3.
Proof.
  eexists. eexists. split; [vm_compute; reflexivity|].
  split; [vm_compute; reflexivity|].
  eapply (registration_keeps_layout example_backend
            [CallHighlight (QNames ["A"; "B"]) "red" (1 # 2) "full" "";
             CallSetNodeLineProps (QName "A") true "color=blue";
             CallTextOnNode (QName "R") "root"]).
  vm_compute. reflexivity.
Defined.

(** ** Layout of a tree with an unnamed leaf *)

Lemma for_each_raises {A S : Type} (body : S -> A -> result S) (e : exn) (l : list A) :
  (forall s x e', In x l -> body s x = Raise e' -> e' = e) ->
  (exists x, In x l /\ forall s, body s x = Raise e) ->
  forall s, for_each body l s = Raise e.
Proof.
  induction l as [|x0 r IH]; intros Hexn (x & Hin & Hx) s; [destruct Hin|].
  simpl. destruct (body s x0) as [s'|e'] eqn:E; simpl.
  - destruct Hin as [<- | Hin]; [rewrite Hx in E; discriminate|].
    apply IH; [|eauto]. intros s0 y e0 Hy. apply Hexn. right. exact Hy.
  - f_equal. apply (Hexn s x0); auto. left. reflexivity.
Qed.

Lemma place_leaf_raises t d idx p c e :
  In (p, c) (get_terminals t) ->
  place_leaf t d (idx, (p, c)) = Raise e -> e = ValueError.
Proof.
  intros Hin. apply filter_In in Hin. destruct Hin as [Hin _].
  unfold place_leaf, distance, get_path_by_name. simpl.
  destruct (name c) as [s|] eqn:Hn; simpl; [|congruence].
  destruct (String.eqb s "") eqn:Hs; simpl; [congruence|].
  assert (Hm : In (p, c) (find_clades t s)).
  { apply filter_In. split; auto. unfold matches. simpl. rewrite Hs, Hn.
    apply String.eqb_refl. }
  destruct (find_clades t s) as [|[p' c'] rest]; [destruct Hm|]. simpl. discriminate.
Qed.

(** X7. A tree with a leaf that has no name (or an empty one) has no
    layout: whatever the position asked for, [_calc_name2xy_pos] raises
    [ValueError], from the [tree.distance] call of its first loop. *)
Theorem calc_name2xy_pos_unnamed_leaf (t : Clade) (reverse : bool) (pos : string) :
  (exists p c, In (p, c) (get_terminals t) /\ (name c = None \/ name c = Some "")) ->
  _calc_name2xy_pos t reverse pos = Raise ValueError.
Proof.
  intros (p & c & Hin & Hname). unfold _calc_name2xy_pos.
  destruct (valid_pos pos); simpl; [|reflexivity].
  unfold calc_name2xy_right.
  rewrite (for_each_raises (place_leaf t) ValueError); [reflexivity| |].
  - intros d [idx [p' c']] e Hit. apply in_enumerate in Hit. destruct Hit as [Hit _].
    apply in_leaf_nodes in Hit. apply place_leaf_raises. exact Hit.
  - assert (Hl : In (p, c) (leaf_nodes t reverse)) by (apply in_leaf_nodes; exact Hin).
    destruct (in_enumerate_exists _ _ Hl 1) as [idx Hidx].
    exists (idx, (p, c)). split; [exact Hidx|]. intros d.
    unfold place_leaf, distance, get_path_by_name. simpl.
    destruct Hname as [-> | ->]; reflexivity.
Qed.

Lemma calc_name2xy_pos_unnamed_leaf_witness :
  (exists tv, default_init tree_unnamed_leaf_bl = Ok tv /\
              _tree tv = tree_unnamed_leaf_bl) /\
  _calc_name2xy_pos tree_unnamed_leaf_bl false "center" = Raise ValueError.
Proof.
  split.
  - eexists. split; vm_compute; reflexivity.
  - apply (calc_name2xy_pos_unnamed_leaf tree_unnamed_leaf_bl false "center").
    exists [1], (Node None (Some 1%Q) None []). split.
    + vm_compute. right. left. reflexivity.
    + left. reflexivity.
Defined.

(** ** The resolver depends on the set of names only *)

Lemma is_prefix_antisym p q : is_prefix p q -> is_prefix q p -> p = q.
Proof.
  intros [r Hr] [r' Hr']. rewrite Hr in Hr'. rewrite <- app_assoc in Hr'.
  rewrite <- (app_nil_r p) in Hr' at 1. apply app_inv_head in Hr'.
  symmetry in Hr'. apply app_eq_nil in Hr'. destruct Hr' as [-> _].
  rewrite app_nil_r in Hr. congruence.
Qed.

Lemma lcp_same_set (p : pos) (ps : list pos) (q : pos) (qs : list pos) :
  (forall x, In x (p :: ps) <-> In x (q :: qs)) -> lcp p ps = lcp q qs.
Proof.
  intros Hset.
  assert (Hcommon : forall a (l : list pos) x, In x (a :: l) -> is_prefix (lcp a l) x).
  { intros a l x Hx. destruct (lcp_is_prefix a l) as [Ha Hl].
    destruct Hx as [<- | Hx]; [exact Ha | apply Hl; exact Hx]. }
  apply is_prefix_antisym; apply lcp_greatest.
  - apply Hcommon. apply Hset. left. reflexivity.
  - intros x Hx. apply Hcommon. apply Hset. right. exact Hx.
  - apply Hcommon. apply Hset. left. reflexivity.
  - intros x Hx. apply Hcommon. apply Hset. right. exact Hx.
Qed.

(** X8. On a well-named tree the resolver depends only on the set of the
    queried names: two lists with the same elements, in any order and with
    any repetitions, resolve to the same node. *)
Theorem search_target_node_name_same_set (t : Clade) (l l' : list string) :
  well_named t ->
  l <> [] ->
  (forall s, In s l -> In s (all_node_labels t)) ->
  (forall s, In s l <-> In s l') ->
  _search_target_node_name t (QNames l') = _search_target_node_name t (QNames l).
Proof.
  intros Hw Hne Hall Hset.
  destruct l as [|s others]; [congruence|].
  destruct l' as [|s' others'].
  { exfalso. apply (Hset s). left. reflexivity. }
  assert (Hall' : forall n, In n (s' :: others') -> In n (all_node_labels t)).
  { intros n Hn. apply Hall, Hset. exact Hn. }
  unfold _search_target_node_name.
  rewrite (check_node_name_exist_ok t (QNames (s :: others))) by exact Hall.
  rewrite (check_node_name_exist_ok t (QNames (s' :: others'))) by exact Hall'.
  cbn [bind].
  rewrite (common_ancestor_lcp t s others Hw Hall).
  rewrite (common_ancestor_lcp t s' others' Hw Hall').
  cbn [bind].
  rewrite (lcp_same_set (pos_of_name t s') (map (pos_of_name t) others')
                        (pos_of_name t s) (map (pos_of_name t) others)).
  - reflexivity.
  - intros x. change (pos_of_name t s' :: map (pos_of_name t) others')
      with (map (pos_of_name t) (s' :: others')).
    change (pos_of_name t s :: map (pos_of_name t) others)
      with (map (pos_of_name t) (s :: others)).
    rewrite !in_map_iff. split; intros (n & E & Hn); exists n; split; auto;
      apply Hset; exact Hn.
Qed.

Lemma search_target_node_name_same_set_witness :
  _search_target_node_name tree_abcdefg_named (QNames ["E"; "F"; "C"; "E"])
  = _search_target_node_name tree_abcdefg_named (QNames ["F"; "C"; "E"]).
Proof.
  apply (search_target_node_name_same_set tree_abcdefg_named
           ["F"; "C"; "E"] ["E"; "F"; "C"; "E"]).
  - split; vm_compute; reflexivity.
  - discriminate.
  - intros s Hs. vm_compute. simpl in Hs. intuition (subst; auto 20).
  - intros s. simpl. tauto.
Defined.

(** ** Node properties: what a lookup returns after [set_node_line_props] *)

Lemma dict_get_fold_set {V : Type} (v : V) (l : list string) :
  forall d s,
    dict_get (fold_left (fun d k => dict_set d k v) l d) s =
    if mem_string s l then Some v else dict_get d s.
Proof.
  induction l as [|k l IH]; intros d s; simpl; [reflexivity|].
  rewrite IH, dict_get_set. rewrite (String.eqb_sym s k).
  destruct (String.eqb k s); simpl; [|reflexivity].
  destruct (mem_string s l); reflexivity.
Qed.

(** X9. After [set_node_line_props] the properties stored under the name
    of the resolved clade (and, with [descendent], under the names of all
    clades below it) are the given ones; every other entry is as before. *)
Theorem set_node_line_props_lookup (tv : TreeViz) (q : query) (descendent : bool)
    (kwargs : string) (tv' : TreeViz) :
  set_node_line_props tv q descendent kwargs = Ok tv' ->
  exists target p clade rest,
    _search_target_node_name (_tree tv) q = Ok target /\
    find_clades_opt (_tree tv) target = (p, clade) :: rest /\
    _node2label_props tv' = _node2label_props tv /\
    forall s,
      dict_get (_node2line_props tv') s =
      if mem_string s (if descendent then all_node_names clade else [str_name clade])
      then Some kwargs
      else dict_get (_node2line_props tv) s.
Proof.
  unfold set_node_line_props. intros H.
  destruct (_search_target_node_name (_tree tv) q) as [target|] eqn:Hs;
    cbn [bind] in H; [|discriminate].
  destruct (find_clades_opt (_tree tv) target) as [|[p clade] rest] eqn:Hf;
    cbn [bind next] in H; [discriminate|].
  injection H as <-. exists target, p, clade, rest. simpl.
  repeat split; auto. intros s. rewrite dict_get_fold_set.
  destruct descendent; reflexivity.
Qed.

Lemma set_node_line_props_lookup_witness :
  exists tv,
    default_init tree_abc = Ok tv /\
    exists tv',
      set_node_line_props tv (QNames ["B"; "C"]) true "color=orange" = Ok tv' /\
      exists target p clade rest,
        _search_target_node_name (_tree tv) (QNames ["B"; "C"]) = Ok target /\
        find_clades_opt (_tree tv) target = (p, clade) :: rest /\
        _node2label_props tv' = _node2label_props tv /\
        forall s,
          dict_get (_node2line_props tv') s =
          if mem_string s (if true then all_node_names clade else [str_name clade])
          then Some "color=orange"
          else dict_get (_node2line_props tv) s.
Proof.
  eexists. split; [vm_compute; reflexivity|].
  eexists. split; [vm_compute; reflexivity|].
  apply (set_node_line_props_lookup _ (QNames ["B"; "C"]) true "color=orange").
  vm_compute. reflexivity.
Defined.

(** ** [_get_texts_rect]: the bounding box of the drawn labels *)



Lemma py_min_ok (l : list Q) : l <> [] -> py_min l = Ok (min_of l).
Proof. destruct l; [congruence | reflexivity]. Qed.

Lemma py_max_ok (l : list Q) : l <> [] -> py_max l = Ok (max_of l).
Proof. destruct l; [congruence | reflexivity]. Qed.



(** ** The right-aligned layout, entry by entry *)

Lemma dict_get_app_l {V : Type} (d l : dict V) k (v : V) :
  dict_get d k = Some v -> dict_get (d ++ l) k = Some v.
Proof.
  induction d as [|[k0 v0] d IH]; simpl; [discriminate|].
  destruct (String.eqb k0 k); auto.
Qed.

Lemma dict_get_app_r {V : Type} (d l : dict V) k :
  ~ In k (keys d) -> dict_get (d ++ l) k = dict_get l k.
Proof.
  induction d as [|[k0 v0] d IH]; simpl; intros H; [reflexivity|].
  destruct (String.eqb k0 k) eqn:E.
  - apply String.eqb_eq in E. exfalso. apply H. left. exact E.
  - apply IH. intros Hin. apply H. right. exact Hin.
Qed.

Lemma NoDup_app_disjoint {A : Type} (l l' : list A) x :
  NoDup (l ++ l') -> In x l -> In x l' -> False.
Proof.
  induction l as [|a l IH]; simpl; intros Hnd Hl Hl'; [destruct Hl|].
  inversion Hnd as [|? ? Hna Hnd']; subst. destruct Hl as [-> | Hl].
  - apply Hna. apply in_or_app. right. exact Hl'.
  - apply IH; assumption.
Qed.

Lemma names_walk_list (cs : list Clade) :
  forall i, map row_name (walk_list preorder i cs) = flat_map all_node_names cs.
Proof.
  induction cs as [|c r IH]; intros i; simpl; [reflexivity|].
  rewrite map_app, IH, map_map. reflexivity.
Qed.

Lemma all_node_names_unfold (c : Clade) :
  all_node_names c = str_name c :: flat_map all_node_names (clades c).
Proof.
  rewrite all_node_names_rows, preorder_unfold. simpl.
  rewrite names_walk_list. reflexivity.
Qed.

Lemma in_all_node_names c p node :
  get_node c p = Some node -> In (str_name node) (all_node_names c).
Proof.
  intros Hg. apply in_preorder in Hg. unfold all_node_names.
  apply in_map_iff. exists (p, node). auto.
Qed.

Lemma in_nonterminals_postorder c node :
  In node (map snd (get_nonterminals_postorder c)) ->
  exists p, get_node c p = Some node /\ is_terminal node = false.
Proof.
  intros Hin. apply in_map_iff in Hin. destruct Hin as ([p n] & E & Hin).
  simpl in E. subst n. apply filter_In in Hin. destruct Hin as [Hin Ht].
  apply in_postorder in Hin. exists p. split; auto.
  unfold terminal_at in Ht. simpl in Ht. destruct (is_terminal node); auto; discriminate.
Qed.

Lemma nonterminals_postorder_in c p node :
  get_node c p = Some node -> is_terminal node = false ->
  In node (map snd (get_nonterminals_postorder c)).
Proof.
  intros Hg Ht. apply in_map_iff. exists (p, node). split; auto.
  apply filter_In. split; [apply in_postorder; exact Hg|].
  unfold terminal_at. simpl. rewrite Ht. reflexivity.
Qed.

Lemma in_internal_blocks cs node :
  In node (internal_blocks cs) ->
  exists ch p, In ch cs /\ get_node ch p = Some node /\ is_terminal node = false.
Proof.
  unfold internal_blocks. intros Hin. apply in_flat_map in Hin.
  destruct Hin as (ch & Hch & Hin). apply in_nonterminals_postorder in Hin.
  destruct Hin as (p & Hg & Ht). eauto.
Qed.

Lemma node_y_terminal ly c : is_terminal c = true -> node_y ly c = ly (str_name c).
Proof.
  destruct c as [n b k cs]. unfold is_terminal. simpl.
  destruct cs; [reflexivity | discriminate].
Qed.

Lemma node_y_internal ly c :
  is_terminal c = false ->
  node_y ly c =
  (py_sum (map (node_y ly) (clades c))
   / inject_Z (Z.of_nat (List.length (clades c))))%Q.
Proof.
  destruct c as [n b k cs]. unfold is_terminal. simpl.
  destruct cs; [discriminate | reflexivity].
Qed.

Lemma keys_internal_entries tree ly (l : list Clade) :
  keys (map (internal_entry tree ly) l) = map str_name l.
Proof. unfold keys. rewrite map_map. reflexivity. Qed.

Lemma map_result_child_y (d : dict xy) (cs : list Clade) (f : Clade -> Q) :
  (forall ch, In ch cs ->
     name ch = Some (str_name ch) /\
     exists x, dict_get d (str_name ch) = Some (x, f ch)) ->
  map_result (child_y d) cs = Ok (map f cs).
Proof.
  induction cs as [|ch r IH]; intros H; simpl; [reflexivity|].
  destruct (H ch (or_introl eq_refl)) as (Hn & x & Hx).
  unfold child_y at 1. rewrite Hn. unfold dict_item. rewrite Hx. cbn [bind snd].
  rewrite IH; [reflexivity|]. intros c Hc. apply H. right. exact Hc.
Qed.

Section InternalLoopY.
Variable tree : Clade.
Hypothesis Hw : well_named tree.
Variable ly : string -> Q.

Lemma internal_blocks_y (cs : list Clade) :
  Forall (internal_loop_y_spec tree ly) cs ->
  (forall ch, In ch cs -> subtree_of tree ch) ->
  NoDup (flat_map all_node_names cs) ->
  forall d,
    (forall ch p node, In ch cs -> get_node ch p = Some node ->
       is_terminal node = true ->
       exists x, dict_get d (str_name node) = Some (x, ly (str_name node))) ->
    (forall ch p node, In ch cs -> get_node ch p = Some node ->
       is_terminal node = false -> ~ In (str_name node) (keys d)) ->
    for_each (place_internal tree) (internal_blocks cs) d
    = Ok (d ++ map (internal_entry tree ly) (internal_blocks cs)) /\
    (forall ch p node, In ch cs -> get_node ch p = Some node ->
       is_terminal node = false ->
       dict_get (d ++ map (internal_entry tree ly) (internal_blocks cs))
                (str_name node)
       = Some (x_of tree node, node_y ly node)).
Proof.
  induction 1 as [|ch r Hch _ IH]; intros Hsub Hnd d Hleaves Hfresh.
  - simpl. rewrite app_nil_r. split; auto. intros ch p node [].
  - unfold internal_blocks. simpl. fold (internal_blocks r).
    simpl in Hnd.
    rewrite for_each_app, map_app.
    destruct (Hch (Hsub ch (or_introl eq_refl)) (NoDup_app_remove_r _ _ Hnd) d)
      as [H1 Hl1].
    { intros p node. apply Hleaves. left; auto. }
    { intros p node. apply Hfresh. left; auto. }
    rewrite H1. cbn [bind].
    destruct (IH (fun c Hc => Hsub c (or_intror Hc)) (NoDup_app_remove_l _ _ Hnd)
                 (d ++ map (internal_entry tree ly)
                           (map snd (get_nonterminals_postorder ch))))
      as [H2 Hl2].
    { intros c p node Hc Hg Ht.
      destruct (Hleaves c p node (or_intror Hc) Hg Ht) as [x Hx].
      exists x. apply dict_get_app_l. exact Hx. }
    { intros c p node Hc Hg Ht Hin. unfold keys in Hin. rewrite map_app in Hin.
      apply in_app_or in Hin. destruct Hin as [Hin | Hin].
      - apply (Hfresh c p node (or_intror Hc) Hg Ht). exact Hin.
      - rewrite map_map in Hin. apply in_map_iff in Hin.
        destruct Hin as (n' & En & Hin). simpl in En.
        apply in_nonterminals_postorder in Hin.
        destruct Hin as (p' & Hg' & _).
        apply (NoDup_app_disjoint _ _ (str_name node) Hnd).
        + rewrite <- En. eapply in_all_node_names; eauto.
        + apply in_flat_map. exists c. split; auto.
          eapply in_all_node_names; eauto. }
    rewrite app_assoc. split; [exact H2|].
    intros c p node [<- | Hc] Hg Ht.
    + apply dict_get_app_l. apply (Hl1 p node Hg Ht).
    + apply (Hl2 c p node Hc Hg Ht).
Qed.

Lemma internal_loop_y (c : Clade) : internal_loop_y_spec tree ly c.
Proof.
  induction c as [n b k cs IH] using Clade_rect'.
  intros Hsub Hnd d Hleaves Hfresh.
  set (c := Node n b k cs) in *.
  rewrite nonterminals_postorder_unfold. change (clades c) with cs.
  rewrite all_node_names_unfold in Hnd. change (clades c) with cs in Hnd.
  inversion Hnd as [|? ? Hrootfresh Hnd']; subst.
  assert (Hchild : forall ch, In ch cs -> exists i, nth_error cs i = Some ch).
  { intros ch Hch. apply In_nth_error in Hch. exact Hch. }
  destruct (internal_blocks_y cs IH) with (d := d) as [H1 Hl1]; auto.
  { intros ch Hch. destruct (Hchild ch Hch) as [i Hi].
    exact (subtree_of_child tree c i ch Hsub Hi). }
  { intros ch p node Hch Hg Ht. destruct (Hchild ch Hch) as [i Hi].
    apply (Hleaves (i :: p)); auto. simpl. change (clades c) with cs. rewrite Hi. exact Hg. }
  { intros ch p node Hch Hg Ht. destruct (Hchild ch Hch) as [i Hi].
    apply (Hfresh (i :: p)); auto. simpl. change (clades c) with cs. rewrite Hi. exact Hg. }
  rewrite for_each_app, H1. cbn [bind].
  assert (Hbelow : forall p node, get_node c p = Some node -> p <> [] ->
                     is_terminal node = false ->
                     dict_get (d ++ map (internal_entry tree ly) (internal_blocks cs))
                              (str_name node)
                     = Some (x_of tree node, node_y ly node)).
  { intros [|i p] node Hg Hp Ht; [congruence|].
    apply get_node_child in Hg. destruct Hg as (ch & Hch & Hg). eauto. }
  destruct (is_terminal c) eqn:Hterm.
  - simpl. rewrite !app_nil_r. split; auto. intros [|i p] node Hg Ht.
    + simpl in Hg. injection Hg as <-. congruence.
    + apply Hbelow with (p := i :: p); auto. discriminate.
  - destruct (Hsub [] c eq_refl) as [q Hq].
    assert (Hx : x_of tree c = depth_at tree q).
    { unfold x_of. rewrite (distance_well_named tree q c Hw Hq). reflexivity. }
    assert (Hys : map_result
                    (child_y (d ++ map (internal_entry tree ly) (internal_blocks cs)))
                    cs = Ok (map (node_y ly) cs)).
    { apply map_result_child_y. intros ch Hch. destruct (Hchild ch Hch) as [i Hi].
      destruct (Hsub [i] ch) as [q' Hq'].
      { simpl. change (clades c) with cs. rewrite Hi. reflexivity. }
      destruct (well_named_name tree q' ch Hw Hq') as [Hn _]. split; [exact Hn|].
      destruct (is_terminal ch) eqn:Htc.
      - destruct (Hleaves [i] ch) as [x Hx']; auto.
        { simpl. change (clades c) with cs. rewrite Hi. reflexivity. }
        exists x. rewrite (node_y_terminal ly ch Htc). apply dict_get_app_l. exact Hx'.
      - exists (x_of tree ch). apply (Hl1 ch [] ch); auto. }
    assert (Hnew : ~ In (str_name c)
                     (keys (d ++ map (internal_entry tree ly) (internal_blocks cs)))).
    { unfold keys. rewrite map_app. intros Hin. apply in_app_or in Hin.
      destruct Hin as [Hin | Hin].
      - apply (Hfresh [] c); auto.
      - rewrite map_map in Hin. apply in_map_iff in Hin.
        destruct Hin as (n' & En & Hin). simpl in En.
        apply in_internal_blocks in Hin.
        destruct Hin as (ch & p & Hch & Hg & _). apply Hrootfresh.
        apply in_flat_map. exists ch. split; auto.
        rewrite <- En. eapply in_all_node_names; eauto. }
    simpl for_each. unfold place_internal.
    rewrite (distance_well_named tree q c Hw Hq). cbn [bind].
    change (clades c) with cs. rewrite Hys. cbn [bind].
    rewrite dict_set_fresh by exact Hnew.
    assert (Hentry : internal_entry tree ly c
                     = (str_name c,
                        (depth_at tree q,
                         (py_sum (map (node_y ly) cs)
                          / inject_Z (Z.of_nat (List.length cs)))%Q))).
    { unfold internal_entry. rewrite Hx, (node_y_internal ly c Hterm). reflexivity. }
    rewrite map_app. simpl map. rewrite Hentry, app_assoc. split; [reflexivity|].
    intros [|i p] node Hg Ht.
    + simpl in Hg. injection Hg as <-.
      rewrite dict_get_app_r by exact Hnew. cbn [dict_get].
      rewrite String.eqb_refl, Hx, (node_y_internal ly c Ht). reflexivity.
    + apply dict_get_app_l. apply Hbelow with (p := i :: p); auto. discriminate.
Qed.
End InternalLoopY.

Lemma keys_leaf_entries t reverse :
  keys (leaf_entries t reverse) = map row_name (leaf_nodes t reverse).
Proof.
  unfold keys, leaf_entries. rewrite map_map. simpl.
  change (map (fun x => leaf_key x) (enumerate 1 (leaf_nodes t reverse)))
    with (map leaf_key (enumerate 1 (leaf_nodes t reverse))).
  apply map_leaf_key_enumerate.
Qed.

Lemma leaf_entries_get t reverse idx p c :
  well_named t ->
  In (idx, (p, c)) (enumerate 1 (leaf_nodes t reverse)) ->
  dict_get (leaf_entries t reverse) (str_name c)
  = Some (depth_at t p, inject_Z (Z.of_nat idx)).
Proof.
  intros Hw Hin. apply in_dict_get.
  - rewrite keys_leaf_entries. apply NoDup_leaf_names. exact Hw.
  - unfold leaf_entries. apply in_map_iff. exists (idx, (p, c)). auto.
Qed.

Lemma leaf_rank_enumerated t reverse idx p c :
  well_named t ->
  In (idx, (p, c)) (enumerate 1 (leaf_nodes t reverse)) ->
  leaf_rank t reverse (str_name c) = inject_Z (Z.of_nat idx).
Proof.
  intros Hw Hin. unfold leaf_rank, get_or.
  rewrite (leaf_entries_get t reverse idx p c Hw Hin). reflexivity.
Qed.

Lemma leaf_enumerated t reverse p c :
  get_node t p = Some c -> is_terminal c = true ->
  exists idx, In (idx, (p, c)) (enumerate 1 (leaf_nodes t reverse)).
Proof.
  intros Hg Ht. apply in_enumerate_exists. apply in_leaf_nodes, in_get_terminals. auto.
Qed.

(** The dictionary of right-aligned coordinates, in full: the leaves in
    the order of the first loop, then the internal clades in postorder;
    each clade is found under its name with its depth and the y-coordinate
    [node_y]. *)
Lemma calc_name2xy_right_full t reverse :
  well_named t ->
  calc_name2xy_right t reverse
  = Ok (leaf_entries t reverse
        ++ map (internal_entry t (leaf_rank t reverse))
               (map snd (get_nonterminals_postorder t))) /\
  (forall p c, get_node t p = Some c ->
     dict_get (leaf_entries t reverse
               ++ map (internal_entry t (leaf_rank t reverse))
                      (map snd (get_nonterminals_postorder t)))
              (str_name c)
     = Some (depth_at t p, node_y (leaf_rank t reverse) c)).
Proof.
  intros Hw. unfold calc_name2xy_right. rewrite (leaves_loop t reverse Hw).
  fold (leaf_entries t reverse). cbn [bind].
  assert (Hleaf : forall p node, get_node t p = Some node -> is_terminal node = true ->
            dict_get (leaf_entries t reverse) (str_name node)
            = Some (depth_at t p, leaf_rank t reverse (str_name node))).
  { intros p node Hg Ht. destruct (leaf_enumerated t reverse p node Hg Ht) as [idx Hidx].
    rewrite (leaf_rank_enumerated t reverse idx p node Hw Hidx).
    apply leaf_entries_get; assumption. }
  destruct (internal_loop_y t Hw (leaf_rank t reverse) t) with (d := leaf_entries t reverse)
    as [Hrun Hint].
  - intros p node Hg. eauto.
  - apply check_node_name_dup_ok. apply Hw.
  - intros p node Hg Ht. eexists. apply Hleaf; eauto.
  - intros p node Hg Ht Hin. rewrite keys_leaf_entries in Hin.
    apply in_map_iff in Hin. destruct Hin as ([p' c'] & E & Hin).
    apply in_leaf_nodes, in_get_terminals in Hin. destruct Hin as [Hg' Ht'].
    unfold row_name in E. simpl in E.
    apply (terminal_not_internal_name t p' c' p node Hw Hg' Hg Ht' Ht). auto.
  - split; [exact Hrun|]. intros p c Hg. destruct (is_terminal c) eqn:Ht.
    + rewrite (node_y_terminal _ c Ht). apply dict_get_app_l. apply Hleaf; assumption.
    + pose proof (Hint p c Hg Ht) as E. unfold x_of in E.
      rewrite (distance_well_named t p c Hw Hg) in E. exact E.
Qed.

Lemma for_each_keys_NoDup {A V : Type} (body : dict V -> A -> result (dict V))
  (l : list A) :
  (forall d x d', body d x = Ok d' -> NoDup (keys d) -> NoDup (keys d')) ->
  forall d d', for_each body l d = Ok d' -> NoDup (keys d) -> NoDup (keys d').
Proof.
  intros Hbody. induction l as [|x r IH]; simpl; intros d d' H Hnd.
  - injection H as <-. exact Hnd.
  - apply bind_ok in H. destruct H as (d1 & H1 & H2). eauto.
Qed.

Lemma calc_name2xy_right_keys t reverse d :
  calc_name2xy_right t reverse = Ok d -> NoDup (keys d).
Proof.
  unfold calc_name2xy_right. intros H. apply bind_ok in H.
  destruct H as (d1 & H1 & H2).
  apply (for_each_keys_NoDup _ _) with (d := d1) (d' := d) in H2; auto.
  - intros d0 node d' E Hnd. unfold place_internal in E.
    result_cases E. injection E as <-. apply NoDup_keys_dict_set. exact Hnd.
  - apply (for_each_keys_NoDup _ _) with (d := []) (d' := d1) in H1; auto.
    + intros d0 it d' E Hnd. unfold place_leaf in E.
      result_cases E. injection E as <-. apply NoDup_keys_dict_set. exact Hnd.
    + constructor.
Qed.

(** Every coordinate dictionary has one entry per clade, found under its
    name, with the y-coordinate [node_y]. *)
Lemma calc_name2xy_pos_full t reverse pos :
  well_named t -> valid_pos pos = true ->
  exists d,
    _calc_name2xy_pos t reverse pos = Ok d /\
    (forall p c, get_node t p = Some c ->
       dict_get d (str_name c)
       = Some (layout_x t pos p, node_y (leaf_rank t reverse) c)) /\
    (forall s, In s (keys d) <-> In s (all_node_labels t)) /\
    NoDup (keys d).
Proof.
  intros Hw Hpos. destruct (calc_name2xy_right_full t reverse Hw) as [Hrun Hget].
  set (right := leaf_entries t reverse
                ++ map (internal_entry t (leaf_rank t reverse))
                       (map snd (get_nonterminals_postorder t))) in *.
  assert (Hright : forall p c, get_node t p = Some c ->
            exists y, dict_get right (str_name c) = Some (depth_at t p, y)).
  { intros p c Hg. eexists. apply Hget. exact Hg. }
  assert (Hkeys : forall d : dict xy,
            (forall p c, get_node t p = Some c -> exists v, dict_get d (str_name c) = Some v) ->
            (forall s, In s (keys d) -> exists p c, get_node t p = Some c /\ str_name c = s) ->
            forall s, In s (keys d) <-> In s (all_node_labels t)).
  { intros d H1 H2 s. rewrite in_all_node_labels. split; [apply H2|].
    intros (p & c & Hg & <-). destruct (H1 p c Hg) as [v Hv].
    apply dict_get_in in Hv. apply (in_map fst) in Hv. exact Hv. }
  destruct (valid_pos_cases pos Hpos) as [-> | Hother].
  - exists right. rewrite calc_name2xy_pos_right. split; [exact Hrun|].
    split; [|split].
    + intros p c Hg. rewrite (Hget p c Hg). destruct p; reflexivity.
    + apply Hkeys.
      * intros p c Hg. eexists. apply Hget. exact Hg.
      * intros s Hs. unfold right, keys in Hs. rewrite map_app in Hs.
        apply in_app_or in Hs. destruct Hs as [Hs | Hs].
        -- fold (keys (leaf_entries t reverse)) in Hs. rewrite keys_leaf_entries in Hs.
           apply in_map_iff in Hs. destruct Hs as ([p c] & E & Hin).
           apply in_leaf_nodes, in_get_terminals in Hin. exists p, c. tauto.
        -- rewrite map_map in Hs. apply in_map_iff in Hs.
           destruct Hs as (n & E & Hin). simpl in E.
           apply in_nonterminals_postorder in Hin. destruct Hin as (p & Hg & _).
           exists p, n. auto.
    + apply (calc_name2xy_right_keys t reverse). exact Hrun.
  - exists (map (fun pc => (row_name pc, pos_xy t right pos pc)) (preorder t)).
    split; [apply calc_name2xy_pos_other; auto|].
    assert (Hk : keys (map (fun pc => (row_name pc, pos_xy t right pos pc)) (preorder t))
                 = map row_name (preorder t)).
    { unfold keys. rewrite map_map. reflexivity. }
    split; [|split].
    + intros p c Hg.
      rewrite (pos_loop_get t right pos Hw p c Hg).
      unfold pos_xy, get_or, row_name. simpl fst. simpl snd.
      rewrite (Hget p c Hg). destruct p as [|i p]; [reflexivity|].
      destruct (get_node_parent t (i :: p) c Hg) as [pn Hpn]; [discriminate|].
      rewrite Hpn, (Hget _ pn Hpn). unfold layout_x.
      destruct Hother as [-> | ->]; reflexivity.
    + apply Hkeys.
      * intros p c Hg. rewrite (pos_loop_get t right pos Hw p c Hg). eauto.
      * intros s Hs. rewrite Hk in Hs. apply in_map_iff in Hs.
        destruct Hs as ([p c] & E & Hin). apply in_preorder in Hin.
        exists p, c. auto.
    + rewrite Hk. apply well_named_NoDup. exact Hw.
Qed.

(** X11. On a well-named tree each coordinate dictionary has exactly one
    entry per clade, keyed by its name: the leaves in the order of the
    first loop followed by the internal clades in postorder for the right
    position, all clades in preorder for the other two. *)
Theorem calc_name2xy_pos_keys (t : Clade) (reverse : bool) (pos : string) :
  well_named t -> valid_pos pos = true ->
  exists d,
    _calc_name2xy_pos t reverse pos = Ok d /\
    NoDup (keys d) /\
    (forall s, In s (keys d) <-> In s (all_node_labels t)) /\
    keys d = (if String.eqb pos "right"
              then map row_name (leaf_nodes t reverse)
                   ++ map str_name (map snd (get_nonterminals_postorder t))
              else all_node_names t).
Proof.
  intros Hw Hpos.
  destruct (calc_name2xy_pos_full t reverse pos Hw Hpos) as (d & Hrun & Hget & Hk & Hnd).
  exists d. split; [exact Hrun|]. split; [exact Hnd|]. split; [exact Hk|].
  destruct (calc_name2xy_right_full t reverse Hw) as [Hright Hrget].
  destruct (valid_pos_cases pos Hpos) as [-> | Hother].
  - rewrite calc_name2xy_pos_right, Hright in Hrun. injection Hrun as <-.
    simpl String.eqb. cbv iota. unfold keys. rewrite map_app.
    fold (keys (leaf_entries t reverse)). rewrite keys_leaf_entries.
    rewrite map_map. reflexivity.
  - rewrite (calc_name2xy_pos_other t reverse pos _ Hw Hother Hright) in Hrun.
    + injection Hrun as <-. unfold keys. rewrite map_map. simpl.
      rewrite all_node_names_rows.
      destruct Hother as [-> | ->]; reflexivity.
    + intros p c Hg. eexists. apply Hrget. exact Hg.
Qed.

Lemma calc_name2xy_pos_keys_witness :
  exists d,
    _calc_name2xy_pos tree_abc false "right" = Ok d /\
    NoDup (keys d) /\
    (forall s, In s (keys d) <-> In s (all_node_labels tree_abc)) /\
    keys d = map row_name (leaf_nodes tree_abc false)
             ++ map str_name (map snd (get_nonterminals_postorder tree_abc)).
Proof.
  apply (calc_name2xy_pos_keys tree_abc false "right").
  - split; vm_compute; reflexivity.
  - reflexivity.
Defined.

Lemma Forall2_map_in {A B : Type} (R : A -> B -> Prop) (f : A -> B) (l : list A) :
  (forall x, In x l -> R x (f x)) -> Forall2 R l (map f l).
Proof.
  induction l as [|x r IH]; simpl; intros H; constructor; auto.
Qed.

(** X12. In each coordinate dictionary of a well-named tree the
    y-coordinate of an internal clade is the sum of the y-coordinates of
    its children divided by their number. *)
Theorem calc_name2xy_pos_internal_y (t : Clade) (reverse : bool) (pos : string)
    (p : list nat) (c : Clade) :
  well_named t -> valid_pos pos = true ->
  get_node t p = Some c -> is_terminal c = false ->
  exists d x y ys,
    _calc_name2xy_pos t reverse pos = Ok d /\
    dict_get d (str_name c) = Some (x, y) /\
    Forall2 (fun ch y' => exists x', dict_get d (str_name ch) = Some (x', y'))
            (clades c) ys /\
    y = (py_sum ys / inject_Z (Z.of_nat (List.length (clades c))))%Q.
Proof.
  intros Hw Hpos Hg Ht.
  destruct (calc_name2xy_pos_full t reverse pos Hw Hpos) as (d & Hrun & Hget & _).
  exists d, (layout_x t pos p), (node_y (leaf_rank t reverse) c),
    (map (node_y (leaf_rank t reverse)) (clades c)).
  split; [exact Hrun|]. split; [apply Hget; exact Hg|]. split.
  - apply Forall2_map_in. intros ch Hch. apply In_nth_error in Hch.
    destruct Hch as [i Hi]. exists (layout_x t pos (p ++ [i])). apply Hget.
    rewrite get_node_app, Hg. simpl. rewrite Hi. reflexivity.
  - apply node_y_internal. exact Ht.
Qed.

Lemma calc_name2xy_pos_internal_y_witness :
  exists d x y ys,
    _calc_name2xy_pos tree_abc false "left" = Ok d /\
    dict_get d "N" = Some (x, y) /\
    Forall2 (fun ch y' => exists x', dict_get d (str_name ch) = Some (x', y'))
            [bleaf "B" 2; bleaf "C" 3] ys /\
    y = (py_sum ys / inject_Z (Z.of_nat 2))%Q.
Proof.
  apply (calc_name2xy_pos_internal_y tree_abc false "left" [1]
           (Node (Some "N") (Some 1%Q) None [bleaf "B" 2; bleaf "C" 3])).
  - split; vm_compute; reflexivity.
  - reflexivity.
  - reflexivity.
  - reflexivity.
Defined.

(** ** The y-coordinates stay between the first and the last rank *)

Lemma py_sum_fold (ys : list Q) :
  forall a, (fold_left Qplus ys a == a + Qsum ys)%Q.
Proof.
  induction ys as [|y ys IH]; intros a; simpl.
  - ring.
  - rewrite IH. ring.
Qed.

Lemma py_sum_Qsum (ys : list Q) : (py_sum ys == Qsum ys)%Q.
Proof. unfold py_sum. rewrite py_sum_fold. ring. Qed.

Lemma inject_length_cons {A : Type} (x : A) (l : list A) :
  (inject_Z (Z.of_nat (List.length (x :: l)))
   == inject_Z (Z.of_nat (List.length l)) + 1)%Q.
Proof.
  change (List.length (x :: l)) with (S (List.length l)).
  rewrite Nat2Z.inj_succ. unfold Z.succ. rewrite inject_Z_plus. reflexivity.
Qed.

Lemma inject_length_pos {A : Type} (l : list A) :
  l <> [] -> (0 < inject_Z (Z.of_nat (List.length l)))%Q.
Proof.
  destruct l as [|x l]; [congruence|]. intros _.
  change 0%Q with (inject_Z 0). rewrite <- Zlt_Qlt. simpl. lia.
Qed.

Lemma Qsum_bounds (ys : list Q) (lo hi : Q) :
  (forall y, In y ys -> (lo <= y <= hi)%Q) ->
  (lo * inject_Z (Z.of_nat (List.length ys)) <= Qsum ys
   <= hi * inject_Z (Z.of_nat (List.length ys)))%Q.
Proof.
  induction ys as [|y ys IH]; intros H.
  - change (inject_Z (Z.of_nat (List.length (@nil Q)))) with 0%Q.
    change (Qsum []) with 0%Q. split; lra.
  - rewrite inject_length_cons. simpl Qsum.
    destruct (H y (or_introl eq_refl)) as [H1 H2].
    destruct IH as [H3 H4]; [intros z Hz; apply H; right; exact Hz|].
    split; lra.
Qed.

Lemma mean_bounds (ys : list Q) (lo hi : Q) :
  ys <> [] ->
  (forall y, In y ys -> (lo <= y <= hi)%Q) ->
  (lo <= py_sum ys / inject_Z (Z.of_nat (List.length ys)) <= hi)%Q.
Proof.
  intros Hne H. pose proof (inject_length_pos ys Hne) as Hpos.
  destruct (Qsum_bounds ys lo hi H) as [H1 H2]. rewrite py_sum_Qsum. split.
  - apply Qle_shift_div_l; assumption.
  - apply Qle_shift_div_r; assumption.
Qed.

Lemma node_y_bounds (ly : string -> Q) (lo hi : Q) (c : Clade) :
  (forall p node, get_node c p = Some node -> is_terminal node = true ->
     (lo <= ly (str_name node) <= hi)%Q) ->
  (lo <= node_y ly c <= hi)%Q.
Proof.
  induction c as [n b k cs IH] using Clade_rect'. intros H.
  destruct cs as [|ch cs].
  - apply (H [] (Node n b k [])); reflexivity.
  - rewrite node_y_internal by reflexivity.
    change (clades (Node n b k (ch :: cs))) with (ch :: cs).
    rewrite <- (length_map (node_y ly) (ch :: cs)).
    apply mean_bounds; [discriminate|].
    intros y Hy. apply in_map_iff in Hy. destruct Hy as (c0 & <- & Hc0).
    rewrite Forall_forall in IH. apply (IH c0 Hc0).
    intros p node Hg Ht. apply In_nth_error in Hc0. destruct Hc0 as [i Hi].
    apply (H (i :: p) node); auto. simpl. rewrite Hi. exact Hg.
Qed.

Lemma in_enumerate_lt {A : Type} (l : list A) :
  forall s k x, In (k, x) (enumerate s l) -> k < s + List.length l.
Proof.
  induction l as [|y r IH]; simpl; intros s k x H; [destruct H|].
  destruct H as [E | H].
  - inversion E; subst. lia.
  - apply IH in H. lia.
Qed.

Lemma leaf_rank_bounds t reverse p c :
  well_named t -> get_node t p = Some c -> is_terminal c = true ->
  (1 <= leaf_rank t reverse (str_name c)
   <= inject_Z (Z.of_nat (count_terminals t)))%Q.
Proof.
  intros Hw Hg Ht. destruct (leaf_enumerated t reverse p c Hg Ht) as [idx Hidx].
  rewrite (leaf_rank_enumerated t reverse idx p c Hw Hidx).
  pose proof (in_enumerate_lt _ _ _ _ Hidx) as Hlt.
  apply in_enumerate in Hidx. destruct Hidx as [_ Hge].
  rewrite length_leaf_nodes in Hlt.
  change 1%Q with (inject_Z 1). rewrite <- !Zle_Qle. lia.
Qed.

(** X13. In each coordinate dictionary of a well-named tree with N leaves
    every clade, internal ones included, has a y-coordinate between 1 and
    N, hence inside [ylim = (0, N + 1)]. *)
Theorem calc_name2xy_pos_y_within_ylim (t : Clade) (reverse : bool) (pos : string) :
  well_named t -> valid_pos pos = true ->
  exists d,
    _calc_name2xy_pos t reverse pos = Ok d /\
    forall p c, get_node t p = Some c ->
      exists x y, dict_get d (str_name c) = Some (x, y) /\
                  (1 <= y <= inject_Z (Z.of_nat (count_terminals t)))%Q.
Proof.
  intros Hw Hpos.
  destruct (calc_name2xy_pos_full t reverse pos Hw Hpos) as (d & Hrun & Hget & _).
  exists d. split; [exact Hrun|]. intros p c Hg.
  exists (layout_x t pos p), (node_y (leaf_rank t reverse) c).
  split; [apply Hget; exact Hg|].
  apply node_y_bounds. intros q node Hq Ht.
  apply (leaf_rank_bounds t reverse (p ++ q) node Hw); auto.
  rewrite get_node_app, Hg. exact Hq.
Qed.

Lemma calc_name2xy_pos_y_within_ylim_witness :
  exists d,
    _calc_name2xy_pos tree_abcdefg_named true "center" = Ok d /\
    forall p c, get_node tree_abcdefg_named p = Some c ->
      exists x y, dict_get d (str_name c) = Some (x, y) /\
                  (1 <= y <= inject_Z (Z.of_nat (count_terminals tree_abcdefg_named)))%Q.
Proof.
  apply (calc_name2xy_pos_y_within_ylim tree_abcdefg_named true "center").
  - split; vm_compute; reflexivity.
  - reflexivity.
Defined.

(** ** The [reverse] flag mirrors the y-coordinates *)

Lemma enumerate_app {A : Type} (l l' : list A) :
  forall s, enumerate s (l ++ l') = enumerate s l ++ enumerate (s + List.length l) l'.
Proof.
  induction l as [|x l IH]; intros s; simpl.
  - rewrite Nat.add_0_r. reflexivity.
  - rewrite IH, Nat.add_succ_r. reflexivity.
Qed.

Lemma enumerate_rev {A : Type} (l : list A) :
  NoDup l ->
  forall s s' k k' x,
    In (k, x) (enumerate s l) -> In (k', x) (enumerate s' (rev l)) ->
    k + k' + 1 = s + s' + List.length l.
Proof.
  induction 1 as [|a l Ha _ IH]; intros s s' k k' x H1 H2; [destruct H1|].
  simpl in H1, H2. rewrite enumerate_app in H2. simpl in H2.
  apply in_app_or in H2. rewrite length_rev in H2.
  destruct H1 as [E1 | H1].
  - inversion E1; subst. destruct H2 as [H2 | [E2 | []]].
    + apply in_enumerate in H2. destruct H2 as [H2 _].
      apply in_rev in H2. contradiction.
    + inversion E2; subst. simpl. lia.
  - destruct H2 as [H2 | [E2 | []]].
    + specialize (IH _ _ _ _ _ H1 H2). simpl. lia.
    + inversion E2; subst. apply in_enumerate in H1. destruct H1 as [H1 _].
      contradiction.
Qed.

Lemma NoDup_get_terminals t : NoDup (get_terminals t).
Proof.
  apply (NoDup_map_inv fst). unfold get_terminals.
  apply NoDup_map_filter. apply NoDup_positions.
Qed.

Lemma leaf_rank_reverse t p c :
  well_named t -> get_node t p = Some c -> is_terminal c = true ->
  (leaf_rank t false (str_name c) + leaf_rank t true (str_name c)
   == inject_Z (Z.of_nat (count_terminals t + 1)))%Q.
Proof.
  intros Hw Hg Ht.
  destruct (leaf_enumerated t false p c Hg Ht) as [k Hk].
  destruct (leaf_enumerated t true p c Hg Ht) as [k' Hk'].
  rewrite (leaf_rank_enumerated t false k p c Hw Hk).
  rewrite (leaf_rank_enumerated t true k' p c Hw Hk').
  unfold leaf_nodes in Hk, Hk'.
  assert (Hnd : NoDup (rev (get_terminals t))).
  { apply NoDup_rev. apply NoDup_get_terminals. }
  pose proof (enumerate_rev _ Hnd _ _ _ _ _ Hk Hk') as E.
  rewrite length_rev in E. fold (count_terminals t) in E.
  rewrite <- inject_Z_plus, <- Nat2Z.inj_add. apply inject_Z_injective.
  apply f_equal. lia.
Qed.

Lemma Qsum_map_plus {A : Type} (f g : A -> Q) (K : Q) (l : list A) :
  (forall x, In x l -> (f x + g x == K)%Q) ->
  (Qsum (map f l) + Qsum (map g l) == inject_Z (Z.of_nat (List.length l)) * K)%Q.
Proof.
  induction l as [|x l IH]; intros H.
  - change (inject_Z (Z.of_nat (List.length (@nil A)))) with 0%Q. simpl. ring.
  - rewrite inject_length_cons. simpl map. simpl Qsum.
    pose proof (H x (or_introl eq_refl)) as Hx.
    assert (Hl : (Qsum (map f l) + Qsum (map g l)
                  == inject_Z (Z.of_nat (List.length l)) * K)%Q)
      by (apply IH; intros y Hy; apply H; right; exact Hy).
    lra.
Qed.

Lemma node_y_mirror (ly ly' : string -> Q) (K : Q) (c : Clade) :
  (forall p node, get_node c p = Some node -> is_terminal node = true ->
     (ly (str_name node) + ly' (str_name node) == K)%Q) ->
  (node_y ly c + node_y ly' c == K)%Q.
Proof.
  induction c as [n b k cs IH] using Clade_rect'. intros H.
  destruct cs as [|ch cs].
  - apply (H [] (Node n b k [])); reflexivity.
  - rewrite !node_y_internal by reflexivity.
    change (clades (Node n b k (ch :: cs))) with (ch :: cs).
    set (l := ch :: cs) in *.
    assert (Hpos : (0 < inject_Z (Z.of_nat (List.length l)))%Q)
      by (apply inject_length_pos; discriminate).
    assert (Hsum : (Qsum (map (node_y ly) l) + Qsum (map (node_y ly') l)
                    == inject_Z (Z.of_nat (List.length l)) * K)%Q).
    { apply Qsum_map_plus. intros c0 Hc0. rewrite Forall_forall in IH.
      apply (IH c0 Hc0). intros p node Hg Ht.
      apply In_nth_error in Hc0. destruct Hc0 as [i Hi].
      apply (H (i :: p) node); auto. simpl. fold l. rewrite Hi. exact Hg. }
    rewrite !py_sum_Qsum.
    setoid_replace (Qsum (map (node_y ly) l) / inject_Z (Z.of_nat (List.length l))
                    + Qsum (map (node_y ly') l) / inject_Z (Z.of_nat (List.length l)))%Q
      with ((Qsum (map (node_y ly) l) + Qsum (map (node_y ly') l))
            / inject_Z (Z.of_nat (List.length l)))%Q.
    + rewrite Hsum. field. intros E. rewrite E in Hpos. apply (Qlt_irrefl 0). exact Hpos.
    + field. intros E. rewrite E in Hpos. apply (Qlt_irrefl 0). exact Hpos.
Qed.

(** X14. Setting [reverse] mirrors the layout of a well-named tree with N
    leaves: every clade keeps its x-coordinate; the two y-coordinates of a
    leaf add up to N + 1, and those of any clade add up to N + 1 within the
    relative tolerance [1e-9]. *)
Theorem calc_name2xy_pos_reverse_mirrors (t : Clade) (pos : string)
    (p : list nat) (c : Clade) :
  well_named t -> valid_pos pos = true -> get_node t p = Some c ->
  exists d d' x y y',
    _calc_name2xy_pos t false pos = Ok d /\
    _calc_name2xy_pos t true pos = Ok d' /\
    dict_get d (str_name c) = Some (x, y) /\
    dict_get d' (str_name c) = Some (x, y') /\
    (is_terminal c = true ->
     (y + y' == inject_Z (Z.of_nat (count_terminals t + 1)))%Q) /\
    (Qabs (y + y' - inject_Z (Z.of_nat (count_terminals t + 1)))
     <= depth_tolerance * inject_Z (Z.of_nat (count_terminals t + 1)))%Q.
Proof.
  intros Hw Hpos Hg.
  destruct (calc_name2xy_pos_full t false pos Hw Hpos) as (d & Hrun & Hget & _).
  destruct (calc_name2xy_pos_full t true pos Hw Hpos) as (d' & Hrun' & Hget' & _).
  exists d, d', (layout_x t pos p), (node_y (leaf_rank t false) c),
    (node_y (leaf_rank t true) c).
  split; [exact Hrun|]. split; [exact Hrun'|].
  split; [apply Hget; exact Hg|]. split; [apply Hget'; exact Hg|].
  assert (E : (node_y (leaf_rank t false) c + node_y (leaf_rank t true) c
               == inject_Z (Z.of_nat (count_terminals t + 1)))%Q).
  { apply node_y_mirror. intros q node Hq Ht.
    apply (leaf_rank_reverse t (p ++ q) node Hw); auto.
    rewrite get_node_app, Hg. exact Hq. }
  split; [intros _; exact E|].
  setoid_replace (node_y (leaf_rank t false) c + node_y (leaf_rank t true) c
                  - inject_Z (Z.of_nat (count_terminals t + 1)))%Q
    with 0%Q by (rewrite E; ring).
  change (Qabs 0) with 0%Q. apply Qmult_le_0_compat.
  - unfold depth_tolerance, Qle. simpl. lia.
  - change 0%Q with (inject_Z 0). rewrite <- Zle_Qle. lia.
Qed.

Lemma calc_name2xy_pos_reverse_mirrors_witness :
  exists d d' x y y',
    _calc_name2xy_pos tree_abc false "right" = Ok d /\
    _calc_name2xy_pos tree_abc true "right" = Ok d' /\
    dict_get d "N" = Some (x, y) /\
    dict_get d' "N" = Some (x, y') /\
    (is_terminal (Node (Some "N") (Some 1%Q) None [bleaf "B" 2; bleaf "C" 3]) = true ->
     (y + y' == inject_Z (Z.of_nat (count_terminals tree_abc + 1)))%Q) /\
    (Qabs (y + y' - inject_Z (Z.of_nat (count_terminals tree_abc + 1)))
     <= depth_tolerance * inject_Z (Z.of_nat (count_terminals tree_abc + 1)))%Q.
Proof.
  apply (calc_name2xy_pos_reverse_mirrors tree_abc "right" [1]
           (Node (Some "N") (Some 1%Q) None [bleaf "B" 2; bleaf "C" 3])).
  - split; vm_compute; reflexivity.
  - reflexivity.
  - reflexivity.
Defined.

(** ** The x-coordinates stay inside [xlim] *)

Lemma bl_or0_cons t i c0 q :
  nth_error (clades t) i = Some c0 -> bl_or0 t (i :: q) = bl_or0 c0 q.
Proof.
  intros H. unfold bl_or0, branch_length_at. simpl. rewrite H. reflexivity.
Qed.

Lemma depth_at_cons t i p c0 :
  nth_error (clades t) i = Some c0 ->
  (depth_at t (i :: p) == or0 (branch_length c0) + depth_at c0 p)%Q.
Proof.
  intros H. rewrite !depth_at_Qsum. simpl path_to. simpl map. simpl Qsum.
  rewrite map_map.
  rewrite (Qsum_ext (fun q => bl_or0 t (i :: q)) (bl_or0 c0)).
  - unfold bl_or0 at 1, branch_length_at. simpl. rewrite H. reflexivity.
  - intros q _. rewrite (bl_or0_cons t i c0 q H). reflexivity.
Qed.

Lemma depth_at_root t : depth_at t [] = 0%Q.
Proof. reflexivity. Qed.

(** Without unit branch lengths the depth of a clade is its cumulative
    branch length, counted from the root's own branch length. *)
Lemma update_depths_false (p : pos) :
  forall t curr c d,
    In (p, c, d) (update_depths false t curr) ->
    (d == curr + depth_at t p)%Q.
Proof.
  induction p as [|i p IH]; intros t curr c d; rewrite update_depths_unfold; simpl In.
  - intros [E | H].
    + inversion E; subst. rewrite depth_at_root. ring.
    + apply in_walk_depths in H. destruct H as (j & c0 & p' & _ & E & _). discriminate.
  - intros [E | H]; [discriminate|].
    apply in_walk_depths in H. destruct H as (j & c0 & p' & Hn & E & Hin).
    inversion E; subst. apply IH in Hin. rewrite Hin.
    rewrite (depth_at_cons t j p' c0 Hn). unfold depth_of. ring.
Qed.

Lemma depths_entry u t p c :
  get_node t p = Some c -> exists d, In (p, c, d) (depths u t).
Proof.
  intros Hg. apply in_preorder in Hg. rewrite <- (depths_rows u t) in Hg.
  apply in_map_iff in Hg. destruct Hg as ([[p' c'] d] & E & Hin).
  simpl in E. inversion E; subst. eauto.
Qed.

Lemma depth_at_le_max t p c :
  get_node t p = Some c ->
  (or0 (branch_length t) + depth_at t p <= max_depth_of false t)%Q.
Proof.
  intros Hg. destruct (depths_entry false t p c Hg) as [d Hin].
  pose proof (update_depths_false p t _ c d Hin) as Hd. rewrite <- Hd.
  unfold max_depth_of. apply max_of_spec.
  - intros E. apply map_eq_nil in E. rewrite E in Hin. destruct Hin.
  - apply in_map_iff. exists (p, c, d). auto.
Qed.

Lemma Qsum_nonneg (l : list Q) : (forall y, In y l -> (0 <= y)%Q) -> (0 <= Qsum l)%Q.
Proof.
  induction l as [|y l IH]; intros H; simpl.
  - apply Qle_refl.
  - assert (0 <= y)%Q by (apply H; left; reflexivity).
    assert (0 <= Qsum l)%Q by (apply IH; intros z Hz; apply H; right; exact Hz).
    lra.
Qed.

Lemma depth_at_nonneg t p :
  (forall q c b, get_node t q = Some c -> branch_length c = Some b -> (0 <= b)%Q) ->
  (0 <= depth_at t p)%Q.
Proof.
  intros H. rewrite depth_at_Qsum. apply Qsum_nonneg.
  intros y Hy. apply in_map_iff in Hy. destruct Hy as (q & <- & _).
  unfold bl_or0, branch_length_at.
  destruct (get_node t q) as [c|] eqn:Hg; [|apply Qle_refl].
  destruct (branch_length c) as [b|] eqn:Hb; [|apply Qle_refl].
  simpl. eapply H; eauto.
Qed.

(** X15. When no branch length of a well-named tree is negative, every
    x-coordinate of its coordinate dictionaries lies between 0 and the
    maximal depth, the two ends of [xlim]. *)
Theorem calc_name2xy_pos_x_within_xlim (t : Clade) (reverse : bool) (pos : string) :
  well_named t -> valid_pos pos = true ->
  (forall q c b, get_node t q = Some c -> branch_length c = Some b -> (0 <= b)%Q) ->
  exists d,
    _calc_name2xy_pos t reverse pos = Ok d /\
    forall p c, get_node t p = Some c ->
      exists x y, dict_get d (str_name c) = Some (x, y) /\
                  (0 <= x <= max_depth_of false t)%Q.
Proof.
  intros Hw Hpos Hnn.
  destruct (calc_name2xy_pos_full t reverse pos Hw Hpos) as (d & Hrun & Hget & _).
  exists d. split; [exact Hrun|]. intros p c Hg.
  exists (layout_x t pos p), (node_y (leaf_rank t reverse) c).
  split; [apply Hget; exact Hg|].
  assert (Hroot : (0 <= or0 (branch_length t))%Q).
  { destruct (branch_length t) as [b|] eqn:Hb; [|apply Qle_refl].
    simpl. apply (Hnn [] t b); auto. }
  assert (Hb : forall q n, get_node t q = Some n ->
                 (0 <= depth_at t q <= max_depth_of false t)%Q).
  { intros q n Hq. pose proof (depth_at_le_max t q n Hq).
    pose proof (depth_at_nonneg t q Hnn). split; lra. }
  unfold layout_x. destruct p as [|i p]; [apply (Hb [] t); reflexivity|].
  destruct (get_node_parent t (i :: p) c Hg) as [pn Hpn]; [discriminate|].
  pose proof (Hb _ _ Hg) as [H1 H2]. pose proof (Hb _ _ Hpn) as [H3 H4].
  destruct (String.eqb pos "right"); [split; assumption|].
  destruct (String.eqb pos "center"); [|split; assumption].
  split.
  - apply Qle_shift_div_l; lra.
  - apply Qle_shift_div_r; lra.
Qed.

Lemma calc_name2xy_pos_x_within_xlim_witness :
  exists d,
    _calc_name2xy_pos tree_abc false "center" = Ok d /\
    forall p c, get_node tree_abc p = Some c ->
      exists x y, dict_get d (str_name c) = Some (x, y) /\
                  (0 <= x <= max_depth_of false tree_abc)%Q.
Proof.
  apply (calc_name2xy_pos_x_within_xlim tree_abc false "center").
  - split; vm_compute; reflexivity.
  - reflexivity.
  - intros q c b Hg Hb.
    assert (Hin : In (q, c) (preorder tree_abc)) by (apply in_preorder; exact Hg).
    vm_compute in Hin.
    repeat (destruct Hin as [E | Hin];
            [inversion E; subst; vm_compute in Hb; inversion Hb; subst;
             vm_compute; discriminate|]).
    destruct Hin.
Defined.

(** ** [_calc_name2rect]: the rectangle of a clade covers its subtree *)

Lemma map_result_map {A B C : Type} (f : B -> result C) (h : A -> B) (g : A -> C)
  (l : list A) :
  (forall x, In x l -> f (h x) = Ok (g x)) ->
  map_result f (map h l) = Ok (map g l).
Proof.
  induction l as [|x r IH]; simpl; intros H; [reflexivity|].
  rewrite (H x) by (left; reflexivity). cbn [bind].
  rewrite IH; [reflexivity|]. intros y Hy. apply H. right. exact Hy.
Qed.

Lemma parent_by_name_ok t p c :
  well_named t -> get_node t p = Some c ->
  exists pn, parent_by_name t p c = Ok pn /\ get_node t (removelast p) = Some pn.
Proof.
  intros Hw Hg. destruct p as [|i p].
  - exists c. split; [reflexivity | exact Hg].
  - destruct (get_node_parent t (i :: p) c Hg) as [pn Hpn]; [discriminate|].
    exists pn. split; [|exact Hpn]. unfold parent_by_name.
    destruct (well_named_name t _ c Hw Hg) as [Hn _]. rewrite Hn.
    rewrite (get_path_by_name_well_named t _ c Hw Hg). cbn [bind].
    rewrite second_to_last_path by discriminate. cbn [bind].
    rewrite Hpn. reflexivity.
Qed.

Lemma calc_rect_ok (tv : TreeViz) (name2xy : dict xy) (Y : Clade -> Q)
    (d : dict Rect) (p : list nat) (c : Clade) (xy0 : xy) :
  well_named (_tree tv) ->
  (forall q n, get_node (_tree tv) q = Some n ->
     dict_get name2xy (str_name n) = Some (depth_at (_tree tv) q, Y n)) ->
  get_node (_tree tv) p = Some c ->
  calc_rect tv name2xy d (str_name c, xy0)
  = Ok (dict_set d (str_name c)
          (mkRect
             ((fst xy0 + depth_at (_tree tv) (removelast p)) / 2)
             (min_of (map (fun qc => Y (snd qc)) (preorder c)) - (1 # 2))
             ((if _align_leaf_label tv then max_tree_depth tv
               else max_of (map (fun qc => depth_at (_tree tv) (p ++ fst qc))
                                (preorder c)))
              - (fst xy0 + depth_at (_tree tv) (removelast p)) / 2)
             ((max_of (map (fun qc => Y (snd qc)) (preorder c)) + (1 # 2))
              - (min_of (map (fun qc => Y (snd qc)) (preorder c)) - (1 # 2)))))%Q.
Proof.
  intros Hw Hxy Hg. unfold calc_rect.
  rewrite (find_clades_unique (_tree tv) p c Hw Hg). cbn [next bind fst snd].
  destruct (parent_by_name_ok (_tree tv) p c Hw Hg) as (pn & Hpar & Hpn).
  rewrite Hpar. cbn [bind].
  rewrite (map_result_map (dict_item name2xy) row_name
             (fun qc => (depth_at (_tree tv) (p ++ fst qc), Y (snd qc)))).
  2:{ intros [q n] Hin. apply in_preorder in Hin. unfold dict_item, row_name.
      simpl fst. simpl snd. rewrite (Hxy (p ++ q) n); [reflexivity|].
      rewrite get_node_app, Hg. exact Hin. }
  cbn [bind]. unfold dict_item at 1. rewrite (Hxy _ pn Hpn). cbn [bind fst snd].
  rewrite !map_map. cbn [fst snd].
  assert (Hne : forall (A : Type) (f : pos * Clade -> A), map f (preorder c) <> []).
  { intros A f E. apply map_eq_nil in E. apply (preorder_nonempty c). exact E. }
  rewrite (py_min_ok _ (Hne _ _)), !(py_max_ok _ (Hne _ _)).
  destruct (_align_leaf_label tv); reflexivity.
Qed.

Lemma calc_name2rect_full (tv : TreeViz) :
  well_named (_tree tv) ->
  exists name2xy,
    name2xy_right tv = Ok name2xy /\
    (forall q n, get_node (_tree tv) q = Some n ->
       dict_get name2xy (str_name n)
       = Some (depth_at (_tree tv) q,
               node_y (leaf_rank (_tree tv) (_reverse tv)) n)) /\
    _calc_name2rect tv
    = Ok (map (fun it => (fst it, rect_of tv name2xy it)) name2xy) /\
    (forall p c xy0, get_node (_tree tv) p = Some c ->
       calc_rect tv name2xy [] (str_name c, xy0)
       = Ok [(str_name c, rect_of tv name2xy (str_name c, xy0))]) /\
    (forall p c, get_node (_tree tv) p = Some c ->
       dict_get (map (fun it => (fst it, rect_of tv name2xy it)) name2xy) (str_name c)
       = Some (rect_of tv name2xy
                 (str_name c,
                  (depth_at (_tree tv) p,
                   node_y (leaf_rank (_tree tv) (_reverse tv)) c)))).
Proof.
  intros Hw.
  destruct (calc_name2xy_pos_full (_tree tv) (_reverse tv) "right" Hw eq_refl)
    as (n2xy & Hrun & Hget & Hk & Hnd).
  assert (Hxy : forall q n, get_node (_tree tv) q = Some n ->
            dict_get n2xy (str_name n)
            = Some (depth_at (_tree tv) q,
                    node_y (leaf_rank (_tree tv) (_reverse tv)) n)).
  { intros q n Hq. rewrite (Hget q n Hq). destruct q; reflexivity. }
  assert (Hrect : forall p c xy0 d, get_node (_tree tv) p = Some c ->
            calc_rect tv n2xy d (str_name c, xy0)
            = Ok (dict_set d (str_name c) (rect_of tv n2xy (str_name c, xy0)))).
  { intros p c xy0 d Hg. unfold rect_of.
    rewrite (calc_rect_ok tv n2xy _ [] p c xy0 Hw Hxy Hg). cbn [dict_set].
    apply (calc_rect_ok tv n2xy _ d p c xy0 Hw Hxy Hg). }
  exists n2xy. split; [exact Hrun|]. split; [exact Hxy|].
  assert (Hloop : _calc_name2rect tv
                  = Ok (map (fun it => (fst it, rect_of tv n2xy it)) n2xy)).
  { unfold _calc_name2rect, name2xy, name2xy_right. rewrite Hrun. cbn [bind].
    apply (for_each_dict_set (calc_rect tv n2xy) fst (rect_of tv n2xy) n2xy).
    - intros d [k v] Hin. assert (Hkey : In k (keys n2xy)).
      { apply (in_map fst) in Hin. exact Hin. }
      apply Hk, in_all_node_labels in Hkey. destruct Hkey as (p & c & Hg & <-).
      apply (Hrect p c v d Hg).
    - exact Hnd. }
  split; [exact Hloop|]. split.
  - intros p c xy0 Hg. apply (Hrect p c xy0 [] Hg).
  - intros p c Hg. apply in_dict_get.
    + unfold keys. rewrite map_map. exact Hnd.
    + apply in_map_iff.
      exists (str_name c, (depth_at (_tree tv) p,
                           node_y (leaf_rank (_tree tv) (_reverse tv)) c)).
      split; [reflexivity|]. apply dict_get_in. apply Hxy. exact Hg.
Qed.



(** ** Rendering the tree: lines and labels *)

Lemma for_each_fold {A S : Type} (body : S -> A -> result S) (step : S -> A -> S)
  (l : list A) :
  (forall s x, In x l -> body s x = Ok (step s x)) ->
  forall s, for_each body l s = Ok (fold_left step l s).
Proof.
  induction l as [|x r IH]; simpl; intros H s; [reflexivity|].
  rewrite (H s x) by (left; reflexivity). cbn [bind].
  apply IH. intros s' y Hy. apply H. right. exact Hy.
Qed.

Lemma fold_add_artist (l : list artist) :
  forall a,
    ax_artists (fold_left add_artist l a) = ax_artists a ++ l /\
    ax_texts (fold_left add_artist l a) = ax_texts a /\
    ax_id (fold_left add_artist l a) = ax_id a /\
    ax_xlim (fold_left add_artist l a) = ax_xlim a /\
    ax_ylim (fold_left add_artist l a) = ax_ylim a.
Proof.
  induction l as [|x l IH]; intros a; simpl.
  - rewrite app_nil_r. auto.
  - destruct (IH (add_artist a x)) as (H1 & H2 & H3 & H4 & H5).
    rewrite H1, H2, H3, H4, H5. simpl. rewrite <- app_assoc. auto.
Qed.

Lemma fold_add_artist_flat_map {A : Type} (f : A -> list artist) (l : list A) :
  forall a,
    fold_left (fun a x => fold_left add_artist (f x) a) l a
    = fold_left add_artist (flat_map f l) a.
Proof.
  induction l as [|x l IH]; intros a; simpl; [reflexivity|].
  rewrite fold_left_app. apply IH.
Qed.

Lemma fold_labels (tv : TreeViz) (d : dict xy) (l : list Clade) :
  forall a,
    let a' := fold_left (fun a node => if label_shown tv node
                                       then add_text a (label_text tv d node)
                                       else a) l a in
    ax_texts a' = ax_texts a ++ map (label_text tv d) (filter (label_shown tv) l) /\
    ax_artists a' = ax_artists a /\ ax_id a' = ax_id a /\
    ax_xlim a' = ax_xlim a /\ ax_ylim a' = ax_ylim a.
Proof.
  induction l as [|x l IH]; intros a; simpl.
  - rewrite app_nil_r. auto.
  - destruct (label_shown tv x).
    + destruct (IH (add_text a (label_text tv d x))) as (H1 & H2 & H3 & H4 & H5).
      rewrite H1, H2, H3, H4, H5. simpl. rewrite <- app_assoc. auto.
    + apply IH.
Qed.

Lemma plot_one_label_ok tv d a node v :
  name2xy tv = Ok d -> dict_get d (str_name node) = Some v ->
  plot_one_label tv a node
  = Ok (if label_shown tv node then add_text a (label_text tv d node) else a).
Proof.
  intros Hd Hv. unfold plot_one_label. rewrite Hd. cbn [bind].
  unfold dict_item. rewrite Hv. cbn [bind].
  unfold label_shown, label_text, get_or. rewrite Hv.
  destruct (Qle_bool (if is_terminal node then _leaf_label_size tv
                      else _innode_label_size tv) 0); simpl; [reflexivity|].
  destruct (negb (_show_auto_innode_label tv)
            && match name node with
               | Some s => mem_string s (_auto_innode_labels tv)
               | None => false
               end); reflexivity.
Qed.

Lemma plot_child_line_ok tv d pxy a ch v :
  name2xy tv = Ok d -> dict_get d (str_name ch) = Some v ->
  plot_child_line tv pxy a ch = Ok (fold_left add_artist (child_lines tv d pxy ch) a).
Proof.
  intros Hd Hv. unfold plot_child_line. rewrite Hd. cbn [bind].
  unfold dict_item. rewrite Hv. cbn [bind].
  unfold child_lines, get_or. rewrite Hv.
  destruct (is_terminal ch && _align_leaf_label tv); reflexivity.
Qed.

Section DrawTree.
Variable tv : TreeViz.
Variable d : dict xy.
Hypothesis Hd : name2xy tv = Ok d.
Hypothesis Hget : forall p c, get_node (_tree tv) p = Some c ->
    exists v, dict_get d (str_name c) = Some v.

Lemma plot_tree_node_line_ok a :
  _plot_tree_node_line tv a
  = Ok (fold_left add_artist
          (flat_map (node_lines tv d) (map snd (get_nonterminals (_tree tv)))) a).
Proof.
  unfold _plot_tree_node_line. rewrite <- fold_add_artist_flat_map.
  apply for_each_fold. intros s node Hin.
  apply in_map_iff in Hin. destruct Hin as ([p n] & E & Hin). simpl in E. subst n.
  apply in_get_nonterminals in Hin. destruct Hin as [Hg _].
  rewrite Hd. cbn [bind]. destruct (Hget p node Hg) as [v Hv].
  unfold dict_item. rewrite Hv. cbn [bind].
  unfold node_lines, get_or. rewrite Hv. rewrite <- fold_add_artist_flat_map.
  apply for_each_fold. intros s' ch Hch. apply In_nth_error in Hch.
  destruct Hch as [i Hi]. destruct (Hget (p ++ [i]) ch) as [w Hw'].
  { rewrite get_node_app, Hg. simpl. rewrite Hi. reflexivity. }
  apply (plot_child_line_ok tv d v s' ch w Hd Hw').
Qed.

Lemma plot_node_label_ok a :
  _plot_node_label tv a
  = Ok (fold_left (fun a node => if label_shown tv node
                                 then add_text a (label_text tv d node)
                                 else a)
                  (map snd (preorder (_tree tv))) a).
Proof.
  unfold _plot_node_label. apply for_each_fold. intros s node Hin.
  apply in_map_iff in Hin. destruct Hin as ([p n] & E & Hin). simpl in E. subst n.
  apply in_preorder in Hin. destruct (Hget p node Hin) as [v Hv].
  apply (plot_one_label_ok tv d s node v Hd Hv).
Qed.
End DrawTree.

Lemma fold_patches (l : list Rect) :
  forall a,
    let a' := fold_left (fun a patch => add_artist a (Patch patch)) l a in
    ax_artists a' = ax_artists a ++ map Patch l /\
    ax_texts a' = ax_texts a /\ ax_id a' = ax_id a /\
    ax_xlim a' = ax_xlim a /\ ax_ylim a' = ax_ylim a.
Proof.
  induction l as [|x l IH]; intros a; simpl.
  - rewrite app_nil_r. auto.
  - destruct (IH (add_artist a (Patch x))) as (H1 & H2 & H3 & H4 & H5).
    rewrite H1, H2, H3, H4, H5. simpl. rewrite <- app_assoc. auto.
Qed.

Lemma plotfig_basic (text_extent : Text -> (Q * Q) * (Q * Q))
    (tv : TreeViz) (dpi : nat) (given : option Axes) (fresh : nat) :
  well_named (_tree tv) -> _plot_funcs tv = [] ->
  exists d tv' fig a,
    name2xy tv = Ok d /\
    plotfig text_extent tv dpi given fresh = Ok (tv', fig, a) /\
    ax_xlim a = xlim tv /\ ax_ylim a = ylim tv /\
    ax_texts a
    = match given with Some g => ax_texts g | None => [] end
      ++ map (label_text tv d)
             (filter (label_shown tv) (map snd (preorder (_tree tv)))) /\
    ax_artists a
    = (match given with Some g => ax_artists g | None => [] end
       ++ flat_map (node_lines tv d) (map snd (get_nonterminals (_tree tv))))
      ++ map Patch (_plot_patches tv).
Proof.
  intros Hw Hfuncs.
  destruct (calc_name2xy_pos_full (_tree tv) (_reverse tv) "right" Hw eq_refl)
    as (d & Hrun & Hget & _).
  exists d. unfold plotfig.
  set (a0 := match given with
             | Some a => _init_axes tv a
             | None => _init_axes tv (_init_figure fresh)
             end).
  set (tv1 := with_ax tv (ax_id a0)).
  assert (Hget1 : forall p c, get_node (_tree tv1) p = Some c ->
                    exists v, dict_get d (str_name c) = Some v).
  { intros p c Hg. eexists. apply Hget. exact Hg. }
  rewrite (plot_tree_node_line_ok tv1 d Hrun Hget1). cbn [bind].
  rewrite (plot_node_label_ok tv1 d Hrun Hget1). cbn [bind].
  change (_plot_funcs tv1) with (_plot_funcs tv). rewrite Hfuncs. cbn [for_each bind].
  do 3 eexists. split; [exact Hrun|]. split; [reflexivity|].
  match goal with
  | |- context [fold_left (fun a patch => add_artist a (Patch patch)) ?l ?s] =>
      destruct (fold_patches l s) as (P1 & P2 & P3 & P4 & P5)
  end.
  match goal with
  | |- context [fold_left (fun a node => if label_shown tv1 node then _ else a) ?l ?s] =>
      destruct (fold_labels tv1 d l s) as (L1 & L2 & L3 & L4 & L5)
  end.
  match goal with
  | |- context [fold_left add_artist ?l a0] =>
      destruct (fold_add_artist l a0) as (A1 & A2 & A3 & A4 & A5)
  end.
  cbv zeta in P1, P2, P4, P5, L1, L2, L4, L5.
  rewrite P4, P5, P2, P1, L4, L5, L1, L2, A4, A5, A2, A1.
  assert (E0 : ax_xlim a0 = xlim tv /\ ax_ylim a0 = ylim tv /\
               ax_texts a0 = match given with Some g => ax_texts g | None => [] end /\
               ax_artists a0 = match given with Some g => ax_artists g | None => [] end).
  { unfold a0. destruct given; simpl; auto. }
  destruct E0 as (E1 & E2 & E3 & E4). rewrite E1, E2, E3, E4.
  repeat split; reflexivity.
Qed.

(** X17. On a well-named tree without registered plot functions
    [plotfig] always returns. The axes get [xlim] and [ylim]; what is
    added to them is, in this order: the lines of every internal clade to
    each of its children (in the order of [get_nonterminals]), the patches,
    and one text per clade whose label is shown, in preorder. *)
Theorem plotfig_draws_tree (text_extent : Text -> (Q * Q) * (Q * Q))
    (tv : TreeViz) (dpi : nat) (given : option Axes) (fresh : nat) :
  well_named (_tree tv) -> _plot_funcs tv = [] ->
  exists d tv' fig a,
    name2xy tv = Ok d /\
    plotfig text_extent tv dpi given fresh = Ok (tv', fig, a) /\
    ax_xlim a = xlim tv /\ ax_ylim a = ylim tv /\
    ax_texts a
    = match given with Some g => ax_texts g | None => [] end
      ++ map (label_text tv d)
             (filter (label_shown tv) (map snd (preorder (_tree tv)))) /\
    ax_artists a
    = (match given with Some g => ax_artists g | None => [] end
       ++ flat_map (node_lines tv d) (map snd (get_nonterminals (_tree tv))))
      ++ map Patch (_plot_patches tv).
Proof. apply plotfig_basic. Qed.

Lemma plotfig_draws_tree_witness :
  exists tv,
    default_init tree_abc = Ok tv /\
    exists d tv' fig a,
      name2xy tv = Ok d /\
      plotfig point_extent tv 100 None 7 = Ok (tv', fig, a) /\
      ax_xlim a = xlim tv /\ ax_ylim a = ylim tv /\
      ax_texts a
      = [] ++ map (label_text tv d)
                  (filter (label_shown tv) (map snd (preorder (_tree tv)))) /\
      ax_artists a
      = ([] ++ flat_map (node_lines tv d) (map snd (get_nonterminals (_tree tv))))
        ++ map Patch (_plot_patches tv).
Proof.
  eexists. split; [vm_compute; reflexivity|].
  apply (plotfig_draws_tree point_extent _ 100 None 7).
  - split; vm_compute; reflexivity.
  - reflexivity.
Defined.

(** X18. Every branch is drawn as an elbow: for a clade other than the
    root, [plotfig] draws the vertical segment at the x-coordinate of the
    parent, from the parent's y-coordinate to the clade's, and the
    horizontal segment at the clade's y-coordinate, from the parent's
    x-coordinate to the clade's; for a leaf with aligned labels also the
    segment from the leaf to the maximal depth. *)
Theorem plotfig_draws_elbows (text_extent : Text -> (Q * Q) * (Q * Q))
    (tv : TreeViz) (dpi : nat) (given : option Axes) (fresh : nat)
    (p : list nat) (c : Clade) :
  well_named (_tree tv) -> _plot_funcs tv = [] ->
  get_node (_tree tv) p = Some c -> p <> [] ->
  exists d tv' fig a pn xp yp xc yc,
    name2xy tv = Ok d /\
    plotfig text_extent tv dpi given fresh = Ok (tv', fig, a) /\
    get_node (_tree tv) (removelast p) = Some pn /\
    dict_get d (str_name pn) = Some (xp, yp) /\
    dict_get d (str_name c) = Some (xc, yc) /\
    In (Line (xp, xp) (yp, yc)) (ax_artists a) /\
    In (Line (xp, xc) (yc, yc)) (ax_artists a) /\
    (is_terminal c = true -> _align_leaf_label tv = true ->
     In (Line (xc, max_tree_depth tv) (yc, yc)) (ax_artists a)).
Proof.
  intros Hw Hfuncs Hg Hp.
  destruct (plotfig_basic text_extent tv dpi given fresh Hw Hfuncs)
    as (d & tv' & fig & a & Hd & Hrun & _ & _ & _ & Hart).
  destruct (calc_name2xy_pos_full (_tree tv) (_reverse tv) "right" Hw eq_refl)
    as (d' & Hd' & Hget & _).
  assert (d' = d) by (unfold name2xy, name2xy_right in Hd; congruence). subst d'.
  destruct (get_node_parent _ p c Hg Hp) as [pn Hpn].
  destruct (removelast_prefix p Hp) as [i Hi].
  assert (Hchild : nth_error (clades pn) i = Some c).
  { rewrite Hi, get_node_app, Hpn in Hg. simpl in Hg.
    destruct (nth_error (clades pn) i); congruence. }
  assert (Hint : is_terminal pn = false).
  { unfold is_terminal. destruct (clades pn); [destruct i; discriminate | reflexivity]. }
  pose proof (Hget _ _ Hpn) as Hvp. pose proof (Hget _ _ Hg) as Hvc.
  exists d, tv', fig, a, pn.
  eexists. eexists. eexists. eexists.
  split; [exact Hd|]. split; [exact Hrun|]. split; [exact Hpn|].
  split; [exact Hvp|]. split; [exact Hvc|].
  assert (Hlines : forall l, In l (child_lines tv d (get_or d (str_name pn)) c) ->
                             In l (ax_artists a)).
  { intros l Hl. rewrite Hart. apply in_or_app. left. apply in_or_app. right.
    apply in_flat_map. exists pn. split.
    - apply in_map_iff. exists (removelast p, pn). split; [reflexivity|].
      apply in_get_nonterminals. auto.
    - unfold node_lines. apply in_flat_map. exists c. split; [|exact Hl].
      eapply nth_error_In. exact Hchild. }
  unfold child_lines, get_or in Hlines. rewrite Hvp, Hvc in Hlines. cbn [fst snd] in Hlines.
  split; [apply Hlines; left; reflexivity|].
  split; [apply Hlines; right; left; reflexivity|].
  intros Ht Ha. apply Hlines. rewrite Ht, Ha. right. right. left. reflexivity.
Qed.

Lemma plotfig_draws_elbows_witness :
  exists tv,
    default_init tree_abc = Ok tv /\
    exists d tv' fig a pn xp yp xc yc,
      name2xy tv = Ok d /\
      plotfig point_extent tv 100 None 7 = Ok (tv', fig, a) /\
      get_node (_tree tv) (removelast [1; 0]) = Some pn /\
      dict_get d (str_name pn) = Some (xp, yp) /\
      dict_get d (str_name (bleaf "B" 2)) = Some (xc, yc) /\
      In (Line (xp, xp) (yp, yc)) (ax_artists a) /\
      In (Line (xp, xc) (yc, yc)) (ax_artists a) /\
      (is_terminal (bleaf "B" 2) = true -> _align_leaf_label tv = true ->
       In (Line (xc, max_tree_depth tv) (yc, yc)) (ax_artists a)).
Proof.
  eexists. split; [vm_compute; reflexivity|].
  apply (plotfig_draws_elbows point_extent _ 100 None 7 [1; 0] (bleaf "B" 2)).
  - split; vm_compute; reflexivity.
  - reflexivity.
  - reflexivity.
  - discriminate.
Defined.

Lemma filter_map_swap {A B : Type} (f : A -> B) (g : B -> bool) (l : list A) :
  filter g (map f l) = map f (filter (fun x => g (f x)) l).
Proof.
  induction l as [|x l IH]; simpl; [reflexivity|].
  rewrite IH. destruct (g (f x)); reflexivity.
Qed.

(** X19. The labels [plotfig] draws on a well-named tree without
    registered plot functions: a text is added for exactly the clades whose
    label is shown, at the clade's y-coordinate; when
    [show_auto_innode_label] is off none of the added texts is an automatic
    name; with a positive leaf label size and no internal label size the
    added texts are the leaf labels, in the order of [leaf_labels]. *)
Theorem plotfig_draws_labels (text_extent : Text -> (Q * Q) * (Q * Q))
    (tv : TreeViz) (dpi : nat) (given : option Axes) (fresh : nat) :
  well_named (_tree tv) -> _plot_funcs tv = [] ->
  exists d tv' fig a added,
    name2xy tv = Ok d /\
    plotfig text_extent tv dpi given fresh = Ok (tv', fig, a) /\
    ax_texts a = match given with Some g => ax_texts g | None => [] end ++ added /\
    (forall t, In t added <->
       exists p c x y, get_node (_tree tv) p = Some c /\ label_shown tv c = true /\
                       dict_get d (str_name c) = Some (x, y) /\
                       t = label_text tv d c /\
                       text_s t = str_name c /\ text_y t = y) /\
    (_show_auto_innode_label tv = false ->
     forall t, In t added -> ~ In (text_s t) (_auto_innode_labels tv)) /\
    (_show_auto_innode_label tv = true ->
     (0 < _leaf_label_size tv)%Q -> (_innode_label_size tv <= 0)%Q ->
     map text_s added = leaf_labels (_tree tv)).
Proof.
  intros Hw Hfuncs.
  destruct (plotfig_basic text_extent tv dpi given fresh Hw Hfuncs)
    as (d & tv' & fig & a & Hd & Hrun & _ & _ & Htexts & _).
  destruct (calc_name2xy_pos_full (_tree tv) (_reverse tv) "right" Hw eq_refl)
    as (d' & Hd' & Hget & _).
  assert (d' = d) by (unfold name2xy, name2xy_right in Hd; congruence). subst d'.
  exists d, tv', fig, a,
    (map (label_text tv d) (filter (label_shown tv) (map snd (preorder (_tree tv))))).
  split; [exact Hd|]. split; [exact Hrun|]. split; [exact Htexts|].
  assert (Htext : forall p c, get_node (_tree tv) p = Some c ->
            text_s (label_text tv d c) = str_name c /\
            text_y (label_text tv d c)
            = node_y (leaf_rank (_tree tv) (_reverse tv)) c).
  { intros p c Hg. destruct (well_named_name _ p c Hw Hg) as [Hn _].
    unfold label_text, get_or. rewrite (Hget p c Hg), Hn. simpl. auto. }
  assert (Hin : forall t,
            In t (map (label_text tv d)
                      (filter (label_shown tv) (map snd (preorder (_tree tv))))) <->
            exists p c, get_node (_tree tv) p = Some c /\ label_shown tv c = true /\
                        t = label_text tv d c).
  { intros t. rewrite in_map_iff. split.
    - intros (c & <- & Hc). apply filter_In in Hc. destruct Hc as [Hc Hs].
      apply in_map_iff in Hc. destruct Hc as ([p c'] & E & Hc). simpl in E. subst c'.
      apply in_preorder in Hc. eauto.
    - intros (p & c & Hg & Hs & ->). exists c. split; [reflexivity|].
      apply filter_In. split; [|exact Hs]. apply in_map_iff. exists (p, c).
      split; [reflexivity|]. apply in_preorder. exact Hg. }
  split; [|split].
  - intros t. rewrite Hin. split.
    + intros (p & c & Hg & Hs & ->). destruct (Htext p c Hg) as [H1 H2].
      exists p, c. eexists. eexists. split; [exact Hg|]. split; [exact Hs|].
      split; [apply Hget; exact Hg|]. auto.
    + intros (p & c & x & y & Hg & Hs & _ & -> & _). eauto.
  - intros Hshow t Ht. apply Hin in Ht. destruct Ht as (p & c & Hg & Hs & ->).
    destruct (Htext p c Hg) as [-> _].
    destruct (well_named_name _ p c Hw Hg) as [Hn _].
    unfold label_shown in Hs. rewrite Hshow, Hn in Hs. simpl in Hs.
    apply andb_true_iff in Hs. destruct Hs as [_ Hs].
    intros Hmem. apply mem_string_In in Hmem. rewrite Hmem in Hs. discriminate.
  - intros Hshow Hleaf Hinner.
    assert (Hsame : forall c, label_shown tv c = is_terminal c).
    { intros c. unfold label_shown. rewrite Hshow. simpl. rewrite andb_true_r.
      destruct (is_terminal c).
      - destruct (Qle_bool (_leaf_label_size tv) 0) eqn:E; [|reflexivity].
        apply Qle_bool_iff in E. lra.
      - apply Qle_bool_iff in Hinner. rewrite Hinner. reflexivity. }
    rewrite (filter_ext _ _ Hsame), filter_map_swap, !map_map.
    unfold leaf_labels, get_terminals. apply map_ext_in.
    intros [p c] Hc. apply filter_In in Hc. destruct Hc as [Hc _].
    apply in_preorder in Hc. apply (Htext p c Hc).
Qed.

Lemma plotfig_draws_labels_witness :
  exists tv,
    default_init tree_abc = Ok tv /\
    exists d tv' fig a added,
      name2xy tv = Ok d /\
      plotfig point_extent tv 100 None 7 = Ok (tv', fig, a) /\
      ax_texts a = [] ++ added /\
      (forall t, In t added <->
         exists p c x y, get_node (_tree tv) p = Some c /\ label_shown tv c = true /\
                         dict_get d (str_name c) = Some (x, y) /\
                         t = label_text tv d c /\
                         text_s t = str_name c /\ text_y t = y) /\
      (_show_auto_innode_label tv = false ->
       forall t, In t added -> ~ In (text_s t) (_auto_innode_labels tv)) /\
      (_show_auto_innode_label tv = true ->
       (0 < _leaf_label_size tv)%Q -> (_innode_label_size tv <= 0)%Q ->
       map text_s added = leaf_labels (_tree tv)).
Proof.
  eexists. split; [vm_compute; reflexivity|].
  apply (plotfig_draws_labels point_extent _ 100 None 7).
  - split; vm_compute; reflexivity.
  - reflexivity.
Defined.

(** ** Registration succeeds on valid queries *)

Lemma search_target_node_name_resolves t q :
  well_named t -> query_names q <> [] ->
  (forall s, In s (query_names q) -> In s (all_node_labels t)) ->
  exists p c, _search_target_node_name t q = Ok (Some (str_name c)) /\
              get_node t p = Some c.
Proof.
  intros Hw Hne Hex. unfold _search_target_node_name.
  rewrite (check_node_name_exist_ok t q Hex). cbn [bind].
  destruct q as [s | names].
  - destruct (proj1 (in_all_node_labels t s) (Hex s (or_introl eq_refl)))
      as (p & c & Hg & <-). eauto.
  - simpl in Hne, Hex. destruct names as [|s others]; [congruence|].
    rewrite (common_ancestor_lcp t s others Hw Hex). cbn [bind].
    set (r := lcp (pos_of_name t s) (map (pos_of_name t) others)).
    destruct (proj1 (in_all_node_labels t s) (Hex s (or_introl eq_refl)))
      as (ps & cs & Hgs & Es).
    assert (Hps : pos_of_name t s = ps).
    { rewrite <- Es. apply pos_of_name_spec; auto. }
    destruct (lcp_is_prefix (pos_of_name t s) (map (pos_of_name t) others))
      as [Hr1 _]. fold r in Hr1.
    assert (Hvalid : get_node t r <> None).
    { apply (is_prefix_valid t r (pos_of_name t s) Hr1). rewrite Hps, Hgs. discriminate. }
    destruct (get_node t r) as [c|] eqn:Hgr; [|congruence].
    destruct (well_named_name t r c Hw Hgr) as [Hn _]. rewrite Hn. eauto.
Qed.

Lemma run_call_options_valid mpl tv c tv' :
  run_call mpl tv c = Ok tv' -> call_options_valid mpl c = true.
Proof.
  destruct c; cbn [run_call call_options_valid]; intros H; try reflexivity.
  - unfold highlight, rect_set_color, rect_set_alpha in H.
    destruct (in_strings area ["branch"; "branch-label"; "full"]);
      [|discriminate H]. cbn [negb] in H.
    destruct (_search_target_node_name (_tree tv) q); [|discriminate H].
    cbn [bind] in H. destruct (name2rect tv); [|discriminate H]. cbn [bind] in H.
    destruct (dict_item_opt a0 a); [|discriminate H]. cbn [bind] in H.
    destruct (is_color_like mpl color); [|discriminate H]. cbn [bind] in H.
    destruct (Qle_bool 0 alpha && Qle_bool alpha 1); [|discriminate H].
    cbn [bind] in H. destruct (rect_set mpl kwargs); [reflexivity | discriminate H].
  - unfold annotate in H.
    destruct (String.eqb text_orientation "horizontal"
              || String.eqb text_orientation "vertical"); [reflexivity | discriminate H].
  - unfold link, _get_target_pos_name2xy in H.
    destruct (_search_target_node_name (_tree tv) q1); [|discriminate H].
    cbn [bind] in H.
    destruct (_search_target_node_name (_tree tv) q2); [|discriminate H].
    cbn [bind] in H.
    destruct (valid_pos pos1); [|discriminate H]. cbn [negb] in H.
    destruct (_calc_name2xy_pos (_tree tv) (_reverse tv) pos1); [|discriminate H].
    cbn [bind] in H. destruct (dict_item_opt a1 a); [|discriminate H].
    cbn [bind] in H.
    destruct (valid_pos pos2); [reflexivity | discriminate H].
  - unfold text_on_branch in H.
    destruct (valid_pos xpos); [|discriminate H]. cbn [negb] in H.
    destruct (in_strings ypos ["top"; "center"; "bottom"]);
      [reflexivity | discriminate H].
Qed.

(** X20. On a well-named tree a registration call whose queries are
    non-empty and name only nodes of the tree returns normally exactly when
    its options pass the checks made at registration: those of the method
    itself and, for [highlight], those of the styling of its rectangle (a
    colour, an alpha value within [0, 1], keyword arguments the rectangle
    accepts). No lookup in the coordinate or rectangle dictionaries can
    fail. *)
Theorem registration_succeeds (mpl : Backend) (tv : TreeViz) (c : call) :
  well_named (_tree tv) ->
  (forall q, In q (call_queries c) ->
     query_names q <> [] /\
     forall s, In s (query_names q) -> In s (all_node_labels (_tree tv))) ->
  (exists tv', run_call mpl tv c = Ok tv') <-> call_options_valid mpl c = true.
Proof.
  intros Hw Hq. split.
  { intros [tv' H]. apply (run_call_options_valid mpl tv c tv' H). }
  intros Hopt.
  assert (Hres : forall q, In q (call_queries c) ->
            exists p cl, _search_target_node_name (_tree tv) q = Ok (Some (str_name cl)) /\
                         get_node (_tree tv) p = Some cl).
  { intros q Hin. destruct (Hq q Hin) as [Hne Hex].
    apply search_target_node_name_resolves; assumption. }
  assert (Hxy : forall pos, valid_pos pos = true ->
            exists d, _calc_name2xy_pos (_tree tv) (_reverse tv) pos = Ok d /\
                      forall p n, get_node (_tree tv) p = Some n ->
                                  exists v, dict_get d (str_name n) = Some v).
  { intros pos Hpos.
    destruct (calc_name2xy_pos_full (_tree tv) (_reverse tv) pos Hw Hpos)
      as (d & Hd & Hget & _).
    exists d. split; [exact Hd|]. intros p n Hg. eexists. apply Hget. exact Hg. }
  destruct c; cbn [call_options_valid] in Hopt; cbn [call_queries] in Hres;
    cbn [run_call].
  - (* highlight *)
    destruct (Hres q (or_introl eq_refl)) as (p & cl & Hs & Hg).
    apply andb_true_iff in Hopt. destruct Hopt as [Hopt Hkw].
    apply andb_true_iff in Hopt. destruct Hopt as [Hopt Halpha].
    apply andb_true_iff in Hopt. destruct Hopt as [Harea Hcolor].
    unfold highlight. rewrite Harea, Hs. cbn [negb bind].
    destruct (calc_name2rect_full tv Hw) as (n2 & _ & _ & Hloop & _ & Hget).
    unfold name2rect. rewrite Hloop. cbn [bind dict_item_opt]. unfold dict_item.
    rewrite (Hget p cl Hg). cbn [bind].
    unfold rect_set_color, rect_set_alpha. rewrite Hcolor, Halpha. cbn [bind].
    destruct (rect_set mpl kwargs); [|discriminate Hkw]. cbn [bind]. eauto.
  - (* annotate *)
    unfold annotate. rewrite Hopt. eauto.
  - (* marker *)
    destruct (Hres q (or_introl eq_refl)) as (p & cl & Hs & Hg).
    destruct (Hxy "right" eq_refl) as (d & Hd & Hl).
    unfold marker. rewrite Hs. cbn [bind find_clades_opt].
    rewrite (find_clades_unique (_tree tv) p cl Hw Hg). cbn [next bind].
    unfold name2xy, name2xy_right. rewrite Hd. cbn [bind].
    destruct descendent.
    + destruct (map_result_ok (marker_point tv d) (map snd (preorder cl))) as [ys Hys].
      { intros n Hn. apply in_map_iff in Hn. destruct Hn as ([r n'] & E & Hn).
        simpl in E. subst n'. apply in_preorder in Hn.
        destruct (Hl (p ++ r) n) as [v Hv].
        { rewrite get_node_app, Hg. exact Hn. }
        unfold marker_point, dict_item. rewrite Hv. cbn [bind]. eauto. }
      cbn [snd]. rewrite Hys. cbn [bind]. eauto.
    + destruct (Hl p cl Hg) as [v Hv]. cbn [dict_item_opt]. unfold dict_item.
      rewrite Hv. cbn [bind]. eauto.
  - (* link *)
    apply andb_true_iff in Hopt. destruct Hopt as [Hp1 Hp2].
    destruct (Hres q1 (or_introl eq_refl)) as (p1 & c1 & Hs1 & Hg1).
    destruct (Hres q2 (or_intror (or_introl eq_refl))) as (p2 & c2 & Hs2 & Hg2).
    destruct (Hxy pos1 Hp1) as (d1 & Hd1 & Hl1).
    destruct (Hxy pos2 Hp2) as (d2 & Hd2 & Hl2).
    destruct (Hl1 p1 c1 Hg1) as [v1 Hv1]. destruct (Hl2 p2 c2 Hg2) as [v2 Hv2].
    unfold link, _get_target_pos_name2xy. rewrite Hs1, Hs2, Hp1, Hp2. cbn [negb bind].
    rewrite Hd1. cbn [bind dict_item_opt]. unfold dict_item. rewrite Hv1. cbn [bind].
    rewrite Hd2. cbn [bind]. rewrite Hv2. cbn [bind]. eauto.
  - (* text_on_branch *)
    apply andb_true_iff in Hopt. destruct Hopt as [Hx Hy].
    destruct (Hres q (or_introl eq_refl)) as (p & cl & Hs & Hg).
    destruct (Hxy "left" eq_refl) as (dl & Hdl & Hll).
    destruct (Hxy "center" eq_refl) as (dc & Hdc & Hlc).
    destruct (Hxy "right" eq_refl) as (dr & Hdr & Hlr).
    destruct (Hll p cl Hg) as [vl Hvl]. destruct (Hlc p cl Hg) as [vc Hvc].
    destruct (Hlr p cl Hg) as [vr Hvr].
    unfold text_on_branch, name2xy_left, name2xy_center, name2xy_right.
    rewrite Hx, Hy, Hs. cbn [negb bind]. rewrite Hdl. cbn [bind dict_item_opt].
    unfold dict_item. rewrite Hvl. cbn [bind]. rewrite Hdc. cbn [bind].
    rewrite Hvc. cbn [bind]. rewrite Hdr. cbn [bind]. rewrite Hvr. cbn [bind]. eauto.
  - (* text_on_node *)
    destruct (Hres q (or_introl eq_refl)) as (p & cl & Hs & Hg).
    destruct (Hxy "right" eq_refl) as (d & Hd & Hl). destruct (Hl p cl Hg) as [v Hv].
    unfold text_on_node, name2xy, name2xy_right. rewrite Hs. cbn [bind].
    rewrite Hd. cbn [bind dict_item_opt]. unfold dict_item. rewrite Hv. cbn [bind]. eauto.
  - (* set_node_label_props *)
    destruct (Hres (QName target_node_label) (or_introl eq_refl)) as (p & cl & Hs & Hg).
    unfold set_node_label_props. rewrite Hs. cbn [bind]. eauto.
  - (* set_node_line_props *)
    destruct (Hres q (or_introl eq_refl)) as (p & cl & Hs & Hg).
    unfold set_node_line_props. rewrite Hs. cbn [bind find_clades_opt].
    rewrite (find_clades_unique (_tree tv) p cl Hw Hg). cbn [next bind]. eauto.
  - unfold set_title. eauto.
  - unfold show_scale_axis. eauto.
  - unfold show_scale_bar. eauto.
Qed.

Lemma registration_succeeds_witness :
  exists tv,
    default_init tree_abc = Ok tv /\
    ((exists tv',
         run_call example_backend tv
           (CallHighlight (QNames ["B"; "C"]) "orange" (1 # 2) "full" "") = Ok tv')
     <-> call_options_valid example_backend
           (CallHighlight (QNames ["B"; "C"]) "orange" (1 # 2) "full" "") = true) /\
    ((exists tv',
         run_call example_backend tv
           (CallHighlight (QNames ["B"; "C"]) "no colour" (1 # 2) "full" "") = Ok tv')
     <-> call_options_valid example_backend
           (CallHighlight (QNames ["B"; "C"]) "no colour" (1 # 2) "full" "") = true).
Proof.
  eexists. split; [vm_compute; reflexivity|].
  split.
  - apply (registration_succeeds example_backend _
             (CallHighlight (QNames ["B"; "C"]) "orange" (1 # 2) "full" "")).
    + split; vm_compute; reflexivity.
    + intros q [<- | []]. split; [discriminate|].
      intros s Hs. vm_compute. simpl in Hs. intuition (subst; auto 10).
  - apply (registration_succeeds example_backend _
             (CallHighlight (QNames ["B"; "C"]) "no colour" (1 # 2) "full" "")).
    + split; vm_compute; reflexivity.
    + intros q [<- | []]. split; [discriminate|].
      intros s Hs. vm_compute. simpl in Hs. intuition (subst; auto 10).
Defined.

(** ** [_to_ultrametric_tree]: the branch lengths are positive *)

Lemma path_to_app (q r : pos) :
  path_to (q ++ r) = path_to q ++ map (app q) (path_to r).
Proof.
  induction q as [|i q IH]; simpl.
  - rewrite map_id. reflexivity.
  - rewrite IH, map_app, map_map. reflexivity.
Qed.

Lemma Qsum_app (l l' : list Q) : (Qsum (l ++ l') == Qsum l + Qsum l')%Q.
Proof.
  induction l as [|x l IH]; simpl.
  - ring.
  - rewrite IH. ring.
Qed.

Lemma Qsum_pos (l : list Q) :
  l <> [] -> (forall y, In y l -> (0 < y)%Q) -> (0 < Qsum l)%Q.
Proof.
  destruct l as [|x l]; [congruence|]. intros _ H. simpl.
  assert (0 < x)%Q by (apply H; left; reflexivity).
  assert (0 <= Qsum l)%Q.
  { apply Qsum_nonneg. intros y Hy. apply Qlt_le_weak. apply H. right. exact Hy. }
  lra.
Qed.

Lemma depth_at_app cur (q r : pos) :
  (depth_at cur (q ++ r)
   == depth_at cur q + Qsum (map (bl_or0 cur) (map (app q) (path_to r))))%Q.
Proof.
  rewrite !depth_at_Qsum, path_to_app, map_app, Qsum_app. reflexivity.
Qed.

Lemma depth_below_max_by_prefix cur (maxd : Q) :
  (0 < maxd)%Q ->
  forall p,
    (forall u, In u (path_to p) -> is_fixed cur u = true -> (depth_at cur u < maxd)%Q) ->
    (depth_at cur p < maxd)%Q.
Proof.
  intros Hpos p. induction p as [|i q IH] using rev_ind; intros H.
  - rewrite depth_at_root. exact Hpos.
  - destruct (is_fixed cur (q ++ [i])) eqn:Hf.
    + apply H; [|exact Hf]. apply in_path_to_self.
      intros E. apply app_eq_nil in E. destruct E as [_ E]. discriminate.
    + rewrite depth_at_app. simpl.
      unfold is_fixed in Hf. unfold bl_or0 at 1.
      destruct (branch_length_at cur (q ++ [i])); [discriminate|]. simpl.
      assert (Hq : (depth_at cur q < maxd)%Q).
      { apply IH. intros u Hu. apply H. rewrite path_to_app.
        apply in_or_app. left. exact Hu. }
      lra.
Qed.

Lemma fixed_internal_below_max tree done cur :
  well_named tree ->
  (or0 (branch_length tree) == 0)%Q ->
  full_invariant tree done cur ->
  positive_lengths cur ->
  forall q c, q <> [] -> get_node tree q = Some c -> is_terminal c = false ->
    is_fixed cur q = true ->
    (depth_at cur q < max_of (map snd (name2depth tree)))%Q.
Proof.
  intros Hw Hr ((Ha & Hfd) & Hl & _) Hpos q c Hq Hg Ht Hf.
  apply is_fixed_some in Hf. destruct Hf as [b Hb].
  destruct (Hfd q Hq) as (s & d & p' & c' & rest & Hin & Hfind & Ht' & Hqp);
    [congruence|].
  destruct (find_clades_head _ _ _ _ _ Hfind) as [Hg' Hm].
  assert (Hp' : p' <> []).
  { intros ->. destruct Hqp. }
  assert (Hs : str_name c' = s).
  { destruct (well_named_name tree p' c' Hw Hg') as [Hn _].
    unfold matches in Hm. destruct (String.eqb s "") eqn:Es.
    - apply String.eqb_eq in Es. subst s.
      rewrite find_clades_empty_target, preorder_unfold in Hfind.
      injection Hfind as E _ _. congruence.
    - rewrite Hn in Hm. apply String.eqb_eq in Hm. exact Hm. }
  destruct (Hl p' c' Hg' Ht') as [Hfix Hdepth].
  { rewrite Hs. apply (in_map fst) in Hin. exact Hin. }
  apply in_path_to in Hqp. destruct Hqp as (_ & r & ->).
  assert (Hrne : r <> []).
  { intros ->. rewrite app_nil_r in Hg'. congruence. }
  rewrite <- (Hdepth Hr), depth_at_app.
  assert (0 < Qsum (map (bl_or0 cur) (map (app q) (path_to r))))%Q; [|lra].
  apply Qsum_pos.
  - intros E. apply map_eq_nil in E. apply map_eq_nil in E.
    destruct r; [congruence | discriminate].
  - intros y Hy. apply in_map_iff in Hy. destruct Hy as (u & <- & Hu).
    assert (Hu' : In u (path_to (q ++ r))).
    { rewrite path_to_app. apply in_or_app. right. exact Hu. }
    apply Hfix, is_fixed_some in Hu'. destruct Hu' as [bu Hbu].
    unfold bl_or0. rewrite Hbu. simpl. apply (Hpos u bu); auto.
    apply in_map_iff in Hu. destruct Hu as (v & <- & _).
    intros E. apply app_eq_nil in E. destruct E as [E _]. congruence.
Qed.

(** The leaf of the item being processed has its own edge still unset. *)
Lemma current_leaf_unfixed tree done rest s d cur p0 c0 :
  well_named tree ->
  name2depth tree = done ++ (s, d) :: rest ->
  loop_invariant tree done cur ->
  get_node tree p0 = Some c0 -> s = str_name c0 -> is_terminal c0 = true ->
  p0 <> [] ->
  is_fixed cur p0 = false.
Proof.
  intros Hw Hsplit [_ Hfd] Hg0 Hs Ht0 Hne.
  destruct (is_fixed cur p0) eqn:Hf; [exfalso | reflexivity].
  apply is_fixed_some in Hf. destruct Hf as [b Hb].
  destruct (Hfd p0 Hne) as (s' & d' & p' & c' & rest' & Hin & Hfind & Ht' & Hqp);
    [congruence|].
  destruct (find_clades_head _ _ _ _ _ Hfind) as [Hg' Hm].
  assert (Hs' : str_name c' = s').
  { destruct (well_named_name tree p' c' Hw Hg') as [Hn _].
    unfold matches in Hm. destruct (String.eqb s' "") eqn:Es.
    - apply String.eqb_eq in Es. subst s'.
      rewrite find_clades_empty_target, preorder_unfold in Hfind.
      injection Hfind as E _ _. subst p'. destruct Hqp.
    - rewrite Hn in Hm. apply String.eqb_eq in Hm. exact Hm. }
  apply in_path_to in Hqp. destruct Hqp as (_ & r & ->).
  assert (r = []).
  { apply (terminal_no_extension p0 tree c0 r Hg0 Ht0). congruence. }
  subst r. rewrite app_nil_r in Hg'.
  assert (c' = c0) by congruence. subst c'.
  apply (step_fresh tree done rest s d Hsplit).
  rewrite Hs, Hs'. apply (in_map fst) in Hin. exact Hin.
Qed.

Lemma positive_lengths_step tree done rest s d cur cur' :
  well_named tree ->
  (or0 (branch_length tree) == 0)%Q ->
  name2depth tree = done ++ (s, d) :: rest ->
  full_invariant tree done cur ->
  positive_lengths cur ->
  ultrametric_step (max_of (map snd (name2depth tree))) cur (s, d) = Ok cur' ->
  positive_lengths cur'.
Proof.
  intros Hw Hr Hsplit Hfull Hpos Hres.
  pose proof Hfull as (Hi & Hl & Hu).
  destruct (step_item tree Hw done rest s d Hsplit) as (p0 & c0 & Hg0 & Hs & Hd0 & Hfind).
  pose proof (step_outcome_here tree done rest s d Hsplit cur Hi) as Hout.
  pose proof (path_valid_in_current tree cur p0 c0 (proj1 Hi) Hg0) as Hvalid.
  destruct Hout as [[Hnil _] | (p & c & rest' & Hfind' & Hcases)];
    [simpl in Hnil; congruence|].
  simpl in Hfind'. rewrite Hfind in Hfind'. injection Hfind' as <- <- <-.
  destruct Hcases as [[Hterm E] | [(Hterm & Hd & E) | (Hterm & Hd & Hcnt & o & Ho & E)]];
    rewrite E in Hres; injection Hres as <-.
  - exact Hpos.
  - destruct (set_path_unit_spec cur (path_to p0) (NoDup_path_to p0) Hvalid)
      as (_ & Hin1 & Hout1).
    intros q b Hq Hb.
    destruct (in_dec (list_eq_dec Nat.eq_dec) q (path_to p0)) as [Hin|Hn].
    + rewrite Hin1 in Hb by assumption. injection Hb as <-. reflexivity.
    + rewrite Hout1 in Hb by assumption. apply (Hpos q b Hq Hb).
  - destruct (fill_path_spec cur (path_to p0) o (NoDup_path_to p0) Hvalid)
      as (_ & Hin1 & Hout1).
    simpl in Hd.
    set (maxd := max_of (map snd (name2depth tree))) in *.
    assert (Hmax : (0 < maxd)%Q).
    { assert (Hle : (d <= maxd)%Q).
      { apply (name2depth_max tree s d Hw). rewrite Hsplit.
        apply in_or_app. right. left. reflexivity. }
      assert (Hne : ~ (d == maxd)%Q).
      { intros Eq. apply Qeq_bool_iff in Eq. congruence. }
      assert (Hd1 : (0 <= d)%Q).
      { rewrite Hd0, Hr. rewrite Qplus_0_l.
        change 0%Q with (inject_Z 0). rewrite <- Zle_Qle. lia. }
      destruct (Qlt_le_dec 0 maxd) as [|Hc]; [assumption|].
      exfalso. apply Hne. apply Qle_antisym; [exact Hle | lra]. }
    assert (Hbelow : (depth_at cur p0 < maxd)%Q).
    { apply (depth_below_max_by_prefix cur maxd Hmax p0).
      intros u Hu' Hfu. apply in_path_to in Hu'. destruct Hu' as (Hune & r & ->).
      destruct r as [|j r].
      - rewrite app_nil_r in *.
        rewrite (current_leaf_unfixed tree done rest s d cur u c0 Hw Hsplit Hi
                   Hg0 Hs Hterm Hune) in Hfu. discriminate.
      - destruct (get_node tree u) as [cu|] eqn:Hgu.
        + apply (fixed_internal_below_max tree done cur Hw Hr Hfull Hpos u cu Hune Hgu);
            [|exact Hfu].
          destruct (is_terminal cu) eqn:Htu; [|reflexivity].
          assert (Habs : j :: r = []).
          { apply (terminal_no_extension u tree cu (j :: r) Hgu Htu). congruence. }
          discriminate.
        + exfalso. apply (get_node_prefix u tree (j :: r)); [congruence | exact Hgu]. }
    assert (Hopos : (0 < o)%Q).
    { rewrite Ho. apply Qlt_shift_div_l.
      - change 0%Q with (inject_Z 0). rewrite <- Zlt_Qlt. lia.
      - rewrite depth_at_Qsum in Hbelow. lra. }
    intros q b Hq Hb.
    destruct (in_dec (list_eq_dec Nat.eq_dec) q (path_to p0)) as [Hin|Hn].
    + rewrite Hin1 in Hb by assumption.
      destruct (branch_length_at cur q) as [x|] eqn:Eb; simpl in Hb.
      * injection Hb as <-. apply (Hpos q x Hq Eb).
      * injection Hb as <-. exact Hopos.
    + rewrite Hout1 in Hb by assumption. apply (Hpos q b Hq Hb).
Qed.

Lemma positive_lengths_run tree :
  well_named tree ->
  (or0 (branch_length tree) == 0)%Q ->
  exists tree', _to_ultrametric_tree tree = Ok tree' /\
                full_invariant tree (name2depth tree) tree' /\
                positive_lengths tree'.
Proof.
  intros Hw Hr. unfold _to_ultrametric_tree. cbv zeta.
  pose proof (for_each_invariant
                (ultrametric_step (max_of (map snd (name2depth tree))))
                (fun done cur => full_invariant tree done cur /\ positive_lengths cur)
                (fun _ => False) (name2depth tree)) as H.
  match type of H with
  | ?A -> _ => assert (Hstep : A)
  end.
  { intros done [s d] rest cur El ((Hi & Hl & Hu) & Hpos).
    destruct (well_named_step tree Hw done rest s d El cur Hi Hl Hu)
      as (cur' & Hres & Hi' & Hl' & Hu').
    pose proof (positive_lengths_step tree done rest s d cur cur' Hw Hr El
                  (conj Hi (conj Hl Hu)) Hpos Hres) as Hpos'.
    rewrite Hres. exact (conj (conj Hi' (conj Hl' Hu')) Hpos'). }
  assert (H0 : full_invariant tree [] (reset_branch_lengths tree) /\
               positive_lengths (reset_branch_lengths tree)).
  { split; [apply full_invariant_reset|]. intros q b Hq Hb.
    destruct (reset_branch_lengths_spec tree) as (_ & _ & Hnone).
    rewrite Hnone in Hb by assumption. discriminate. }
  specialize (H Hstep _ H0).
  destruct (for_each _ (name2depth tree) (reset_branch_lengths tree)) as [cur|e];
    [|destruct H].
  exists cur. split; [reflexivity|]. exact H.
Qed.

(** After the loop every clade of the input has its place relative to the
    common leaf depth: a leaf on it, an internal clade strictly before it. *)
Lemma normalized_depths tree tree' :
  well_named tree ->
  (or0 (branch_length tree) == 0)%Q ->
  full_invariant tree (name2depth tree) tree' ->
  positive_lengths tree' ->
  forall p c, get_node tree p = Some c ->
    (is_terminal c = true ->
     (depth_at tree' p == max_of (map snd (name2depth tree)))%Q) /\
    (is_terminal c = false ->
     (depth_at tree' p < max_of (map snd (name2depth tree)))%Q).
Proof.
  intros Hw Hr (_ & Hl & _) Hpos p c Hg. split; intros Ht.
  - apply (Hl p c Hg Ht); [|exact Hr]. apply (name2depth_keys tree p c Hw Hg).
  - destruct (terminal_below c) as (r & c' & Hgr & Ht').
    assert (Hrne : r <> []).
    { intros ->. simpl in Hgr. injection Hgr as <-. congruence. }
    assert (Hg' : get_node tree (p ++ r) = Some c').
    { rewrite get_node_app, Hg. exact Hgr. }
    destruct (Hl (p ++ r) c' Hg' Ht') as [Hfix Hdepth].
    { apply (name2depth_keys tree (p ++ r) c' Hw Hg'). }
    rewrite <- (Hdepth Hr), depth_at_app.
    assert (0 < Qsum (map (bl_or0 tree') (map (app p) (path_to r))))%Q; [|lra].
    apply Qsum_pos.
    + intros E. apply map_eq_nil in E. apply map_eq_nil in E.
      destruct r; [congruence | discriminate].
    + intros y Hy. apply in_map_iff in Hy. destruct Hy as (u & <- & Hu).
      assert (Hu' : In u (path_to (p ++ r))).
      { rewrite path_to_app. apply in_or_app. right. exact Hu. }
      pose proof (in_path_to_nonempty _ _ Hu') as Hune.
      apply Hfix, is_fixed_some in Hu'. destruct Hu' as [bu Hbu].
      unfold bl_or0. rewrite Hbu. simpl. apply (Hpos u bu Hune Hbu).
Qed.

(** X21. On a well-named tree whose root carries no branch length,
    [_to_ultrametric_tree] gives every clade below the root a branch length
    that is strictly positive: no edge of the normalized tree has length
    zero or a negative length. *)
Theorem to_ultrametric_tree_positive_lengths (tree : Clade) :
  well_named tree ->
  (or0 (branch_length tree) == 0)%Q ->
  exists tree',
    _to_ultrametric_tree tree = Ok tree' /\
    forall q c, q <> [] -> get_node tree' q = Some c ->
      exists b, branch_length c = Some b /\ (0 < b)%Q.
Proof.
  intros Hw Hr.
  destruct (positive_lengths_run tree Hw Hr) as (tree' & Hrun & Hfull & Hpos).
  exists tree'. split; [exact Hrun|]. intros q c Hq Hg.
  destruct Hfull as ((Ha & _) & Hl & _).
  destruct (terminal_below c) as (r & c' & Hgr & Ht).
  assert (Hg' : get_node tree' (q ++ r) = Some c').
  { rewrite get_node_app, Hg. exact Hgr. }
  destruct Ha as [_ Hrel]. pose proof (Hrel (q ++ r)) as Hleaf.
  rewrite Hg' in Hleaf.
  destruct (get_node tree (q ++ r)) as [c0|] eqn:Hg0; [|destruct Hleaf].
  assert (Ht0 : is_terminal c0 = true)
    by (rewrite (same_but_bl_terminal _ _ Hleaf); exact Ht).
  destruct (Hl _ c0 Hg0 Ht0) as [Hfix _].
  { apply name2depth_keys with (p := q ++ r); assumption. }
  assert (Hin : In q (path_to (q ++ r))).
  { apply in_path_to. split; [exact Hq|]. exists r. reflexivity. }
  apply Hfix, is_fixed_some in Hin. destruct Hin as [b Hb].
  exists b. split.
  - unfold branch_length_at in Hb. rewrite Hg in Hb. exact Hb.
  - apply (Hpos q b Hq Hb).
Qed.

Lemma to_ultrametric_tree_positive_lengths_witness :
  exists tree',
    _to_ultrametric_tree tree_abcdefg_named = Ok tree' /\
    forall q c, q <> [] -> get_node tree' q = Some c ->
      exists b, branch_length c = Some b /\ (0 < b)%Q.
Proof.
  apply (to_ultrametric_tree_positive_lengths tree_abcdefg_named).
  - split; vm_compute; reflexivity.
  - reflexivity.
Defined.

(** X22. After [_to_ultrametric_tree] on a well-named tree whose root
    carries no branch length, the maximal depth of the result (the right end
    of [xlim]) is, within the tolerance [1e-9], the maximal unit depth of
    the input; every leaf lies at that depth within the tolerance, and every
    internal clade strictly before it. *)
Theorem to_ultrametric_tree_max_depth (tree : Clade) :
  well_named tree ->
  (or0 (branch_length tree) == 0)%Q ->
  exists tree',
    _to_ultrametric_tree tree = Ok tree' /\
    near (max_depth_of false tree') (max_depth_of true tree) /\
    (forall p c, get_node tree' p = Some c -> is_terminal c = true ->
       near (depth_at tree' p) (max_depth_of false tree')) /\
    (forall p c, get_node tree' p = Some c -> is_terminal c = false ->
       (depth_at tree' p < max_depth_of false tree')%Q).
Proof.
  intros Hw Hr.
  destruct (positive_lengths_run tree Hw Hr) as (tree' & Hrun & Hfull & Hpos).
  pose proof (normalized_depths tree tree' Hw Hr Hfull Hpos) as Hnd.
  pose proof (name2depth_max_depth tree Hw) as Hmax.
  pose proof (to_ultrametric_tree_root tree tree' Hrun) as Hroot.
  destruct Hfull as ((Ha & _) & _ & _).
  assert (Hback : forall p c', get_node tree' p = Some c' ->
            exists c, get_node tree p = Some c /\ is_terminal c = is_terminal c').
  { intros p c' Hg'. destruct Ha as [_ Hrel]. specialize (Hrel p).
    rewrite Hg' in Hrel.
    destruct (get_node tree p) as [c|] eqn:Hg; [|destruct Hrel].
    exists c. split; [reflexivity|]. apply (same_but_bl_terminal c c' Hrel). }
  assert (Hle : forall p c', get_node tree' p = Some c' ->
            (depth_at tree' p <= max_of (map snd (name2depth tree)))%Q).
  { intros p c' Hg'. destruct (Hback p c' Hg') as (c & Hg & _).
    destruct (Hnd p c Hg) as [H1 H2].
    destruct (is_terminal c).
    - rewrite (H1 eq_refl). apply Qle_refl.
    - apply Qlt_le_weak. apply H2. reflexivity. }
  assert (Heq : (max_depth_of false tree' == max_of (map snd (name2depth tree)))%Q).
  { apply Qle_antisym.
    - unfold max_depth_of.
      destruct (max_of_spec (map snd (depths false tree'))) as [Hin _].
      { intros E. apply map_eq_nil in E.
        destruct (depths_entry false tree' [] tree' eq_refl) as [d0 Hd0].
        rewrite E in Hd0. destruct Hd0. }
      apply in_map_iff in Hin. destruct Hin as ([[p c'] dd] & E & Hin).
      simpl in E. rewrite <- E.
      pose proof (update_depths_false p tree' _ c' dd Hin) as Hd.
      assert (Hg' : get_node tree' p = Some c').
      { apply in_preorder. rewrite <- (depths_rows false tree').
        apply (in_map fst) in Hin. exact Hin. }
      rewrite Hd, Hroot. simpl or0. rewrite Qplus_0_l. apply (Hle p c' Hg').
    - destruct (terminal_below tree') as (r & c' & Hg' & Ht').
      destruct (Hback r c' Hg') as (c & Hg & Etc).
      destruct (Hnd r c Hg) as [H1 _].
      rewrite <- (H1 (eq_trans Etc Ht')).
      pose proof (depth_at_le_max tree' r c' Hg') as H.
      rewrite Hroot in H. simpl or0 in H. rewrite Qplus_0_l in H. exact H. }
  exists tree'. split; [exact Hrun|].
  split; [apply Qeq_near; rewrite Heq; exact Hmax|]. split.
  - intros p c' Hg' Ht'. destruct (Hback p c' Hg') as (c & Hg & Etc).
    apply Qeq_near. rewrite Heq. apply (Hnd p c Hg). congruence.
  - intros p c' Hg' Ht'. destruct (Hback p c' Hg') as (c & Hg & Etc).
    rewrite Heq. apply (Hnd p c Hg). congruence.
Qed.

Lemma to_ultrametric_tree_max_depth_witness :
  exists tree',
    _to_ultrametric_tree tree_abcdefg_named = Ok tree' /\
    near (max_depth_of false tree') (max_depth_of true tree_abcdefg_named) /\
    (forall p c, get_node tree' p = Some c -> is_terminal c = true ->
       near (depth_at tree' p) (max_depth_of false tree')) /\
    (forall p c, get_node tree' p = Some c -> is_terminal c = false ->
       (depth_at tree' p < max_depth_of false tree')%Q).
Proof.
  apply (to_ultrametric_tree_max_depth tree_abcdefg_named).
  - split; vm_compute; reflexivity.
  - reflexivity.
Defined.

(** ** Rendering with hidden leaf labels *)

Lemma get_texts_rect_no_leaf_text (text_extent : Text -> (Q * Q) * (Q * Q))
    (tv : TreeViz) (a : Axes) (q : query) (i : nat) :
  well_named (_tree tv) -> _ax tv = Some i -> known_query (_tree tv) q ->
  (forall t, In t (ax_texts a) -> ~ In (text_s t) (leaf_labels (_tree tv))) ->
  _get_texts_rect text_extent tv a q = Raise ValueError.
Proof.
  intros Hw Hax [Hne Hex] Hno.
  destruct (search_target_node_name_resolves _ q Hw Hne Hex) as (p & cl & Hs & Hg).
  unfold _get_texts_rect. rewrite Hs. cbn [bind find_clades_opt].
  rewrite (find_clades_unique (_tree tv) p cl Hw Hg). cbn [next bind].
  unfold ax. rewrite Hax. cbn [bind snd].
  rewrite filter_none; [reflexivity|].
  intros t Ht. destruct (mem_string (text_s t) (map row_name (get_terminals cl))) eqn:E;
    [exfalso | reflexivity].
  apply mem_string_In in E. apply (Hno t Ht).
  apply in_map_iff in E. destruct E as ([r c'] & E & Hin).
  apply in_get_terminals in Hin. destruct Hin as [Hr Ht'].
  unfold leaf_labels. rewrite <- E. apply in_map_iff. exists (p ++ r, c').
  split; [reflexivity|]. apply in_get_terminals. split; [|exact Ht'].
  rewrite get_node_app, Hg. exact Hr.
Qed.

Lemma shown_labels_not_leaf (tv : TreeViz) (d : dict xy) (t : Text) :
  well_named (_tree tv) ->
  (_leaf_label_size tv <= 0)%Q ->
  In t (map (label_text tv d) (filter (label_shown tv) (map snd (preorder (_tree tv))))) ->
  ~ In (text_s t) (leaf_labels (_tree tv)).
Proof.
  intros Hw Hsize Ht Hleaf.
  apply in_map_iff in Ht. destruct Ht as (node & <- & Hin).
  apply filter_In in Hin. destruct Hin as [Hin Hshown].
  apply in_map_iff in Hin. destruct Hin as ([p n] & E & Hin). simpl in E. subst n.
  apply in_preorder in Hin.
  assert (Hint : is_terminal node = false).
  { destruct (is_terminal node) eqn:Ht; [|reflexivity].
    unfold label_shown in Hshown. rewrite Ht in Hshown.
    apply Qle_bool_iff in Hsize. rewrite Hsize in Hshown. discriminate. }
  destruct (well_named_name _ p node Hw Hin) as [Hn _].
  unfold label_text in Hleaf. cbn [text_s] in Hleaf. rewrite Hn in Hleaf.
  unfold leaf_labels in Hleaf. apply in_map_iff in Hleaf.
  destruct Hleaf as ([pl cl] & E & Hl). apply in_get_terminals in Hl.
  destruct Hl as [Hgl Htl]. unfold row_name in E. simpl in E.
  apply (terminal_not_internal_name (_tree tv) pl cl p node Hw Hgl Hin Htl Hint).
  symmetry. exact E.
Qed.

(** X23. With a leaf label size that is not positive no leaf label is
    drawn, so a closure that measures the leaf texts finds none: when the
    first registered plot function is an [annotate], or a [highlight] whose
    area is not ["branch"], [plotfig] raises [ValueError] (the [min] of an
    empty list in [_get_texts_rect]). *)
Theorem plotfig_hidden_leaf_labels (text_extent : Text -> (Q * Q) * (Q * Q))
    (tv : TreeViz) (dpi : nat) (given : option Axes) (fresh : nat)
    (f : plot_func) (rest : list plot_func) (q : query) :
  well_named (_tree tv) ->
  (_leaf_label_size tv <= 0)%Q ->
  (forall g, given = Some g -> ax_texts g = []) ->
  _plot_funcs tv = f :: rest ->
  texts_query (_tree tv) f = Some q ->
  known_query (_tree tv) q ->
  plotfig text_extent tv dpi given fresh = Raise ValueError.
Proof.
  intros Hw Hsize Hgiven Hfuncs Hq Hknown.
  destruct (calc_name2xy_pos_full (_tree tv) (_reverse tv) "right" Hw eq_refl)
    as (d & Hrun & Hget & _).
  unfold plotfig.
  set (a0 := match given with
             | Some a => _init_axes tv a
             | None => _init_axes tv (_init_figure fresh)
             end).
  set (tv1 := with_ax tv (ax_id a0)).
  assert (Hget1 : forall p c, get_node (_tree tv1) p = Some c ->
                    exists v, dict_get d (str_name c) = Some v).
  { intros p c Hg. eexists. apply Hget. exact Hg. }
  rewrite (plot_tree_node_line_ok tv1 d Hrun Hget1). cbn [bind].
  rewrite (plot_node_label_ok tv1 d Hrun Hget1). cbn [bind].
  change (_plot_funcs tv1) with (_plot_funcs tv). rewrite Hfuncs. cbn [for_each].
  match goal with
  | |- context [fold_left (fun a patch => add_artist a (Patch patch)) ?l ?s] =>
      destruct (fold_patches l s) as (_ & P2 & _);
      set (a3 := fold_left (fun a patch => add_artist a (Patch patch)) l s) in *
  end.
  match type of P2 with
  | context [fold_left (fun a node => if label_shown tv1 node then _ else a) ?l ?s] =>
      destruct (fold_labels tv1 d l s) as (L1 & _)
  end.
  match type of L1 with
  | context [fold_left add_artist ?l a0] =>
      destruct (fold_add_artist l a0) as (_ & A2 & _)
  end.
  cbv zeta in P2, L1. rewrite L1, A2 in P2.
  assert (E0 : ax_texts a0 = []).
  { unfold a0. destruct given as [g|]; simpl; [apply Hgiven|]; reflexivity. }
  rewrite E0 in P2. simpl app in P2.
  assert (Hrect : forall q', known_query (_tree tv) q' ->
            _get_texts_rect text_extent tv1 a3 q' = Raise ValueError).
  { intros q' Hk.
    apply (get_texts_rect_no_leaf_text text_extent tv1 a3 q' (ax_id a0) Hw eq_refl Hk).
    intros t Ht. rewrite P2 in Ht.
    apply (shown_labels_not_leaf tv1 d t Hw Hsize Ht). }
  destruct f; simpl in Hq; try discriminate; cbn [run_plot_func].
  - destruct (String.eqb area "branch-label").
    + injection Hq as <-. rewrite (Hrect _ Hknown). reflexivity.
    + destruct (String.eqb area "full"); [|discriminate].
      injection Hq as <-.
      change (_tree tv1) with (_tree tv). rewrite (Hrect _ Hknown). reflexivity.
  - injection Hq as <-. rewrite (Hrect _ Hknown). reflexivity.
Qed.

Lemma plotfig_hidden_leaf_labels_witness :
  exists tv,
    TreeViz_init tree_ab (1 # 2) 8 false false 0 0 true (1 # 100) (1 # 100) false
    = Ok tv /\
    exists tv',
      annotate tv (QName "A") "group" "horizontal" (1 # 100) false = Ok tv' /\
      plotfig (fun _ => ((0, 1), (0, 1))%Q) tv' 100 None 0 = Raise ValueError.
Proof.
  eexists. split; [vm_compute; reflexivity|].
  eexists. split; [vm_compute; reflexivity|].
  apply (plotfig_hidden_leaf_labels _ _ 100 None 0
           (plot_annotate (QName "A") "group" (1 # 100) false) [] (QName "A")).
  - split; vm_compute; reflexivity.
  - vm_compute. discriminate.
  - intros g Hg. discriminate.
  - reflexivity.
  - reflexivity.
  - split; [discriminate|]. intros s [<- | []]. vm_compute. auto.
Defined.

(** ** [show_branch_length] and [show_confidence] *)

Lemma text_on_branch_ok tv p c text xpos ypos xr yr :
  well_named (_tree tv) -> get_node (_tree tv) p = Some c ->
  valid_pos xpos = true -> in_strings ypos ["top"; "center"; "bottom"] = true ->
  text_on_branch tv (QName (str_name c)) text xpos ypos xr yr
  = Ok (append_plot_func tv
          (plot_text (branch_text_x (_tree tv) xpos xr p)
                     (branch_text_y (_tree tv) (_reverse tv) ypos yr c) text)).
Proof.
  intros Hw Hg Hx Hy.
  destruct (calc_name2xy_pos_full (_tree tv) (_reverse tv) "left" Hw eq_refl)
    as (dl & Hdl & Hgl & _).
  destruct (calc_name2xy_pos_full (_tree tv) (_reverse tv) "center" Hw eq_refl)
    as (dc & Hdc & Hgc & _).
  destruct (calc_name2xy_pos_full (_tree tv) (_reverse tv) "right" Hw eq_refl)
    as (dr & Hdr & Hgr & _).
  unfold text_on_branch. rewrite Hx, Hy. cbn [negb].
  unfold _search_target_node_name.
  rewrite check_node_name_exist_ok.
  2:{ intros s [<- | []]. apply in_all_node_labels. eauto. }
  cbn [bind]. unfold name2xy_left, name2xy_center, name2xy_right.
  rewrite Hdl, Hdc, Hdr. cbn [bind dict_item_opt]. unfold dict_item.
  rewrite (Hgl p c Hg), (Hgc p c Hg), (Hgr p c Hg). cbn [bind].
  unfold branch_text_x, branch_text_y, max_tree_depth.
  destruct (valid_pos_cases xpos Hx) as [-> | [-> | ->]]; reflexivity.
Qed.

Lemma text_on_branch_invalid tv q text xpos ypos xr yr :
  valid_pos xpos && in_strings ypos ["top"; "center"; "bottom"] = false ->
  text_on_branch tv q text xpos ypos xr yr = Raise ValueError.
Proof.
  intros H. unfold text_on_branch.
  destruct (valid_pos xpos); [|reflexivity]. cbn [andb] in H. cbn [negb].
  rewrite H. reflexivity.
Qed.

Lemma fold_append_plot_func (fs : list plot_func) :
  forall tv,
    _tree (fold_left append_plot_func fs tv) = _tree tv /\
    _reverse (fold_left append_plot_func fs tv) = _reverse tv /\
    _plot_funcs (fold_left append_plot_func fs tv) = _plot_funcs tv ++ fs.
Proof.
  induction fs as [|f fs IH]; intros tv; simpl.
  - rewrite app_nil_r. auto.
  - destruct (IH (append_plot_func tv f)) as (H1 & H2 & H3).
    rewrite H1, H2, H3. simpl. rewrite <- app_assoc. auto.
Qed.

(** A loop whose body registers, for each item, the plot functions
    [added] lists for it. *)
Lemma for_each_registers {A : Type} (body : TreeViz -> A -> result TreeViz)
    (added : A -> list plot_func) (tree : Clade) (reverse : bool) (l : list A) :
  (forall s x, In x l -> _tree s = tree -> _reverse s = reverse ->
     body s x = Ok (fold_left append_plot_func (added x) s)) ->
  forall tv, _tree tv = tree -> _reverse tv = reverse ->
    for_each body l tv = Ok (fold_left append_plot_func (flat_map added l) tv).
Proof.
  induction l as [|x r IH]; intros H tv Ht Hr; simpl; [reflexivity|].
  rewrite (H tv x (or_introl eq_refl) Ht Hr). cbn [bind].
  rewrite fold_left_app.
  destruct (fold_append_plot_func (added x) tv) as (H1 & H2 & _).
  apply IH.
  - intros s y Hy. apply H. right. exact Hy.
  - rewrite H1. exact Ht.
  - rewrite H2. exact Hr.
Qed.

(** X24. On a well-named tree [show_branch_length] with valid positions
    returns normally and registers, behind the plot functions that are
    there, exactly one text per clade other than the root that has a
    branch length, in preorder: the formatted branch length, placed on the
    branch of that clade. Nothing else of the object changes. *)
Theorem show_branch_length_texts (format_label : Q -> string) (tv : TreeViz)
    (xpos ypos : string) (xmargin_ratio ymargin_ratio : Q) :
  well_named (_tree tv) ->
  valid_pos xpos = true ->
  in_strings ypos ["top"; "center"; "bottom"] = true ->
  let texts :=
    flat_map
      (fun node : pos * Clade =>
         match fst node, branch_length (snd node) with
         | _ :: _, Some b =>
             [plot_text (branch_text_x (_tree tv) xpos xmargin_ratio (fst node))
                        (branch_text_y (_tree tv) (_reverse tv) ypos ymargin_ratio
                                       (snd node))
                        (format_label b)]
         | _, _ => []
         end)
      (preorder (_tree tv)) in
  show_branch_length format_label tv xpos ypos xmargin_ratio ymargin_ratio
  = Ok (fold_left append_plot_func texts tv) /\
  _plot_funcs (fold_left append_plot_func texts tv) = _plot_funcs tv ++ texts.
Proof.
  intros Hw Hx Hy texts. split; [|apply fold_append_plot_func].
  unfold show_branch_length, texts.
  apply (for_each_registers _ _ (_tree tv) (_reverse tv)); try reflexivity.
  intros s [p c] Hin Ht Hr. apply in_preorder in Hin. cbn [fst snd].
  destruct p as [|i p]; [reflexivity|].
  destruct (branch_length c) as [b|]; [|reflexivity].
  rewrite <- Ht in Hw, Hin.
  rewrite (text_on_branch_ok s (i :: p) c (format_label b) xpos ypos
             xmargin_ratio ymargin_ratio Hw Hin Hx Hy).
  rewrite Ht, Hr. reflexivity.
Qed.

Lemma show_branch_length_texts_witness :
  exists tv,
    default_init tree_abc = Ok tv /\
    let texts :=
      flat_map
        (fun node : pos * Clade =>
           match fst node, branch_length (snd node) with
           | _ :: _, Some b =>
               [plot_text (branch_text_x (_tree tv) "center" (1 # 100) (fst node))
                          (branch_text_y (_tree tv) (_reverse tv) "top" (1 # 20)
                                         (snd node))
                          ((fun _ => "length") b)]
           | _, _ => []
           end)
        (preorder (_tree tv)) in
    show_branch_length (fun _ => "length") tv "center" "top" (1 # 100) (1 # 20)
    = Ok (fold_left append_plot_func texts tv) /\
    _plot_funcs (fold_left append_plot_func texts tv) = _plot_funcs tv ++ texts.
Proof.
  eexists. split; [vm_compute; reflexivity|].
  apply (show_branch_length_texts (fun _ => "length") _ "center" "top"
           (1 # 100) (1 # 20)).
  - split; vm_compute; reflexivity.
  - reflexivity.
  - reflexivity.
Defined.

(** X25. On a well-named tree [show_confidence] with valid positions
    returns normally and registers exactly one text per clade that has a
    confidence, in preorder, the root included: the formatted confidence,
    placed on the branch of that clade; for the root the position
    ["center"] is replaced by ["right"]. Nothing else of the object
    changes. *)
Theorem show_confidence_texts (format_label : Q -> string) (tv : TreeViz)
    (xpos ypos : string) (xmargin_ratio ymargin_ratio : Q) :
  well_named (_tree tv) ->
  valid_pos xpos = true ->
  in_strings ypos ["top"; "center"; "bottom"] = true ->
  let texts :=
    flat_map
      (fun node : pos * Clade =>
         match confidence (snd node) with
         | Some k =>
             [plot_text
                (branch_text_x (_tree tv)
                   (match fst node with
                    | [] => if String.eqb xpos "center" then "right" else xpos
                    | _ :: _ => xpos
                    end)
                   xmargin_ratio (fst node))
                (branch_text_y (_tree tv) (_reverse tv) ypos ymargin_ratio (snd node))
                (format_label k)]
         | None => []
         end)
      (preorder (_tree tv)) in
  show_confidence format_label tv xpos ypos xmargin_ratio ymargin_ratio
  = Ok (fold_left append_plot_func texts tv) /\
  _plot_funcs (fold_left append_plot_func texts tv) = _plot_funcs tv ++ texts.
Proof.
  intros Hw Hx Hy texts. split; [|apply fold_append_plot_func].
  unfold show_confidence, texts.
  apply (for_each_registers _ _ (_tree tv) (_reverse tv)); try reflexivity.
  intros s [p c] Hin Ht Hr. apply in_preorder in Hin. cbn [fst snd].
  destruct (confidence c) as [k|]; [|reflexivity].
  rewrite <- Ht in Hw, Hin.
  assert (Hx' : valid_pos (match p with
                           | [] => if String.eqb xpos "center" then "right" else xpos
                           | _ :: _ => xpos
                           end) = true).
  { destruct p; [|exact Hx]. destruct (String.eqb xpos "center"); [reflexivity | exact Hx]. }
  rewrite (text_on_branch_ok s p c (format_label k) _ ypos
             xmargin_ratio ymargin_ratio Hw Hin Hx' Hy).
  rewrite Ht, Hr. reflexivity.
Qed.

Lemma show_confidence_texts_witness :
  let tv :=
    mkTreeViz (Node (Some "R") None (Some 1%Q) [leaf "A"; leaf "B"]) (8, 1)%Q false
      12 0 true [] (1 # 100) (1 # 100) false None [] [] [] [] in
  let texts :=
    flat_map
      (fun node : pos * Clade =>
         match confidence (snd node) with
         | Some k =>
             [plot_text
                (branch_text_x (_tree tv)
                   (match fst node with
                    | [] => if String.eqb "center" "center" then "right" else "center"
                    | _ :: _ => "center"
                    end)
                   (1 # 100) (fst node))
                (branch_text_y (_tree tv) (_reverse tv) "bottom" (1 # 20) (snd node))
                ((fun _ => "conf") k)]
         | None => []
         end)
      (preorder (_tree tv)) in
  show_confidence (fun _ => "conf") tv "center" "bottom" (1 # 100) (1 # 20)
  = Ok (fold_left append_plot_func texts tv) /\
  _plot_funcs (fold_left append_plot_func texts tv) = _plot_funcs tv ++ texts.
Proof.
  apply (show_confidence_texts (fun _ => "conf")
           (mkTreeViz (Node (Some "R") None (Some 1%Q) [leaf "A"; leaf "B"]) (8, 1)%Q
              false 12 0 true [] (1 # 100) (1 # 100) false None [] [] [] [])
           "center" "bottom" (1 # 100) (1 # 20)).
  - split; vm_compute; reflexivity.
  - reflexivity.
  - reflexivity.
Defined.

Lemma for_each_first_raises {A S : Type} (body : S -> A -> result S) (e : exn)
    (active : A -> bool) (l : list A) (s : S) :
  (forall x, In x l -> active x = false -> body s x = Ok s) ->
  (forall x, In x l -> active x = true -> body s x = Raise e) ->
  for_each body l s = if existsb active l then Raise e else Ok s.
Proof.
  induction l as [|x r IH]; intros Hskip Hraise; simpl; [reflexivity|].
  destruct (active x) eqn:E; simpl.
  - rewrite (Hraise x (or_introl eq_refl) E). reflexivity.
  - rewrite (Hskip x (or_introl eq_refl) E). cbn [bind]. apply IH.
    + intros y Hy. apply Hskip. right. exact Hy.
    + intros y Hy. apply Hraise. right. exact Hy.
Qed.

(** X26. [show_branch_length] checks its positions only through the
    [text_on_branch] calls it makes. With an invalid [xpos] or [ypos] it
    raises [ValueError] as soon as some clade other than the root has a
    branch length, and registers nothing; when no such clade exists it
    returns normally, whatever the positions are, and leaves the object
    as it is. *)
Theorem show_branch_length_invalid_position (format_label : Q -> string)
    (tv : TreeViz) (xpos ypos : string) (xmargin_ratio ymargin_ratio : Q) :
  valid_pos xpos && in_strings ypos ["top"; "center"; "bottom"] = false ->
  show_branch_length format_label tv xpos ypos xmargin_ratio ymargin_ratio
  = if existsb (fun node : pos * Clade =>
                  match fst node, branch_length (snd node) with
                  | _ :: _, Some _ => true
                  | _, _ => false
                  end) (preorder (_tree tv))
    then Raise ValueError else Ok tv.
Proof.
  intros H. unfold show_branch_length.
  apply (for_each_first_raises _ ValueError).
  - intros [p c] _ E. cbn [fst snd] in *.
    destruct p; [reflexivity|]. destruct (branch_length c); [discriminate | reflexivity].
  - intros [p c] _ E. cbn [fst snd] in *.
    destruct p; [discriminate|]. destruct (branch_length c); [|discriminate].
    apply text_on_branch_invalid. exact H.
Qed.

Lemma show_branch_length_invalid_position_witness :
  exists tv,
    default_init tree_abc = Ok tv /\
    show_branch_length (fun _ => "length") tv "middle" "top" (1 # 100) (1 # 20)
    = if existsb (fun node : pos * Clade =>
                    match fst node, branch_length (snd node) with
                    | _ :: _, Some _ => true
                    | _, _ => false
                    end) (preorder (_tree tv))
      then Raise ValueError else Ok tv.
Proof.
  eexists. split; [vm_compute; reflexivity|].
  apply (show_branch_length_invalid_position (fun _ => "length") _ "middle" "top"
           (1 # 100) (1 # 20)).
  reflexivity.
Defined.

(** ** Rendering the registered plot functions *)





(** ** The scale bar reads the ticks of the axes *)

Lemma nth_error_arange_1 (stop t : Q) :
  (0 < t)%Q ->
  ((stop <= t)%Q -> nth_error (arange stop t) 1 = None) /\
  ((t < stop)%Q -> nth_error (arange stop t) 1 = Some (1 * t)%Q).
Proof.
  intros Ht. unfold arange.
  set (n := Z.to_nat (Qceiling (stop / t))).
  assert (Hdiv : forall x, (x <= t -> x / t <= 1)%Q).
  { intros x Hx. apply Qle_shift_div_r; [exact Ht | lra]. }
  split; intros H.
  - assert (Hn : n <= 1).
    { unfold n. pose proof (Qceiling_lt (stop / t)) as Hc.
      pose proof (Hdiv stop H) as Hle.
      assert (Hz : (inject_Z (Qceiling (stop / t) - 1) < inject_Z 1)%Q)
        by (eapply Qlt_le_trans; [exact Hc | exact Hle]).
      rewrite <- Zlt_Qlt in Hz. lia. }
    apply nth_error_None. rewrite length_map, length_seq. exact Hn.
  - assert (Hn : 2 <= n).
    { unfold n. pose proof (Qle_ceiling (stop / t)) as Hc.
      assert (Hgt : (1 < stop / t)%Q) by (apply Qlt_shift_div_l; [exact Ht | lra]).
      assert (Hz : (inject_Z 1 < inject_Z (Qceiling (stop / t)))%Q)
        by (eapply Qlt_le_trans; [exact Hgt | exact Hc]).
      rewrite <- Zlt_Qlt in Hz. lia. }
    destruct n as [|[|n']]; [lia | lia |]. reflexivity.
Qed.

(** X28. The scale bar takes its automatic size from the second tick of
    the x-axis. When a scale axis with a positive [ticks_interval] was
    registered before it, the ticks are the multiples of the interval below
    [max_tree_depth + ticks_interval / 100]. With an interval so large that
    only the tick 0 is left ([max_tree_depth] at most 98 percent of it)
    [plotfig] raises [IndexError]; with an interval of at most
    [max_tree_depth] it returns and the bar has the given size, or that of
    the interval. *)
Theorem plotfig_scale_bar_ticks (text_extent : Text -> (Q * Q) * (Q * Q))
    (tv : TreeViz) (dpi : nat) (given : option Axes) (fresh : nat)
    (t ypos : Q) (scale_size : option Q) :
  well_named (_tree tv) ->
  _plot_funcs tv = [plot_scale_axis (Some t) ypos; plot_scale_bar scale_size] ->
  (0 < t)%Q ->
  ((max_tree_depth tv <= (98 # 100) * t)%Q ->
   plotfig text_extent tv dpi given fresh = Raise IndexError) /\
  ((t <= max_tree_depth tv)%Q ->
   exists tv' fig a,
     plotfig text_extent tv dpi given fresh = Ok (tv', fig, a) /\
     In (ScaleBar (Some (match scale_size with
                         | Some size => size
                         | None => (1 * t)%Q
                         end)))
        (ax_artists a)).
Proof.
  intros Hw Hfuncs Ht.
  destruct (calc_name2xy_pos_full (_tree tv) (_reverse tv) "right" Hw eq_refl)
    as (d & Hrun & Hget & _).
  unfold plotfig.
  set (a0 := match given with
             | Some a => _init_axes tv a
             | None => _init_axes tv (_init_figure fresh)
             end).
  set (tv1 := with_ax tv (ax_id a0)).
  assert (Hget1 : forall p c, get_node (_tree tv1) p = Some c ->
                    exists v, dict_get d (str_name c) = Some v).
  { intros p c Hg. eexists. apply Hget. exact Hg. }
  rewrite (plot_tree_node_line_ok tv1 d Hrun Hget1). cbn [bind].
  rewrite (plot_node_label_ok tv1 d Hrun Hget1). cbn [bind].
  change (_plot_funcs tv1) with (_plot_funcs tv). rewrite Hfuncs.
  cbn [for_each run_plot_func bind].
  assert (Ht0 : Qeq_bool t 0 = false).
  { destruct (Qeq_bool t 0) eqn:E; [|reflexivity].
    apply Qeq_bool_iff in E. rewrite E in Ht. discriminate Ht. }
  rewrite Ht0. change (max_tree_depth tv1) with (max_tree_depth tv).
  unfold second_xtick. cbn [set_xticks ax_xticks].
  destruct (nth_error_arange_1 (max_tree_depth tv + t / 100) t Ht) as [Hnone Hsome].
  assert (Hpos : (0 < t / 100)%Q) by (apply Qlt_shift_div_l; lra).
  split; intros H.
  - rewrite Hnone; [reflexivity|].
    assert (Hdiv : (t / 100 <= (1 # 100) * t)%Q)
      by (apply Qle_shift_div_r; [reflexivity|]; lra).
    lra.
  - rewrite Hsome by lra. cbn [bind]. do 3 eexists. split; [reflexivity|].
    cbn [add_artist ax_artists]. apply in_or_app. right.
    destruct scale_size; left; reflexivity.
Qed.

Lemma plotfig_scale_bar_ticks_witness :
  exists tv,
    default_init tree_abc = Ok tv /\
    (exists tv1,
        for_each (run_call example_backend)
          [CallShowScaleAxis (Some 100%Q) 0; CallShowScaleBar None] tv = Ok tv1 /\
        plotfig point_extent tv1 100 None 7 = Raise IndexError) /\
    (exists tv2,
        for_each (run_call example_backend)
          [CallShowScaleAxis (Some 1%Q) 0; CallShowScaleBar None] tv = Ok tv2 /\
        exists tv' fig a,
          plotfig point_extent tv2 100 None 7 = Ok (tv', fig, a) /\
          In (ScaleBar (Some (1 * 1)%Q)) (ax_artists a)).
Proof.
  eexists. split; [vm_compute; reflexivity|]. split.
  - eexists. split; [vm_compute; reflexivity|].
    refine (proj1 (plotfig_scale_bar_ticks point_extent _ 100 None 7 100 0 None
                     _ _ _) _).
    + split; vm_compute; reflexivity.
    + reflexivity.
    + reflexivity.
    + vm_compute. discriminate.
  - eexists. split; [vm_compute; reflexivity|].
    refine (proj2 (plotfig_scale_bar_ticks point_extent _ 100 None 7 1 0 None
                     _ _ _) _).
    + split; vm_compute; reflexivity.
    + reflexivity.
    + reflexivity.
    + vm_compute. discriminate.
Defined.
